(** * goa2w: envelope extraction and frame synthesis

    A shallow embedding of [main.go] (readAudio, sigmoid, envelope, drawEnv,
    interpole and the frame computation of visualize) together with the
    properties of the pipeline that the design document states.

    Numbers are modelled the way the Go program has them:
    - [int] is a 64-bit two's complement integer, here a [Z] with the
      wrap-around written out ([wrap64]);
    - [float32] and [float64] are IEEE 754 binary32 / binary64 values, here
      the [spec_float] of the standard library with round-to-nearest-even
      operations at precision 24 / 53;
    - slices are lists; an out-of-range slice expression or index is a
      run-time panic;
    - [math.Exp], [math.Cos] and [math.Log10] belong to the Go library and
      are taken through an interface ([MathLib]) that records the facts the
      library documents;
    - strings are sequences of bytes; [fatal] ends the program, and the
      functions of the command line (parseColor, formatDuration, the name
      of the output file) return a [run]. *)

From Stdlib Require Import ZArith QArith Qpower Qround Qabs Lia Lqa List Bool.
From Stdlib Require Import Strings.Byte.
From Stdlib Require Import Floats.SpecFloat.
From Stdlib Require Strings.String Strings.Ascii Numbers.DecimalString.
From stdpp Require Import base list.

Open Scope Z_scope.

(** ** Outcome of a Go computation *)

Inductive outcome (A : Type) : Type :=
| Ret (a : A)      (* the function returns [a] *)
| Panic            (* run-time panic: index or slice out of range, ... *)
| Diverge.         (* the loop never terminates *)
Arguments Ret {A} a.
Arguments Panic {A}.
Arguments Diverge {A}.

#[global] Instance outcome_ret : MRet outcome := @Ret.
#[global] Instance outcome_bind : MBind outcome :=
  fun A B (k : A -> outcome B) (m : outcome A) =>
    match m with
    | Ret a => k a
    | Panic => Panic
    | Diverge => Diverge
    end.

Definition returns {A} (m : outcome A) : Prop := exists a, m = Ret a.

(** ** Go's [int] *)

Definition min_int : Z := - 2 ^ 63.
Definition max_int : Z := 2 ^ 63 - 1.
Definition in_int (z : Z) : bool := (min_int <=? z) && (z <=? max_int).

Definition wrap64 (z : Z) : Z := (z + 2 ^ 63) mod 2 ^ 64 - 2 ^ 63.

Definition iadd (a b : Z) : Z := wrap64 (a + b).
Definition isub (a b : Z) : Z := wrap64 (a - b).
Definition imul (a b : Z) : Z := wrap64 (a * b).
(** Go's [/] on integers truncates toward zero; a zero divisor panics. *)
Definition idiv (a b : Z) : outcome Z :=
  if b =? 0 then Panic else Ret (wrap64 (Z.quot a b)).

Definition len {A} (l : list A) : Z := Z.of_nat (length l).

(** ** Slices *)

(** [s[lo:hi]]: panics unless [0 <= lo <= hi <= len(s)]. *)
Definition slice {A} (s : list A) (lo hi : Z) : outcome (list A) :=
  if (0 <=? lo) && (lo <=? hi) && (hi <=? len s)
  then Ret (take (Z.to_nat (hi - lo)) (drop (Z.to_nat lo) s))
  else Panic.

(** [make([]T, n)] with the zero value [z]: panics when [n < 0]. *)
Definition make {A} (z : A) (n : Z) : outcome (list A) :=
  if n <? 0 then Panic else Ret (replicate (Z.to_nat n) z).

(** [copy(dst[at:], src)]: copies [min(len(dst) - at, len(src))] elements;
    the slice expression panics unless [0 <= at <= len(dst)]. *)
Definition copy_at {A} (dst : list A) (at_ : Z) (src : list A) : outcome (list A) :=
  if (0 <=? at_) && (at_ <=? len dst)
  then
    let k := Z.to_nat at_ in
    let n := Nat.min (length dst - k) (length src) in
    Ret (take k dst ++ take n src ++ drop (k + n) dst)
  else Panic.

(** [for i := lo; i < hi; i++ { s = body i s }] where the body neither
    changes [i] nor [hi]. *)
Fixpoint for_steps {S} (n : nat) (i : Z) (body : Z -> S -> S) (s : S) : S :=
  match n with
  | O => s
  | Datatypes.S n' => for_steps n' (i + 1) body (body i s)
  end.

Definition for_range {S} (lo hi : Z) (body : Z -> S -> S) (s : S) : S :=
  for_steps (Z.to_nat (hi - lo)) lo body s.

(** ** IEEE 754 arithmetic *)

Definition float64 := spec_float.
Definition float32 := spec_float.

Module F64.
Definition prec : Z := 53.
Definition emax : Z := 1024.
Definition add : float64 -> float64 -> float64 := SFadd prec emax.
Definition sub : float64 -> float64 -> float64 := SFsub prec emax.
Definition mul : float64 -> float64 -> float64 := SFmul prec emax.
Definition div : float64 -> float64 -> float64 := SFdiv prec emax.
Definition sqrt : float64 -> float64 := SFsqrt prec emax.
Definition neg : float64 -> float64 := SFopp.
Definition ltb : float64 -> float64 -> bool := SFltb.
Definition leb : float64 -> float64 -> bool := SFleb.
(** [float64(n)] for an integer [n]. *)
Definition of_int (n : Z) : float64 := binary_normalize prec emax n 0 false.
(** A decimal constant [n / d], rounded once. *)
Definition of_ratio (n : Z) (d : positive) : float64 :=
  match n with
  | Z0 => S754_zero false
  | Zpos p => div (S754_finite false p 0) (S754_finite false d 0)
  | Zneg p => div (S754_finite true p 0) (S754_finite false d 0)
  end.
Definition zero : float64 := S754_zero false.
Definition is_nan (x : float64) : bool :=
  match x with S754_nan => true | _ => false end.
End F64.

Module F32.
Definition prec : Z := 24.
Definition emax : Z := 128.
Definition add : float32 -> float32 -> float32 := SFadd prec emax.
Definition mul : float32 -> float32 -> float32 := SFmul prec emax.
Definition div : float32 -> float32 -> float32 := SFdiv prec emax.
Definition ltb : float32 -> float32 -> bool := SFltb.
Definition of_int (n : Z) : float32 := binary_normalize prec emax n 0 false.
Definition zero : float32 := S754_zero false.
Definition is_nan (x : float32) : bool :=
  match x with S754_nan => true | _ => false end.
End F32.

(** [float64(v)] for a float32 [v]: exact. *)
Definition f64_of_f32 (v : float32) : float64 :=
  match v with
  | S754_finite s m e =>
      binary_normalize F64.prec F64.emax (cond_Zopp s (Zpos m)) e s
  | _ => v
  end.

(** [float32(x)] for a float64 [x]: rounded to nearest even. *)
Definition f32_of_f64 (x : float64) : float32 :=
  match x with
  | S754_finite s m e =>
      binary_normalize F32.prec F32.emax (cond_Zopp s (Zpos m)) e s
  | _ => x
  end.

(** The integer part of a finite float (truncation toward zero). *)
Definition trunc_float (x : spec_float) : option Z :=
  match x with
  | S754_zero _ => Some 0
  | S754_finite s m e =>
      Some (cond_Zopp s (if 0 <=? e then Zpos m * 2 ^ e
                         else Zpos m / 2 ^ (- e)))
  | _ => None
  end.

(** [int(x)] for a float64 [x]. When the value is NaN, infinite or outside
    the range of [int] the Go specification leaves the result to the
    implementation; [indef] is that result (amd64 gives [min_int]). *)
Definition int_of_f64 (indef : float64 -> Z) (x : float64) : Z :=
  match trunc_float x with
  | Some z => if in_int z then z else wrap64 (indef x)
  | None => wrap64 (indef x)
  end.

(** ** The Go library functions the program calls *)

(** [math.Exp], [math.Cos], [math.Log10] and the implementation-defined
    result of an out-of-range float to int conversion. *)
Class MathLib : Type := {
  Exp : float64 -> float64;
  Cos : float64 -> float64;
  Log10 : float64 -> float64;
  indef : float64 -> Z
}.

(** [math.Min] and [math.Max] with their documented special cases. *)
Definition is_neg_zero (x : float64) : bool :=
  match x with S754_zero true => true | _ => false end.
Definition is_pos_zero (x : float64) : bool :=
  match x with S754_zero false => true | _ => false end.

Definition Min (x y : float64) : float64 :=
  match x, y with
  | S754_infinity true, _ => x
  | _, S754_infinity true => y
  | S754_nan, _ => S754_nan
  | _, S754_nan => S754_nan
  | S754_zero sx, S754_zero sy => S754_zero (sx || sy)
  | _, _ => if F64.ltb x y then x else y
  end.

Definition Max (x y : float64) : float64 :=
  match x, y with
  | S754_infinity false, _ => x
  | _, S754_infinity false => y
  | S754_nan, _ => S754_nan
  | _, S754_nan => S754_nan
  | S754_zero sx, S754_zero sy => S754_zero (sx && sy)
  | _, _ => if F64.ltb y x then x else y
  end.

(** ** readAudio: decoding the raw f32le buffer *)

(** [binary.LittleEndian.Uint32(b)] on a 4-byte slice. *)
Definition Uint32 (b : list Byte.byte) : outcome Z :=
  match b with
  | b0 :: b1 :: b2 :: b3 :: _ =>
      Ret (Z.lor (Z.of_N (Byte.to_N b0))
          (Z.lor (Z.shiftl (Z.of_N (Byte.to_N b1)) 8)
          (Z.lor (Z.shiftl (Z.of_N (Byte.to_N b2)) 16)
                 (Z.shiftl (Z.of_N (Byte.to_N b3)) 24))))
  | _ => Panic
  end.

(** [math.Float32frombits]. *)
Definition Float32frombits (bits : Z) : float32 :=
  let s := Z.testbit bits 31 in
  let e := Z.land (Z.shiftr bits 23) 255 in
  let m := Z.land bits (2 ^ 23 - 1) in
  if e =? 0 then
    match m with
    | Zpos p => S754_finite s p (-149)
    | _ => S754_zero s
    end
  else if e =? 255 then
    if m =? 0 then S754_infinity s else S754_nan
  else
    match m + 2 ^ 23 with
    | Zpos p => S754_finite s p (e - 150)
    | _ => S754_nan
    end.

(** [wav[c][i] = v]. *)
Definition set2 {A} (wav : list (list A)) (c i : Z) (v : A) : outcome (list (list A)) :=
  if (0 <=? c) && (0 <=? i) then
    match wav !! Z.to_nat c with
    | Some ch =>
        if i <? len ch
        then Ret (<[Z.to_nat c := <[Z.to_nat i := v]> ch]> wav)
        else Panic
    | None => Panic
    end
  else Panic.

(** The part of [readAudio] after the decoder has returned [rawAudio]
    for a stream of [channels] channels. *)
Definition decodeAudio (rawAudio : list Byte.byte) (channels : Z)
  : outcome (list (list float32)) :=
  q ← idiv (len rawAudio) 4;
  samples ← idiv q channels;
  outer ← make (A := list float32) [] channels;
  row ← make F32.zero samples;
  let wav : list (list float32) := (fun _ => row) <$> outer in
  for_range 0 samples (fun i acc =>
    for_range 0 channels (fun c acc =>
      wav ← acc;
      let offset := imul 4 (iadd (imul i channels) c) in
      b ← slice rawAudio offset (iadd offset 4);
      bits ← Uint32 b;
      set2 wav c i (Float32frombits bits)) acc) (Ret wav).

(** ** sigmoid and envelope *)

Section Pipeline.
Context {M : MathLib}.

Definition c1 : float64 := F64.of_int 1.
Definition c2 : float64 := F64.of_int 2.
Definition c0_5 : float64 := F64.of_ratio 5 10.
Definition c1_9 : float64 := F64.of_ratio 19 10.
Definition c2_5 : float64 := F64.of_ratio 25 10.

Definition sigmoid (x : float64) : float64 :=
  F64.div c1 (F64.add c1 (Exp (F64.neg x))).

(** The inner loop of [envelope]: sum and count of the positive samples
    of a window. *)
Definition window_scan (frame : list float32) : float64 * Z :=
  fold_left (fun '(sum, count) v =>
               if F32.ltb F32.zero v
               then (F64.add sum (f64_of_f32 v), iadd count 1)
               else (sum, count))
            frame (F64.zero, 0).

Definition window_mean (frame : list float32) : float64 :=
  let '(sum, count) := window_scan frame in
  if 0 <? count then F64.div sum (F64.of_int count) else F64.zero.

(** [for off := 0; off < len(padded)-window; off += stride]. The loop
    runs forever when [stride = 0]; [fuel] bounds the iterations. *)
Fixpoint envelope_loop (fuel : nat) (padded : list float32)
    (window stride off : Z) (out : list float64) : outcome (list float64) :=
  if off <? isub (len padded) window then
    match fuel with
    | O => Diverge
    | S fuel' =>
        frame ← slice padded off (iadd off window);
        envelope_loop fuel' padded window stride (iadd off stride)
          (out ++ [window_mean frame])
    end
  else Ret out.

Definition compress (v : float64) : float64 :=
  F64.mul c1_9 (F64.sub (sigmoid (F64.mul c2_5 v)) c0_5).

Definition envelope (wav : list float32) (window stride : Z)
  : outcome (list float64) :=
  zeros ← make F32.zero (iadd (len wav) window);
  padded ← copy_at zeros (Z.quot window 2) wav;
  out ← envelope_loop (S (length wav)) padded window stride 0 [];
  Ret (fmap (M := list) compress out).
End Pipeline.

(** ** Images *)

(** [color.RGBA]; the components are uint8 values. *)
Record RGBA : Type := mkRGBA { cR : Z; cG : Z; cB : Z; cA : Z }.

#[global] Instance RGBA_eq_dec : EqDecision RGBA.
Proof. solve_decision. Defined.

(** [image.Rectangle] and [image.Rect], which orders its corners. *)
Record Rectangle : Type := mkRect { MinX : Z; MinY : Z; MaxX : Z; MaxY : Z }.

Definition Rect (x0 y0 x1 y1 : Z) : Rectangle :=
  let '(x0, x1) := if x1 <? x0 then (x1, x0) else (x0, x1) in
  let '(y0, y1) := if y1 <? y0 then (y1, y0) else (y0, y1) in
  mkRect x0 y0 x1 y1.

Definition Dx (r : Rectangle) : Z := MaxX r - MinX r.
Definition Dy (r : Rectangle) : Z := MaxY r - MinY r.

Definition inside (r : Rectangle) (x y : Z) : bool :=
  (MinX r <=? x) && (x <? MaxX r) && (MinY r <=? y) && (y <? MaxY r).

(** [image.RGBA], one list entry per pixel, rows of [Stride] pixels. *)
Record Image : Type := mkImage { Pix : list RGBA; Stride : Z; Bounds : Rectangle }.

Definition NewRGBA (r : Rectangle) : Image :=
  mkImage (replicate (Z.to_nat (Dx r * Dy r)) (mkRGBA 0 0 0 0)) (Dx r) r.

Definition PixOffset (img : Image) (x y : Z) : nat :=
  Z.to_nat ((y - MinY (Bounds img)) * Stride img + (x - MinX (Bounds img))).

(** [img.Set(x, y, c)]: a point outside the bounds is ignored. *)
Definition Set_ (x y : Z) (c : RGBA) (img : Image) : Image :=
  if inside (Bounds img) x y
  then mkImage (<[PixOffset img x y := c]> (Pix img)) (Stride img) (Bounds img)
  else img.

(** [img.At(x, y)]: the zero colour outside the bounds. *)
Definition At (img : Image) (x y : Z) : RGBA :=
  if inside (Bounds img) x y
  then default (mkRGBA 0 0 0 0) (Pix img !! PixOffset img x y)
  else mkRGBA 0 0 0 0.

(** [for i, e := range l { s = f i e s }]. *)
Fixpoint range_from {A S} (i : Z) (f : Z -> A -> S -> S) (l : list A) (s : S) : S :=
  match l with
  | [] => s
  | a :: l' => range_from (i + 1) f l' (f i a s)
  end.

(** [s[i]] *)
Definition index {A} (s : list A) (i : Z) : outcome A :=
  if 0 <=? i then
    match s !! Z.to_nat i with
    | Some a => Ret a
    | None => Panic
    end
  else Panic.

Section Render.
Context {M : MathLib}.

Definition int (x : float64) : Z := int_of_f64 indef x.

Definition c0 : float64 := F64.of_int 0.
Definition c0_1 : float64 := F64.of_ratio 1 10.
Definition c0_9 : float64 := F64.of_ratio 9 10.
Definition c10 : float64 := F64.of_int 10.
Definition cm6 : float64 := F64.of_int (-6).
Definition c1e_4 : float64 := F64.of_ratio 1 10000.
(** [2*math.Pi], a constant expression rounded once to float64. *)
Definition two_pi : float64 :=
  F64.of_ratio 628318530717958647692528676655900576839433879875021
               100000000000000000000000000000000000000000000000000.

(** The first and last row painted by the upper and the lower half of
    the bar of value [e]. *)
Definition upper_from (height : Z) (e : float64) : Z :=
  let half := F64.mul c0_5 e in
  isub (Z.quot height 2)
       (int (F64.div (F64.mul half (F64.of_int height)) c2)).

Definition lower_to (height : Z) (e : float64) : Z :=
  let half := F64.mul c0_5 e in
  iadd (Z.quot height 2)
       (int (F64.div (F64.mul (F64.mul c0_9 half) (F64.of_int height)) c2)).

Definition bar_x (barWidth pad : float64) (i : Z) : Z :=
  int (F64.add pad (F64.mul (F64.of_int i) barWidth)).

(** The body of the loop over the bars in [drawEnv]. *)
Definition draw_bar (fgColor : RGBA) (height : Z)
    (barWidth actualWidth pad : float64) (i : Z) (e : float64)
    (img : Image) : Image :=
  let x := bar_x barWidth pad i in
  let barW := int actualWidth in
  let mid := Z.quot height 2 in
  let img :=
    for_range (upper_from height e) mid (fun y img =>
      for_range 0 barW (fun dx img => Set_ (iadd x dx) y fgColor img) img) img in
  let lowerFg := mkRGBA (cR fgColor) (cG fgColor) (cB fgColor) 204 in
  for_range mid (lower_to height e) (fun y img =>
    for_range 0 barW (fun dx img => Set_ (iadd x dx) y lowerFg img) img) img.

Definition fill (bgColor : RGBA) (width height : Z) (img : Image) : Image :=
  for_range 0 height (fun y img =>
    for_range 0 width (fun x img => Set_ x y bgColor img) img) img.

Definition bar_geometry (n width : Z) : float64 * float64 * float64 :=
  let barWidth := F64.div (F64.of_int width) (F64.of_int n) in
  let padRatio := c0_1 in
  let actualWidth := F64.div barWidth (F64.add c1 (F64.mul c2 padRatio)) in
  let pad := F64.mul padRatio actualWidth in
  (barWidth, actualWidth, pad).

(** [drawEnv] up to the encoding of the image. *)
Definition drawEnv (env : list float64) (fgColor bgColor : RGBA)
    (width height : Z) : Image :=
  let img := NewRGBA (Rect 0 0 width height) in
  let img := fill bgColor width height img in
  let '(barWidth, actualWidth, pad) := bar_geometry (len env) width in
  range_from 0 (draw_bar fgColor height barWidth actualWidth pad) env img.

Definition interpole (x1 y1 x2 y2 x : float64) : float64 :=
  F64.add y1 (F64.div (F64.mul (F64.sub y2 y1) (F64.sub x x1))
                      (F64.sub x2 x1)).
End Render.

(** ** visualize *)

Section Visualize.
Context {M : MathLib}.

(** Convert to mono: the mean over the channels, sample by sample. *)
Definition downmix (wav : list (list float32)) : outcome (list float32) :=
  ch0 ← index wav 0;
  mono ← make F32.zero (len ch0);
  for_range 0 (len mono) (fun i acc =>
    mono ← acc;
    sum ← fold_left (fun acc ch =>
                       s ← acc; v ← index ch i; Ret (F32.add s v))
                    wav (Ret F32.zero);
    Ret (<[Z.to_nat i := F32.div sum (F32.of_int (len wav))]> mono))
    (Ret mono).

(** Normalize the audio: divide every sample by the root mean square. *)
Definition rms (mono : list float32) : float32 :=
  let std := fold_left (fun std v => F32.add std (F32.mul v v)) mono F32.zero in
  f32_of_f64 (F64.sqrt (f64_of_f32 (F32.div std (F32.of_int (len mono))))).

Definition normalize (mono : list float32) : list float32 :=
  let std := rms mono in
  (fun v => F32.div v std) <$> mono.

Definition window_of (sr time : float64) (bars : Z) : Z :=
  int (F64.div (F64.mul sr time) (F64.of_int bars)).

Definition stride_of (window : Z) (oversample : float64) : Z :=
  int (F64.div (F64.of_int window) oversample).

Definition frames_of (rate n : Z) (sr : float64) : Z :=
  let audioDuration := F64.div (F64.of_int n) sr in
  int (F64.mul (F64.of_int rate) audioDuration).

(** Pad the envelope: [len(env)+3*bars] zeros with [env] copied to
    position [bars/2]. *)
Definition pad_envelope (env : list float64) (bars : Z) : outcome (list float64) :=
  padded ← make F64.zero (iadd (len env) (imul 3 bars));
  copy_at padded (Z.quot bars 2) env.

Definition frame_pos (sr : float64) (rate stride bars idx : Z) : float64 :=
  F64.div (F64.div (F64.mul (F64.div (F64.of_int idx) (F64.of_int rate)) sr)
                   (F64.of_int stride))
          (F64.of_int bars).

Definition max_volume (env2 : list float64) : float64 :=
  fold_left (fun maxvol v => if F64.ltb maxvol v then v else maxvol)
            env2 F64.zero.

Definition crossfade (speed loc : float64) (env2 : list float64) : float64 :=
  let maxvol := F64.mul (Log10 (F64.add c1e_4 (max_volume env2))) c10 in
  let speedup := Max c0_5 (Min c2 (interpole cm6 c0_5 c0 c2 maxvol)) in
  sigmoid (F64.mul (F64.mul speed speedup) (F64.sub loc c0_5)).

(** The raised-cosine factor of bar [i] out of [n]. *)
Definition taper (i n : Z) : float64 :=
  F64.mul c0_5
    (F64.sub c1 (Cos (F64.div (F64.mul two_pi (F64.of_int i))
                              (F64.of_int (isub n 1))))).

Definition blend (w a b : float64) : float64 :=
  F64.add (F64.mul (F64.sub c1 w) a) (F64.mul w b).

(** The bar vector of frame [idx] (the body of the goroutine up to the
    call of [drawEnv]); [env] is the padded envelope. *)
Definition frame_bars (env : list float64) (sr : float64)
    (rate bars stride : Z) (speed : float64) (idx : Z)
  : outcome (list float64) :=
  let pos := frame_pos sr rate stride bars idx in
  let off := int pos in
  let loc := F64.sub pos (F64.of_int off) in
  env1 ← slice env (imul off bars) (imul (iadd off 1) bars);
  env2 ← slice env (imul (iadd off 1) bars) (imul (iadd off 2) bars);
  let w := crossfade speed loc env2 in
  denv ← make F64.zero bars;
  for_range 0 (len denv) (fun i acc =>
    denv ← acc;
    a ← index env1 i;
    b ← index env2 i;
    Ret (<[Z.to_nat i := F64.mul (blend w a b) (taper i (len denv))]> denv))
    (Ret denv).

Record Config : Type := mkConfig {
  rate : Z; bars : Z;
  speed : float64; time : float64; oversample : float64;
  fgColor : RGBA; bgColor : RGBA;
  width : Z; height : Z
}.

Definition frame (cfg : Config) (env : list float64) (sr : float64)
    (stride idx : Z) : outcome Image :=
  denv ← frame_bars env sr (rate cfg) (bars cfg) stride (speed cfg) idx;
  Ret (drawEnv denv (fgColor cfg) (bgColor cfg) (width cfg) (height cfg)).

(** [visualize] from the decoded audio to the list of frame images. The
    frames are independent of each other, so the order in which the
    goroutines run does not show in the result. *)
Definition visualize (wav : list (list float32)) (sr : float64) (cfg : Config)
  : outcome (list Image) :=
  mono ← downmix wav;
  let mono := normalize mono in
  let window := window_of sr (time cfg) (bars cfg) in
  let stride := stride_of window (oversample cfg) in
  env ← envelope mono window stride;
  let frames := frames_of (rate cfg) (len mono) sr in
  env ← pad_envelope env (bars cfg);
  if frames <? 0 then Panic else
  for_range 0 frames (fun idx acc =>
    imgs ← acc;
    img ← frame cfg env sr stride idx;
    Ret (imgs ++ [img])) (Ret []).
End Visualize.

(** ** A reference implementation of the library interface

    The functions below evaluate the defining series in exact rational
    arithmetic after a range reduction and round the sum once. They stand
    for the Go library wherever a concrete instance is needed; the
    theorems only rely on the facts collected in [MathLaws]. *)

Module RefMath.
Open Scope Q_scope.

(** The value of a float as a rational (zero for the non-finite ones). *)
Definition to_Q (x : spec_float) : Q :=
  match x with
  | S754_finite s m e =>
      inject_Z (cond_Zopp s (Zpos m)) * 2 ^ e
  | _ => 0
  end.

Definition of_Q (q : Q) : float64 := F64.of_ratio (Qnum q) (Qden q).

(** [q] rounded down to a multiple of [2^-k]. *)
Definition chop (k : Z) (q : Q) : Q :=
  inject_Z (Qfloor (q * 2 ^ k)) / 2 ^ k.

Definition ln2 : Q :=
  693147180559945309417232121458176568075500134360255254120680
  # 1000000000000000000000000000000000000000000000000000000000000.
Definition ln10 : Q :=
  2302585092994045684017991454684364207601101488628772976033327
  # 1000000000000000000000000000000000000000000000000000000000000.
Definition pi : Q :=
  314159265358979323846264338327950288419716939937510
  # 100000000000000000000000000000000000000000000000000.

(** [sum_{k < n} t_k] with [t_0 = t] and [t_{k+1} = step k t_k]. *)
Fixpoint series (n : nat) (k : Z) (step : Z -> Q -> Q) (t acc : Q) : Q :=
  match n with
  | O => acc
  | S n' => series n' (k + 1)%Z step (chop 120 (step k t)) (acc + t)
  end.

Definition exp_series (r : Q) : Q :=
  series 30 1 (fun k t => t * r / inject_Z k) 1 0.

Definition cos_series (r : Q) : Q :=
  series 20 1 (fun k t => - t * r * r / inject_Z ((2 * k - 1) * (2 * k))) 1 0.

(** [atanh z = z + z^3/3 + z^5/5 + ...], here as the sum of
    [z^(2k+1)/(2k+1)]. *)
Fixpoint atanh_series (n : nat) (k : Z) (z2 p acc : Q) : Q :=
  match n with
  | O => acc
  | S n' => atanh_series n' (k + 1)%Z z2 (chop 120 (p * z2))
              (acc + p / inject_Z (2 * k + 1))
  end.

Definition exp_core (x : float64) : float64 :=
  match x with
  | S754_nan => S754_nan
  | S754_infinity false => x
  | S754_infinity true => S754_zero false
  | S754_zero _ => c1
  | S754_finite _ _ _ =>
      let q := to_Q x in
      if Qle_bool 710 q then S754_infinity false
      else if Qle_bool q (-746) then S754_zero false
      else
        let k := Qfloor (q / ln2 + (1 # 2)) in
        let r := chop 120 (q - inject_Z k * ln2) in
        of_Q (exp_series r * 2 ^ k)
  end.

Definition cos_core (x : float64) : float64 :=
  match x with
  | S754_zero _ => c1
  | S754_finite _ _ _ =>
      let q := to_Q x in
      let k := Qfloor (q / (2 * pi) + (1 # 2)) in
      let r := chop 120 (q - inject_Z k * (2 * pi)) in
      of_Q (cos_series (r / 2) * cos_series (r / 2) * 2 - 1)
  | _ => S754_nan
  end.

Definition log10_core (x : float64) : float64 :=
  match x with
  | S754_zero _ => S754_infinity true
  | S754_infinity false => x
  | S754_finite false m e =>
      let d := Zpos (digits2_pos m) in
      let y := inject_Z (Zpos m) / 2 ^ (d - 1) in
      let z := chop 120 ((y - 1) / (y + 1)) in
      let ln_y := 2 * atanh_series 40 0 (z * z) z 0 in
      of_Q ((inject_Z (e + d - 1) * ln2 + ln_y) / ln10)
  | _ => S754_nan
  end.

Definition sign_pos (x : float64) : bool :=
  match x with
  | S754_zero false | S754_finite false _ _ | S754_infinity false => true
  | _ => false
  end.

Definition valid64 (x : float64) : bool := valid_binary F64.prec F64.emax x.

(** The reference functions keep a result [y] of the series for the
    argument [x] only when it is in the range of the function. *)
Definition exp_guard (x y : float64) : float64 :=
  if F64.is_nan x then S754_nan
  else if F64.leb x F64.zero then
    if valid64 y && sign_pos y && F64.leb y c1 then y else F64.zero
  else
    if valid64 y && sign_pos y then y else S754_infinity false.

Definition cos_guard (x y : float64) : float64 :=
  match x with
  | S754_nan | S754_infinity _ => S754_nan
  | _ =>
      if valid64 y && F64.leb (F64.neg c1) y && F64.leb y c1
      then y else F64.zero
  end.

Definition log10_guard (x y : float64) : float64 :=
  match x with
  | S754_finite false _ _ =>
      if valid64 y && negb (F64.is_nan y) then y else F64.zero
  | _ => y
  end.

Definition exp (x : float64) : float64 := exp_guard x (exp_core x).
Definition cos (x : float64) : float64 := cos_guard x (cos_core x).
Definition log10 (x : float64) : float64 := log10_guard x (log10_core x).

(** amd64: the conversion instruction returns the "integer indefinite"
    value for NaN and for values out of range. *)
Definition indef_amd64 (_ : float64) : Z := min_int.
End RefMath.

#[global] Instance ref_math : MathLib :=
  {| Exp := RefMath.exp; Cos := RefMath.cos; Log10 := RefMath.log10;
     indef := RefMath.indef_amd64 |}.

(** * The command line: colours, file names and durations *)

Import String.StringSyntax Ascii.AsciiSyntax.
Delimit Scope string_scope with string.
Delimit Scope char_scope with char.

(** A Go [string] is a sequence of bytes. *)
Definition gostring : Type := String.string.
Notation "s +++ t" := (String.append s t) (at level 60, right associativity).

(** ** Functions that can end the program *)

(** [fatal(msg)] logs the message and exits: nothing after it runs. *)
Inductive run (A : Type) : Type :=
| Done (a : A)              (* the function returns [a] *)
| Fatal (msg : gostring)    (* [fatal(msg)] was called *)
| Crash.                    (* run-time panic *)
Arguments Done {A} a.
Arguments Fatal {A} msg.
Arguments Crash {A}.

#[global] Instance run_ret : MRet run := fun _ a => Done a.
#[global] Instance run_bind : MBind run := fun _ _ k m =>
  match m with
  | Done a => k a
  | Fatal msg => Fatal msg
  | Crash => Crash
  end.

(** ** Strings *)

Definition byte_of (c : Ascii.ascii) : Z := Z.of_N (Ascii.N_of_ascii c).

(** [s[i]] *)
Definition byte_at (s : gostring) (i : nat) : run Ascii.ascii :=
  match String.get i s with
  | Some c => Done c
  | None => Crash
  end.

(** [s[lo:hi]] *)
Definition substr (s : gostring) (lo hi : nat) : run gostring :=
  if (lo <=? hi)%nat && (hi <=? String.length s)%nat
  then Done (String.substring lo (hi - lo) s)
  else Crash.

(** [string([]byte{...})] *)
Definition string_of_bytes (l : list Ascii.ascii) : gostring :=
  foldr String.String String.EmptyString l.

(** [strings.HasPrefix] and [strings.TrimPrefix] *)
Definition HasPrefix (s prefix : gostring) : bool := String.prefix prefix s.

Definition TrimPrefix (s prefix : gostring) : gostring :=
  if HasPrefix s prefix
  then String.substring (String.length prefix)
         (String.length s - String.length prefix) s
  else s.

(** [strings.Split(s, sep)] for a separator of one byte: the pieces between
    the separators, one more than there are separators. *)
Fixpoint Split (s : gostring) (sep : Ascii.ascii) : list gostring :=
  match s with
  | String.EmptyString => [String.EmptyString]
  | String.String c t =>
      if Ascii.eqb c sep then String.EmptyString :: Split t sep
      else match Split t sep with
           | p :: ps => String.String c p :: ps
           | [] => [String.String c String.EmptyString]
           end
  end.

(** [fmt.Sprintf("%d", n)] *)
Definition Itoa (n : Z) : gostring :=
  DecimalString.NilZero.string_of_int (Z.to_int n).

(** ** Regular expressions *)

(** The part of the syntax of Go's [regexp] that the program uses. *)
Inductive regex : Type :=
| Chr (c : Ascii.ascii)              (* a literal byte *)
| OneOf (p : Ascii.ascii -> bool)    (* a class: [[0-9a-f]], [\W] *)
| Cat (r1 r2 : regex)                (* r1 r2 *)
| Alt (r1 r2 : regex)                (* r1|r2, r1 preferred *)
| Rep (r : regex) (lo hi : nat)      (* r{lo,hi}, the longest first *)
| Plus (r : regex).                  (* r+, the longest first *)

(** The ways [r] matches at the start of [s]: what is left of [s] after
    each match, the preferred match first. The classes of the program take
    one byte each, so [r+] repeats at most [len(s)] times. *)
Fixpoint rests (r : regex) (s : gostring) : list gostring :=
  match r with
  | Chr c =>
      match s with
      | String.String d t => if Ascii.eqb c d then [t] else []
      | String.EmptyString => []
      end
  | OneOf p =>
      match s with
      | String.String d t => if p d then [t] else []
      | String.EmptyString => []
      end
  | Cat r1 r2 => flat_map (rests r2) (rests r1 s)
  | Alt r1 r2 => rests r1 s ++ rests r2 s
  | Rep r1 lo hi =>
      (fix rep (lo hi : nat) (s : gostring) {struct hi} : list gostring :=
         match hi with
         | O => []
         | S hi' => flat_map (rep (Nat.pred lo) hi') (rests r1 s)
         end ++ match lo with O => [s] | S _ => [] end) lo hi s
  | Plus r1 =>
      (fix plus (fuel : nat) (s : gostring) {struct fuel} : list gostring :=
         flat_map (fun t => match fuel with
                            | O => []
                            | S fuel' => plus fuel' t
                            end ++ [t]) (rests r1 s)) (String.length s) s
  end.

(** [MatchString] for a pattern written between [^] and [$]: the whole
    string matches. *)
Definition MatchString (r : regex) (s : gostring) : bool :=
  existsb (String.eqb String.EmptyString) (rests r s).

(** ** parseColor *)

Definition in_range (lo hi c : Ascii.ascii) : bool :=
  (byte_of lo <=? byte_of c) && (byte_of c <=? byte_of hi).

(** [[0-9a-fA-F]] *)
Definition hex_class (c : Ascii.ascii) : bool :=
  in_range "0"%char "9"%char c || in_range "a"%char "f"%char c || in_range "A"%char "F"%char c.

(** [^#(?:[0-9a-fA-F]{3}){1,2}$] *)
Definition hex_color_re : regex :=
  Cat (Chr "#"%char) (Rep (Rep (OneOf hex_class) 3 3) 1 2).

(** [strconv.ParseUint(s, 16, 8)], the value it returns: 0 with a syntax
    error, 255 with a range error. *)
Definition digit_of (c : Ascii.ascii) : option Z :=
  if in_range "0"%char "9"%char c then Some (byte_of c - byte_of "0"%char)
  else if in_range "a"%char "z"%char c then Some (byte_of c - byte_of "a"%char + 10)
  else if in_range "A"%char "Z"%char c then Some (byte_of c - byte_of "A"%char + 10)
  else None.

Fixpoint ParseUint_digits (s : gostring) (n : Z) : Z :=
  match s with
  | String.EmptyString => n
  | String.String c t =>
      match digit_of c with
      | None => 0
      | Some d =>
          if 16 <=? d then 0
          else let n1 := n * 16 + d in
               if 255 <? n1 then 255 else ParseUint_digits t n1
      end
  end.

Definition ParseUint_16_8 (s : gostring) : Z :=
  match s with
  | String.EmptyString => 0
  | _ => ParseUint_digits s 0
  end.

Definition c255 : float64 := F64.of_int 255.

Section ParseColor.
(** [strconv.ParseFloat(s, 64)], the value it returns, and the
    implementation-defined result of [uint8(x)] for an [x] that is NaN or
    whose integer part is not a [uint8]. *)
Variable ParseFloat : gostring -> float64.
Variable indef8 : float64 -> Z.

Definition uint8_of_f64 (x : float64) : Z :=
  match trunc_float x with
  | Some z => if (0 <=? z) && (z <=? 255) then z else indef8 x mod 256
  | None => indef8 x mod 256
  end.

Definition part (parts : list gostring) (i : nat) : run gostring :=
  match parts !! i with
  | Some p => Done p
  | None => Crash
  end.

Definition parseColor (colorStr : gostring) : run RGBA :=
  if HasPrefix colorStr "#"%string then
    if negb (MatchString hex_color_re colorStr)
    then Fatal "Color must be a valid hexadecimal color code"%string
    else
      let colorStr := TrimPrefix colorStr "#"%string in
      colorStr ← (if (String.length colorStr =? 3)%nat
                  then c0 ← byte_at colorStr 0;
                       c1 ← byte_at colorStr 1;
                       c2 ← byte_at colorStr 2;
                       Done (string_of_bytes [c0; c0; c1; c1; c2; c2])
                  else Done colorStr);
      r ← substr colorStr 0 2;
      g ← substr colorStr 2 4;
      b ← substr colorStr 4 6;
      Done (mkRGBA (ParseUint_16_8 r mod 256) (ParseUint_16_8 g mod 256)
                   (ParseUint_16_8 b mod 256) 255)
  else
    let parts := Split colorStr ","%char in
    if negb (length parts =? 3)%nat
    then Fatal "Color must be in format 0.xx,0.xx,0.xx or #RRGGBB"%string
    else
      r ← part parts 0;
      g ← part parts 1;
      b ← part parts 2;
      Done (mkRGBA (uint8_of_f64 (F64.mul (ParseFloat r) c255))
                   (uint8_of_f64 (F64.mul (ParseFloat g) c255))
                   (uint8_of_f64 (F64.mul (ParseFloat b) c255)) 255).
End ParseColor.

(** ** formatDuration *)

(** [time.Duration] counts nanoseconds in an int64; [d.Seconds()] is
    [float64(d / Second) + float64(d % Second) / 1e9]. *)
Definition Second : Z := 1000000000.
Definition c1e9 : float64 := F64.of_int 1000000000.

Definition Seconds (d : Z) : float64 :=
  F64.add (F64.of_int (Z.quot d Second))
          (F64.div (F64.of_int (Z.rem d Second)) c1e9).

Section FormatDuration.
Context {M : MathLib}.

Definition formatDuration (d : Z) : gostring :=
  let seconds := int (Seconds d) in
  let hours := Z.quot seconds 3600 in
  let minutes := Z.quot (Z.rem seconds 3600) 60 in
  let seconds := Z.rem seconds 60 in
  let formatted := ""%string in
  let formatted :=
    if 0 <? hours then formatted +++ Itoa hours +++ " hours "%string else formatted in
  let formatted :=
    if (0 <? minutes) || (0 <? hours)
    then formatted +++ Itoa minutes +++ " minutes "%string else formatted in
  formatted +++ Itoa seconds +++ " seconds"%string.
End FormatDuration.

(** ** The name of the output file *)

(** [re.ReplaceAllString(s, repl)] for a pattern that matches no empty
    string and a replacement without [$]: from left to right, the preferred
    match at the first position that has one is replaced, and the search
    goes on behind it. Every step takes at least one byte. *)
Fixpoint ReplaceAll_steps (steps : nat) (r : regex) (s repl : gostring) : gostring :=
  match steps with
  | O => s
  | S steps' =>
      match s with
      | String.EmptyString => String.EmptyString
      | String.String c t =>
          match rests r s with
          | rest :: _ => repl +++ ReplaceAll_steps steps' r rest repl
          | [] => String.String c (ReplaceAll_steps steps' r t repl)
          end
      end
  end.

Definition ReplaceAllString (r : regex) (s repl : gostring) : gostring :=
  ReplaceAll_steps (String.length s) r s repl.

(** [\w] is [[0-9A-Za-z_]]; [\W] is every other character. A character
    outside ASCII is made of bytes from 128 on, none of them in [\w], so a
    run of [\W] characters is a run of such bytes. *)
Definition word_class (c : Ascii.ascii) : bool :=
  in_range "0"%char "9"%char c || in_range "A"%char "Z"%char c ||
  in_range "a"%char "z"%char c || Ascii.eqb c "_"%char.

(** [\W+| |-|\.] *)
Definition safe_name_re : regex :=
  Alt (Plus (OneOf (fun c => negb (word_class c))))
      (Alt (Chr " "%char) (Alt (Chr "-"%char) (Chr "."%char))).

(** [safeName] of [main], from the file name without its extension. *)
Definition safeName (nameWithoutExt : gostring) : gostring :=
  ReplaceAllString safe_name_re nameWithoutExt "_"%string.

(** * Properties *)

(** ** Integers, slices and loops *)

Lemma bind_Ret {A B} (a : A) (k : A -> outcome B) : (Ret a ≫= k) = k a.
Proof. reflexivity. Qed.

Lemma wrap64_id (z : Z) : min_int <= z <= max_int -> wrap64 z = z.
Proof.
  unfold wrap64, min_int, max_int. intros H.
  rewrite Z.mod_small; lia.
Qed.

Lemma wrap64_range (z : Z) : min_int <= wrap64 z <= max_int.
Proof.
  unfold wrap64, min_int, max_int.
  pose proof (Z.mod_pos_bound (z + 2 ^ 63) (2 ^ 64) ltac:(lia)). lia.
Qed.

Lemma len_nonneg {A} (l : list A) : 0 <= len l.
Proof. unfold len. lia. Qed.

Lemma len_app {A} (l k : list A) : len (l ++ k) = len l + len k.
Proof. unfold len. rewrite length_app. lia. Qed.

Lemma len_replicate {A} (n : Z) (a : A) : 0 <= n -> len (replicate (Z.to_nat n) a) = n.
Proof. intros. unfold len. rewrite length_replicate. lia. Qed.

Lemma len_fmap {A B} (f : A -> B) (l : list A) : len (f <$> l) = len l.
Proof. unfold len. now rewrite length_fmap. Qed.

Lemma make_ret {A} (z : A) (n : Z) :
  0 <= n -> make z n = Ret (replicate (Z.to_nat n) z).
Proof. intros. unfold make. destruct (Z.ltb_spec n 0); [lia | easy]. Qed.

Lemma slice_ret {A} (s : list A) (lo hi : Z) :
  0 <= lo -> lo <= hi -> hi <= len s ->
  slice s lo hi = Ret (take (Z.to_nat (hi - lo)) (drop (Z.to_nat lo) s)).
Proof.
  intros. unfold slice.
  destruct (Z.leb_spec 0 lo), (Z.leb_spec lo hi), (Z.leb_spec hi (len s));
    simpl; try lia; reflexivity.
Qed.

Lemma slice_len {A} (s r : list A) (lo hi : Z) :
  slice s lo hi = Ret r -> len r = hi - lo /\ 0 <= lo /\ lo <= hi /\ hi <= len s.
Proof.
  unfold slice.
  destruct (Z.leb_spec 0 lo), (Z.leb_spec lo hi), (Z.leb_spec hi (len s));
    simpl; try discriminate.
  intros [= <-]. unfold len in *.
  rewrite length_take, length_drop. lia.
Qed.

Lemma copy_at_ret {A} (dst src : list A) (k : Z) :
  0 <= k -> k + len src <= len dst ->
  copy_at dst k src =
  Ret (take (Z.to_nat k) dst ++ src ++ drop (Z.to_nat k + length src) dst).
Proof.
  intros Hk Hs. unfold copy_at, len in *.
  destruct (Z.leb_spec 0 k), (Z.leb_spec k (Z.of_nat (length dst)));
    simpl; try lia.
  replace (Nat.min (length dst - Z.to_nat k) (length src)) with (length src) by lia.
  now rewrite firstn_all.
Qed.

Lemma for_steps_ind {S} (P : Z -> S -> Prop) (body : Z -> S -> S) :
  forall (n : nat) (lo : Z) (s : S),
    P lo s ->
    (forall i s, lo <= i < lo + Z.of_nat n -> P i s -> P (i + 1) (body i s)) ->
    P (lo + Z.of_nat n) (for_steps n lo body s).
Proof.
  induction n as [|n IH]; intros lo s H0 Hstep; simpl.
  - now replace (lo + Z.of_nat 0) with lo by lia.
  - replace (lo + Z.of_nat (Datatypes.S n)) with ((lo + 1) + Z.of_nat n) by lia.
    apply IH.
    + apply Hstep; [lia | assumption].
    + intros i s' Hi. apply Hstep. lia.
Qed.

Lemma for_range_ind {S} (P : Z -> S -> Prop) (body : Z -> S -> S)
    (lo hi : Z) (s : S) :
  lo <= hi ->
  P lo s ->
  (forall i s, lo <= i < hi -> P i s -> P (i + 1) (body i s)) ->
  P hi (for_range lo hi body s).
Proof.
  intros Hle H0 Hstep. unfold for_range.
  replace hi with (lo + Z.of_nat (Z.to_nat (hi - lo))) at 1 by lia.
  apply for_steps_ind; [assumption|].
  intros i s' Hi. apply Hstep. lia.
Qed.

Lemma for_range_empty {S} (body : Z -> S -> S) (lo hi : Z) (s : S) :
  hi <= lo -> for_range lo hi body s = s.
Proof.
  intros. unfold for_range. now replace (Z.to_nat (hi - lo)) with 0%nat by lia.
Qed.

(** A property kept by every step is kept by the loop, whatever the bounds. *)
Lemma for_range_preserves {S} (P : S -> Prop) (body : Z -> S -> S)
    (lo hi : Z) (s : S) :
  P s -> (forall i s, lo <= i < hi -> P s -> P (body i s)) ->
  P (for_range lo hi body s).
Proof.
  intros H0 Hstep.
  destruct (Z.le_gt_cases lo hi) as [Hle|Hgt].
  - apply (for_range_ind (fun _ s => P s)); auto.
  - now rewrite for_range_empty by lia.
Qed.

(** ** The Envelope Extractor: number of windows *)

Section EnvelopeLength.
Context {M : MathLib}.

(** The number of loop positions [off, off+stride, ...] below [n]. *)
Definition positions (n off stride : Z) : Z :=
  if off <? n then (n - off + stride - 1) / stride else 0.

Lemma positions_step (n off stride : Z) :
  0 < stride -> off < n ->
  positions n off stride = 1 + positions n (off + stride) stride.
Proof.
  intros Hs Hlt. unfold positions.
  destruct (Z.ltb_spec off n); [|lia].
  destruct (Z.ltb_spec (off + stride) n).
  - replace (n - off + stride - 1) with (1 * stride + (n - (off + stride) + stride - 1)) by lia.
    rewrite Z.div_add_l by lia. reflexivity.
  - replace (n - off + stride - 1) with (1 * stride + (n - off - 1)) by lia.
    rewrite Z.div_add_l by lia.
    rewrite Z.div_small by lia. reflexivity.
Qed.

Lemma envelope_loop_length (padded : list float32) (window stride : Z) :
  0 < stride -> stride <= window -> window <= len padded ->
  len padded <= max_int ->
  forall (fuel : nat) (off : Z) (out : list float64),
    0 <= off ->
    len padded - window - off < Z.of_nat fuel ->
    exists out',
      envelope_loop fuel padded window stride off out = Ret out' /\
      len out' = len out + positions (len padded - window) off stride.
Proof.
  intros Hs Hsw Hw Hmax.
  pose proof (len_nonneg padded) as Hp.
  assert (Hsub : isub (len padded) window = len padded - window).
  { apply wrap64_id. unfold min_int, max_int in *. lia. }
  induction fuel as [|fuel IH]; intros off out Hoff Hfuel; simpl; rewrite Hsub.
  - destruct (Z.ltb_spec off (len padded - window)); [lia|].
    exists out. split; [reflexivity|].
    unfold positions. destruct (Z.ltb_spec off (len padded - window)); lia.
  - destruct (Z.ltb_spec off (len padded - window)) as [Hlt|Hge].
    + assert (Ha : iadd off window = off + window).
      { apply wrap64_id. unfold min_int, max_int in *. lia. }
      assert (Hb : iadd off stride = off + stride).
      { apply wrap64_id. unfold min_int, max_int in *. lia. }
      rewrite Ha, Hb. rewrite slice_ret by lia. simpl.
      destruct (IH (off + stride)
                   (out ++ [window_mean (take (Z.to_nat (off + window - off))
                                               (drop (Z.to_nat off) padded))]))
        as (out' & Hrun & Hlen); [lia | lia |].
      exists out'. split; [exact Hrun|].
      rewrite Hlen, len_app, (positions_step _ off) by lia.
      unfold len at 2. simpl. lia.
    + exists out. split; [reflexivity|].
      unfold positions. destruct (Z.ltb_spec off (len padded - window)); lia.
Qed.

Lemma envelope_padded (wav : list float32) (window : Z) :
  0 <= window -> len wav + window <= max_int ->
  exists padded,
    copy_at (replicate (Z.to_nat (len wav + window)) F32.zero)
            (Z.quot window 2) wav = Ret padded /\
    len padded = len wav + window /\
    padded = replicate (Z.to_nat (Z.quot window 2)) F32.zero ++ wav ++
             replicate (Z.to_nat (window - Z.quot window 2)) F32.zero.
Proof.
  intros Hw Hmax.
  pose proof (len_nonneg wav) as Hl.
  assert (Hq : 0 <= Z.quot window 2 <= window).
  { rewrite Z.quot_div_nonneg by lia. split; [apply Z.div_pos; lia|].
    apply Z.div_le_upper_bound; lia. }
  eexists. split; [|split].
  - apply copy_at_ret; [lia|]. rewrite len_replicate by lia. lia.
  - rewrite !len_app. unfold len.
    rewrite length_take, length_drop, !length_replicate. unfold len in *. lia.
  - rewrite take_replicate, drop_replicate. f_equal; [f_equal; lia|].
    f_equal. f_equal. unfold len. lia.
Qed.

Lemma envelope_returns (wav : list float32) (window stride : Z) :
  0 < stride -> stride <= window -> len wav + window <= max_int ->
  exists out,
    envelope wav window stride = Ret out /\
    len out = (len wav + stride - 1) / stride.
Proof.
  intros Hs Hsw Hmax.
  pose proof (len_nonneg wav) as Hl.
  unfold envelope.
  assert (Ha : iadd (len wav) window = len wav + window).
  { apply wrap64_id. unfold min_int, max_int in *. lia. }
  rewrite Ha, make_ret, bind_Ret by lia.
  destruct (envelope_padded wav window) as (padded & Hc & Hlen & _); [lia..|].
  rewrite Hc, bind_Ret.
  destruct (envelope_loop_length padded window stride Hs Hsw ltac:(lia) ltac:(lia)
              (S (length wav)) 0 []) as (out & Hrun & Hout); [lia | unfold len in *; lia |].
  rewrite Hrun, bind_Ret. eexists. split; [reflexivity|].
  rewrite len_fmap, Hout, Hlen.
  replace (len wav + window - window) with (len wav) by lia.
  change (len (@nil float64)) with 0. unfold positions.
  rewrite Z.sub_0_r, Z.add_0_l.
  destruct (Z.ltb_spec 0 (len wav)); [reflexivity|].
  assert (len wav = 0) as -> by lia.
  rewrite Z.div_small; lia.
Qed.
End EnvelopeLength.

(** The float32 value 1. *)
Definition f32_one : float32 := S754_finite false 8388608 (-23).

(** C2 (as the code has it). For a mono signal and [0 < stride <= window]
    the Envelope Extractor returns, and the number of values is the number
    of loop positions [0, stride, 2*stride, ...] below [len(signal)], that
    is [len(signal) / stride] rounded up; it is [floor(len(signal)/stride)]
    exactly when [stride] divides the length. *)
Theorem C2_envelope_length {M : MathLib} (wav : list float32) (window stride : Z) :
  0 < stride -> stride <= window -> len wav + window <= max_int ->
  exists out,
    envelope wav window stride = Ret out /\
    len out = (len wav + stride - 1) / stride /\
    (len wav mod stride = 0 -> len out = len wav / stride).
Proof.
  intros Hs Hsw Hmax.
  destruct (envelope_returns wav window stride Hs Hsw Hmax) as (out & Hrun & Hlen).
  exists out. split; [exact Hrun|]. split; [exact Hlen|].
  intros Hmod. rewrite Hlen.
  rewrite (Z.div_mod (len wav) stride) at 1 by lia. rewrite Hmod, Z.add_0_r.
  replace (stride * (len wav / stride) + stride - 1)
    with ((len wav / stride) * stride + (stride - 1)) by lia.
  rewrite Z.div_add_l by lia. rewrite (Z.div_small (stride - 1)) by lia. lia.
Qed.

Lemma C2_envelope_length_witness :
  exists out,
    envelope (M := ref_math) [f32_one; f32_one; f32_one] 2 2 = Ret out /\
    len out = (len [f32_one; f32_one; f32_one] + 2 - 1) / 2 /\
    (len [f32_one; f32_one; f32_one] mod 2 = 0 ->
     len out = len [f32_one; f32_one; f32_one] / 2).
Proof.
  apply (C2_envelope_length (M := ref_math) [f32_one; f32_one; f32_one] 2 2);
    try lia; vm_compute; congruence.
Defined.

(** C2 as stated fails: a signal of three samples with [window = stride = 2]
    gives two envelope values, not [floor((3 + 2 - 2) / 2) = 1]. *)
Lemma C2_floor_counterexample :
  exists out,
    envelope (M := ref_math) [f32_one; f32_one; f32_one] 2 2 = Ret out /\
    len out = 2 /\
    (len [f32_one; f32_one; f32_one] + 2 - 2) / 2 = 1.
Proof.
  eexists. split; [vm_compute; reflexivity|]. split; reflexivity.
Qed.

(** ** Padding of the envelope *)

Lemma pad_envelope_shape (env : list float64) (bars : Z) :
  0 <= bars -> len env + 3 * bars <= max_int ->
  pad_envelope env bars =
  Ret (replicate (Z.to_nat (Z.quot bars 2)) F64.zero ++ env ++
       replicate (Z.to_nat (3 * bars - Z.quot bars 2)) F64.zero).
Proof.
  intros Hb Hmax. pose proof (len_nonneg env) as Hl.
  assert (Hq : 0 <= Z.quot bars 2 <= bars).
  { rewrite Z.quot_div_nonneg by lia. split; [apply Z.div_pos; lia|].
    apply Z.div_le_upper_bound; lia. }
  unfold pad_envelope.
  assert (H3 : imul 3 bars = 3 * bars).
  { apply wrap64_id. unfold min_int, max_int in *. lia. }
  assert (Ha : iadd (len env) (3 * bars) = len env + 3 * bars).
  { apply wrap64_id. unfold min_int, max_int in *. lia. }
  rewrite H3, Ha, make_ret, bind_Ret by lia.
  rewrite copy_at_ret; [|lia|rewrite len_replicate by lia; lia].
  rewrite take_replicate, drop_replicate. unfold len in *.
  do 2 f_equal; [f_equal; lia|]. do 2 f_equal. lia.
Qed.

(** C4 (as the code has it). The padded envelope has [len(env) + 3*bars]
    entries; [env] is copied to the positions from [bars/2] on, so entry
    [bars/2 + i] is [env[i]], and every other entry, the [bars/2] before
    the envelope and the [3*bars - bars/2] after it, is zero. *)
Theorem C4_padding_layout (env : list float64) (bars : Z) :
  0 <= bars -> len env + 3 * bars <= max_int ->
  exists padded,
    pad_envelope env bars = Ret padded /\
    len padded = len env + 3 * bars /\
    (forall i, 0 <= i < len env ->
       padded !! Z.to_nat (Z.quot bars 2 + i) = env !! Z.to_nat i) /\
    (forall j, 0 <= j < len padded ->
       j < Z.quot bars 2 \/ Z.quot bars 2 + len env <= j ->
       padded !! Z.to_nat j = Some F64.zero).
Proof.
  intros Hb Hmax. pose proof (len_nonneg env) as Hl.
  assert (Hq : 0 <= Z.quot bars 2 <= bars).
  { rewrite Z.quot_div_nonneg by lia. split; [apply Z.div_pos; lia|].
    apply Z.div_le_upper_bound; lia. }
  eexists. split; [apply pad_envelope_shape; assumption|].
  split; [|split].
  - rewrite !len_app, !len_replicate by lia. lia.
  - intros i Hi.
    rewrite lookup_app_r by (rewrite length_replicate; lia).
    rewrite length_replicate.
    rewrite lookup_app_l by (unfold len in *; lia).
    f_equal. lia.
  - intros j Hj Hout. rewrite !len_app, !len_replicate in Hj by lia.
    destruct Hout as [Hlt|Hge].
    + rewrite lookup_app_l by (rewrite length_replicate; lia).
      apply lookup_replicate_2. lia.
    + rewrite lookup_app_r by (rewrite length_replicate; lia).
      rewrite length_replicate.
      rewrite lookup_app_r by (unfold len in *; lia).
      apply lookup_replicate_2. unfold len in *. lia.
Qed.

Lemma C4_padding_layout_witness :
  exists padded,
    pad_envelope [c1; c2] 2 = Ret padded /\
    len padded = len [c1; c2] + 3 * 2 /\
    (forall i, 0 <= i < len [c1; c2] ->
       padded !! Z.to_nat (Z.quot 2 2 + i) = [c1; c2] !! Z.to_nat i) /\
    (forall j, 0 <= j < len padded ->
       j < Z.quot 2 2 \/ Z.quot 2 2 + len [c1; c2] <= j ->
       padded !! Z.to_nat j = Some F64.zero).
Proof.
  apply (C4_padding_layout [c1; c2] 2); [lia|].
  vm_compute. congruence.
Defined.

(** C4 as stated fails: with [bars = 2] the padded envelope starts with a
    zero, so its entry 0 is not [env[0]]. *)
Lemma C4_prepend_counterexample :
  exists padded,
    pad_envelope [c1; c2] 2 = Ret padded /\
    padded !! 0%nat = Some F64.zero /\
    [c1; c2] !! 0%nat = Some c1 /\
    c1 <> F64.zero.
Proof.
  eexists. split; [vm_compute; reflexivity|].
  repeat split. vm_compute. discriminate.
Qed.

(** ** readAudio: what the decoding loops compute *)

(** The list [f 0, f 1, ..., f (n-1)]. *)
Definition tabulate {A} (n : Z) (f : Z -> A) : list A := f <$> seqZ 0 n.

Lemma tabulate_length {A} (n : Z) (f : Z -> A) : 0 <= n -> len (tabulate n f) = n.
Proof. intros. unfold tabulate, len. rewrite length_fmap, length_seqZ. lia. Qed.

Lemma tabulate_lookup {A} (n : Z) (f : Z -> A) (i : Z) :
  0 <= i < n -> tabulate n f !! Z.to_nat i = Some (f i).
Proof.
  intros Hi. unfold tabulate. rewrite list_lookup_fmap.
  rewrite (lookup_seqZ_lt 0 n (Z.to_nat i)) by lia. simpl. f_equal. f_equal. lia.
Qed.

Lemma tabulate_ext {A} (n : Z) (f g : Z -> A) :
  (forall i, 0 <= i < n -> f i = g i) -> tabulate n f = tabulate n g.
Proof.
  intros H. unfold tabulate. apply list_fmap_ext.
  intros k x Hk. apply lookup_seqZ in Hk. apply H. lia.
Qed.

Lemma tabulate_insert {A} (n : Z) (f : Z -> A) (k : Z) (v : A) :
  0 <= k < n ->
  <[Z.to_nat k := v]> (tabulate n f) =
  tabulate n (fun j => if j =? k then v else f j).
Proof.
  intros Hk. apply list_eq. intros j.
  destruct (decide (j < Z.to_nat n)%nat) as [Hj|Hj].
  - replace j with (Z.to_nat (Z.of_nat j)) by lia.
    rewrite (tabulate_lookup n _ (Z.of_nat j)) by lia.
    destruct (Z.eqb_spec (Z.of_nat j) k) as [->|Hne].
    + apply list_lookup_insert_eq. pose proof (tabulate_length n f). unfold len in *. lia.
    + rewrite list_lookup_insert_ne by lia. apply tabulate_lookup. lia.
  - rewrite !(proj2 (lookup_ge_None _ _)); [reflexivity| |].
    + pose proof (tabulate_length n (fun j => if j =? k then v else f j)).
      unfold len in *. lia.
    + rewrite length_insert. pose proof (tabulate_length n f). unfold len in *. lia.
Qed.

Lemma tabulate_const {A} (n : Z) (a : A) :
  replicate (Z.to_nat n) a = tabulate n (fun _ => a).
Proof.
  unfold tabulate. rewrite (const_fmap _ _ a) by reflexivity.
  now rewrite length_seqZ.
Qed.

(** The sample of channel [c] at position [i] of an interleaved buffer. *)
Definition sample_at (raw : list Byte.byte) (channels c i : Z) : float32 :=
  match Uint32 (take 4 (drop (Z.to_nat (4 * (i * channels + c))) raw)) with
  | Ret bits => Float32frombits bits
  | _ => F32.zero
  end.

Definition decoded (raw : list Byte.byte) (channels : Z) : list (list float32) :=
  let samples := len raw / 4 / channels in
  tabulate channels (fun c => tabulate samples (fun i => sample_at raw channels c i)).

Lemma Uint32_returns (b : list Byte.byte) :
  length b = 4%nat -> exists bits, Uint32 b = Ret bits.
Proof.
  destruct b as [|b0 [|b1 [|b2 [|b3 [|]]]]]; try discriminate.
  intros _. eexists. reflexivity.
Qed.

(** The matrix held by [wav] when the loops reach sample [i], channel [c]. *)
Definition decode_state (raw : list Byte.byte) (channels samples i c : Z)
  : list (list float32) :=
  tabulate channels (fun c' => tabulate samples (fun j =>
    if (j <? i) || ((j =? i) && (c' <? c))
    then sample_at raw channels c' j else F32.zero)).

Lemma decode_bounds (raw : list Byte.byte) (channels i c : Z) :
  0 < channels -> 0 <= i < len raw / 4 / channels -> 0 <= c < channels ->
  0 <= i * channels + c /\ 4 * (i * channels + c) + 4 <= len raw.
Proof.
  intros Hch Hi Hc.
  pose proof (Z.mul_div_le (len raw / 4) channels Hch).
  pose proof (Z.mul_div_le (len raw) 4 ltac:(lia)).
  split; [nia|].
  assert (i * channels + c + 1 <= (len raw / 4 / channels) * channels) by nia.
  lia.
Qed.

Lemma decode_step (raw : list Byte.byte) (channels i c : Z) :
  0 < channels -> len raw <= max_int ->
  0 <= i < len raw / 4 / channels -> 0 <= c < channels ->
  (let offset := imul 4 (iadd (imul i channels) c) in
   b ← slice raw offset (iadd offset 4);
   bits ← Uint32 b;
   set2 (decode_state raw channels (len raw / 4 / channels) i c) c i
        (Float32frombits bits)) =
  Ret (decode_state raw channels (len raw / 4 / channels) i (c + 1)).
Proof.
  intros Hch Hmax Hi Hc.
  destruct (decode_bounds raw channels i c Hch Hi Hc) as [Hlo Hhi].
  assert (Hic : 0 <= i * channels) by nia.
  assert (H1 : imul i channels = i * channels).
  { apply wrap64_id. unfold min_int, max_int in *. lia. }
  assert (H2 : iadd (i * channels) c = i * channels + c).
  { apply wrap64_id. unfold min_int, max_int in *. lia. }
  assert (H3 : imul 4 (i * channels + c) = 4 * (i * channels + c)).
  { apply wrap64_id. unfold min_int, max_int in *. lia. }
  assert (H4 : iadd (4 * (i * channels + c)) 4 = 4 * (i * channels + c) + 4).
  { apply wrap64_id. unfold min_int, max_int in *. lia. }
  cbv zeta. rewrite H1, H2, H3, H4.
  rewrite slice_ret, bind_Ret by lia.
  replace (Z.to_nat (4 * (i * channels + c) + 4 - 4 * (i * channels + c)))
    with 4%nat by lia.
  destruct (Uint32_returns (take 4 (drop (Z.to_nat (4 * (i * channels + c))) raw)))
    as [bits Hbits].
  { rewrite length_take, length_drop. unfold len in *. lia. }
  rewrite Hbits, bind_Ret.
  assert (Hs : sample_at raw channels c i = Float32frombits bits).
  { unfold sample_at. now rewrite Hbits. }
  unfold set2.
  destruct (Z.leb_spec 0 c); [|lia]. destruct (Z.leb_spec 0 i); [|lia]. simpl.
  unfold decode_state at 1. rewrite tabulate_lookup by lia.
  rewrite tabulate_length by lia.
  destruct (Z.ltb_spec i (len raw / 4 / channels)); [|lia].
  f_equal. unfold decode_state. rewrite tabulate_insert by lia.
  apply tabulate_ext. intros c' Hc'.
  destruct (Z.eqb_spec c' c) as [->|Hne].
  - rewrite tabulate_insert by lia. apply tabulate_ext. intros j Hj.
    destruct (Z.eqb_spec j i) as [->|Hji].
    + rewrite Z.ltb_irrefl. simpl.
      destruct (Z.ltb_spec c (c + 1)); [|lia]. now rewrite Hs.
    + simpl. destruct (j <? i); simpl; reflexivity.
  - apply tabulate_ext. intros j Hj.
    destruct (Z.eqb_spec j i) as [->|Hji]; simpl; [|reflexivity].
    rewrite !orb_false_l || idtac.
    destruct (Z.ltb_spec c' c), (Z.ltb_spec c' (c + 1)); try reflexivity; lia.
Qed.

Lemma decode_inner (raw : list Byte.byte) (channels i : Z) :
  0 < channels -> len raw <= max_int ->
  0 <= i < len raw / 4 / channels ->
  for_range 0 channels (fun c acc =>
      wav ← acc;
      let offset := imul 4 (iadd (imul i channels) c) in
      b ← slice raw offset (iadd offset 4);
      bits ← Uint32 b;
      set2 wav c i (Float32frombits bits))
    (Ret (decode_state raw channels (len raw / 4 / channels) i 0)) =
  Ret (decode_state raw channels (len raw / 4 / channels) (i + 1) 0).
Proof.
  intros Hch Hmax Hi.
  assert (Hend : decode_state raw channels (len raw / 4 / channels) (i + 1) 0 =
                 decode_state raw channels (len raw / 4 / channels) i channels).
  { unfold decode_state. apply tabulate_ext. intros c' Hc'.
    apply tabulate_ext. intros j Hj.
    destruct (Z.ltb_spec j (i + 1)), (Z.ltb_spec j i), (Z.eqb_spec j (i + 1)),
      (Z.eqb_spec j i), (Z.ltb_spec c' 0), (Z.ltb_spec c' channels);
      simpl; try reflexivity; lia. }
  rewrite Hend.
  apply (for_range_ind
           (fun c acc => acc = Ret (decode_state raw channels
                                      (len raw / 4 / channels) i c)));
    [lia | reflexivity |].
  intros c acc Hc ->. rewrite bind_Ret.
  apply (decode_step raw channels i c); assumption || lia.
Qed.

Lemma decodeAudio_decoded (raw : list Byte.byte) (channels : Z) :
  0 < channels -> len raw <= max_int ->
  decodeAudio raw channels = Ret (decoded raw channels).
Proof.
  intros Hch Hmax. pose proof (len_nonneg raw) as Hl.
  assert (Hq : 0 <= len raw / 4) by (apply Z.div_pos; lia).
  assert (Hs : 0 <= len raw / 4 / channels) by (apply Z.div_pos; lia).
  assert (Hq' : len raw / 4 <= len raw) by (apply Z.div_le_upper_bound; lia).
  assert (Hs' : len raw / 4 / channels <= len raw / 4)
    by (apply Z.div_le_upper_bound; nia).
  unfold decodeAudio, idiv. simpl (4 =? 0). cbv iota.
  rewrite bind_Ret, (Z.quot_div_nonneg (len raw) 4) by lia.
  rewrite (wrap64_id (len raw / 4)) by (unfold min_int, max_int in *; lia).
  destruct (Z.eqb_spec channels 0); [lia|].
  rewrite bind_Ret, (Z.quot_div_nonneg (len raw / 4) channels) by lia.
  rewrite (wrap64_id (len raw / 4 / channels)) by (unfold min_int, max_int in *; lia).
  rewrite (make_ret (A := list float32)), bind_Ret by lia.
  rewrite make_ret, bind_Ret by lia.
  rewrite fmap_replicate, !tabulate_const.
  assert (Hinit : tabulate channels (fun _ => tabulate (len raw / 4 / channels)
                                        (fun _ => F32.zero)) =
                  decode_state raw channels (len raw / 4 / channels) 0 0).
  { unfold decode_state. apply tabulate_ext. intros c' Hc'.
    apply tabulate_ext. intros j Hj.
    destruct (Z.ltb_spec j 0), (Z.eqb_spec j 0), (Z.ltb_spec c' 0);
      simpl; try reflexivity; lia. }
  rewrite Hinit.
  assert (Hfin : decoded raw channels =
                 decode_state raw channels (len raw / 4 / channels)
                   (len raw / 4 / channels) 0).
  { unfold decoded, decode_state. apply tabulate_ext. intros c' Hc'.
    apply tabulate_ext. intros j Hj.
    destruct (Z.ltb_spec j (len raw / 4 / channels)); [reflexivity | lia]. }
  rewrite Hfin.
  apply (for_range_ind
           (fun i acc => acc = Ret (decode_state raw channels
                                      (len raw / 4 / channels) i 0)));
    [lia | reflexivity |].
  intros i acc Hi ->. apply decode_inner; assumption || lia.
Qed.

Lemma sample_at_take (raw : list Byte.byte) (channels c i : Z) (n : nat) :
  (Z.to_nat (4 * (i * channels + c)) + 4 <= n)%nat ->
  sample_at (take n raw) channels c i = sample_at raw channels c i.
Proof.
  intros Hn. unfold sample_at.
  rewrite skipn_firstn_comm, take_take.
  now replace (4 `min` (n - Z.to_nat (4 * (i * channels + c))))%nat with 4%nat by lia.
Qed.

(** A byte as a number. *)
Definition byte_val (b : Byte.byte) : Z := Z.of_N (Byte.to_N b).

Lemma byte_val_range (b : Byte.byte) : 0 <= byte_val b < 256.
Proof. unfold byte_val. pose proof (Byte.to_N_bounded b). lia. Qed.

Lemma lor_shiftl_add (a b n : Z) :
  0 <= n -> 0 <= a < 2 ^ n -> Z.lor a (Z.shiftl b n) = a + b * 2 ^ n.
Proof.
  intros Hn Ha. rewrite <- Z.shiftl_mul_pow2 by assumption.
  symmetry. apply Z.add_nocarry_lor.
  apply Z.bits_inj'. intros k Hk. rewrite Z.land_spec, Z.bits_0.
  destruct (Z.lt_ge_cases k n) as [Hlt|Hge].
  - rewrite (Z.shiftl_spec_low b n k Hlt). apply andb_false_r.
  - rewrite <- (Z.mod_small a (2 ^ n)) by assumption.
    rewrite Z.mod_pow2_bits_high by lia. reflexivity.
Qed.

(** [binary.LittleEndian.Uint32]: the first byte is the least significant. *)
Lemma Uint32_little_endian (b0 b1 b2 b3 : Byte.byte) (rest : list Byte.byte) :
  Uint32 (b0 :: b1 :: b2 :: b3 :: rest) =
  Ret (byte_val b0 + 2 ^ 8 * byte_val b1 + 2 ^ 16 * byte_val b2 +
       2 ^ 24 * byte_val b3).
Proof.
  unfold Uint32. fold (byte_val b0) (byte_val b1) (byte_val b2) (byte_val b3).
  pose proof (byte_val_range b0). pose proof (byte_val_range b1).
  pose proof (byte_val_range b2). pose proof (byte_val_range b3).
  f_equal.
  generalize dependent (byte_val b3). generalize dependent (byte_val b2).
  generalize dependent (byte_val b1). generalize dependent (byte_val b0).
  intros v0 H0 v1 H1 v2 H2 v3 H3.
  replace (Z.shiftl v3 24) with (Z.shiftl (Z.shiftl v3 8) 16)
    by (rewrite Z.shiftl_shiftl by lia; reflexivity).
  rewrite <- Z.shiftl_lor, (lor_shiftl_add v2 v3 8) by lia.
  replace (Z.shiftl (v2 + v3 * 2 ^ 8) 16) with (Z.shiftl (Z.shiftl (v2 + v3 * 2 ^ 8) 8) 8)
    by (rewrite Z.shiftl_shiftl by lia; reflexivity).
  rewrite <- Z.shiftl_lor, (lor_shiftl_add v1 _ 8) by lia.
  rewrite (lor_shiftl_add v0 _ 8) by lia. lia.
Qed.

Lemma four_bytes (raw : list Byte.byte) (off : nat) :
  (off + 4 <= length raw)%nat ->
  exists b0 b1 b2 b3,
    raw !! off = Some b0 /\ raw !! (off + 1)%nat = Some b1 /\
    raw !! (off + 2)%nat = Some b2 /\ raw !! (off + 3)%nat = Some b3 /\
    take 4 (drop off raw) = [b0; b1; b2; b3].
Proof.
  intros H.
  destruct (lookup_lt_is_Some_2 raw off ltac:(lia)) as [b0 H0].
  destruct (lookup_lt_is_Some_2 raw (off + 1) ltac:(lia)) as [b1 H1].
  destruct (lookup_lt_is_Some_2 raw (off + 2) ltac:(lia)) as [b2 H2].
  destruct (lookup_lt_is_Some_2 raw (off + 3) ltac:(lia)) as [b3 H3].
  exists b0, b1, b2, b3. repeat split; try assumption.
  rewrite (drop_S _ _ _ H0).
  replace (S off) with (off + 1)%nat by lia. rewrite (drop_S _ _ _ H1).
  replace (S (off + 1)) with (off + 2)%nat by lia. rewrite (drop_S _ _ _ H2).
  replace (S (off + 2)) with (off + 3)%nat by lia. rewrite (drop_S _ _ _ H3).
  reflexivity.
Qed.

(** The sample that the loops store at [wav[c][i]], from the bytes of the
    buffer. *)
Lemma decoded_sample (raw : list Byte.byte) (channels c i : Z) :
  0 < channels -> 0 <= c < channels -> 0 <= i < len raw / 4 / channels ->
  exists b0 b1 b2 b3,
    raw !! Z.to_nat (4 * (i * channels + c)) = Some b0 /\
    raw !! Z.to_nat (4 * (i * channels + c) + 1) = Some b1 /\
    raw !! Z.to_nat (4 * (i * channels + c) + 2) = Some b2 /\
    raw !! Z.to_nat (4 * (i * channels + c) + 3) = Some b3 /\
    sample_at raw channels c i =
      Float32frombits (byte_val b0 + 2 ^ 8 * byte_val b1 +
                       2 ^ 16 * byte_val b2 + 2 ^ 24 * byte_val b3).
Proof.
  intros Hch Hc Hi.
  destruct (decode_bounds raw channels i c Hch Hi Hc) as [Hlo Hhi].
  destruct (four_bytes raw (Z.to_nat (4 * (i * channels + c))))
    as (b0 & b1 & b2 & b3 & H0 & H1 & H2 & H3 & Htake).
  { unfold len in Hhi. lia. }
  exists b0, b1, b2, b3.
  split; [exact H0|].
  split; [rewrite <- H1; f_equal; lia|].
  split; [rewrite <- H2; f_equal; lia|].
  split; [rewrite <- H3; f_equal; lia|].
  unfold sample_at. rewrite Htake, Uint32_little_endian. reflexivity.
Qed.

(** C10. For a stream of [channels > 0] channels the decoding returns for
    every length of the raw buffer: each channel gets
    [floor(len(raw) / (4*channels))] samples; sample [i] of channel [c] is
    the float32 whose bit pattern is the little-endian number held by the
    four bytes at offset [4*(i*channels + c)] of the buffer; and the result
    is the one of the buffer cut down to that many whole frames, so the
    bytes after the last whole frame play no part. *)
Theorem C10_trailing_bytes_ignored (raw : list Byte.byte) (channels : Z) :
  0 < channels -> len raw <= max_int ->
  exists wav,
    decodeAudio raw channels = Ret wav /\
    len wav = channels /\
    Forall (fun ch => len ch = len raw / (4 * channels)) wav /\
    (forall c i, 0 <= c < channels -> 0 <= i < len raw / (4 * channels) ->
       exists ch b0 b1 b2 b3,
         wav !! Z.to_nat c = Some ch /\
         raw !! Z.to_nat (4 * (i * channels + c)) = Some b0 /\
         raw !! Z.to_nat (4 * (i * channels + c) + 1) = Some b1 /\
         raw !! Z.to_nat (4 * (i * channels + c) + 2) = Some b2 /\
         raw !! Z.to_nat (4 * (i * channels + c) + 3) = Some b3 /\
         ch !! Z.to_nat i =
           Some (Float32frombits (byte_val b0 + 2 ^ 8 * byte_val b1 +
                                  2 ^ 16 * byte_val b2 + 2 ^ 24 * byte_val b3))) /\
    decodeAudio
      (take (Z.to_nat (4 * channels * (len raw / (4 * channels)))) raw)
      channels = Ret wav.
Proof.
  intros Hch Hmax. pose proof (len_nonneg raw) as Hl.
  assert (Hdd : len raw / 4 / channels = len raw / (4 * channels))
    by (apply Z.div_div; lia).
  assert (Hs : 0 <= len raw / (4 * channels)) by (apply Z.div_pos; lia).
  pose proof (Z.mul_div_le (len raw) (4 * channels) ltac:(lia)) as Hle.
  exists (decoded raw channels).
  split; [apply decodeAudio_decoded; assumption|].
  split; [apply tabulate_length; lia|]. split; [|split].
  - apply Forall_forall. intros ch Hin. unfold decoded, tabulate in Hin.
    apply list_elem_of_fmap in Hin.
    destruct Hin as (c & -> & _).
    rewrite <- Hdd. apply tabulate_length. lia.
  - intros c i Hc Hi. rewrite <- Hdd in Hi.
    destruct (decoded_sample raw channels c i Hch Hc Hi)
      as (b0 & b1 & b2 & b3 & H0 & H1 & H2 & H3 & Hv).
    eexists _, b0, b1, b2, b3.
    split; [unfold decoded; apply tabulate_lookup; lia|].
    repeat (split; [assumption|]).
    rewrite tabulate_lookup by lia. f_equal. exact Hv.
  - set (n := Z.to_nat (4 * channels * (len raw / (4 * channels)))).
    assert (Hlen : len (take n raw) = 4 * channels * (len raw / (4 * channels))).
    { unfold len in *. rewrite length_take. lia. }
    rewrite decodeAudio_decoded by (assumption || lia).
    f_equal. unfold decoded. rewrite Hlen.
    replace (4 * channels * (len raw / (4 * channels)) / 4 / channels)
      with (len raw / 4 / channels).
    2:{ rewrite Hdd, Z.div_div by lia.
        rewrite (Z.mul_comm (4 * channels)), Z.div_mul; lia. }
    apply tabulate_ext. intros c Hc. apply tabulate_ext. intros i Hi.
    apply sample_at_take.
    destruct (decode_bounds raw channels i c Hch Hi Hc) as [Hlo _].
    rewrite Hdd in Hi.
    assert (i * channels + c + 1 <= (len raw / (4 * channels)) * channels) by nia.
    unfold n. lia.
Qed.

(** A buffer of ten bytes for two channels: one whole frame and two
    trailing bytes. *)
Definition ten_bytes : list Byte.byte :=
  [x00; x00; x80; x3f; x00; x00; x00; x40; x12; x34].

Lemma C10_trailing_bytes_ignored_witness :
  exists wav,
    decodeAudio ten_bytes 2 = Ret wav /\
    len wav = 2 /\
    Forall (fun ch => len ch = len ten_bytes / (4 * 2)) wav /\
    (forall c i, 0 <= c < 2 -> 0 <= i < len ten_bytes / (4 * 2) ->
       exists ch b0 b1 b2 b3,
         wav !! Z.to_nat c = Some ch /\
         ten_bytes !! Z.to_nat (4 * (i * 2 + c)) = Some b0 /\
         ten_bytes !! Z.to_nat (4 * (i * 2 + c) + 1) = Some b1 /\
         ten_bytes !! Z.to_nat (4 * (i * 2 + c) + 2) = Some b2 /\
         ten_bytes !! Z.to_nat (4 * (i * 2 + c) + 3) = Some b3 /\
         ch !! Z.to_nat i =
           Some (Float32frombits (byte_val b0 + 2 ^ 8 * byte_val b1 +
                                  2 ^ 16 * byte_val b2 + 2 ^ 24 * byte_val b3))) /\
    decodeAudio (take (Z.to_nat (4 * 2 * (len ten_bytes / (4 * 2)))) ten_bytes) 2
      = Ret wav.
Proof.
  apply (C10_trailing_bytes_ignored ten_bytes 2); [lia|]. vm_compute. congruence.
Defined.

Example decode_ten_bytes :
  decodeAudio ten_bytes 2 =
  Ret [[f32_one]; [S754_finite false 8388608 (-22)]].
Proof. vm_compute. reflexivity. Qed.

(** ** The Bar Renderer *)

(** The pixel buffer matches the bounds. *)
Definition well_formed (img : Image) : Prop :=
  Stride img = Dx (Bounds img) /\
  0 <= Dx (Bounds img) /\ 0 <= Dy (Bounds img) /\
  len (Pix img) = Dx (Bounds img) * Dy (Bounds img).

Lemma inside_spec (r : Rectangle) (x y : Z) :
  inside r x y = true <-> MinX r <= x < MaxX r /\ MinY r <= y < MaxY r.
Proof. unfold inside. rewrite !andb_true_iff. lia. Qed.

Lemma Rect_nonneg (w h : Z) : 0 <= w -> 0 <= h -> Rect 0 0 w h = mkRect 0 0 w h.
Proof.
  intros. unfold Rect.
  destruct (Z.ltb_spec w 0), (Z.ltb_spec h 0); try lia; reflexivity.
Qed.

Lemma NewRGBA_well_formed (w h : Z) :
  0 <= w -> 0 <= h -> well_formed (NewRGBA (mkRect 0 0 w h)).
Proof.
  intros. unfold well_formed, NewRGBA, Dx, Dy. simpl.
  rewrite !Z.sub_0_r. repeat split; try lia.
  apply len_replicate. nia.
Qed.

Lemma Set_Bounds (x y : Z) (c : RGBA) (img : Image) :
  Bounds (Set_ x y c img) = Bounds img.
Proof. unfold Set_. now destruct (inside _ _ _). Qed.

Lemma Set_well_formed (x y : Z) (c : RGBA) (img : Image) :
  well_formed img -> well_formed (Set_ x y c img).
Proof.
  unfold well_formed, Set_. destruct (inside _ _ _); [|easy].
  simpl. unfold len. now rewrite length_insert.
Qed.

Lemma PixOffset_inj (img : Image) (x y x' y' : Z) :
  well_formed img ->
  inside (Bounds img) x y = true -> inside (Bounds img) x' y' = true ->
  PixOffset img x y = PixOffset img x' y' -> x = x' /\ y = y'.
Proof.
  intros (Hs & Hx & Hy & _) Hin Hin'.
  apply inside_spec in Hin. apply inside_spec in Hin'.
  unfold PixOffset. rewrite Hs. unfold Dx, Dy in *.
  intros Heq.
  assert (Hz : (y - MinY (Bounds img)) * (MaxX (Bounds img) - MinX (Bounds img))
               + (x - MinX (Bounds img)) =
               (y' - MinY (Bounds img)) * (MaxX (Bounds img) - MinX (Bounds img))
               + (x' - MinX (Bounds img))) by nia.
  assert (y - MinY (Bounds img) = y' - MinY (Bounds img)) by nia.
  lia.
Qed.

Lemma PixOffset_lt (img : Image) (x y : Z) :
  well_formed img -> inside (Bounds img) x y = true ->
  (PixOffset img x y < length (Pix img))%nat.
Proof.
  intros (Hs & Hx & Hy & Hl) Hin. apply inside_spec in Hin.
  unfold PixOffset, len, Dx, Dy in *. rewrite Hs. nia.
Qed.

Lemma At_Set_eq (x y : Z) (c : RGBA) (img : Image) :
  well_formed img -> inside (Bounds img) x y = true ->
  At (Set_ x y c img) x y = c.
Proof.
  intros Hwf Hin. unfold At. rewrite Set_Bounds, Hin.
  unfold Set_. rewrite Hin. unfold PixOffset at 1. simpl.
  fold (PixOffset img x y).
  now rewrite list_lookup_insert_eq by (apply PixOffset_lt; assumption).
Qed.

Lemma At_Set_ne (x y x' y' : Z) (c : RGBA) (img : Image) :
  well_formed img -> (x', y') <> (x, y) ->
  At (Set_ x y c img) x' y' = At img x' y'.
Proof.
  intros Hwf Hne. unfold At. rewrite Set_Bounds.
  destruct (inside (Bounds img) x' y') eqn:Hin'; [|reflexivity].
  unfold Set_. destruct (inside (Bounds img) x y) eqn:Hin; [|reflexivity].
  unfold PixOffset at 1. simpl. fold (PixOffset img x' y').
  rewrite list_lookup_insert_ne; [reflexivity|].
  intros Heq. apply Hne.
  destruct (PixOffset_inj img x y x' y' Hwf Hin Hin' Heq) as [-> ->]. reflexivity.
Qed.

(** A nest of two loops that sets the pixels [(f dx, y)] for
    [ylo <= y < yhi] and [0 <= dx < n] leaves every other pixel alone. *)
Lemma paint_frame (f : Z -> Z) (c : RGBA) (ylo yhi n : Z) (img : Image) :
  well_formed img ->
  let img' :=
    for_range ylo yhi (fun y img =>
      for_range 0 n (fun dx img => Set_ (f dx) y c img) img) img in
  well_formed img' /\ Bounds img' = Bounds img /\
  forall x y,
    ~ (ylo <= y < yhi /\ exists dx, 0 <= dx < n /\ x = f dx) ->
    At img' x y = At img x y.
Proof.
  intros Hwf. cbv zeta.
  apply (for_range_preserves
           (fun img' => well_formed img' /\ Bounds img' = Bounds img /\
              forall x y,
                ~ (ylo <= y < yhi /\ exists dx, 0 <= dx < n /\ x = f dx) ->
                At img' x y = At img x y)); [easy|].
  intros y0 img0 Hy0 IH0.
  apply (for_range_preserves
           (fun img' => well_formed img' /\ Bounds img' = Bounds img /\
              forall x y,
                ~ (ylo <= y < yhi /\ exists dx, 0 <= dx < n /\ x = f dx) ->
                At img' x y = At img x y)); [exact IH0|].
  intros dx img1 Hdx (Hwf1 & Hb1 & Hat1).
  split; [now apply Set_well_formed|]. split; [now rewrite Set_Bounds|].
  intros x y Hnot. rewrite At_Set_ne; [now apply Hat1 | assumption |].
  intros [= -> ->]. apply Hnot. split; [lia|]. exists dx. split; [lia | reflexivity].
Qed.

(** Filling the canvas gives every pixel the background colour. *)
Lemma fill_all (bgColor : RGBA) (w h : Z) :
  0 <= w -> 0 <= h ->
  let img := fill bgColor w h (NewRGBA (mkRect 0 0 w h)) in
  well_formed img /\ Bounds img = mkRect 0 0 w h /\
  forall x y, 0 <= x < w -> 0 <= y < h -> At img x y = bgColor.
Proof.
  intros Hw Hh. cbv zeta. unfold fill.
  set (r := mkRect 0 0 w h).
  pose (P := fun (y : Z) (img : Image) =>
       well_formed img /\ Bounds img = r /\
       forall x' y', 0 <= x' < w -> 0 <= y' < y -> At img x' y' = bgColor).
  assert (Hgoal : P h (for_range 0 h (fun y img =>
           for_range 0 w (fun x img => Set_ x y bgColor img) img) (NewRGBA r))).
  { apply (for_range_ind P); [lia | |].
    - split; [now apply NewRGBA_well_formed|]. split; [reflexivity|]. intros; lia.
    - intros y img Hy (Hwf & Hb & Hrows).
      pose (Q := fun (x : Z) (img' : Image) =>
           well_formed img' /\ Bounds img' = r /\
           (forall x' y', 0 <= x' < w -> 0 <= y' < y -> At img' x' y' = bgColor) /\
           (forall x', 0 <= x' < x -> At img' x' y = bgColor)).
      assert (Hinner : Q w (for_range 0 w (fun x img => Set_ x y bgColor img) img)).
      { apply (for_range_ind Q); [lia | |].
        - repeat split; try assumption; try apply Hwf. intros; lia.
        - intros x img' Hx (Hwf' & Hb' & Hrows' & Hrow').
          split; [now apply Set_well_formed|]. split; [now rewrite Set_Bounds|].
          split.
          + intros x' y' Hx' Hy'. rewrite At_Set_ne; [now apply Hrows' | assumption |].
            intros [= -> ->]. lia.
          + intros x' Hx'. destruct (Z.eq_dec x' x) as [->|Hne].
            * apply At_Set_eq; [assumption|]. rewrite Hb'.
              apply inside_spec. simpl. lia.
            * rewrite At_Set_ne; [apply Hrow'; lia | assumption |].
              intros [= ->]. lia. }
      destruct Hinner as (Hwf' & Hb' & Hrows' & Hrow').
      split; [assumption|]. split; [assumption|].
      intros x' y' Hx' Hy'. destruct (Z.eq_dec y' y) as [->|Hne].
      + now apply Hrow'.
      + apply Hrows'; lia. }
  exact Hgoal.
Qed.

Section RenderFrame.
Context {M : MathLib}.

(** The pixels of the two rectangles of bar [i] with value [e]. *)
Definition bar_pixels (height : Z) (barWidth actualWidth pad : float64)
    (i : Z) (e : float64) (x y : Z) : Prop :=
  (exists dx, 0 <= dx < int actualWidth /\ x = iadd (bar_x barWidth pad i) dx) /\
  (upper_from height e <= y < Z.quot height 2 \/
   Z.quot height 2 <= y < lower_to height e).

Definition in_bar (n width height : Z) (i : Z) (e : float64) (x y : Z) : Prop :=
  let '(barWidth, actualWidth, pad) := bar_geometry n width in
  bar_pixels height barWidth actualWidth pad i e x y.

Lemma draw_bar_frame (fg : RGBA) (height : Z) (bw aw pad : float64)
    (i : Z) (e : float64) (img : Image) :
  well_formed img ->
  well_formed (draw_bar fg height bw aw pad i e img) /\
  Bounds (draw_bar fg height bw aw pad i e img) = Bounds img /\
  forall x y, ~ bar_pixels height bw aw pad i e x y ->
    At (draw_bar fg height bw aw pad i e img) x y = At img x y.
Proof.
  intros Hwf. unfold draw_bar. cbv zeta.
  destruct (paint_frame (fun dx => iadd (bar_x bw pad i) dx) fg
              (upper_from height e) (Z.quot height 2) (int aw) img Hwf)
    as (Hwf1 & Hb1 & Hat1).
  destruct (paint_frame (fun dx => iadd (bar_x bw pad i) dx)
              (mkRGBA (cR fg) (cG fg) (cB fg) 204)
              (Z.quot height 2) (lower_to height e) (int aw) _ Hwf1)
    as (Hwf2 & Hb2 & Hat2).
  split; [exact Hwf2|]. split; [now rewrite Hb2|].
  intros x y Hnot. rewrite Hat2, Hat1; [reflexivity | |];
    intros [Hy Hx]; apply Hnot; split; auto.
Qed.

Lemma draw_bars_frame (fg : RGBA) (height : Z) (bw aw pad : float64) :
  forall (env : list float64) (i0 : Z) (img : Image),
    well_formed img ->
    well_formed (range_from i0 (draw_bar fg height bw aw pad) env img) /\
    Bounds (range_from i0 (draw_bar fg height bw aw pad) env img) = Bounds img /\
    forall x y,
      (forall (k : nat) e, env !! k = Some e ->
         ~ bar_pixels height bw aw pad (i0 + Z.of_nat k) e x y) ->
      At (range_from i0 (draw_bar fg height bw aw pad) env img) x y = At img x y.
Proof.
  induction env as [|e env IH]; intros i0 img Hwf; simpl.
  - repeat split; try apply Hwf. 
  - destruct (draw_bar_frame fg height bw aw pad i0 e img Hwf) as (Hwf1 & Hb1 & Hat1).
    destruct (IH (i0 + 1) _ Hwf1) as (Hwf2 & Hb2 & Hat2).
    split; [exact Hwf2|]. split; [now rewrite Hb2|].
    intros x y Hnot. rewrite Hat2, Hat1; [reflexivity | |].
    + specialize (Hnot 0%nat e eq_refl). now rewrite Z.add_0_r in Hnot.
    + intros k e' Hk. specialize (Hnot (S k) e' Hk).
      now replace (i0 + 1 + Z.of_nat k) with (i0 + Z.of_nat (S k)) by lia.
Qed.

Lemma drawEnv_frame (env : list float64) (fg bg : RGBA) (w h : Z) :
  0 <= w -> 0 <= h ->
  well_formed (drawEnv env fg bg w h) /\
  Bounds (drawEnv env fg bg w h) = mkRect 0 0 w h /\
  forall x y, 0 <= x < w -> 0 <= y < h ->
    (forall (i : nat) e, env !! i = Some e ->
       ~ in_bar (len env) w h (Z.of_nat i) e x y) ->
    At (drawEnv env fg bg w h) x y = bg.
Proof.
  intros Hw Hh. unfold drawEnv, in_bar.
  rewrite Rect_nonneg by assumption.
  destruct (bar_geometry (len env) w) as [[bw aw] pad].
  destruct (fill_all bg w h Hw Hh) as (Hwf & Hb & Hall).
  destruct (draw_bars_frame fg h bw aw pad env 0 _ Hwf) as (Hwf' & Hb' & Hat').
  split; [exact Hwf'|]. split; [now rewrite Hb'|].
  intros x y Hx Hy Hnot. rewrite Hat'; [now apply Hall|].
  intros k e Hk. rewrite Z.add_0_l. now apply Hnot.
Qed.
End RenderFrame.

(** C8. For every bar vector and every requested size the rendered image
    has the bounds [(0,0)-(width,height)], that is [width] columns and
    [height] rows with one pixel each, and every pixel that lies in none
    of the rectangles drawn for the bars has the background colour. *)
Theorem C8_render_background {M : MathLib} (env : list float64)
    (fg bg : RGBA) (w h : Z) :
  0 <= w -> 0 <= h ->
  let img := drawEnv env fg bg w h in
  Bounds img = mkRect 0 0 w h /\
  Dx (Bounds img) = w /\ Dy (Bounds img) = h /\
  len (Pix img) = w * h /\
  forall x y, 0 <= x < w -> 0 <= y < h ->
    (forall (i : nat) e, env !! i = Some e ->
       ~ in_bar (len env) w h (Z.of_nat i) e x y) ->
    At img x y = bg.
Proof.
  intros Hw Hh. cbv zeta.
  destruct (drawEnv_frame env fg bg w h Hw Hh) as ((Hs & Hx & Hy & Hl) & Hb & Hat).
  rewrite Hb in *. unfold Dx, Dy in *. simpl in *.
  repeat split; try lia. exact Hat.
Qed.

Definition teal : RGBA := mkRGBA 0 125 156 255.
Definition black : RGBA := mkRGBA 0 0 0 255.

Lemma C8_render_background_witness :
  let img := drawEnv (M := ref_math) [c1; c0_5] teal black 8 6 in
  Bounds img = mkRect 0 0 8 6 /\
  Dx (Bounds img) = 8 /\ Dy (Bounds img) = 6 /\
  len (Pix img) = 8 * 6 /\
  forall x y, 0 <= x < 8 -> 0 <= y < 6 ->
    (forall (i : nat) e, [c1; c0_5] !! i = Some e ->
       ~ in_bar (M := ref_math) (len [c1; c0_5]) 8 6 (Z.of_nat i) e x y) ->
    At img x y = black.
Proof.
  apply (C8_render_background (M := ref_math) [c1; c0_5] teal black 8 6); lia.
Defined.

(** ** What the library documents about its functions *)

Definition valid64 (x : float64) : Prop := valid_binary F64.prec F64.emax x = true.

Definition is_finite (x : spec_float) : bool :=
  match x with
  | S754_zero _ | S754_finite _ _ _ => true
  | _ => false
  end.

(** [x] is zero, a positive number or plus infinity. *)
Definition sign_pos (x : spec_float) : bool :=
  match x with
  | S754_zero false | S754_finite false _ _ | S754_infinity false => true
  | _ => false
  end.

Class MathLaws (M : MathLib) : Prop := {
  (** [Exp(NaN) = NaN], and no other argument gives NaN; the result is a
      float64 that is never negative. *)
  exp_nan : Exp S754_nan = S754_nan;
  exp_pos : forall x, F64.is_nan x = false ->
              valid64 (Exp x) /\ sign_pos (Exp x) = true;
  (** [e^x <= 1] for [x <= 0], and [e^0 = 1] exactly. *)
  exp_le_1 : forall x, F64.leb x F64.zero = true -> F64.leb (Exp x) c1 = true;
  exp_zero : forall s, Exp (S754_zero s) = c1;
  (** [Cos(NaN) = NaN] and [Cos(+-Inf) = NaN]; the cosine of a finite number
      is in [[-1, 1]]. *)
  cos_nan : Cos S754_nan = S754_nan;
  cos_inf : forall s, Cos (S754_infinity s) = S754_nan;
  cos_range : forall x, is_finite x = true ->
                valid64 (Cos x) /\
                F64.leb (F64.neg c1) (Cos x) = true /\ F64.leb (Cos x) c1 = true;
  (** The logarithm of a positive number is a float64 that is not NaN. *)
  log10_pos : forall m e,
      valid64 (Log10 (S754_finite false m e)) /\
      F64.is_nan (Log10 (S754_finite false m e)) = false
}.

Lemma exp_guard_pos (x y : float64) :
  F64.is_nan x = false ->
  valid64 (RefMath.exp_guard x y) /\ sign_pos (RefMath.exp_guard x y) = true.
Proof.
  intros Hx. unfold RefMath.exp_guard. rewrite Hx.
  destruct (F64.leb x F64.zero).
  - destruct (RefMath.valid64 y) eqn:Hv; [|split; reflexivity].
    destruct (RefMath.sign_pos y) eqn:Hs; [|split; reflexivity].
    destruct (F64.leb y c1); split; try reflexivity; assumption.
  - destruct (RefMath.valid64 y) eqn:Hv; [|split; reflexivity].
    destruct (RefMath.sign_pos y) eqn:Hs; split; try reflexivity; assumption.
Qed.

Lemma exp_guard_le_1 (x y : float64) :
  F64.leb x F64.zero = true -> F64.leb (RefMath.exp_guard x y) c1 = true.
Proof.
  intros Hx. unfold RefMath.exp_guard. rewrite Hx.
  assert (F64.is_nan x = false) as -> by (destruct x; easy).
  destruct (RefMath.valid64 y); [|reflexivity].
  destruct (RefMath.sign_pos y); [|reflexivity].
  cbv beta iota delta [andb].
  destruct (F64.leb y c1) eqn:Hle; [exact Hle | reflexivity].
Qed.

Lemma ref_exp_zero (s : bool) : RefMath.exp (S754_zero s) = c1.
Proof. destruct s; vm_compute; reflexivity. Qed.

Lemma cos_guard_range (x y : float64) :
  is_finite x = true ->
  valid64 (RefMath.cos_guard x y) /\
  F64.leb (F64.neg c1) (RefMath.cos_guard x y) = true /\
  F64.leb (RefMath.cos_guard x y) c1 = true.
Proof.
  intros Hx. unfold RefMath.cos_guard.
  assert (Hg : valid64 (if RefMath.valid64 y && F64.leb (F64.neg c1) y && F64.leb y c1
                        then y else F64.zero) /\
          F64.leb (F64.neg c1)
            (if RefMath.valid64 y && F64.leb (F64.neg c1) y && F64.leb y c1
             then y else F64.zero) = true /\
          F64.leb (if RefMath.valid64 y && F64.leb (F64.neg c1) y && F64.leb y c1
                   then y else F64.zero) c1 = true).
  { destruct (RefMath.valid64 y) eqn:Hv; [|repeat split; reflexivity].
    destruct (F64.leb (F64.neg c1) y) eqn:H1; [|repeat split; reflexivity].
    destruct (F64.leb y c1) eqn:H2; repeat split; try reflexivity; assumption. }
  destruct x; try discriminate; exact Hg.
Qed.

Lemma log10_guard_pos (m : positive) (e : Z) (y : float64) :
  valid64 (RefMath.log10_guard (S754_finite false m e) y) /\
  F64.is_nan (RefMath.log10_guard (S754_finite false m e) y) = false.
Proof.
  unfold RefMath.log10_guard.
  destruct (RefMath.valid64 y) eqn:Hv; [|split; reflexivity].
  destruct (F64.is_nan y) eqn:Hn; split; try reflexivity; assumption.
Qed.

Lemma ref_math_laws : MathLaws ref_math.
Proof.
  constructor.
  - reflexivity.
  - intros x. apply exp_guard_pos.
  - intros x. apply exp_guard_le_1.
  - exact ref_exp_zero.
  - reflexivity.
  - reflexivity.
  - intros x. apply cos_guard_range.
  - intros m e. apply log10_guard_pos.
Qed.


(** ** A single bar *)

Lemma int_range {M : MathLib} (x : float64) : min_int <= int x <= max_int.
Proof.
  unfold int, int_of_f64.
  destruct (trunc_float x) as [z|]; [|apply wrap64_range].
  destruct (in_int z) eqn:Hz; [|apply wrap64_range].
  unfold in_int in Hz. apply andb_true_iff in Hz. lia.
Qed.

Lemma mul_nan_r (x : float64) : F64.mul x S754_nan = S754_nan.
Proof. destruct x; reflexivity. Qed.

Lemma taper_single {M : MathLib} {L : MathLaws M} : taper 0 1 = S754_nan.
Proof.
  unfold taper.
  replace (F64.div (F64.mul two_pi (F64.of_int 0)) (F64.of_int (isub 1 1)))
    with S754_nan by (vm_compute; reflexivity).
  rewrite cos_nan. reflexivity.
Qed.

Lemma take_1_drop {A} (l : list A) (k : nat) :
  (k < length l)%nat -> exists a, take 1 (drop k l) = [a].
Proof.
  intros Hk. destruct (drop k l) as [|a r] eqn:Hd.
  - apply (f_equal length) in Hd. rewrite length_drop in Hd. simpl in Hd. lia.
  - exists a. reflexivity.
Qed.

Lemma frame_bars_single {M : MathLib} {L : MathLaws M}
    (env : list float64) (sr : float64) (rate stride : Z) (speed : float64)
    (idx : Z) :
  len env <= max_int ->
  0 <= int (frame_pos sr rate stride 1 idx) ->
  int (frame_pos sr rate stride 1 idx) + 2 <= len env ->
  frame_bars env sr rate 1 stride speed idx = Ret [S754_nan].
Proof.
  intros Hmax Hlo Hhi. unfold frame_bars. cbv zeta.
  set (off := int (frame_pos sr rate stride 1 idx)) in *.
  assert (H1 : iadd off 1 = off + 1)
    by (apply wrap64_id; unfold min_int, max_int in *; lia).
  assert (H2 : iadd off 2 = off + 2)
    by (apply wrap64_id; unfold min_int, max_int in *; lia).
  assert (H3 : forall z, 0 <= z <= len env -> imul z 1 = z).
  { intros z Hz. unfold imul. rewrite Z.mul_1_r.
    apply wrap64_id. unfold min_int, max_int in *. lia. }
  rewrite H1, H2, !H3 by lia.
  rewrite !slice_ret by lia.
  replace (Z.to_nat (off + 1 - off)) with 1%nat by lia.
  replace (Z.to_nat (off + 2 - (off + 1))) with 1%nat by lia.
  destruct (take_1_drop env (Z.to_nat off)) as [a Ha]; [unfold len in *; lia|].
  destruct (take_1_drop env (Z.to_nat (off + 1))) as [b Hb]; [unfold len in *; lia|].
  rewrite Ha, Hb, !bind_Ret.
  change (make F64.zero 1) with (Ret [F64.zero]). rewrite bind_Ret.
  change (len [F64.zero]) with 1.
  unfold for_range. change (Z.to_nat (1 - 0)) with 1%nat.
  cbn [for_steps]. rewrite bind_Ret.
  change (index [a] 0) with (Ret a). change (index [b] 0) with (Ret b).
  rewrite !bind_Ret, taper_single, mul_nan_r. reflexivity.
Qed.

(** C7 (as the code has it). With [bars = 1] the argument of the cosine
    is [2*Pi*0 / 0]: the division by [bars - 1 = 0] is carried out, gives
    NaN, and the single bar value of every frame whose two envelope
    segments exist is NaN. *)
Theorem C7_single_bar_nan {M : MathLib} {L : MathLaws M}
    (env : list float64) (sr : float64) (rate stride : Z) (speed : float64)
    (idx : Z) :
  len env <= max_int ->
  0 <= int (frame_pos sr rate stride 1 idx) ->
  int (frame_pos sr rate stride 1 idx) + 2 <= len env ->
  F64.of_int (isub 1 1) = F64.zero /\
  F64.div (F64.mul two_pi (F64.of_int 0)) (F64.of_int (isub 1 1)) = S754_nan /\
  frame_bars env sr rate 1 stride speed idx = Ret [S754_nan].
Proof.
  intros Hmax Hlo Hhi. split; [reflexivity|]. split; [vm_compute; reflexivity|].
  now apply frame_bars_single.
Qed.

(** An envelope of five values and the parameters of the design
    document's scenario. *)
Definition env5 : list float64 := [c0; c0_5; c1; c0_5; c0].
Definition sr16k : float64 := F64.of_int 16000.

Lemma C7_single_bar_nan_witness :
  F64.of_int (isub 1 1) = F64.zero /\
  F64.div (F64.mul two_pi (F64.of_int 0)) (F64.of_int (isub 1 1)) = S754_nan /\
  frame_bars (M := ref_math) env5 sr16k 60 1 160 (F64.of_ratio 35 10) 0
    = Ret [S754_nan].
Proof.
  apply (C7_single_bar_nan (M := ref_math) (L := ref_math_laws)
           env5 sr16k 60 160 (F64.of_ratio 35 10) 0);
    vm_compute; congruence.
Defined.

(** C7 as stated fails: for [bars = 1] the taper divides zero by zero, and
    the bar value handed to the renderer is NaN. *)
Lemma C7_taper_counterexample :
  F64.div (F64.mul two_pi (F64.of_int 0)) (F64.of_int (1 - 1)) = S754_nan /\
  taper (M := ref_math) 0 1 = S754_nan /\
  frame_bars (M := ref_math) env5 sr16k 60 1 160 (F64.of_ratio 35 10) 0
    = Ret [S754_nan].
Proof.
  split; [vm_compute; reflexivity|]. split; vm_compute; reflexivity.
Qed.

(** ** The number of frames *)

(** The value of a finite float as a rational number. *)
Definition F2Q (x : spec_float) : Q :=
  match x with
  | S754_finite s m e => (inject_Z (cond_Zopp s (Zpos m)) * 2 ^ e)%Q
  | _ => 0%Q
  end.

(** The design document's formula: [round(rate × audio_duration_seconds)]
    with the duration [len(mono) / sr], rounding to the nearest integer. *)
Definition round_nearest (q : Q) : Z := Qfloor (q + (1 # 2)).

Definition spec_frames (rate n : Z) (sr : float64) : Z :=
  round_nearest (inject_Z rate * (inject_Z n / F2Q sr)).

Lemma Qpower_2_nonneg (k : Z) : 0 <= k -> ((2 ^ k) == inject_Z (2 ^ k))%Q.
Proof. intros. symmetry. now apply (Zpower_Qpower 2 k). Qed.

Lemma Qpower_2_neg (k : positive) : ((2 ^ Zneg k) == 1 # (2 ^ k))%Q.
Proof.
  change (Zneg k) with (- Zpos k). rewrite Qpower_opp.
  rewrite Qpower_2_nonneg by lia.
  change (2 ^ Z.pos k) with (Z.pow_pos 2 k).
  rewrite <- Pos2Z.inj_pow_pos. reflexivity.
Qed.

(** [trunc_float] is the floor of the value of a non-negative float. *)
Lemma trunc_float_floor (m : positive) (e : Z) :
  trunc_float (S754_finite false m e) = Some (Qfloor (F2Q (S754_finite false m e))).
Proof.
  unfold trunc_float, F2Q, cond_Zopp. f_equal.
  destruct (Z.leb_spec 0 e) as [He|He].
  - rewrite (Qfloor_comp _ (inject_Z (Zpos m * 2 ^ e))).
    + now rewrite Qfloor_Z.
    + rewrite Qpower_2_nonneg by assumption. now rewrite inject_Z_mult.
  - destruct e as [|e|e]; try lia.
    rewrite (Qfloor_comp _ (Zpos m # 2 ^ e)).
    + unfold Qfloor. change (- Z.neg e) with (Z.pos e).
      now rewrite Pos2Z.inj_pow.
    + rewrite Qpower_2_neg. unfold Qeq, Qmult, inject_Z. simpl. lia.
Qed.

(** C3 (as the code has it). The number of frames is the float64 product
    [rate * (len(mono) / sr)] converted to [int], which cuts the fraction
    off: for a product [p] that is a number in [[0, 2^63)] the result is
    [floor(p)], never more than [round(p)], and equal to [round(p)] only
    when the fraction of [p] is below one half. *)
Theorem C3_frames_truncated {M : MathLib} (rate n : Z) (sr : float64) :
  let p := F64.mul (F64.of_int rate) (F64.div (F64.of_int n) sr) in
  sign_pos p = true -> is_finite p = true -> (F2Q p < inject_Z (2 ^ 63))%Q ->
  frames_of rate n sr = Qfloor (F2Q p) /\
  frames_of rate n sr <= round_nearest (F2Q p) /\
  (frames_of rate n sr = round_nearest (F2Q p) <->
   (F2Q p - inject_Z (Qfloor (F2Q p)) < 1 # 2)%Q).
Proof.
  cbv zeta. unfold frames_of.
  set (p := F64.mul (F64.of_int rate) (F64.div (F64.of_int n) sr)).
  intros Hs Hf Hlt.
  assert (H0 : (0 <= F2Q p)%Q).
  { destruct p as [| | |s m e]; try (simpl; lra). destruct s; [discriminate|].
    unfold F2Q, cond_Zopp.
    apply Qmult_le_0_compat; [|apply Qpower_0_le; lra].
    change 0%Q with (inject_Z 0). rewrite <- Zle_Qle. lia. }
  assert (Hfl : int p = Qfloor (F2Q p)).
  { assert (Hr : 0 <= Qfloor (F2Q p) < 2 ^ 63).
    { split.
      - change 0 with (Qfloor 0). now apply Qfloor_resp_le.
      - apply Z.lt_le_trans with (Qfloor (inject_Z (2 ^ 63))).
        + pose proof (Qfloor_le (F2Q p)) as Hle.
          rewrite Qfloor_Z. rewrite Zlt_Qlt. lra.
        + rewrite Qfloor_Z. lia. }
    unfold int, int_of_f64.
    destruct p as [[]| | |s m e]; try discriminate.
    - reflexivity.
    - destruct s; [discriminate|].
      rewrite trunc_float_floor. unfold in_int, min_int, max_int.
      destruct (Z.leb_spec (- 2 ^ 63) (Qfloor (F2Q (S754_finite false m e))));
        destruct (Z.leb_spec (Qfloor (F2Q (S754_finite false m e))) (2 ^ 63 - 1));
        simpl; try lia; reflexivity. }
  rewrite Hfl. split; [reflexivity|].
  pose proof (Qfloor_le (F2Q p)) as Hle.
  pose proof (Qlt_floor (F2Q p)) as Hlt'. rewrite inject_Z_plus in Hlt'.
  change (inject_Z 1) with 1%Q in Hlt'.
  unfold round_nearest. split.
  - apply Qfloor_resp_le. lra.
  - split.
    + intros Heq.
      pose proof (Qlt_floor (F2Q p + (1 # 2))) as Hr. rewrite <- Heq in Hr.
      rewrite inject_Z_plus in Hr. change (inject_Z 1) with 1%Q in Hr. lra.
    + intros Hfrac. apply Z.le_antisymm.
      * apply Qfloor_resp_le. lra.
      * apply Z.lt_succ_r. rewrite Zlt_Qlt.
        pose proof (Qfloor_le (F2Q p + (1 # 2))) as Hr.
        unfold Z.succ. rewrite inject_Z_plus. change (inject_Z 1) with 1%Q. lra.
Qed.

Lemma C3_frames_truncated_witness :
  let p := F64.mul (F64.of_int 60) (F64.div (F64.of_int 44600) (F64.of_int 44100)) in
  frames_of (M := ref_math) 60 44600 (F64.of_int 44100) = Qfloor (F2Q p) /\
  frames_of (M := ref_math) 60 44600 (F64.of_int 44100) <= round_nearest (F2Q p) /\
  (frames_of (M := ref_math) 60 44600 (F64.of_int 44100) = round_nearest (F2Q p) <->
   (F2Q p - inject_Z (Qfloor (F2Q p)) < 1 # 2)%Q).
Proof.
  apply (C3_frames_truncated (M := ref_math) 60 44600 (F64.of_int 44100));
    vm_compute; reflexivity.
Defined.

(** C3 as stated fails: 44600 samples at 44100 Hz and 60 frames per second
    last 60.68 frame times; the program makes 60 frames, rounding gives 61. *)
Lemma C3_round_counterexample :
  frames_of (M := ref_math) 60 44600 (F64.of_int 44100) = 60 /\
  spec_frames 60 44600 (F64.of_int 44100) = 61 /\
  round_nearest (F2Q (F64.mul (F64.of_int 60)
                        (F64.div (F64.of_int 44600) (F64.of_int 44100)))) = 61.
Proof. repeat split; vm_compute; reflexivity. Qed.

(** ** Rounding: the bit-level algorithm against its arithmetic meaning *)

(** *** Powers of two and the number of digits *)

Definition bpow (e : Z) : Q := (2 ^ e)%Q.

Lemma bpow_pos (e : Z) : (0 < bpow e)%Q.
Proof. apply Qpower_0_lt. reflexivity. Qed.

Lemma bpow_add (a b : Z) : (bpow (a + b) == bpow a * bpow b)%Q.
Proof. unfold bpow. apply Qpower_plus. discriminate. Qed.

Lemma bpow_0 : (bpow 0 == 1)%Q.
Proof. reflexivity. Qed.

Lemma bpow_1 : (bpow 1 == 2)%Q.
Proof. reflexivity. Qed.

Lemma bpow_succ (e : Z) : (bpow (e + 1) == 2 * bpow e)%Q.
Proof. rewrite bpow_add, bpow_1. ring. Qed.

Lemma bpow_le (a b : Z) : a <= b -> (bpow a <= bpow b)%Q.
Proof. intros. unfold bpow. apply Qpower_le_compat_l; [assumption|]. discriminate. Qed.

Lemma bpow_lt (a b : Z) : a < b -> (bpow a < bpow b)%Q.
Proof. intros. unfold bpow. apply Qpower_lt_compat_l; [assumption|]. reflexivity. Qed.

Lemma bpow_Z (k : Z) : 0 <= k -> (bpow k == inject_Z (2 ^ k))%Q.
Proof. intros. unfold bpow. symmetry. now apply (Zpower_Qpower 2 k). Qed.

Lemma bpow_sub (a b : Z) : (bpow (a - b) == bpow a / bpow b)%Q.
Proof.
  unfold Z.sub. rewrite bpow_add. unfold bpow at 2. rewrite Qpower_opp. reflexivity.
Qed.

Lemma digits2_pos_bounds (m : positive) :
  2 ^ (Zpos (digits2_pos m) - 1) <= Zpos m < 2 ^ Zpos (digits2_pos m).
Proof.
  induction m as [m IH|m IH|]; simpl digits2_pos.
  - rewrite Pos2Z.inj_succ.
    replace (Z.succ (Zpos (digits2_pos m)) - 1) with (Z.succ (Zpos (digits2_pos m) - 1)) by lia.
    rewrite !Z.pow_succ_r by lia. lia.
  - rewrite Pos2Z.inj_succ.
    replace (Z.succ (Zpos (digits2_pos m)) - 1) with (Z.succ (Zpos (digits2_pos m) - 1)) by lia.
    rewrite !Z.pow_succ_r by lia. lia.
  - simpl. lia.
Qed.

Lemma Zdigits2_bounds (m : Z) :
  0 < m -> 2 ^ (Zdigits2 m - 1) <= m < 2 ^ Zdigits2 m.
Proof. destruct m; try lia. intros _. apply digits2_pos_bounds. Qed.

Lemma Zdigits2_pos (m : Z) : 0 < m -> 0 < Zdigits2 m.
Proof. destruct m; simpl; lia. Qed.

Lemma Zdigits2_unique (m d : Z) :
  0 < d -> 2 ^ (d - 1) <= m < 2 ^ d -> Zdigits2 m = d.
Proof.
  intros Hd [Hlo Hhi].
  assert (Hm : 0 < m) by (pose proof (Z.pow_pos_nonneg 2 (d - 1)); lia).
  destruct (Zdigits2_bounds m Hm) as [Hlo' Hhi'].
  pose proof (Zdigits2_pos m Hm) as Hp.
  destruct (Z.lt_trichotomy (Zdigits2 m) d) as [Hlt|[Heq|Hgt]]; [|assumption|].
  - assert (2 ^ Zdigits2 m <= 2 ^ (d - 1)) by (apply Z.pow_le_mono_r; lia). lia.
  - assert (2 ^ d <= 2 ^ (Zdigits2 m - 1)) by (apply Z.pow_le_mono_r; lia). lia.
Qed.

(** *** Shifting a mantissa to the right *)

(** The rational [y] lies at the place that the record describes: at the
    integer [shr_m], strictly inside the lower half of the unit interval
    above it, at the middle, or in the upper half. *)
Definition inbetween (mrs : shr_record) (y : Q) : Prop :=
  match shr_r mrs, shr_s mrs with
  | false, false => (y == inject_Z (shr_m mrs))%Q
  | false, true => (inject_Z (shr_m mrs) < y < inject_Z (shr_m mrs) + (1 # 2))%Q
  | true, false => (y == inject_Z (shr_m mrs) + (1 # 2))%Q
  | true, true => (inject_Z (shr_m mrs) + (1 # 2) < y < inject_Z (shr_m mrs) + 1)%Q
  end.

Lemma inject_Z_xO (p : positive) : (inject_Z (Zpos p~0) == 2 * inject_Z (Zpos p))%Q.
Proof. rewrite Pos2Z.inj_xO, inject_Z_mult. reflexivity. Qed.

Lemma inject_Z_xI (p : positive) : (inject_Z (Zpos p~1) == 2 * inject_Z (Zpos p) + 1)%Q.
Proof. rewrite Pos2Z.inj_xI, inject_Z_plus, inject_Z_mult. reflexivity. Qed.

Lemma shr_1_inbetween (mrs : shr_record) (y : Q) :
  0 <= shr_m mrs -> inbetween mrs y ->
  inbetween (shr_1 mrs) (y * (1 # 2)) /\ shr_m (shr_1 mrs) = shr_m mrs / 2.
Proof.
  destruct mrs as [m r s]. unfold inbetween. simpl shr_m. simpl shr_r. simpl shr_s.
  intros Hm Hy.
  destruct m as [|[p|p|]|p]; try lia.
  - (* 0 *)
    split; [|reflexivity]. change (inject_Z 0) with 0%Q in Hy.
    destruct r, s; simpl; change (inject_Z 0) with 0%Q; lra.
  - (* 2p+1 *)
    split.
    + pose proof (inject_Z_xI p) as Hp.
      destruct r, s; simpl; lra.
    + simpl shr_m. rewrite Pos2Z.inj_xI.
      replace (2 * Z.pos p + 1) with (1 + Z.pos p * 2) by lia.
      rewrite Z.div_add by lia. reflexivity.
  - (* 2p *)
    split.
    + pose proof (inject_Z_xO p) as Hp.
      destruct r, s; simpl; lra.
    + simpl shr_m. rewrite Pos2Z.inj_xO.
      rewrite Z.mul_comm, Z.div_mul by lia. reflexivity.
  - (* 1 *)
    split; [|reflexivity].
    change (inject_Z 1) with 1%Q in Hy.
    destruct r, s; simpl; change (inject_Z 0) with 0%Q; lra.
Qed.

Lemma iter_shr_1_inbetween (p : positive) :
  forall (mrs : shr_record) (y : Q),
    0 <= shr_m mrs -> inbetween mrs y ->
    inbetween (SpecFloat.iter_pos shr_1 p mrs) (y / inject_Z (2 ^ Zpos p)) /\
    shr_m (SpecFloat.iter_pos shr_1 p mrs) = shr_m mrs / 2 ^ Zpos p.
Proof.
  assert (Hcomp : forall (mrs : shr_record) y y', (y == y')%Q -> inbetween mrs y -> inbetween mrs y').
  { intros mrs y y' Heq. unfold inbetween. destruct (shr_r mrs), (shr_s mrs); rewrite Heq; tauto. }
  assert (Hnn : forall a k, 0 <= a -> 0 <= a / 2 ^ Zpos k).
  { intros. apply Z.div_pos; [assumption|]. apply Z.pow_pos_nonneg; lia. }
  assert (Hnz : forall k, ~ (inject_Z (2 ^ Z.pos k) == 0)%Q).
  { intros k. change 0%Q with (inject_Z 0). rewrite inject_Z_injective.
    pose proof (Z.pow_pos_nonneg 2 (Z.pos k)). lia. }
  assert (HxI : forall k, 2 ^ Z.pos k~1 = 2 * (2 ^ Z.pos k * 2 ^ Z.pos k)).
  { intros k. assert (Z.pos k~1 = 1 + (Z.pos k + Z.pos k)) as -> by lia.
    rewrite !Z.pow_add_r by lia. reflexivity. }
  assert (HxO : forall k, 2 ^ Z.pos k~0 = 2 ^ Z.pos k * 2 ^ Z.pos k).
  { intros k. assert (Z.pos k~0 = Z.pos k + Z.pos k) as -> by lia.
    rewrite !Z.pow_add_r by lia. reflexivity. }
  induction p as [p IH|p IH|]; intros mrs y Hm Hy; simpl SpecFloat.iter_pos.
  - destruct (shr_1_inbetween mrs y Hm Hy) as [H1 E1].
    destruct (IH _ _ ltac:(rewrite E1; apply Z.div_pos; lia) H1) as [H2 E2].
    destruct (IH _ _ ltac:(rewrite E2; apply Hnn; rewrite E1; apply Z.div_pos; lia) H2) as [H3 E3].
    split.
    + eapply Hcomp; [|exact H3].
      rewrite HxI, !inject_Z_mult. change (inject_Z 2) with 2%Q.
      specialize (Hnz p). field. assumption.
    + rewrite E3, E2, E1, HxI.
      pose proof (Z.pow_pos_nonneg 2 (Z.pos p) ltac:(lia) ltac:(lia)).
      rewrite !Z.div_div by lia. reflexivity.
  - destruct (IH _ _ Hm Hy) as [H2 E2].
    destruct (IH _ _ ltac:(rewrite E2; apply Hnn; lia) H2) as [H3 E3].
    split.
    + eapply Hcomp; [|exact H3].
      rewrite HxO, !inject_Z_mult.
      specialize (Hnz p). field. assumption.
    + rewrite E3, E2, HxO.
      pose proof (Z.pow_pos_nonneg 2 (Z.pos p) ltac:(lia) ltac:(lia)).
      rewrite !Z.div_div by lia. reflexivity.
  - destruct (shr_1_inbetween mrs y Hm Hy) as [H1 E1].
    split; [|exact E1]. eapply Hcomp; [|exact H1].
    change (inject_Z (2 ^ 1)) with 2%Q. field.
Qed.

Lemma inbetween_comp (mrs : shr_record) (y y' : Q) :
  (y == y')%Q -> inbetween mrs y -> inbetween mrs y'.
Proof.
  intros Heq. unfold inbetween.
  destruct (shr_r mrs), (shr_s mrs); rewrite Heq; tauto.
Qed.

(** [x] lies, in units of [2^e], at the place described by the record. *)
Definition located (mrs : shr_record) (e : Z) (x : Q) : Prop :=
  inbetween mrs (x * bpow (- e)).

Lemma inbetween_bounds (mrs : shr_record) (y : Q) :
  inbetween mrs y ->
  (inject_Z (shr_m mrs) <= y < inject_Z (shr_m mrs) + 1)%Q.
Proof. unfold inbetween. destruct (shr_r mrs), (shr_s mrs); lra. Qed.

Lemma shr_located (mrs : shr_record) (e n : Z) (x : Q) :
  0 <= shr_m mrs -> 0 <= n -> located mrs e x ->
  located (fst (shr mrs e n)) (e + n) x /\
  snd (shr mrs e n) = e + n /\
  shr_m (fst (shr mrs e n)) = shr_m mrs / 2 ^ n.
Proof.
  intros Hm Hn Hloc. unfold shr. destruct n as [|p|p]; try lia; simpl fst; simpl snd.
  - rewrite Z.add_0_r, Z.div_1_r. auto.
  - destruct (iter_shr_1_inbetween p mrs _ Hm Hloc) as [H E].
    split; [|split; [reflexivity | exact E]].
    unfold located. eapply inbetween_comp; [|exact H].
    replace (- (e + Z.pos p)) with (- e + - Z.pos p) by lia.
    rewrite bpow_add. unfold bpow at 3. rewrite Qpower_opp.
    fold (bpow (Z.pos p)). rewrite (bpow_Z (Z.pos p)) by lia.
    unfold Qdiv. ring.
Qed.

Lemma round_nearest_even_spec (mrs : shr_record) (y : Q) :
  inbetween mrs y ->
  let m := round_nearest_even (shr_m mrs) (loc_of_shr_record mrs) in
  shr_m mrs <= m <= shr_m mrs + 1 /\
  (y - (1 # 2) <= inject_Z m <= y + (1 # 2))%Q.
Proof.
  destruct mrs as [m r s]. unfold inbetween. simpl. intros Hy.
  destruct r, s; simpl.
  - rewrite inject_Z_plus. change (inject_Z 1) with 1%Q. split; [lia | lra].
  - destruct (Z.even m); [split; [lia | lra]|].
    rewrite inject_Z_plus. change (inject_Z 1) with 1%Q. split; [lia | lra].
  - split; [lia | lra].
  - split; [lia | lra].
Qed.

Section Rounding.
Variables prec emax : Z.
Hypothesis Hprec : 0 < prec.
Hypothesis Hemax : prec < emax.

Abbreviation emin := (emin prec emax).
Abbreviation fexp := (fexp prec emax).

Lemma fexp_ge_emin (e : Z) : emin <= fexp e.
Proof. unfold SpecFloat.fexp. lia. Qed.

(** The float built from a rounded mantissa [m] at exponent [e]. *)
Definition round_result (s : bool) (m e : Z) : spec_float :=
  if m =? 0 then S754_zero s
  else
    let '(m1, e1) := if m =? 2 ^ prec then (2 ^ (prec - 1), e + 1) else (m, e) in
    match m1 with
    | Zpos p => if e1 <=? emax - prec then S754_finite s p e1 else S754_infinity s
    | _ => S754_nan
    end.

Lemma Qle_inject_lt (a : Z) (b : Z) (y : Q) :
  (inject_Z a <= y)%Q -> (y < inject_Z b)%Q -> a < b.
Proof. intros H1 H2. rewrite Zlt_Qlt. lra. Qed.

Lemma binary_round_aux_spec (sx : bool) (mx ex : Z) (lx : location) (x : Q) :
  0 <= mx -> (0 < x)%Q ->
  located (shr_record_of_loc mx lx) ex x ->
  ex <= fexp (Zdigits2 mx + ex) ->
  let e' := fexp (Zdigits2 mx + ex) in
  exists m : Z,
    binary_round_aux prec emax sx mx ex lx = round_result sx m e' /\
    0 <= m <= 2 ^ prec /\
    (x * bpow (- e') - (1 # 2) <= inject_Z m <= x * bpow (- e') + (1 # 2))%Q /\
    (x < bpow (prec + e'))%Q /\
    (e' = emin \/ (bpow (prec - 1 + e') <= x)%Q).
Proof.
  intros Hmx Hx Hloc Hpre e'.
  assert (Hrm : shr_m (shr_record_of_loc mx lx) = mx).
  { destruct lx as [|[]]; reflexivity. }
  (* the first shift *)
  unfold binary_round_aux, shr_fexp at 1.
  fold e'.
  destruct (shr_located (shr_record_of_loc mx lx) ex (e' - ex) x
              ltac:(rewrite Hrm; exact Hmx) ltac:(lia) Hloc) as (Hloc1 & He1 & Hm1).
  destruct (shr (shr_record_of_loc mx lx) ex (e' - ex)) as [mrs1 e1].
  simpl fst in *. simpl snd in *. subst e1.
  replace (ex + (e' - ex)) with e' in * by lia.
  rewrite Hrm in Hm1.
  destruct (round_nearest_even_spec mrs1 _ Hloc1) as [Hm2 Hy2].
  set (m := round_nearest_even (shr_m mrs1) (loc_of_shr_record mrs1)) in *.
  pose proof (inbetween_bounds mrs1 _ Hloc1) as Hb1.
  assert (Hm1nn : 0 <= shr_m mrs1).
  { rewrite Hm1. apply Z.div_pos; [lia|]. apply Z.pow_pos_nonneg; lia. }
  (* the size of x *)
  pose proof (inbetween_bounds _ _ Hloc) as Hb0. rewrite Hrm in Hb0.
  assert (Hxlt : (x < bpow (Zdigits2 mx + ex))%Q).
  { assert (Hd : mx + 1 <= 2 ^ Zdigits2 mx).
    { destruct (Z.eq_dec mx 0) as [->|]; [simpl; lia|].
      pose proof (Zdigits2_bounds mx ltac:(lia)). lia. }
    assert (Hd0 : 0 <= Zdigits2 mx) by (destruct mx; simpl; lia).
    rewrite Zle_Qle, inject_Z_plus, <- bpow_Z in Hd by assumption.
    change (inject_Z 1) with 1%Q in Hd.
    rewrite bpow_add.
    assert (Hxe : (x == x * bpow (- ex) * bpow ex)%Q).
    { rewrite <- Qmult_assoc, <- bpow_add. replace (- ex + ex) with 0 by lia.
      rewrite bpow_0. ring. }
    rewrite Hxe. pose proof (bpow_pos ex). nra. }
  assert (Hxp : (x < bpow (prec + e'))%Q).
  { eapply Qlt_le_trans; [exact Hxlt|]. apply bpow_le.
    unfold e', SpecFloat.fexp. lia. }
  assert (Hnorm : e' = emin \/ (bpow (prec - 1 + e') <= x)%Q).
  { destruct (Z.eq_dec e' emin) as [|Hne]; [left; assumption|right].
    assert (He' : e' = Zdigits2 mx + ex - prec) by (unfold e', SpecFloat.fexp in *; lia).
    assert (Hpos : 0 < mx).
    { destruct (Z.eq_dec mx 0) as [->|]; [|lia]. simpl in He'. lia. }
    destruct (Zdigits2_bounds mx Hpos) as [Hlo _].
    pose proof (Zdigits2_pos mx Hpos).
    rewrite Zle_Qle, <- bpow_Z in Hlo by lia.
    replace (prec - 1 + e') with ((Zdigits2 mx - 1) + ex) by lia.
    rewrite bpow_add.
    assert (Hxe : (x == x * bpow (- ex) * bpow ex)%Q).
    { rewrite <- Qmult_assoc, <- bpow_add. replace (- ex + ex) with 0 by lia.
      rewrite bpow_0. ring. }
    rewrite Hxe. pose proof (bpow_pos ex). nra. }
  assert (Hmle : m <= 2 ^ prec).
  { assert (shr_m mrs1 < 2 ^ prec); [|lia].
    apply (Qle_inject_lt _ _ (x * bpow (- e'))); [apply Hb1|].
    rewrite <- bpow_Z by lia.
    assert (Hxe : (bpow prec == bpow (prec + e') * bpow (- e'))%Q).
    { rewrite <- bpow_add. now replace (prec + e' + - e') with prec by lia. }
    rewrite Hxe. pose proof (bpow_pos (- e')). nra. }
  exists m. split; [|split; [lia|split; [exact Hy2|split; assumption]]].
  (* the second shift *)
  unfold round_result, shr_fexp.
  assert (He'min : emin <= e') by apply fexp_ge_emin.
  destruct (Z.eqb_spec m 0) as [Hz|Hnz].
  - rewrite Hz. simpl Zdigits2.
    assert (Hn : fexp (0 + e') - e' <= 0) by (unfold SpecFloat.fexp; lia).
    unfold shr. destruct (fexp (0 + e') - e') as [|p|p]; try lia; reflexivity.
  - destruct (Z.eqb_spec m (2 ^ prec)) as [Hov|Hnov].
    + assert (Hd : Zdigits2 m = prec + 1).
      { apply Zdigits2_unique; [lia|]. rewrite Hov.
        replace (prec + 1 - 1) with prec by lia.
        rewrite Z.pow_add_r by lia. lia. }
      rewrite Hd.
      assert (Hn : fexp (prec + 1 + e') - e' = 1) by (unfold SpecFloat.fexp; lia).
      rewrite Hn. unfold shr. cbn [SpecFloat.iter_pos].
      destruct (shr_1_inbetween (shr_record_of_loc m loc_Exact) (inject_Z m)
                  ltac:(simpl; lia) ltac:(simpl; reflexivity)) as [_ E].
      rewrite E. simpl shr_m.
      assert (Hhalf : m / 2 = 2 ^ (prec - 1)).
      { rewrite Hov. replace (2 ^ prec) with (2 ^ (prec - 1) * 2).
        - apply Z.div_mul. lia.
        - rewrite Z.mul_comm, <- (Z.pow_succ_r 2 (prec - 1)) by lia. f_equal. lia. }
      rewrite Hhalf.
      pose proof (Z.pow_pos_nonneg 2 (prec - 1) ltac:(lia) ltac:(lia)).
      destruct (2 ^ (prec - 1)); try lia; reflexivity.
    + assert (Hd : Zdigits2 m <= prec).
      { destruct (Z.le_gt_cases (Zdigits2 m) prec) as [|Hgt]; [assumption|].
        pose proof (Zdigits2_bounds m ltac:(lia)) as [Hlo _].
        assert (2 ^ prec <= 2 ^ (Zdigits2 m - 1)) by (apply Z.pow_le_mono_r; lia).
        lia. }
      assert (Hn : fexp (Zdigits2 m + e') - e' <= 0) by (unfold SpecFloat.fexp; lia).
      unfold shr. destruct (fexp (Zdigits2 m + e') - e') as [|p|p]; try lia;
        simpl; destruct m; try lia; reflexivity.
Qed.

(** *** What rounding guarantees *)

Definition canonical (m : positive) (e : Z) : Prop :=
  canonical_mantissa prec emax m e = true.

Lemma canonical_facts (m : positive) (e : Z) :
  canonical m e ->
  emin <= e /\ Zpos m < 2 ^ prec /\ (e = emin \/ 2 ^ (prec - 1) <= Zpos m).
Proof.
  unfold canonical, canonical_mantissa. intros H. apply Z.eqb_eq in H.
  destruct (digits2_pos_bounds m) as [Hlo Hhi].
  assert (Hd : 0 < Zpos (digits2_pos m)) by lia.
  unfold SpecFloat.fexp in H.
  assert (Hdp : Zpos (digits2_pos m) <= prec) by lia.
  split; [lia|]. split.
  - assert (2 ^ Zpos (digits2_pos m) <= 2 ^ prec) by (apply Z.pow_le_mono_r; lia). lia.
  - destruct (Z.eq_dec e emin) as [|Hne]; [left; assumption|right].
    assert (Zpos (digits2_pos m) = prec) as <- by lia. exact Hlo.
Qed.

Lemma canonical_intro (m : positive) (e : Z) :
  emin <= e -> Zpos m < 2 ^ prec -> (e = emin \/ 2 ^ (prec - 1) <= Zpos m) ->
  canonical m e.
Proof.
  intros He Hm Hn. unfold canonical, canonical_mantissa. apply Z.eqb_eq.
  destruct (digits2_pos_bounds m) as [Hlo Hhi].
  assert (Hd : 0 < Zpos (digits2_pos m)) by lia.
  assert (Hdp : Zpos (digits2_pos m) <= prec).
  { destruct (Z.le_gt_cases (Zpos (digits2_pos m)) prec) as [|Hgt]; [assumption|].
    assert (2 ^ prec <= 2 ^ (Zpos (digits2_pos m) - 1)) by (apply Z.pow_le_mono_r; lia).
    lia. }
  unfold SpecFloat.fexp. destruct Hn as [->|Hn]; [lia|].
  assert (Zpos (digits2_pos m) = prec); [|lia].
  destruct (Z.eq_dec (Zpos (digits2_pos m)) prec) as [|Hne]; [assumption|].
  assert (2 ^ Zpos (digits2_pos m) <= 2 ^ (prec - 1)) by (apply Z.pow_le_mono_r; lia).
  lia.
Qed.

(** The value [m * 2^e]. *)
Definition Fval (m e : Z) : Q := (inject_Z m * bpow e)%Q.

(** The absolute value of a finite float, zero for the others. *)
Definition mag (f : spec_float) : Q :=
  match f with
  | S754_finite _ m e => Fval (Zpos m) e
  | _ => 0%Q
  end.

Definition has_sign (s : bool) (f : spec_float) : Prop :=
  match f with
  | S754_zero s' | S754_finite s' _ _ | S754_infinity s' => s' = s
  | S754_nan => False
  end.

(** [f] is the float that the positive real [x] rounds to, with sign [s]. *)
Record Rounded (s : bool) (x : Q) (f : spec_float) : Prop := {
  R_sign : has_sign s f;
  R_valid : valid_binary prec emax f = true;
  R_lower : forall a ea, canonical a ea -> (Fval (Zpos a) ea <= x)%Q ->
            is_finite f = true -> (Fval (Zpos a) ea <= mag f)%Q;
  R_upper : forall b eb, bounded prec emax b eb = true -> (x <= Fval (Zpos b) eb)%Q ->
            is_finite f = true /\ (mag f <= Fval (Zpos b) eb)%Q;
  R_error : (bpow (emin + prec - 1) <= x)%Q -> is_finite f = true ->
            (x - x * bpow (- prec) <= mag f <= x + x * bpow (- prec))%Q
}.

Lemma Z_ge_of_Q_half (k m : Z) :
  (inject_Z k - (1 # 2) <= inject_Z m)%Q -> k <= m.
Proof.
  intros H. destruct (Z.le_gt_cases k m) as [|Hgt]; [assumption|exfalso].
  assert (Hle : m + 1 <= k) by lia.
  rewrite Zle_Qle, inject_Z_plus in Hle. change (inject_Z 1) with 1%Q in Hle. lra.
Qed.

Lemma Z_le_of_Q_half (k m : Z) :
  (inject_Z m <= inject_Z k + (1 # 2))%Q -> m <= k.
Proof.
  intros H. destruct (Z.le_gt_cases m k) as [|Hgt]; [assumption|exfalso].
  assert (Hle : k + 1 <= m) by lia.
  rewrite Zle_Qle, inject_Z_plus in Hle. change (inject_Z 1) with 1%Q in Hle. lra.
Qed.

Lemma Fval_scale (a ea e : Z) :
  e <= ea -> (Fval a ea == inject_Z (a * 2 ^ (ea - e)) * bpow e)%Q.
Proof.
  intros H. unfold Fval. rewrite inject_Z_mult, <- bpow_Z by lia.
  rewrite <- Qmult_assoc, <- bpow_add. now replace (ea - e + e) with ea by lia.
Qed.

Lemma scaled_back (x : Q) (e : Z) : (x == x * bpow (- e) * bpow e)%Q.
Proof.
  rewrite <- Qmult_assoc, <- bpow_add. replace (- e + e) with 0 by lia.
  rewrite bpow_0. ring.
Qed.

Lemma bpow_prec_Z (k : Z) (e : Z) :
  0 <= k -> (bpow (k + e) == inject_Z (2 ^ k) * bpow e)%Q.
Proof. intros. rewrite bpow_add, bpow_Z by assumption. reflexivity. Qed.

Section RoundResult.
Variables (s : bool) (m e' : Z) (x : Q).
Hypothesis Hx : (0 < x)%Q.
Hypothesis He' : emin <= e'.
Hypothesis Hm : 0 <= m <= 2 ^ prec.
Hypothesis Hy : (x * bpow (- e') - (1 # 2) <= inject_Z m <= x * bpow (- e') + (1 # 2))%Q.
Hypothesis Hxp : (x < bpow (prec + e'))%Q.
Hypothesis Hnorm : e' = emin \/ (bpow (prec - 1 + e') <= x)%Q.

Lemma rr_normal : (bpow (prec - 1 + e') <= x)%Q -> 2 ^ (prec - 1) <= m.
Proof.
  intros Hn. apply Z_ge_of_Q_half.
  rewrite bpow_prec_Z in Hn by lia.
  rewrite (scaled_back x e') in Hn at 1.
  pose proof (bpow_pos e'). 
  assert ((inject_Z (2 ^ (prec - 1)) <= x * bpow (- e'))%Q) by nra.
  lra.
Qed.

Lemma rr_lower (a : positive) (ea : Z) :
  canonical a ea -> (Fval (Zpos a) ea <= x)%Q -> (Fval (Zpos a) ea <= Fval m e')%Q.
Proof.
  intros Hc HA. destruct (canonical_facts a ea Hc) as (Hea & Ha & Hna).
  pose proof (bpow_pos e') as Hbe.
  destruct (Z.le_gt_cases e' ea) as [Hle|Hgt].
  - rewrite (Fval_scale (Zpos a) ea e') in * by assumption.
    set (K := Z.pos a * 2 ^ (ea - e')) in *.
    rewrite (scaled_back x e') in HA.
    assert (HK : (inject_Z K <= x * bpow (- e'))%Q) by nra.
    assert (K <= m) by (apply Z_ge_of_Q_half; lra).
    unfold Fval. rewrite Zle_Qle in H. nra.
  - assert (Hn : (bpow (prec - 1 + e') <= x)%Q) by (destruct Hnorm; [lia | assumption]).
    pose proof (rr_normal Hn) as Hmn.
    unfold Fval.
    assert (H1 : (inject_Z (Zpos a) * bpow ea <= bpow (prec + ea))%Q).
    { rewrite bpow_prec_Z by lia. pose proof (bpow_pos ea).
      assert (Zpos a <= 2 ^ prec) as Hq by lia. rewrite Zle_Qle in Hq. nra. }
    assert (H2 : (bpow (prec + ea) <= bpow (prec - 1 + e'))%Q) by (apply bpow_le; lia).
    assert (H3 : (bpow (prec - 1 + e') <= inject_Z m * bpow e')%Q).
    { rewrite bpow_prec_Z by lia. rewrite Zle_Qle in Hmn. nra. }
    lra.
Qed.

Lemma rr_upper (b : positive) (eb : Z) :
  bounded prec emax b eb = true -> (x <= Fval (Zpos b) eb)%Q ->
  (Fval m e' <= Fval (Zpos b) eb)%Q /\
  (if m =? 2 ^ prec then e' + 1 else e') <= emax - prec.
Proof.
  intros Hb HB. unfold bounded in Hb. apply andb_true_iff in Hb.
  destruct Hb as [Hc Hbe]. apply Z.leb_le in Hbe.
  destruct (canonical_facts b eb Hc) as (Heb & Hbp & Hnb).
  pose proof (bpow_pos e') as Hpe.
  assert (HBlt : (Fval (Zpos b) eb < bpow (prec + eb))%Q).
  { unfold Fval. rewrite bpow_prec_Z by lia. pose proof (bpow_pos eb).
    rewrite Zlt_Qlt in Hbp. nra. }
  assert (Hcase : e' <= eb).
  { destruct (Z.le_gt_cases e' eb) as [|Hgt]; [assumption|exfalso].
    assert (Hn : (bpow (prec - 1 + e') <= x)%Q) by (destruct Hnorm; [lia | assumption]).
    assert (H2 : (bpow (prec + eb) <= bpow (prec - 1 + e'))%Q) by (apply bpow_le; lia).
    lra. }
  assert (Hv : (Fval m e' <= Fval (Zpos b) eb)%Q).
  { rewrite (Fval_scale (Zpos b) eb e') in * by assumption.
    set (K := Z.pos b * 2 ^ (eb - e')) in *.
    rewrite (scaled_back x e') in HB.
    assert (HK : (x * bpow (- e') <= inject_Z K)%Q) by nra.
    assert (m <= K) by (apply Z_le_of_Q_half; lra).
    unfold Fval. rewrite Zle_Qle in H. nra. }
  split; [exact Hv|].
  destruct (Z.eqb_spec m (2 ^ prec)) as [Hov|]; [|lia].
  assert (e' < eb); [|lia].
  destruct (Z.lt_ge_cases e' eb) as [|Hge]; [assumption|exfalso].
  assert (e' = eb) by lia. subst eb.
  unfold Fval in Hv, HBlt. rewrite Hov in Hv. rewrite bpow_prec_Z in HBlt by lia.
  lra.
Qed.

Lemma rr_error :
  (bpow (emin + prec - 1) <= x)%Q ->
  (x - x * bpow (- prec) <= Fval m e' <= x + x * bpow (- prec))%Q.
Proof.
  intros Hbig.
  assert (Hn : (bpow (prec - 1 + e') <= x)%Q).
  { destruct Hnorm as [->|]; [|assumption].
    now replace (prec - 1 + emin) with (emin + prec - 1) by lia. }
  pose proof (bpow_pos e') as Hpe. pose proof (bpow_pos (- prec)) as Hpp.
  assert (Hhalf : ((1 # 2) * bpow e' <= x * bpow (- prec))%Q).
  { assert (Hq : (bpow (prec - 1 + e') * bpow (- prec) == (1 # 2) * bpow e')%Q).
    { rewrite <- bpow_add. replace (prec - 1 + e' + - prec) with (e' + -1) by lia.
      rewrite bpow_add. change (bpow (-1)) with (1 # 2)%Q. ring. }
    rewrite <- Hq. nra. }
  pose proof (scaled_back x e') as Hsc.
  set (y := (x * bpow (- e'))%Q) in *.
  assert (H1 : (inject_Z m * bpow e' <= (y + (1 # 2)) * bpow e')%Q)
    by (apply Qmult_le_compat_r; lra).
  assert (H2 : ((y - (1 # 2)) * bpow e' <= inject_Z m * bpow e')%Q)
    by (apply Qmult_le_compat_r; lra).
  unfold Fval. lra.
Qed.

Lemma round_result_Rounded : Rounded s x (round_result s m e').
Proof.
  unfold round_result.
  destruct (Z.eqb_spec m 0) as [Hz|Hnz].
  - (* the result is zero *)
    assert (Hv : (Fval m e' == 0)%Q) by (unfold Fval; rewrite Hz; ring).
    split; simpl; try reflexivity.
    + intros a ea Hc HA _. rewrite <- Hv. now apply rr_lower.
    + intros b eb Hb HB. split; [reflexivity|].
      destruct (rr_upper b eb Hb HB) as [H _]. now rewrite <- Hv.
    + intros Hbig _. rewrite <- Hv. now apply rr_error.
  - (* a non-zero mantissa, renormalised when the rounding carried *)
    set (m1 := if m =? 2 ^ prec then 2 ^ (prec - 1) else m).
    set (e1 := if m =? 2 ^ prec then e' + 1 else e').
    assert (Hpair : (if m =? 2 ^ prec then (2 ^ (prec - 1), e' + 1) else (m, e')) = (m1, e1)).
    { unfold m1, e1. now destruct (m =? 2 ^ prec). }
    rewrite Hpair.
    assert (Hv : (Fval m1 e1 == Fval m e')%Q).
    { unfold m1, e1, Fval. destruct (Z.eqb_spec m (2 ^ prec)) as [->|]; [|reflexivity].
      rewrite <- !bpow_Z, <- !bpow_add by lia. 
      now replace (prec - 1 + (e' + 1)) with (prec + e') by lia. }
    assert (Hm1 : 0 < m1 < 2 ^ prec).
    { unfold m1. destruct (Z.eqb_spec m (2 ^ prec)); [|lia].
      split; [apply Z.pow_pos_nonneg; lia|]. apply Z.pow_lt_mono_r; lia. }
    assert (Hcan : e1 = emin \/ 2 ^ (prec - 1) <= m1).
    { unfold m1, e1. destruct (Z.eqb_spec m (2 ^ prec)); [right; lia|].
      destruct Hnorm as [|Hn]; [left; assumption|right]. now apply rr_normal. }
    assert (He1 : emin <= e1).
    { unfold e1. destruct (m =? 2 ^ prec); lia. }
    destruct m1 as [|p|p] eqn:Hp; try lia.
    assert (Hcp : canonical p e1) by (apply canonical_intro; [assumption | lia | assumption]).
    destruct (Z.leb_spec e1 (emax - prec)) as [Hfit|Hover].
    + split; simpl.
      * reflexivity.
      * unfold bounded. apply andb_true_iff. split; [exact Hcp|]. now apply Z.leb_le.
      * intros a ea Hc HA _. rewrite Hv. now apply rr_lower.
      * intros b eb Hb HB. split; [reflexivity|].
        destruct (rr_upper b eb Hb HB) as [H _]. now rewrite Hv.
      * intros Hbig _. rewrite Hv. now apply rr_error.
    + split; simpl; try reflexivity; try discriminate.
      intros b eb Hb HB. exfalso.
      destruct (rr_upper b eb Hb HB) as [_ H]. fold e1 in H. lia.
Qed.
End RoundResult.

(** The rounding step of every operation. *)
Theorem binary_round_aux_Rounded (sx : bool) (mx ex : Z) (lx : location) (x : Q) :
  0 <= mx -> (0 < x)%Q ->
  located (shr_record_of_loc mx lx) ex x ->
  ex <= fexp (Zdigits2 mx + ex) ->
  Rounded sx x (binary_round_aux prec emax sx mx ex lx).
Proof.
  intros Hmx Hx Hloc Hpre.
  destruct (binary_round_aux_spec sx mx ex lx x Hmx Hx Hloc Hpre)
    as (m & -> & Hm & Hy & Hxp & Hnorm).
  apply round_result_Rounded; try assumption. apply fexp_ge_emin.
Qed.

(** *** The operations *)

Lemma Zdigits2_ge (m k : Z) : 0 < k -> 2 ^ (k - 1) <= m -> k <= Zdigits2 m.
Proof.
  intros Hk Hm.
  assert (0 < m) by (pose proof (Z.pow_pos_nonneg 2 (k - 1)); lia).
  destruct (Zdigits2_bounds m ltac:(lia)) as [_ Hhi].
  destruct (Z.le_gt_cases k (Zdigits2 m)) as [|Hgt]; [assumption|].
  assert (2 ^ Zdigits2 m <= 2 ^ (k - 1)).
  { apply Z.pow_le_mono_r; [lia|]. lia. }
  lia.
Qed.

Lemma fexp_mono (a b : Z) : a <= b -> fexp a <= fexp b.
Proof. unfold SpecFloat.fexp. lia. Qed.

Lemma emin_nonpos : emin <= 0.
Proof. unfold SpecFloat.emin. lia. Qed.

Lemma Fval_pos (m : positive) (e : Z) : (0 < Fval (Zpos m) e)%Q.
Proof.
  unfold Fval. apply Qmult_lt_0_compat; [|apply bpow_pos].
  change 0%Q with (inject_Z 0). rewrite <- Zlt_Qlt. lia.
Qed.

Lemma mul_Rounded (sx sy : bool) (mx my : positive) (ex ey : Z) :
  canonical mx ex -> canonical my ey ->
  Rounded (xorb sx sy) (Fval (Zpos mx) ex * Fval (Zpos my) ey)
    (SFmul prec emax (S754_finite sx mx ex) (S754_finite sy my ey)).
Proof.
  intros Hcx Hcy. simpl SFmul.
  apply binary_round_aux_Rounded.
  - lia.
  - apply Qmult_lt_0_compat; apply Fval_pos.
  - unfold located, inbetween. simpl.
    unfold Fval. rewrite Pos2Z.inj_mul, inject_Z_mult.
    replace (- (ex + ey)) with (- ex + - ey) by lia. rewrite bpow_add.
    pose proof (scaled_back 1 ex) as H1. pose proof (scaled_back 1 ey) as H2.
    rewrite !Qmult_1_l in H1, H2.
    transitivity (inject_Z (Zpos mx) * inject_Z (Zpos my) *
                  (bpow (- ex) * bpow ex) * (bpow (- ey) * bpow ey))%Q; [ring|].
    rewrite <- H1, <- H2. ring.
  - unfold canonical, canonical_mantissa in Hcx, Hcy.
    apply Z.eqb_eq in Hcx. apply Z.eqb_eq in Hcy.
    pose proof emin_nonpos as Hemin.
    destruct (digits2_pos_bounds mx) as [Hx1 Hx2].
    destruct (digits2_pos_bounds my) as [Hy1 Hy2].
    set (dx := Zpos (digits2_pos mx)) in *. set (dy := Zpos (digits2_pos my)) in *.
    assert (Hd : dx + dy - 1 <= Zdigits2 (Zpos (mx * my))).
    { apply Zdigits2_ge; [lia|].
      replace (dx + dy - 1 - 1) with ((dx - 1) + (dy - 1)) by lia.
      rewrite Z.pow_add_r by lia. rewrite Pos2Z.inj_mul.
      apply Z.mul_le_mono_nonneg; try assumption; apply Z.pow_nonneg; lia. }
    eapply Z.le_trans; [|apply fexp_mono; apply Z.add_le_mono_r; exact Hd].
    unfold SpecFloat.fexp in *. lia.
Qed.

Lemma new_location_spec (q m2 r : Z) :
  0 < m2 -> 0 <= r < m2 ->
  inbetween (shr_record_of_loc q (new_location m2 r))
    (inject_Z q + inject_Z r / inject_Z m2).
Proof.
  intros Hm Hr.
  assert (Hm2 : (0 < inject_Z m2)%Q) by (change 0%Q with (inject_Z 0); rewrite <- Zlt_Qlt; lia).
  set (t := (inject_Z r / inject_Z m2)%Q).
  assert (Ht : (t * inject_Z m2 == inject_Z r)%Q).
  { unfold t. field. lra. }
  clearbody t.
  assert (Hcmp : forall c, Z.compare (2 * r) m2 = c ->
            match c with
            | Lt => (t < 1 # 2)%Q | Eq => (t == 1 # 2)%Q | Gt => (1 # 2 < t)%Q
            end).
  { intros c Hc. destruct c.
    - apply Z.compare_eq in Hc. 
      assert (Hq : (2 * inject_Z r == inject_Z m2)%Q).
      { rewrite <- Hc, inject_Z_mult. reflexivity. }
      nra.
    - rewrite Z.compare_lt_iff in Hc. rewrite Zlt_Qlt, inject_Z_mult in Hc.
      change (inject_Z 2) with 2%Q in Hc. nra.
    - rewrite Z.compare_gt_iff in Hc. rewrite Zlt_Qlt, inject_Z_mult in Hc.
      change (inject_Z 2) with 2%Q in Hc. nra. }
  assert (Ht0 : r <> 0 -> (0 < t)%Q).
  { intros Hne. assert (0 < r) as Hr0 by lia.
    rewrite Zlt_Qlt in Hr0. change (inject_Z 0) with 0%Q in Hr0. nra. }
  assert (Ht1 : (t < 1)%Q).
  { destruct Hr as [_ Hr]. rewrite Zlt_Qlt in Hr. nra. }
  unfold new_location, new_location_even, new_location_odd.
  destruct (IntDef.Z.even m2) eqn:Hev; destruct (Z.eqb_spec r 0) as [Hz|Hnz].
  - assert (Hq : (t == 0)%Q).
    { rewrite Hz in Ht. change (inject_Z 0) with 0%Q in Ht. nra. }
    unfold inbetween; simpl; lra.
  - specialize (Ht0 Hnz). specialize (Hcmp _ eq_refl).
    destruct (2 * r ?= m2); unfold inbetween; simpl; lra.
  - assert (Hq : (t == 0)%Q).
    { rewrite Hz in Ht. change (inject_Z 0) with 0%Q in Ht. nra. }
    unfold inbetween; simpl; lra.
  - specialize (Ht0 Hnz).
    assert (Hodd : 2 * r <> m2).
    { assert (Hev' : Z.even m2 = false) by exact Hev.
      intros Heq. rewrite <- Heq, Z.even_mul in Hev'. discriminate. }
    destruct (Z.compare_spec (2 * r + 1) m2) as [Heq|Hlt|Hgt].
    + pose proof (Hcmp Lt ltac:(apply Z.compare_lt_iff; lia)) as Hc.
      cbv beta iota in Hc. unfold inbetween; simpl; lra.
    + pose proof (Hcmp Lt ltac:(apply Z.compare_lt_iff; lia)) as Hc.
      cbv beta iota in Hc. unfold inbetween; simpl; lra.
    + pose proof (Hcmp Gt ltac:(apply Z.compare_gt_iff; lia)) as Hc.
      cbv beta iota in Hc. unfold inbetween; simpl; lra.
Qed.

Lemma div_Rounded (sx sy : bool) (mx my : positive) (ex ey : Z) :
  Rounded (xorb sx sy) (Fval (Zpos mx) ex / Fval (Zpos my) ey)
    (SFdiv prec emax (S754_finite sx mx ex) (S754_finite sy my ey)).
Proof.
  unfold SFdiv, SFdiv_core_binary.
  set (d1 := Zdigits2 (Zpos mx)). set (d2 := Zdigits2 (Zpos my)).
  set (e' := Z.min (fexp (d1 + ex - (d2 + ey))) (ex - ey)).
  set (sh := ex - ey - e').
  assert (Hsh : 0 <= sh) by (unfold sh, e'; lia).
  set (m' := match sh with
             | 0 => Zpos mx | Zpos _ => Z.shiftl (Zpos mx) sh | Zneg _ => 0
             end).
  assert (Hm' : m' = Zpos mx * 2 ^ sh).
  { unfold m'. clearbody sh. destruct sh as [|p|p]; try lia.
    rewrite Z.shiftl_mul_pow2 by lia. reflexivity. }
  pose proof (Z_div_mod m' (Zpos my) ltac:(lia)) as Hdm.
  destruct (Z.div_eucl m' (Zpos my)) as [q r]. destruct Hdm as [Hqr Hr].
  assert (H2s : 0 < 2 ^ sh) by (apply Z.pow_pos_nonneg; lia).
  assert (Hq0 : 0 <= q) by nia.
  pose proof (Fval_pos mx ex) as Hpx. pose proof (Fval_pos my ey) as Hpy.
  assert (Hmy : (0 < inject_Z (Zpos my))%Q)
    by (change 0%Q with (inject_Z 0); rewrite <- Zlt_Qlt; lia).
  apply binary_round_aux_Rounded.
  - exact Hq0.
  - apply Qlt_shift_div_l; lra.
  - unfold located.
    eapply inbetween_comp; [|apply (new_location_spec q (Zpos my) r); lia].
    assert (Hq : (inject_Z m' == inject_Z (Zpos my) * inject_Z q + inject_Z r)%Q).
    { rewrite Hqr, inject_Z_plus, inject_Z_mult. reflexivity. }
    rewrite Hm', inject_Z_mult, <- bpow_Z in Hq by assumption.
    unfold Fval.
    assert (Hb : (bpow ex * bpow (- e') == bpow sh * bpow ey)%Q).
    { rewrite <- !bpow_add. unfold sh. f_equiv. lia. }
    pose proof (bpow_pos ey) as Hpey.
    field_simplify_eq; [|split; lra].
    transitivity (inject_Z (Zpos mx) * (bpow ex * bpow (- e')))%Q; [|ring].
    rewrite Hb.
    transitivity ((inject_Z (Zpos mx) * bpow sh) * bpow ey)%Q; [|ring].
    rewrite Hq. ring.
  - (* the quotient has enough digits *)
    destruct (Zdigits2_bounds (Zpos mx) ltac:(lia)) as [Hx1 Hx2].
    destruct (Zdigits2_bounds (Zpos my) ltac:(lia)) as [Hy1 Hy2].
    fold d1 in Hx1, Hx2. fold d2 in Hy1, Hy2.
    assert (Hd1 : 0 < d1) by (apply Zdigits2_pos; lia).
    assert (Hd2 : 0 < d2) by (apply Zdigits2_pos; lia).
    assert (Hq1 : 0 <= Zdigits2 q) by (destruct q; simpl; lia).
    destruct (Z.le_gt_cases 0 (d1 - 1 + sh - d2)) as [Hk|Hk].
    + assert (Hqb : 2 ^ (d1 - 1 + sh - d2) <= q).
      { assert (Hle : Zpos my * 2 ^ (d1 - 1 + sh - d2) <= m').
        { assert (2 ^ (d1 - 1 + sh - d2) * 2 ^ d2 <= m').
          { rewrite <- Z.pow_add_r by lia.
            replace (d1 - 1 + sh - d2 + d2) with ((d1 - 1) + sh) by lia.
            rewrite Z.pow_add_r, Hm' by lia. nia. }
          assert (0 < 2 ^ (d1 - 1 + sh - d2)) by (apply Z.pow_pos_nonneg; lia).
          nia. }
        assert (Hqd : q = m' / Zpos my) by (apply (Z.div_unique_pos m' (Zpos my) q r); lia).
        rewrite Hqd. apply Z.div_le_lower_bound; lia. }
      assert (Hdq : d1 + sh - d2 <= Zdigits2 q).
      { apply Zdigits2_ge; [lia|].
        now replace (d1 + sh - d2 - 1) with (d1 - 1 + sh - d2) by lia. }
      eapply Z.le_trans; [|apply fexp_mono; apply Z.add_le_mono_r; exact Hdq].
      replace (d1 + sh - d2 + e') with (d1 + ex - (d2 + ey)) by (unfold sh; lia).
      unfold e'. lia.
    + assert (He : e' <= fexp (d1 + ex - (d2 + ey))) by (unfold e'; lia).
      assert (d1 + ex - (d2 + ey) <= e') by (unfold sh in Hk; lia).
      unfold SpecFloat.fexp in *. lia.
Qed.

Lemma iter_xO (m d : positive) : Zpos (Pos.iter xO m d) = Zpos m * 2 ^ Zpos d.
Proof.
  induction d as [|d IH] using Pos.peano_ind.
  - simpl. lia.
  - rewrite Pos.iter_succ, Pos2Z.inj_xO, IH, Pos2Z.inj_succ, Z.pow_succ_r by lia. lia.
Qed.

Lemma shl_align_spec (mx : positive) (ex ex' : Z) :
  snd (shl_align mx ex ex') = Z.min ex ex' /\
  Zpos (fst (shl_align mx ex ex')) = Zpos mx * 2 ^ (ex - Z.min ex ex').
Proof.
  unfold shl_align. destruct (ex' - ex) as [|d|d] eqn:Hd; simpl fst; simpl snd.
  - replace (Z.min ex ex') with ex by lia. rewrite Z.sub_diag. simpl. lia.
  - replace (Z.min ex ex') with ex by lia. rewrite Z.sub_diag. simpl. lia.
  - replace (Z.min ex ex') with ex' by lia. split; [reflexivity|].
    rewrite iter_xO. f_equal. f_equal. lia.
Qed.

Lemma Zdigits2_shift (m k : Z) : 0 < m -> 0 <= k -> Zdigits2 (m * 2 ^ k) = Zdigits2 m + k.
Proof.
  intros Hm Hk. destruct (Zdigits2_bounds m Hm) as [Hlo Hhi].
  pose proof (Zdigits2_pos m Hm).
  assert (0 < 2 ^ k) by (apply Z.pow_pos_nonneg; lia).
  apply Zdigits2_unique; [lia|].
  replace (Zdigits2 m + k - 1) with ((Zdigits2 m - 1) + k) by lia.
  rewrite !Z.pow_add_r by lia. nia.
Qed.

Lemma binary_round_Rounded (sx : bool) (mx : positive) (ex : Z) :
  Rounded sx (Fval (Zpos mx) ex) (binary_round prec emax sx mx ex).
Proof.
  unfold binary_round.
  destruct (shl_align_spec mx ex (fexp (Zpos (digits2_pos mx) + ex))) as [He Hm].
  destruct (shl_align mx ex (fexp (Zpos (digits2_pos mx) + ex))) as [mz ez].
  simpl fst in *. simpl snd in *. rewrite <- He in Hm.
  assert (Hv : (Fval (Zpos mx) ex == Fval (Zpos mz) ez)%Q).
  { rewrite (Fval_scale (Zpos mx) ex ez) by lia. unfold Fval. now rewrite Hm. }
  apply binary_round_aux_Rounded.
  - lia.
  - apply Fval_pos.
  - unfold located, inbetween. simpl. rewrite Hv. unfold Fval.
    rewrite <- Qmult_assoc, <- bpow_add. replace (ez + - ez) with 0 by lia.
    rewrite bpow_0. ring.
  - rewrite Hm, Zdigits2_shift by lia.
    change (Zdigits2 (Zpos mx)) with (Zpos (digits2_pos mx)).
    replace (Z.pos (digits2_pos mx) + (ex - ez) + ez)
      with (Z.pos (digits2_pos mx) + ex) by lia.
    lia.
Qed.

Lemma binary_normalize_Rounded (m e : Z) (sz : bool) :
  m <> 0 ->
  Rounded (m <? 0) (Fval (Z.abs m) e) (binary_normalize prec emax m e sz).
Proof.
  intros Hm. destruct m as [|p|p]; [lia| |]; simpl; apply binary_round_Rounded.
Qed.

Lemma Fval_cond_Zopp_scale (s : bool) (m : positive) (e ez : Z) :
  ez <= e ->
  (Fval (cond_Zopp s (Zpos m * 2 ^ (e - ez))) ez == Fval (cond_Zopp s (Zpos m)) e)%Q.
Proof.
  intros H. rewrite (Fval_scale (cond_Zopp s (Zpos m)) e ez) by assumption.
  assert (E : cond_Zopp s (Z.pos m * 2 ^ (e - ez)) =
              cond_Zopp s (Z.pos m) * 2 ^ (e - ez)).
  { destruct s; unfold cond_Zopp; lia. }
  now rewrite E.
Qed.

Lemma Fval_plus (a b e : Z) : (Fval (a + b) e == Fval a e + Fval b e)%Q.
Proof. unfold Fval. rewrite inject_Z_plus. ring. Qed.

Lemma Fval_minus (a b e : Z) : (Fval (a - b) e == Fval a e - Fval b e)%Q.
Proof. unfold Fval, Z.sub. rewrite inject_Z_plus, inject_Z_opp. ring. Qed.

Lemma SFadd_finite (sx sy : bool) (mx my : positive) (ex ey : Z) :
  exists M : Z,
    SFadd prec emax (S754_finite sx mx ex) (S754_finite sy my ey) =
      binary_normalize prec emax M (Z.min ex ey) false /\
    (Fval M (Z.min ex ey) ==
     Fval (cond_Zopp sx (Zpos mx)) ex + Fval (cond_Zopp sy (Zpos my)) ey)%Q.
Proof.
  eexists. split; [reflexivity|]. cbv zeta.
  destruct (shl_align_spec mx ex (Z.min ex ey)) as [_ Hx].
  destruct (shl_align_spec my ey (Z.min ex ey)) as [_ Hy].
  rewrite Hx, Hy.
  replace (Z.min ey (Z.min ex ey)) with (Z.min ex ey) by lia.
  replace (Z.min ex (Z.min ex ey)) with (Z.min ex ey) by lia.
  rewrite Fval_plus, !Fval_cond_Zopp_scale by lia. reflexivity.
Qed.

Lemma SFsub_finite (sx sy : bool) (mx my : positive) (ex ey : Z) :
  exists M : Z,
    SFsub prec emax (S754_finite sx mx ex) (S754_finite sy my ey) =
      binary_normalize prec emax M (Z.min ex ey) false /\
    (Fval M (Z.min ex ey) ==
     Fval (cond_Zopp sx (Zpos mx)) ex - Fval (cond_Zopp sy (Zpos my)) ey)%Q.
Proof.
  eexists. split; [reflexivity|]. cbv zeta.
  destruct (shl_align_spec mx ex (Z.min ex ey)) as [_ Hx].
  destruct (shl_align_spec my ey (Z.min ex ey)) as [_ Hy].
  rewrite Hx, Hy.
  replace (Z.min ey (Z.min ex ey)) with (Z.min ex ey) by lia.
  replace (Z.min ex (Z.min ex ey)) with (Z.min ex ey) by lia.
  rewrite Fval_minus, !Fval_cond_Zopp_scale by lia. reflexivity.
Qed.

(** *** Comparison of valid floats *)

Definition cmp_spec (c : comparison) (a b : Q) : Prop :=
  match c with
  | Lt => (a < b)%Q
  | Eq => (a == b)%Q
  | Gt => (b < a)%Q
  end.

Lemma canonical_lt (m1 m2 : positive) (e1 e2 : Z) :
  canonical m1 e1 -> canonical m2 e2 -> e1 < e2 ->
  (Fval (Zpos m1) e1 < Fval (Zpos m2) e2)%Q.
Proof.
  intros H1 H2 Hlt.
  destruct (canonical_facts m1 e1 H1) as (He1 & Hm1 & _).
  destruct (canonical_facts m2 e2 H2) as (He2 & _ & Hn2).
  assert (Hn : 2 ^ (prec - 1) <= Zpos m2) by (destruct Hn2; [lia | assumption]).
  assert (Ha : (Fval (Zpos m1) e1 < bpow (prec + e1))%Q).
  { unfold Fval. rewrite bpow_prec_Z by lia. pose proof (bpow_pos e1).
    rewrite Zlt_Qlt in Hm1. nra. }
  assert (Hb : (bpow (prec - 1 + e2) <= Fval (Zpos m2) e2)%Q).
  { unfold Fval. rewrite bpow_prec_Z by lia. pose proof (bpow_pos e2).
    rewrite Zle_Qle in Hn. nra. }
  assert (Hc : (bpow (prec + e1) <= bpow (prec - 1 + e2))%Q) by (apply bpow_le; lia).
  lra.
Qed.

Lemma SFcompare_pos (m1 m2 : positive) (e1 e2 : Z) :
  canonical m1 e1 -> canonical m2 e2 ->
  exists c, SFcompare (S754_finite false m1 e1) (S754_finite false m2 e2) = Some c /\
            cmp_spec c (Fval (Zpos m1) e1) (Fval (Zpos m2) e2).
Proof.
  intros H1 H2. simpl SFcompare. eexists. split; [reflexivity|].
  destruct (Z.compare_spec e1 e2) as [Heq|Hlt|Hgt]; simpl.
  - subst e2. fold (Pos.compare m1 m2). pose proof (bpow_pos e1) as Hp.
    unfold Fval.
    destruct (Pos.compare_spec m1 m2) as [Hm|Hm|Hm]; simpl.
    + now subst.
    + apply Pos2Z.pos_lt_pos in Hm. rewrite Zlt_Qlt in Hm. nra.
    + apply Pos2Z.pos_lt_pos in Hm. rewrite Zlt_Qlt in Hm. nra.
  - now apply canonical_lt.
  - now apply canonical_lt.
Qed.
End Rounding.

(** ** binary64: the operations of the program on non-negative numbers *)

Definition R64 : bool -> Q -> float64 -> Prop := Rounded F64.prec F64.emax.

Lemma prec64 : 0 < F64.prec.
Proof. reflexivity. Qed.

Lemma emax64 : F64.prec < F64.emax.
Proof. reflexivity. Qed.

(** A valid float64 that is zero, positive or plus infinity. *)
Definition nonneg (x : float64) : Prop := valid64 x /\ sign_pos x = true.

(** A valid, positive, finite float64 of value [v]. *)
Definition pfin (x : float64) (v : Q) : Prop :=
  exists m e, x = S754_finite false m e /\
              bounded F64.prec F64.emax m e = true /\
              (Fval (Zpos m) e == v)%Q.

Lemma pfin_nonneg (x : float64) (v : Q) : pfin x v -> nonneg x.
Proof. intros (m & e & -> & Hb & _). split; [exact Hb | reflexivity]. Qed.

Lemma pfin_pos (x : float64) (v : Q) : pfin x v -> (0 < v)%Q.
Proof. intros (m & e & _ & _ & <-). apply Fval_pos. Qed.

Lemma bounded_canonical (m : positive) (e : Z) :
  bounded F64.prec F64.emax m e = true -> canonical F64.prec F64.emax m e.
Proof. unfold bounded. intros H. apply andb_true_iff in H. apply H. Qed.

Lemma R64_nonneg (x : Q) (f : float64) : R64 false x f -> nonneg f.
Proof.
  intros H. split; [apply (R_valid _ _ _ _ _ H)|].
  pose proof (R_sign _ _ _ _ _ H) as Hs.
  destruct f as [[]|[]| |[] m e]; simpl in Hs; try discriminate; try reflexivity.
  contradiction.
Qed.

(** A rounded value between two representable positive numbers is a
    positive finite float between them. *)
Lemma R64_pfin (x : Q) (f : float64) (a b : float64) (va vb : Q) :
  R64 false x f -> pfin a va -> pfin b vb -> (va <= x <= vb)%Q ->
  exists v, pfin f v /\ (va <= v <= vb)%Q.
Proof.
  intros H (ma & ea & -> & Hba & Hva) (mb & eb & -> & Hbb & Hvb) [Hlo Hhi].
  destruct (R_upper _ _ _ _ _ H mb eb Hbb ltac:(rewrite Hvb; exact Hhi)) as [Hfin Hle].
  pose proof (R_lower _ _ _ _ _ H ma ea (bounded_canonical _ _ Hba)
                ltac:(rewrite Hva; exact Hlo) Hfin) as Hge.
  pose proof (R_sign _ _ _ _ _ H) as Hs.
  pose proof (R_valid _ _ _ _ _ H) as Hv.
  pose proof (Fval_pos ma ea) as Hpa.
  destruct f as [s|s| |s m e]; simpl in Hfin, Hge, Hle, Hs; try discriminate.
  - lra.
  - subst s. exists (Fval (Zpos m) e). split.
    + exists m, e. split; [reflexivity|]. split; [exact Hv | reflexivity].
    + rewrite <- Hva, <- Hvb. split; assumption.
Qed.

Lemma pfin_c1 : pfin c1 1.
Proof. eexists _, _. split; [reflexivity|]. split; reflexivity. Qed.

Lemma pfin_c2 : pfin c2 2.
Proof. eexists _, _. split; [reflexivity|]. split; reflexivity. Qed.

Lemma pfin_c0_5 : pfin c0_5 (1 # 2).
Proof. eexists _, _. split; [reflexivity|]. split; reflexivity. Qed.

(** The float64 nearest to 0.95; it is [1.9 * 0.5] computed in float64. *)
Definition c0_95 : float64 := F64.of_ratio 95 100.

Lemma pfin_c1_9 : pfin c1_9 (F2Q c1_9).
Proof. eexists _, _. split; [reflexivity|]. split; reflexivity. Qed.

Lemma pfin_c0_95 : pfin c0_95 (F2Q c1_9 * (1 # 2)).
Proof. eexists _, _. split; [reflexivity|]. split; reflexivity. Qed.

Lemma c0_95_below : (F2Q c0_95 < 95 # 100)%Q.
Proof. reflexivity. Qed.

Lemma Rounded_comp (s : bool) (x x' : Q) (f : float64) :
  (x == x')%Q -> R64 s x f -> R64 s x' f.
Proof.
  intros Heq [H1 H2 H3 H4 H5]. split; try assumption.
  - intros a ea Hc Hle. apply H3; [assumption|]. now rewrite Heq.
  - intros b eb Hb Hle. apply H4; [assumption|]. now rewrite Heq.
  - intros Hbig Hfin. rewrite <- Heq. apply H5; [|assumption]. now rewrite Heq.
Qed.

Lemma Fval_sign (M e : Z) : (0 < Fval M e)%Q -> 0 < M.
Proof.
  unfold Fval. intros H. pose proof (bpow_pos e) as Hp.
  destruct (Z.lt_ge_cases 0 M) as [|Hle]; [assumption|exfalso].
  assert (Hq : (inject_Z M <= 0)%Q) by (change 0%Q with (inject_Z 0); now rewrite <- Zle_Qle).
  nra.
Qed.

Lemma Fval_zero (M e : Z) : (Fval M e == 0)%Q -> M = 0.
Proof.
  unfold Fval. intros H. pose proof (bpow_pos e) as Hp.
  assert (Hq : (inject_Z M == 0)%Q) by nra.
  apply (inject_Z_injective M 0). exact Hq.
Qed.

Lemma normalize_pos (M e : Z) (x : Q) :
  (Fval M e == x)%Q -> (0 < x)%Q ->
  R64 false x (binary_normalize F64.prec F64.emax M e false).
Proof.
  intros Heq Hx.
  assert (HM : 0 < M) by (apply (Fval_sign M e); rewrite Heq; exact Hx).
  apply (Rounded_comp _ (Fval (Z.abs M) e)); [rewrite Z.abs_eq by lia; exact Heq|].
  replace false with (M <? 0) at 1 by (apply Z.ltb_ge; lia).
  apply binary_normalize_Rounded; [exact prec64 | exact emax64 | lia].
Qed.

Lemma add_pfin (x y : float64) (vx vy : Q) :
  pfin x vx -> pfin y vy -> R64 false (vx + vy) (F64.add x y).
Proof.
  intros Hx Hy. pose proof (pfin_pos _ _ Hx). pose proof (pfin_pos _ _ Hy).
  destruct Hx as (mx & ex & -> & _ & Hvx), Hy as (my & ey & -> & _ & Hvy).
  unfold F64.add.
  destruct (SFadd_finite F64.prec F64.emax false false mx my ex ey) as (Ms & -> & HM).
  apply normalize_pos; [|lra]. rewrite HM. simpl cond_Zopp. now rewrite Hvx, Hvy.
Qed.

Lemma sub_pfin (x y : float64) (vx vy : Q) :
  pfin x vx -> pfin y vy -> (vy <= vx)%Q ->
  ((vx == vy)%Q /\ F64.sub x y = S754_zero false) \/
  ((vy < vx)%Q /\ R64 false (vx - vy) (F64.sub x y)).
Proof.
  intros Hx Hy Hle.
  destruct Hx as (mx & ex & -> & _ & Hvx), Hy as (my & ey & -> & _ & Hvy).
  unfold F64.sub.
  destruct (SFsub_finite F64.prec F64.emax false false mx my ex ey) as (Ms & -> & HM).
  simpl cond_Zopp in HM. rewrite Hvx, Hvy in HM.
  destruct (Qlt_le_dec vy vx) as [Hlt|Hge].
  - right. split; [assumption|]. apply normalize_pos; [assumption | lra].
  - left. split; [lra|].
    assert (Ms = 0) as -> by (apply (Fval_zero Ms (Z.min ex ey)); rewrite HM; lra).
    reflexivity.
Qed.

Lemma mul_pfin (x y : float64) (vx vy : Q) :
  pfin x vx -> pfin y vy -> R64 false (vx * vy) (F64.mul x y).
Proof.
  intros (mx & ex & -> & Hbx & Hvx) (my & ey & -> & Hby & Hvy).
  apply (Rounded_comp _ (Fval (Zpos mx) ex * Fval (Zpos my) ey)); [now rewrite Hvx, Hvy|].
  apply (mul_Rounded F64.prec F64.emax prec64 emax64 false false);
    now apply bounded_canonical.
Qed.

Lemma div_pfin (x y : float64) (vx vy : Q) :
  pfin x vx -> pfin y vy -> R64 false (vx / vy) (F64.div x y).
Proof.
  intros (mx & ex & -> & Hbx & Hvx) (my & ey & -> & Hby & Hvy).
  apply (Rounded_comp _ (Fval (Zpos mx) ex / Fval (Zpos my) ey)); [now rewrite Hvx, Hvy|].
  apply (div_Rounded F64.prec F64.emax prec64 emax64 false false).
Qed.

(** The shapes of a non-negative float. *)
Lemma nonneg_cases (x : float64) :
  nonneg x ->
  x = S754_zero false \/ (exists v, pfin x v) \/ x = S754_infinity false.
Proof.
  intros [Hv Hs]. destruct x as [[]|[]| |[] m e]; try discriminate; auto.
  right. left. exists (Fval (Zpos m) e), m, e. repeat split. exact Hv.
Qed.

Lemma R64_cases (x : Q) (f : float64) :
  R64 false x f ->
  f = S754_zero false \/ (exists v, pfin f v) \/ f = S754_infinity false.
Proof. intros H. apply nonneg_cases. exact (R64_nonneg _ _ H). Qed.

Lemma mul_nonneg_pfin (x y : float64) (vx : Q) :
  pfin x vx -> nonneg y -> nonneg (F64.mul x y).
Proof.
  intros Hx Hy. destruct (nonneg_cases y Hy) as [->|[[vy Hvy]| ->]].
  - destruct Hx as (mx & ex & -> & _). split; reflexivity.
  - exact (R64_nonneg _ _ (mul_pfin _ _ _ _ Hx Hvy)).
  - destruct Hx as (mx & ex & -> & _). split; reflexivity.
Qed.

Lemma pfin_mag (x : float64) (v : Q) : pfin x v -> (mag x == v)%Q.
Proof. intros (m & e & -> & _ & Hv). exact Hv. Qed.

Lemma pfin_F2Q (x : float64) (v : Q) : pfin x v -> (F2Q x == v)%Q.
Proof. intros (m & e & -> & _ & Hv). exact Hv. Qed.

Lemma leb_pfin (x y : float64) (vx vy : Q) :
  pfin x vx -> pfin y vy -> F64.leb x y = true -> (vx <= vy)%Q.
Proof.
  intros (mx & ex & -> & Hbx & Hvx) (my & ey & -> & Hby & Hvy).
  destruct (SFcompare_pos F64.prec F64.emax prec64 emax64 mx my ex ey
              (bounded_canonical _ _ Hbx) (bounded_canonical _ _ Hby))
    as (c & Hc & Hs).
  unfold F64.leb, SFleb. rewrite Hc. rewrite <- Hvx, <- Hvy.
  destruct c; simpl in Hs; intros; try discriminate; lra.
Qed.

Lemma ltb_pfin_false (x y : float64) (vx vy : Q) :
  pfin x vx -> pfin y vy -> F64.ltb x y = false -> (vy <= vx)%Q.
Proof.
  intros (mx & ex & -> & Hbx & Hvx) (my & ey & -> & Hby & Hvy).
  destruct (SFcompare_pos F64.prec F64.emax prec64 emax64 mx my ex ey
              (bounded_canonical _ _ Hbx) (bounded_canonical _ _ Hby))
    as (c & Hc & Hs).
  unfold F64.ltb, SFltb. rewrite Hc. rewrite <- Hvx, <- Hvy.
  destruct c; simpl in Hs; intros; try discriminate; lra.
Qed.

Section Compression.
Context {M : MathLib} {L : MathLaws M}.

Lemma neg_nonneg_leb (x : float64) :
  nonneg x -> F64.leb (F64.neg x) F64.zero = true.
Proof. intros [_ Hs]. destruct x as [[]|[]| |[] m e]; try discriminate; reflexivity. Qed.

(** [e^(-x)] for [x >= 0]: zero or a positive number up to one. *)
Lemma exp_neg_range (x : float64) :
  nonneg x ->
  Exp (F64.neg x) = S754_zero false \/
  exists v, pfin (Exp (F64.neg x)) v /\ (v <= 1)%Q.
Proof.
  intros Hx. pose proof (neg_nonneg_leb x Hx) as Hle.
  pose proof (exp_le_1 _ Hle) as H1.
  assert (Hn : F64.is_nan (F64.neg x) = false).
  { destruct Hx as [_ Hs]. destruct x as [[]|[]| |[] m e]; try discriminate; reflexivity. }
  destruct (exp_pos _ Hn) as [Hv Hs].
  destruct (nonneg_cases _ (conj Hv Hs)) as [Hz|[[v Hp]|Hi]].
  - left. exact Hz.
  - right. exists v. split; [exact Hp|].
    exact (leb_pfin _ _ _ _ Hp pfin_c1 H1).
  - rewrite Hi in H1. discriminate.
Qed.

(** The sigmoid of a non-negative number is a number in [[1/2, 1]]. *)
Lemma sigmoid_nonneg (x : float64) :
  nonneg x -> exists v, pfin (sigmoid x) v /\ (1 # 2 <= v <= 1)%Q.
Proof.
  intros Hx. unfold sigmoid.
  destruct (exp_neg_range x Hx) as [->|(ve & He & Hle)].
  - exists 1%Q. split; [|lra].
    replace (F64.div c1 (F64.add c1 (S754_zero false))) with c1 by reflexivity.
    exact pfin_c1.
  - pose proof (pfin_pos _ _ He) as Hpos.
    destruct (R64_pfin _ _ c1 c2 1 2 (add_pfin _ _ _ _ pfin_c1 He) pfin_c1 pfin_c2
                ltac:(lra)) as (vs & Hs & Hvs).
    destruct (R64_pfin _ _ c0_5 c1 (1 # 2) 1 (div_pfin _ _ _ _ pfin_c1 Hs)
                pfin_c0_5 pfin_c1) as (vr & Hr & Hvr).
    { split.
      - apply Qle_shift_div_l; lra.
      - apply Qle_shift_div_r; lra. }
    exists vr. split; assumption.
Qed.

(** The compression maps every non-negative mean, the infinite one
    included, to a number from zero up to [1.9 * 0.5]. *)
Lemma compress_range (v : float64) :
  nonneg v ->
  nonneg (compress v) /\ is_finite (compress v) = true /\
  (0 <= F2Q (compress v) <= F2Q c0_95)%Q.
Proof.
  intros Hv. unfold compress.
  assert (Ht : nonneg (F64.mul c2_5 v)).
  { apply (mul_nonneg_pfin c2_5 v (F2Q c2_5)); [|exact Hv].
    eexists _, _. split; [reflexivity|]. split; reflexivity. }
  destruct (sigmoid_nonneg _ Ht) as (vr & Hr & Hvr).
  assert (Hz : nonneg (S754_zero false) /\ is_finite (S754_zero false) = true /\
               (0 <= F2Q (S754_zero false) <= F2Q c0_95)%Q).
  { split; [split; reflexivity|]. split; [reflexivity|].
    split; [apply Qle_refl | vm_compute; discriminate]. }
  destruct (sub_pfin _ _ _ _ Hr pfin_c0_5 ltac:(lra)) as [[_ ->]|[Hlt Hd]].
  - replace (F64.mul c1_9 (S754_zero false)) with (S754_zero false) by reflexivity.
    exact Hz.
  - destruct pfin_c0_5 as (mh & eh & _ & Hbh & Hvh).
    destruct (R_upper _ _ _ _ _ Hd mh eh Hbh) as [Hfin Hle].
    { rewrite Hvh. lra. }
    rewrite Hvh in Hle.
    destruct (R64_cases _ _ Hd) as [->|[[vd Hvd]|Hi]].
    + replace (F64.mul c1_9 (S754_zero false)) with (S754_zero false) by reflexivity.
      exact Hz.
    + rewrite (pfin_mag _ _ Hvd) in Hle.
      pose proof (pfin_pos _ _ Hvd) as Hpd.
      pose proof (mul_pfin _ _ _ _ pfin_c1_9 Hvd) as Hm.
      assert (H19 : (0 < F2Q c1_9)%Q) by reflexivity.
      destruct pfin_c0_95 as (mb & eb & Heb & Hbb & Hvb).
      destruct (R_upper _ _ _ _ _ Hm mb eb Hbb) as [Hfin' Hle'].
      { rewrite Hvb. nra. }
      assert (Hc : (F2Q c0_95 == Fval (Zpos mb) eb)%Q) by (rewrite Heb; reflexivity).
      split; [exact (R64_nonneg _ _ Hm)|]. split; [exact Hfin'|].
      destruct (R64_cases _ _ Hm) as [Ho|[[vo Hvo]|Hi]].
      * rewrite Ho. split; [apply Qle_refl | vm_compute; discriminate].
      * rewrite (pfin_mag _ _ Hvo) in Hle'. rewrite (pfin_F2Q _ _ Hvo), Hc.
        pose proof (pfin_pos _ _ Hvo). lra.
      * rewrite Hi in Hfin'. discriminate.
    + rewrite Hi in Hfin. discriminate.
Qed.
End Compression.

(** ** The values of the envelope *)

Lemma add_nonneg (x y : float64) : nonneg x -> nonneg y -> nonneg (F64.add x y).
Proof.
  intros Hx Hy.
  destruct (nonneg_cases x Hx) as [->|[[vx Hvx]| ->]];
    destruct (nonneg_cases y Hy) as [->|[[vy Hvy]| ->]];
    try (split; reflexivity).
  - destruct Hvy as (m & e & -> & Hb & _). split; [exact Hb | reflexivity].
  - destruct Hvx as (m & e & -> & Hb & _). split; [exact Hb | reflexivity].
  - exact (R64_nonneg _ _ (add_pfin _ _ _ _ Hvx Hvy)).
  - destruct Hvx as (m & e & -> & Hb & _). split; reflexivity.
  - destruct Hvy as (m & e & -> & Hb & _). split; reflexivity.
Qed.

Lemma f64_of_f32_positive (v : float32) :
  F32.ltb F32.zero v = true -> nonneg (f64_of_f32 v).
Proof.
  unfold F32.ltb, SFltb, F32.zero.
  destruct v as [s|s| |s m e]; simpl; try discriminate;
    destruct s; try discriminate; intros _.
  - split; reflexivity.
  - unfold f64_of_f32. simpl cond_Zopp.
    apply (R64_nonneg (Fval (Zpos m) e)).
    apply normalize_pos; [reflexivity | apply Fval_pos].
Qed.

(** The float64 value [2^63]. *)
Definition two63 : float64 := S754_finite false 4503599627370496 11.

Lemma pfin_two63 : pfin two63 (inject_Z (2 ^ 63)).
Proof. eexists _, _. split; [reflexivity|]. split; reflexivity. Qed.

(** [float64(n)] for a positive [int]. *)
Lemma of_int_pfin (n : Z) :
  0 < n <= max_int ->
  exists v, pfin (F64.of_int n) v /\ (1 <= v <= inject_Z (2 ^ 63))%Q.
Proof.
  intros Hn. unfold F64.of_int.
  apply (R64_pfin (inject_Z n) _ c1 two63); [| exact pfin_c1 | exact pfin_two63 |].
  - apply normalize_pos.
    + unfold Fval. rewrite bpow_0. ring.
    + change 0%Q with (inject_Z 0). rewrite <- Zlt_Qlt. lia.
  - change 1%Q with (inject_Z 1). rewrite <- !Zle_Qle. unfold max_int in Hn. lia.
Qed.

Lemma div_nonneg_pfin (x y : float64) (vy : Q) :
  nonneg x -> pfin y vy -> nonneg (F64.div x y).
Proof.
  intros Hx Hy. destruct (nonneg_cases x Hx) as [->|[[vx Hvx]| ->]].
  - destruct Hy as (m & e & -> & _). split; reflexivity.
  - exact (R64_nonneg _ _ (div_pfin _ _ _ _ Hvx Hy)).
  - destruct Hy as (m & e & -> & _). split; reflexivity.
Qed.

Section EnvelopeValues.
Context {M : MathLib} {L : MathLaws M}.

Lemma window_scan_nonneg (frame : list float32) :
  forall sum count, nonneg sum -> count <= max_int ->
    nonneg (fst (fold_left (fun '(sum, count) v =>
                   if F32.ltb F32.zero v
                   then (F64.add sum (f64_of_f32 v), iadd count 1)
                   else (sum, count)) frame (sum, count))) /\
    snd (fold_left (fun '(sum, count) v =>
                   if F32.ltb F32.zero v
                   then (F64.add sum (f64_of_f32 v), iadd count 1)
                   else (sum, count)) frame (sum, count)) <= max_int.
Proof.
  induction frame as [|v frame IH]; intros sum count Hs Hc; simpl.
  - split; assumption.
  - destruct (F32.ltb F32.zero v) eqn:Hv.
    + apply IH.
      * apply add_nonneg; [assumption|]. now apply f64_of_f32_positive.
      * apply wrap64_range.
    + now apply IH.
Qed.

Lemma window_mean_nonneg (frame : list float32) : nonneg (window_mean frame).
Proof.
  unfold window_mean, window_scan.
  destruct (window_scan_nonneg frame F64.zero 0) as [Hs Hc].
  { split; reflexivity. }
  { unfold max_int. lia. }
  destruct (fold_left _ frame (F64.zero, 0)) as [sum count]. simpl in Hs, Hc.
  destruct (Z.ltb_spec 0 count) as [Hpos|_]; [|split; reflexivity].
  destruct (of_int_pfin count ltac:(lia)) as (vc & Hvc & _).
  exact (div_nonneg_pfin _ _ _ Hs Hvc).
Qed.

Lemma envelope_loop_Forall (P : float64 -> Prop) (padded : list float32)
    (window stride : Z) :
  (forall frame, P (window_mean frame)) ->
  forall (fuel : nat) (off : Z) (out out' : list float64),
    Forall P out ->
    envelope_loop fuel padded window stride off out = Ret out' ->
    Forall P out'.
Proof.
  intros HP. induction fuel as [|fuel IH]; intros off out out' Hout; simpl.
  - destruct (off <? isub (len padded) window); [discriminate|].
    now intros [= <-].
  - destruct (off <? isub (len padded) window); [|now intros [= <-]].
    destruct (slice padded off (iadd off window)) as [frame| |]; try discriminate.
    rewrite bind_Ret. apply IH.
    apply Forall_app. split; [assumption|]. constructor; [apply HP | constructor].
Qed.

Lemma envelope_values (wav : list float32) (window stride : Z) (out : list float64) :
  envelope wav window stride = Ret out ->
  Forall (fun o => nonneg o /\ is_finite o = true /\
                   (0 <= F2Q o <= F2Q c0_95)%Q) out.
Proof.
  unfold envelope.
  destruct (make F32.zero (iadd (len wav) window)) as [zeros| |]; try discriminate.
  rewrite bind_Ret.
  destruct (copy_at zeros (Z.quot window 2) wav) as [padded| |]; try discriminate.
  rewrite bind_Ret.
  destruct (envelope_loop (S (length wav)) padded window stride 0 []) as [out0| |] eqn:Hloop;
    try discriminate.
  rewrite bind_Ret. intros [= <-].
  apply Forall_fmap.
  apply (envelope_loop_Forall (fun v => nonneg (compress v) /\
            is_finite (compress v) = true /\
            (0 <= F2Q (compress v) <= F2Q c0_95)%Q) padded window stride)
    with (fuel := S (length wav)) (off := 0) (out := []).
  - intros frame. apply compress_range. apply window_mean_nonneg.
  - constructor.
  - exact Hloop.
Qed.
End EnvelopeValues.

(** C6. Every value that the Envelope Extractor produces is a number in
    the open interval (-0.95, 0.95): it is at least 0 and at most the
    float64 product [1.9 * 0.5], which is below 0.95. *)
Theorem C6_envelope_in_open_interval {M : MathLib} {L : MathLaws M}
    (wav : list float32) (window stride : Z) :
  0 < stride -> stride <= window -> len wav + window <= max_int ->
  exists out,
    envelope wav window stride = Ret out /\
    Forall (fun o => is_finite o = true /\
                     (- (95 # 100) < F2Q o < 95 # 100)%Q) out.
Proof.
  intros Hs Hsw Hmax.
  destruct (envelope_returns wav window stride Hs Hsw Hmax) as (out & Hrun & _).
  exists out. split; [exact Hrun|].
  eapply Forall_impl; [exact (envelope_values wav window stride out Hrun)|].
  intros o (_ & Hfin & Hlo & Hhi). split; [exact Hfin|].
  pose proof c0_95_below. lra.
Qed.

Lemma C6_envelope_in_open_interval_witness :
  exists out,
    envelope (M := ref_math) [f32_one; f32_one; f32_one] 2 2 = Ret out /\
    Forall (fun o => is_finite o = true /\
                     (- (95 # 100) < F2Q o < 95 # 100)%Q) out.
Proof.
  apply (C6_envelope_in_open_interval (M := ref_math) (L := ref_math_laws)
           [f32_one; f32_one; f32_one] 2 2); try lia. vm_compute. congruence.
Defined.

(** A loud window saturates the curve: the sigmoid is 1 in float64 and the
    envelope value is [1.9 * 0.5], the float64 written 0.95. *)
Example compress_saturates :
  compress (M := ref_math) (F64.of_int 32) = c0_95 /\
  (F2Q c0_95 < 95 # 100)%Q.
Proof. split; vm_compute; reflexivity. Qed.

(** ** The bar values of a frame are never negative *)

(** Zero or a positive finite number. *)
Definition fin_nonneg (x : float64) : Prop :=
  x = S754_zero false \/ exists v, pfin x v.

(** NaN, or zero, a positive number or plus infinity. *)
Definition nan_or_nonneg (x : float64) : Prop :=
  x = S754_nan \/ nonneg x.

Lemma fin_nonneg_nonneg (x : float64) : fin_nonneg x -> nonneg x.
Proof.
  intros [->|[v Hv]]; [split; reflexivity | exact (pfin_nonneg _ _ Hv)].
Qed.

Lemma nonneg_finite (x : float64) :
  nonneg x -> is_finite x = true -> fin_nonneg x.
Proof.
  intros Hx Hf. destruct (nonneg_cases x Hx) as [->|[Hv| ->]].
  - now left.
  - now right.
  - discriminate.
Qed.

Lemma mul_fin_nonneg (x y : float64) :
  fin_nonneg x -> fin_nonneg y -> nonneg (F64.mul x y).
Proof.
  intros [->|[vx Hx]] [->|[vy Hy]].
  - split; reflexivity.
  - destruct Hy as (m & e & -> & _). split; reflexivity.
  - destruct Hx as (m & e & -> & _). split; reflexivity.
  - exact (R64_nonneg _ _ (mul_pfin _ _ _ _ Hx Hy)).
Qed.

Lemma mul_nonneg_nan (x y : float64) :
  nan_or_nonneg x -> nan_or_nonneg y -> nan_or_nonneg (F64.mul x y).
Proof.
  intros [->|Hx] [->|Hy]; [now left | now left | left; apply mul_nan_r |].
  destruct (nonneg_cases x Hx) as [->|[[vx Hvx]| ->]];
    destruct (nonneg_cases y Hy) as [->|[[vy Hvy]| ->]];
    try (now left); try (right; split; reflexivity).
  - right. destruct Hvy as (m & e & -> & _). split; reflexivity.
  - right. destruct Hvx as (m & e & -> & _). split; reflexivity.
  - right. exact (R64_nonneg _ _ (mul_pfin _ _ _ _ Hvx Hvy)).
  - right. destruct Hvx as (m & e & -> & _). split; reflexivity.
  - right. destruct Hvy as (m & e & -> & _). split; reflexivity.
Qed.

Lemma nan_or_nonneg_not_negative (x : float64) :
  nan_or_nonneg x -> F64.ltb x F64.zero = false.
Proof.
  intros [->|[_ Hs]]; [reflexivity|].
  destruct x as [[]|[]| |[] m e]; try discriminate; reflexivity.
Qed.

(** [1 - w] for a weight [w] in [[0, 1]]. *)
Lemma one_minus_weight (w : float64) (v : Q) :
  pfin w v -> (v <= 1)%Q -> fin_nonneg (F64.sub c1 w).
Proof.
  intros Hw Hle.
  destruct (sub_pfin _ _ _ _ pfin_c1 Hw Hle) as [[_ ->]|[Hlt Hd]]; [now left|].
  apply nonneg_finite; [exact (R64_nonneg _ _ Hd)|].
  destruct pfin_c1 as (m1 & e1 & _ & Hb1 & Hv1).
  destruct (R_upper _ _ _ _ _ Hd m1 e1 Hb1) as [Hfin _]; [|exact Hfin].
  rewrite Hv1. pose proof (pfin_pos _ _ Hw). lra.
Qed.

Section Bars.
Context {M : MathLib} {L : MathLaws M}.

(** A weight: zero or a number up to one. *)
Definition weight (w : float64) : Prop :=
  w = S754_zero false \/ exists v, pfin w v /\ (v <= 1)%Q.

(** The sigmoid of a number is a weight. *)
Lemma sigmoid_num (x : float64) : F64.is_nan x = false -> weight (sigmoid x).
Proof.
  intros Hx. unfold sigmoid, weight.
  assert (Hn : F64.is_nan (F64.neg x) = false) by (destruct x; easy).
  destruct (exp_pos _ Hn) as [Hv Hs].
  destruct (nonneg_cases _ (conj Hv Hs)) as [->|[[ve He]| ->]].
  - right. exists 1%Q. split; [|lra].
    replace (F64.div c1 (F64.add c1 (S754_zero false))) with c1 by reflexivity.
    exact pfin_c1.
  - pose proof (pfin_pos _ _ He) as Hpos.
    pose proof (add_pfin _ _ _ _ pfin_c1 He) as Hs1.
    destruct pfin_c1 as (m1 & e1 & Hc1 & Hb1 & Hv1).
    destruct (R64_cases _ _ Hs1) as [Hz|[[vs Hvs]|Hi]].
    + pose proof (R_lower _ _ _ _ _ Hs1 m1 e1 (bounded_canonical _ _ Hb1)
                    ltac:(rewrite Hv1; lra)) as Hlow.
      rewrite Hz in Hlow. specialize (Hlow eq_refl). simpl in Hlow.
      rewrite Hv1 in Hlow. lra.
    + assert (Hge : (1 <= vs)%Q).
      { pose proof (R_lower _ _ _ _ _ Hs1 m1 e1 (bounded_canonical _ _ Hb1)
                      ltac:(rewrite Hv1; lra)) as Hlow.
        rewrite (pfin_mag _ _ Hvs), Hv1 in Hlow. apply Hlow.
        destruct Hvs as (m & e & -> & _). reflexivity. }
      pose proof (div_pfin _ _ _ _ (ex_intro _ m1 (ex_intro _ e1 (conj Hc1 (conj Hb1 Hv1)))) Hvs)
        as Hr.
      destruct (R_upper _ _ _ _ _ Hr m1 e1 Hb1) as [Hfin Hle].
      { rewrite Hv1. apply Qle_shift_div_r; lra. }
      destruct (R64_cases _ _ Hr) as [Hz|[[vr Hvr]|Hi]].
      * left. exact Hz.
      * right. exists vr. split; [exact Hvr|].
        rewrite (pfin_mag _ _ Hvr), Hv1 in Hle. exact Hle.
      * rewrite Hi in Hfin. discriminate.
    + left. rewrite Hi. reflexivity.
  - left. reflexivity.
Qed.

(** The crossfade weight is NaN or a weight. *)
Lemma sigmoid_cases (x : float64) : sigmoid x = S754_nan \/ weight (sigmoid x).
Proof.
  destruct (F64.is_nan x) eqn:Hn.
  - left. destruct x; try discriminate. unfold sigmoid. simpl F64.neg.
    now rewrite exp_nan.
  - right. exact (sigmoid_num x Hn).
Qed.

Lemma blend_nonneg (w a b : float64) :
  fin_nonneg a -> fin_nonneg b ->
  w = S754_nan \/ weight w ->
  nan_or_nonneg (blend w a b).
Proof.
  intros Ha Hb [->|[->|(v & Hw & Hle)]]; unfold blend.
  - left. reflexivity.
  - right. apply add_nonneg.
    + apply mul_fin_nonneg; [|exact Ha]. right. exists 1%Q. exact pfin_c1.
    + apply mul_fin_nonneg; [now left | exact Hb].
  - right. apply add_nonneg.
    + apply mul_fin_nonneg; [|exact Ha]. exact (one_minus_weight _ _ Hw Hle).
    + apply mul_fin_nonneg; [|exact Hb]. right. now exists v.
Qed.

Lemma one_minus_cos (x : float64) :
  nan_or_nonneg (F64.sub c1 (Cos x)).
Proof.
  destruct (is_finite x) eqn:Hf.
  2:{ left. destruct x as [|s| |]; try discriminate.
      - now rewrite cos_inf.
      - now rewrite cos_nan. }
  destruct (cos_range x Hf) as (Hv & Hlo & Hhi).
  destruct (Cos x) as [s|s| |s m e] eqn:Hc.
  - right. destruct s; split; reflexivity.
  - destruct s; discriminate.
  - discriminate.
  - right. destruct s.
    + (* a negative cosine *)
      change c1 with (S754_finite false 4503599627370496 (-52)).
      unfold F64.sub.
      destruct (SFsub_finite F64.prec F64.emax false true 4503599627370496 m (-52) e)
        as (Ms & -> & HM).
      apply (R64_nonneg (Fval 4503599627370496 (-52) + Fval (Zpos m) e)).
      apply normalize_pos.
      * rewrite HM. unfold Fval. simpl cond_Zopp. rewrite inject_Z_opp.
        generalize (inject_Z 4503599627370496 * bpow (-52))%Q (inject_Z (Z.pos m)) (bpow e).
        intros p q r. lra.
      * pose proof (Fval_pos 4503599627370496 (-52)). pose proof (Fval_pos m e). lra.
    + assert (Hp : pfin (S754_finite false m e) (Fval (Zpos m) e)).
      { exists m, e. split; [reflexivity|]. split; [exact Hv | reflexivity]. }
      apply fin_nonneg_nonneg.
      apply (one_minus_weight _ _ Hp).
      exact (leb_pfin _ _ _ _ Hp pfin_c1 Hhi).
Qed.

Lemma taper_nonneg (i n : Z) : nan_or_nonneg (taper i n).
Proof.
  unfold taper. apply mul_nonneg_nan; [|apply one_minus_cos].
  right. exact (pfin_nonneg _ _ pfin_c0_5).
Qed.
End Bars.

Section FrameBars.
Context {M : MathLib} {L : MathLaws M}.

Lemma index_elem {A} (s : list A) (i : Z) (a : A) :
  index s i = Ret a -> a ∈ s.
Proof.
  unfold index. destruct (0 <=? i); [|discriminate].
  destruct (s !! Z.to_nat i) eqn:Hl; [|discriminate].
  intros [= <-]. exact (list_elem_of_lookup_2 _ _ _ Hl).
Qed.

Lemma slice_Forall {A} (P : A -> Prop) (s r : list A) (lo hi : Z) :
  Forall P s -> slice s lo hi = Ret r -> Forall P r.
Proof.
  intros Hs. unfold slice.
  destruct ((0 <=? lo) && (lo <=? hi) && (hi <=? len s)); [|discriminate].
  intros [= <-]. apply Forall_take, Forall_drop, Hs.
Qed.

Lemma pad_envelope_Forall (P : float64 -> Prop) (env padded : list float64) (bars : Z) :
  P F64.zero -> Forall P env -> pad_envelope env bars = Ret padded -> Forall P padded.
Proof.
  intros Hz He. unfold pad_envelope, make.
  destruct (iadd (len env) (imul 3 bars) <? 0); [discriminate|].
  rewrite bind_Ret. unfold copy_at.
  match goal with |- context [if ?c then _ else _] => destruct c end; [|discriminate].
  intros [= <-].
  assert (Hr : forall n, Forall P (replicate n F64.zero)).
  { intros n. apply Forall_replicate, Hz. }
  repeat apply Forall_app_2.
  - apply Forall_take, Hr.
  - apply Forall_take, He.
  - apply Forall_drop, Hr.
Qed.

(** Every bar value of a frame over an envelope of finite non-negative values
    is NaN or non-negative. *)
Lemma frame_bars_nonneg (env : list float64) (sr : float64)
    (rate bars stride : Z) (speed : float64) (idx : Z) (denv : list float64) :
  Forall fin_nonneg env ->
  frame_bars env sr rate bars stride speed idx = Ret denv ->
  Forall nan_or_nonneg denv.
Proof.
  intros He. unfold frame_bars. cbv zeta.
  destruct (slice env (imul (int _) bars) _) as [env1| |] eqn:H1; try discriminate.
  rewrite bind_Ret.
  destruct (slice env (imul (iadd _ 1) bars) _) as [env2| |] eqn:H2; try discriminate.
  rewrite bind_Ret.
  destruct (make F64.zero bars) as [d0| |] eqn:Hm; try discriminate.
  rewrite bind_Ret.
  pose proof (slice_Forall _ _ _ _ _ He H1) as He1.
  pose proof (slice_Forall _ _ _ _ _ He H2) as He2.
  assert (H0 : Forall nan_or_nonneg d0).
  { unfold make in Hm. destruct (bars <? 0); [discriminate|].
    injection Hm as <-. apply Forall_replicate. right. split; reflexivity. }
  revert denv.
  apply (for_range_preserves
           (fun acc : outcome (list float64) =>
              forall denv, acc = Ret denv -> Forall nan_or_nonneg denv)).
  - intros denv [= <-]. exact H0.
  - intros i acc _ IH denv.
    destruct acc as [d| |]; try discriminate. rewrite bind_Ret.
    destruct (index env1 i) as [a| |] eqn:Ha; try discriminate. rewrite bind_Ret.
    destruct (index env2 i) as [b| |] eqn:Hb; try discriminate. rewrite bind_Ret.
    intros [= <-].
    apply Forall_insert; [exact (IH d eq_refl)|].
    apply mul_nonneg_nan; [|apply taper_nonneg].
    apply blend_nonneg.
    + exact (proj1 (Forall_forall _ _) He1 a (index_elem _ _ _ Ha)).
    + exact (proj1 (Forall_forall _ _) He2 b (index_elem _ _ _ Hb)).
    + apply sigmoid_cases.
Qed.

Lemma envelope_fin_nonneg (wav : list float32) (window stride : Z)
    (out : list float64) :
  envelope wav window stride = Ret out -> Forall fin_nonneg out.
Proof.
  intros H. apply envelope_values in H.
  eapply Forall_impl; [exact H|].
  intros o (Hn & Hf & _). exact (nonneg_finite o Hn Hf).
Qed.
End FrameBars.

(** C9: the bar values of every frame are NaN, zero or positive, whatever the
    signal: the envelope is a mean of absolute values, the crossfade weights
    are in [[0, 1]] and the raised cosine is in [[0, 1]], so no bar value is
    negative. *)
Theorem C9_bars_never_negative {M : MathLib} {L : MathLaws M}
    (wav : list float32) (window stride0 : Z) (env0 env : list float64)
    (sr : float64) (rate bars stride : Z) (speed : float64) (idx : Z)
    (denv : list float64) :
  envelope wav window stride0 = Ret env0 ->
  pad_envelope env0 bars = Ret env ->
  frame_bars env sr rate bars stride speed idx = Ret denv ->
  Forall (fun b => F64.ltb b F64.zero = false) denv.
Proof.
  intros He Hp Hf.
  apply envelope_fin_nonneg in He.
  apply (pad_envelope_Forall fin_nonneg _ _ _ (or_introl eq_refl) He) in Hp.
  apply (frame_bars_nonneg _ _ _ _ _ _ _ _ Hp) in Hf.
  eapply Forall_impl; [exact Hf|].
  intros b. apply nan_or_nonneg_not_negative.
Qed.

Definition f32_half : float32 := S754_finite false 8388608 (-24).
Definition f32_neg_one : float32 := S754_finite true 8388608 (-23).

Definition wav4 : list float32 := [f32_one; f32_neg_one; f32_half; f32_neg_one].

Lemma C9_bars_never_negative_witness :
  exists env0 env denv,
    envelope (M := ref_math) wav4 2 1 = Ret env0 /\
    pad_envelope env0 3 = Ret env /\
    frame_bars (M := ref_math) env (F64.of_int 4) 2 3 1 (F64.of_int 4) 1 = Ret denv /\
    Forall (fun b => F64.ltb b F64.zero = false) denv.
Proof.
  let o := eval vm_compute in (envelope (M := ref_math) wav4 2 1) in
  match o with
  | Ret ?e0 =>
      assert (H1 : envelope (M := ref_math) wav4 2 1 = Ret e0)
        by (vm_compute; reflexivity);
      let p := eval vm_compute in (pad_envelope e0 3) in
      match p with
      | Ret ?e =>
          assert (H2 : pad_envelope e0 3 = Ret e) by (vm_compute; reflexivity);
          let d := eval vm_compute in
                (frame_bars (M := ref_math) e (F64.of_int 4) 2 3 1 (F64.of_int 4) 1) in
          match d with
          | Ret ?dv =>
              assert (H3 : frame_bars (M := ref_math) e (F64.of_int 4) 2 3 1
                             (F64.of_int 4) 1 = Ret dv)
                by (vm_compute; reflexivity);
              exists e0, e, dv
          end
      end
  end.
  split; [exact H1|]. split; [exact H2|]. split; [exact H3|].
  exact (C9_bars_never_negative (M := ref_math) (L := ref_math_laws)
           _ _ _ _ _ _ _ _ _ _ _ _ H1 H2 H3).
Defined.

(** C9, refuted: no signal gives a frame with a negative bar value. *)
Lemma C9_negative_bar_counterexample :
  ~ exists (M : MathLib) (_ : MathLaws M)
      (wav : list float32) (window stride0 : Z) (env0 env : list float64)
      (sr : float64) (rate bars stride : Z) (speed : float64) (idx : Z)
      (denv : list float64) (b : float64),
      envelope wav window stride0 = Ret env0 /\
      pad_envelope env0 bars = Ret env /\
      frame_bars env sr rate bars stride speed idx = Ret denv /\
      b ∈ denv /\ F64.ltb b F64.zero = true.
Proof.
  intros (M & L & wav & window & stride0 & bars & env0 & env & sr & rate & stride
          & speed & idx & denv & b & He & Hp & Hf & Hin & Hneg).
  apply envelope_fin_nonneg in He.
  apply (pad_envelope_Forall fin_nonneg _ _ _ (or_introl eq_refl) He) in Hp.
  apply (frame_bars_nonneg _ _ _ _ _ _ _ _ Hp) in Hf.
  pose proof (proj1 (Forall_forall _ _) Hf b Hin) as Hb.
  apply nan_or_nonneg_not_negative in Hb. congruence.
Qed.

(** ** The frame position stays inside the padded envelope *)

(** The unit roundoff of float64. *)
Definition eps : Q := 1 # 9007199254740992.

(** Values between [2^-k] and [2^k]. *)
Definition mid (k : Z) (v : Q) : Prop := (bpow (- k) <= v <= bpow k)%Q.

Lemma mid_pos (k : Z) (v : Q) : mid k v -> (0 < v)%Q.
Proof. intros [H _]. pose proof (bpow_pos (- k)). lra. Qed.

Lemma mid_weaken (j k : Z) (v : Q) : j <= k -> mid j v -> mid k v.
Proof.
  intros Hjk [Hlo Hhi]. split.
  - apply Qle_trans with (bpow (- j)); [apply bpow_le; lia | exact Hlo].
  - apply Qle_trans with (bpow j); [exact Hhi | apply bpow_le; lia].
Qed.

Lemma mid_mul (j k : Z) (a b : Q) : mid j a -> mid k b -> mid (j + k) (a * b).
Proof.
  intros [Ha1 Ha2] [Hb1 Hb2]. split.
  - rewrite Z.opp_add_distr, bpow_add.
    apply Qmult_le_compat_nonneg; split; try assumption;
      apply Qlt_le_weak, bpow_pos.
  - rewrite bpow_add.
    pose proof (bpow_pos (- j)). pose proof (bpow_pos (- k)).
    apply Qmult_le_compat_nonneg; split; try assumption; lra.
Qed.

Lemma bpow_opp_mul (k : Z) : (bpow (- k) * bpow k == 1)%Q.
Proof. rewrite <- bpow_add. replace (- k + k) with 0 by lia. reflexivity. Qed.

Lemma mid_inv (k : Z) (b : Q) : mid k b -> mid k (/ b).
Proof.
  intros [H1 H2]. pose proof (bpow_pos (- k)) as Hp. pose proof (bpow_pos k) as Hq.
  pose proof (bpow_opp_mul k) as He.
  assert (Hb : (0 < b)%Q) by lra.
  split.
  - apply Qle_shift_inv_l; [exact Hb|].
    rewrite <- He. apply Qmult_le_l; assumption.
  - apply Qle_shift_inv_r; [exact Hb|].
    rewrite <- He. rewrite (Qmult_comm (bpow (- k))). apply Qmult_le_l; assumption.
Qed.

Lemma mid_div (j k : Z) (a b : Q) : mid j a -> mid k b -> mid (j + k) (a / b).
Proof. intros Ha Hb. apply mid_mul; [exact Ha | apply mid_inv, Hb]. Qed.

Lemma mid_err (k : Z) (x v : Q) :
  mid k x -> (x - x * eps <= v <= x + x * eps)%Q -> mid (k + 1) v.
Proof.
  intros [H1 H2] [H3 H4]. unfold eps in *.
  pose proof (bpow_succ k) as Hs.
  pose proof (bpow_succ (- (k + 1))) as Ht.
  replace (- (k + 1) + 1) with (- k) in Ht by lia.
  pose proof (bpow_pos (- (k + 1))). split; lra.
Qed.

Lemma mid_Z (n : Z) : 0 < n <= max_int -> mid 63 (inject_Z n).
Proof.
  intros Hn. split.
  - apply Qle_trans with 1%Q.
    + apply Qlt_le_weak. change 1%Q with (bpow 0). apply bpow_lt. lia.
    + change 1%Q with (inject_Z 1). rewrite <- Zle_Qle. lia.
  - rewrite bpow_Z by lia. rewrite <- Zle_Qle. unfold max_int in Hn. lia.
Qed.

Definition two1000 : float64 := S754_finite false 4503599627370496 948.

Lemma pfin_two1000 : pfin two1000 (bpow 1000).
Proof.
  exists 4503599627370496%positive, 948. split; [reflexivity|]. split; [reflexivity|].
  unfold Fval. change (inject_Z 4503599627370496) with (inject_Z (2 ^ 52)).
  rewrite <- bpow_Z by lia. rewrite <- bpow_add. reflexivity.
Qed.

(** A rounded result away from underflow and overflow is a number within
    one unit roundoff of the exact value. *)
Lemma R64_err (k : Z) (x : Q) (f : float64) :
  R64 false x f -> mid k x -> k <= 1000 ->
  exists v, pfin f v /\ (x - x * eps <= v <= x + x * eps)%Q.
Proof.
  intros H Hm Hk. apply (mid_weaken k 1000) in Hm; [|exact Hk].
  pose proof (mid_pos _ _ Hm) as Hp. destruct Hm as [Hlo Hhi].
  destruct pfin_two1000 as (mb & eb & _ & Hb & Hvb).
  destruct (R_upper _ _ _ _ _ H mb eb Hb ltac:(rewrite Hvb; exact Hhi)) as [Hfin _].
  assert (Hbig : (bpow (3 - F64.emax - F64.prec + F64.prec - 1) <= x)%Q).
  { apply Qle_trans with (bpow (- (1000))); [|exact Hlo].
    apply bpow_le. unfold F64.emax, F64.prec. lia. }
  pose proof (R_error _ _ _ _ _ H Hbig Hfin) as He.
  change (bpow (- F64.prec)) with eps in He.
  destruct (R64_cases _ _ H) as [Hz|[[v Hv]|Hi]].
  - rewrite Hz in He. simpl mag in He. unfold eps in He. lra.
  - exists v. split; [exact Hv|]. rewrite <- (pfin_mag _ _ Hv). exact He.
  - rewrite Hi in Hfin. discriminate.
Qed.

Lemma mul_err (j k : Z) (a b : float64) (va vb : Q) :
  pfin a va -> pfin b vb -> mid j va -> mid k vb -> j + k <= 1000 ->
  exists v, pfin (F64.mul a b) v /\ mid (j + k + 1) v /\
            (va * vb - va * vb * eps <= v <= va * vb + va * vb * eps)%Q.
Proof.
  intros Ha Hb Hja Hkb Hjk.
  pose proof (mid_mul _ _ _ _ Hja Hkb) as Hm.
  destruct (R64_err _ _ _ (mul_pfin _ _ _ _ Ha Hb) Hm Hjk) as (v & Hv & He).
  exists v. split; [exact Hv|]. split; [exact (mid_err _ _ _ Hm He) | exact He].
Qed.

Lemma div_err (j k : Z) (a b : float64) (va vb : Q) :
  pfin a va -> pfin b vb -> mid j va -> mid k vb -> j + k <= 1000 ->
  exists v, pfin (F64.div a b) v /\ mid (j + k + 1) v /\
            (va - va * eps <= v * vb <= va + va * eps)%Q.
Proof.
  intros Ha Hb Hja Hkb Hjk.
  pose proof (mid_div _ _ _ _ Hja Hkb) as Hm.
  destruct (R64_err _ _ _ (div_pfin _ _ _ _ Ha Hb) Hm Hjk) as (v & Hv & He).
  exists v. split; [exact Hv|]. split; [exact (mid_err _ _ _ Hm He)|].
  pose proof (mid_pos _ _ Hkb) as Hpos.
  assert (Hx : (va / vb * vb == va)%Q) by (field; intro Hc; lra).
  destruct He as [He1 He2]. unfold eps in *.
  split.
  - apply Qle_trans with ((va / vb - va / vb * (1 # 9007199254740992)) * vb)%Q.
    + rewrite <- Hx at 1 2. apply Qle_lteq. right. ring.
    + apply Qmult_le_compat_r; lra.
  - apply Qle_trans with ((va / vb + va / vb * (1 # 9007199254740992)) * vb)%Q.
    + apply Qmult_le_compat_r; lra.
    + rewrite <- Hx at 3 4. apply Qle_lteq. right. ring.
Qed.

Lemma of_int_err (n : Z) :
  0 < n <= max_int ->
  exists v, pfin (F64.of_int n) v /\ mid 64 v /\
            (inject_Z n - inject_Z n * eps <= v <= inject_Z n + inject_Z n * eps)%Q.
Proof.
  intros Hn. pose proof (mid_Z n Hn) as Hm.
  assert (H : R64 false (inject_Z n) (F64.of_int n)).
  { unfold F64.of_int. apply normalize_pos.
    - unfold Fval. rewrite bpow_0. ring.
    - change 0%Q with (inject_Z 0). rewrite <- Zlt_Qlt. lia. }
  destruct (R64_err _ _ _ H Hm ltac:(lia)) as (v & Hv & He).
  exists v. split; [exact Hv|]. split; [exact (mid_err _ _ _ Hm He) | exact He].
Qed.

Section Chain.
Local Open Scope Q_scope.

Lemma step_mul (a b c : Q) : 0 <= c -> a <= b -> a * c <= b * c.
Proof. intros. apply Qmult_le_compat_r; assumption. Qed.

Lemma pos_chain (u N I s vn D vr F vi q1 q2 vs q3 vb pos : Q) :
  0 < u -> 0 < N -> 0 < s -> 0 < vn -> 0 < D -> 0 < vr -> 0 <= I -> 0 < vi ->
  0 < q1 -> 0 < q2 -> 0 < vs -> 0 < q3 -> 0 < vb -> 0 < pos ->
  vn <= N * u -> D * s <= vn * u -> F <= vr * D * u -> I <= F ->
  vi <= I * u -> q1 * vr <= vi * u -> q2 <= q1 * s * u ->
  q3 * vs <= q2 * u -> pos * vb <= q3 * u ->
  pos * vb * vs <= N * (u * u * u * u * u * u * u * u).
Proof.
  intros Hu HN Hs Hvn HD Hvr HI Hvi Hq1 Hq2 Hvs Hq3 Hvb Hpos
         H1 H2 H3 H4 H5 H6 H7 H8 H9.
  assert (T1 : pos * vb * vs <= q2 * (u * u)).
  { apply Qle_trans with (q3 * u * vs); [apply step_mul; lra|].
    apply Qle_trans with (q3 * vs * u); [apply Qle_lteq; right; ring|].
    apply Qle_trans with (q2 * u * u); [apply step_mul; lra|].
    apply Qle_lteq; right; ring. }
  assert (T2 : q2 * vr <= vi * s * (u * u)).
  { apply Qle_trans with (q1 * s * u * vr); [apply step_mul; lra|].
    apply Qle_trans with (q1 * vr * (s * u)); [apply Qle_lteq; right; ring|].
    apply Qle_trans with (vi * u * (s * u)).
    - apply step_mul; [|assumption]. apply Qlt_le_weak, Qmult_lt_0_compat; assumption.
    - apply Qle_lteq; right; ring. }
  assert (Huu : 0 < u * u) by (apply Qmult_lt_0_compat; assumption).
  assert (T3 : I * s <= vr * N * (u * u * u)).
  { apply Qle_trans with (F * s); [apply step_mul; lra|].
    apply Qle_trans with (vr * D * u * s); [apply step_mul; lra|].
    apply Qle_trans with (D * s * (vr * u)); [apply Qle_lteq; right; ring|].
    apply Qle_trans with (vn * u * (vr * u)).
    - apply step_mul; [|assumption]. apply Qlt_le_weak, Qmult_lt_0_compat; assumption.
    - apply Qle_trans with (vn * (vr * (u * u))); [apply Qle_lteq; right; ring|].
      apply Qle_trans with (N * u * (vr * (u * u))).
      + apply step_mul; [|assumption].
        apply Qlt_le_weak, Qmult_lt_0_compat; assumption.
      + apply Qle_lteq; right; ring. }
  assert (T4 : vi * s <= vr * N * (u * u * u * u)).
  { apply Qle_trans with (I * u * s); [apply step_mul; lra|].
    apply Qle_trans with (I * s * u); [apply Qle_lteq; right; ring|].
    apply Qle_trans with (vr * N * (u * u * u) * u); [apply step_mul; lra|].
    apply Qle_lteq; right; ring. }
  assert (T5 : pos * vb * vs * vr <= vr * (N * (u * u * u * u * u * u * u * u))).
  { apply Qle_trans with (q2 * (u * u) * vr); [apply step_mul; lra|].
    apply Qle_trans with (q2 * vr * (u * u)); [apply Qle_lteq; right; ring|].
    apply Qle_trans with (vi * s * (u * u) * (u * u)); [apply step_mul; lra|].
    apply Qle_trans with (vi * s * (u * u * u * u)); [apply Qle_lteq; right; ring|].
    apply Qle_trans with (vr * N * (u * u * u * u) * (u * u * u * u)).
    - apply step_mul; [|assumption].
      apply Qlt_le_weak. repeat apply Qmult_lt_0_compat; assumption.
    - apply Qle_lteq; right; ring. }
  rewrite (Qmult_comm (pos * vb * vs) vr) in T5.
  apply Qmult_le_l in T5; assumption.
Qed.

(** Eight roundings up and two down move the position by less than one
    entry over [2^48] samples. *)
Lemma pos_margin (P N : Q) :
  0 <= P -> 0 < N -> N <= inject_Z (2 ^ 48) ->
  P * ((1 - (1 # 9007199254740992)) * (1 - (1 # 9007199254740992))) <=
    N * ((1 + (1 # 9007199254740992)) * (1 + (1 # 9007199254740992)) *
         (1 + (1 # 9007199254740992)) * (1 + (1 # 9007199254740992)) *
         (1 + (1 # 9007199254740992)) * (1 + (1 # 9007199254740992)) *
         (1 + (1 # 9007199254740992)) * (1 + (1 # 9007199254740992))) ->
  P <= N + (1 # 2).
Proof.
  intros HP HN Hle H.
  change (inject_Z (2 ^ 48)) with (281474976710656 # 1) in Hle.
  lra.
Qed.
End Chain.

Section FramePosition.
Context {M : MathLib}.

(** The conversion to [int] of a positive number below [2^63] is its floor. *)
Lemma int_floor (x : float64) (v : Q) :
  pfin x v -> (v < inject_Z (2 ^ 63))%Q -> int x = Qfloor v /\ 0 <= Qfloor v.
Proof.
  intros Hx Hlt. pose proof (pfin_pos _ _ Hx) as Hpos.
  pose proof (pfin_F2Q _ _ Hx) as HF.
  destruct Hx as (m & e & -> & Hb & Hv).
  assert (Hr : 0 <= Qfloor v < 2 ^ 63).
  { split.
    - change 0 with (Qfloor 0). apply Qfloor_resp_le. lra.
    - pose proof (Qfloor_le v) as Hle. rewrite Zlt_Qlt. lra. }
  split; [|lia].
  unfold int, int_of_f64. rewrite trunc_float_floor.
  rewrite (Qfloor_comp _ _ HF).
  unfold in_int, min_int, max_int.
  destruct (Z.leb_spec (- 2 ^ 63) (Qfloor v));
    destruct (Z.leb_spec (Qfloor v) (2 ^ 63 - 1)); simpl; try lia; reflexivity.
Qed.

(** A sample rate between 1 Hz and [2^63] Hz. *)
Lemma sample_rate_pfin (sr : float64) :
  valid64 sr -> F64.leb c1 sr = true -> F64.leb sr two63 = true ->
  exists s, pfin sr s /\ (1 <= s <= inject_Z (2 ^ 63))%Q.
Proof.
  intros Hv H1 H2.
  destruct sr as [[]|[]| |[] m e]; try discriminate.
  assert (Hp : pfin (S754_finite false m e) (Fval (Zpos m) e)).
  { exists m, e. split; [reflexivity|]. split; [exact Hv | reflexivity]. }
  exists (Fval (Zpos m) e). split; [exact Hp|]. split.
  - exact (leb_pfin _ _ _ _ pfin_c1 Hp H1).
  - exact (leb_pfin _ _ _ _ Hp pfin_two63 H2).
Qed.

Lemma frames_of_empty (rate : Z) (sr : float64) (s : Q) :
  0 < rate <= max_int -> pfin sr s -> frames_of rate 0 sr = 0.
Proof.
  intros Hr (m & e & -> & _). unfold frames_of. cbv zeta.
  destruct (of_int_pfin rate Hr) as (v & (mr & er & -> & _) & _).
  reflexivity.
Qed.

Lemma frame_pos_first (sr : float64) (s : Q) (rate stride bars : Z) :
  0 < rate <= max_int -> 0 < stride <= max_int -> 0 < bars <= max_int ->
  pfin sr s ->
  frame_pos sr rate stride bars 0 = S754_zero false.
Proof.
  intros Hr Hs Hb (m & e & -> & _). unfold frame_pos.
  destruct (of_int_pfin rate Hr) as (v1 & (m1 & e1 & -> & _) & _).
  destruct (of_int_pfin stride Hs) as (v2 & (m2 & e2 & -> & _) & _).
  destruct (of_int_pfin bars Hb) as (v3 & (m3 & e3 & -> & _) & _).
  reflexivity.
Qed.
End FramePosition.

Section FrameOffset.
Context {M : MathLib}.

Lemma inject_Z_pos (n : Z) : 0 < n -> (1 <= inject_Z n)%Q.
Proof. intros. change 1%Q with (inject_Z 1). rewrite <- Zle_Qle. lia. Qed.

Lemma Qle_mul_ge_1 (p k : Q) : (0 <= p)%Q -> (1 <= k)%Q -> (p <= p * k)%Q.
Proof.
  intros Hp Hk. rewrite <- (Qmult_1_r p) at 1.
  rewrite !(Qmult_comm p). apply Qmult_le_compat_r; assumption.
Qed.

(** The number of frames is below the duration times the rate, up to four
    roundings; it is a number below [2^63]. *)
Lemma frames_of_bound (rate n : Z) (sr : float64) (s : Q) :
  0 < rate <= max_int -> 0 < n <= 2 ^ 48 -> rate * n <= 2 ^ 62 ->
  pfin sr s -> (1 <= s <= inject_Z (2 ^ 63))%Q ->
  exists vn D vr F,
    pfin (F64.of_int rate) vr /\ mid 64 vr /\ mid 64 vn /\ mid 128 D /\
    (vn <= inject_Z n * (1 + eps))%Q /\
    (D * s <= vn * (1 + eps))%Q /\
    (F <= vr * D * (1 + eps))%Q /\
    (forall idx, idx < frames_of rate n sr ->
       idx < 2 ^ 63 /\ (inject_Z idx <= F)%Q).
Proof.
  intros Hr Hn Hrn Hsr Hs.
  assert (Ms : mid 63 s).
  { split.
    - apply Qle_trans with 1%Q; [|apply Hs].
      apply Qlt_le_weak. change 1%Q with (bpow 0). apply bpow_lt. lia.
    - rewrite bpow_Z by lia. apply Hs. }
  assert (Hnmax : 0 < n <= max_int) by (unfold max_int; lia).
  destruct (of_int_err n Hnmax) as (vn & Hvn & Mvn & Evn).
  destruct (div_err 64 63 _ _ _ _ Hvn Hsr Mvn Ms ltac:(lia)) as (D & HD & MD & ED).
  destruct (of_int_err rate Hr) as (vr & Hvr & Mvr & Evr).
  destruct (mul_err 64 (64 + 63 + 1) _ _ _ _ Hvr HD Mvr MD ltac:(lia))
    as (F & HF & MF & EF).
  exists vn, D, vr, F.
  pose proof (mid_pos _ _ Mvn) as Pvn. pose proof (mid_pos _ _ MD) as PD.
  pose proof (mid_pos _ _ Mvr) as Pvr. pose proof (mid_pos _ _ MF) as PF.
  pose proof (inject_Z_pos n ltac:(lia)) as PN.
  pose proof (inject_Z_pos rate ltac:(lia)) as PR.
  unfold eps in *.
  split; [exact Hvr|]. split; [exact Mvr|]. split; [exact Mvn|].
  split; [exact MD|].
  split; [lra|]. split; [lra|]. split; [lra|].
  assert (HF63 : (F < inject_Z (2 ^ 63))%Q).
  { assert (HD1 : (D <= D * s)%Q) by (apply Qle_mul_ge_1; lra).
    assert (HX : (vr * D <=
                  (inject_Z rate * (1 + (1 # 9007199254740992))) *
                  (inject_Z n * ((1 + (1 # 9007199254740992)) *
                                 (1 + (1 # 9007199254740992)))))%Q).
    { apply Qmult_le_compat_nonneg; split; lra. }
    assert (HRN : (inject_Z rate * inject_Z n <= inject_Z (2 ^ 62))%Q).
    { rewrite <- inject_Z_mult, <- Zle_Qle. exact Hrn. }
    change (inject_Z (2 ^ 62)) with (4611686018427387904 # 1)%Q in HRN.
    change (inject_Z (2 ^ 63)) with (9223372036854775808 # 1)%Q.
    set (RN := (inject_Z rate * inject_Z n)%Q) in *.
    assert (HX' : (vr * D <= RN * ((1 + (1 # 9007199254740992)) *
                                   (1 + (1 # 9007199254740992)) *
                                   (1 + (1 # 9007199254740992))))%Q).
    { eapply Qle_trans; [exact HX|]. apply Qle_lteq. right. unfold RN. ring. }
    assert (PRN : (0 < RN)%Q) by (unfold RN; apply Qmult_lt_0_compat; lra).
    set (X := (vr * D)%Q) in *. lra. }
  intros idx Hidx.
  destruct (int_floor _ _ HF HF63) as [Hfl _].
  unfold frames_of in Hidx. cbv zeta in Hidx. rewrite Hfl in Hidx.
  pose proof (Qfloor_le F) as Hle.
  assert (Hq : (inject_Z idx <= inject_Z (Qfloor F))%Q) by (rewrite <- Zle_Qle; lia).
  split; [|lra].
  assert (Hlt : (inject_Z (Qfloor F) < inject_Z (2 ^ 63))%Q) by lra.
  rewrite <- Zlt_Qlt in Hlt. lia.
Qed.

(** The position of a frame is zero or a positive number that, counted in
    samples, is at most half a sample beyond the signal. *)
Lemma frame_pos_cases (rate n stride bars idx : Z) (sr : float64) (s : Q) :
  0 < rate <= max_int -> 0 < stride <= max_int -> 0 < bars <= max_int ->
  0 <= n <= 2 ^ 48 -> rate * n <= 2 ^ 62 ->
  pfin sr s -> (1 <= s <= inject_Z (2 ^ 63))%Q ->
  0 <= idx < frames_of rate n sr ->
  frame_pos sr rate stride bars idx = S754_zero false \/
  exists pos, pfin (frame_pos sr rate stride bars idx) pos /\
              (pos < inject_Z (2 ^ 63))%Q /\
              (pos * inject_Z bars * inject_Z stride <= inject_Z n + (1 # 2))%Q.
Proof.
  intros Hr Hst Hb Hn Hrn Hsr Hs Hidx.
  destruct (Z.eq_dec n 0) as [->|Hn0].
  { rewrite (frames_of_empty rate sr s Hr Hsr) in Hidx. lia. }
  destruct (frames_of_bound rate n sr s Hr ltac:(lia) Hrn Hsr Hs)
    as (vn & D & vr & F & Hvr & Mvr & Mvn & MD & Evn & ED & EF & Hfr).
  destruct (Hfr idx ltac:(lia)) as [Hi63 HiF].
  destruct (Z.eq_dec idx 0) as [->|Hi0].
  { left. exact (frame_pos_first sr s rate stride bars Hr Hst Hb Hsr). }
  right.
  assert (Ms : mid 63 s).
  { split.
    - apply Qle_trans with 1%Q; [|apply Hs].
      apply Qlt_le_weak. change 1%Q with (bpow 0). apply bpow_lt. lia.
    - rewrite bpow_Z by lia. apply Hs. }
  assert (Himax : 0 < idx <= max_int) by (unfold max_int; lia).
  destruct (of_int_err idx Himax) as (vi & Hvi & Mvi & Evi).
  destruct (div_err 64 64 _ _ _ _ Hvi Hvr Mvi Mvr ltac:(lia)) as (q1 & Hq1 & Mq1 & Eq1).
  destruct (mul_err (64 + 64 + 1) 63 _ _ _ _ Hq1 Hsr Mq1 Ms ltac:(lia))
    as (q2 & Hq2 & Mq2 & Eq2).
  destruct (of_int_err stride Hst) as (vs & Hvs & Mvs & Evs).
  destruct (div_err (64 + 64 + 1 + 63 + 1) 64 _ _ _ _ Hq2 Hvs Mq2 Mvs ltac:(lia))
    as (q3 & Hq3 & Mq3 & Eq3).
  destruct (of_int_err bars Hb) as (vb & Hvb & Mvb & Evb).
  destruct (div_err (64 + 64 + 1 + 63 + 1 + 64 + 1) 64 _ _ _ _ Hq3 Hvb Mq3 Mvb ltac:(lia))
    as (pos & Hpos & Mpos & Epos).
  fold (frame_pos sr rate stride bars idx) in Hpos.
  pose proof (mid_pos _ _ Mvn) as Pvn. pose proof (mid_pos _ _ MD) as PD.
  pose proof (mid_pos _ _ Mvr) as Pvr. pose proof (mid_pos _ _ Mvi) as Pvi.
  pose proof (mid_pos _ _ Mq1) as Pq1. pose proof (mid_pos _ _ Mq2) as Pq2.
  pose proof (mid_pos _ _ Mq3) as Pq3. pose proof (mid_pos _ _ Mvs) as Pvs.
  pose proof (mid_pos _ _ Mvb) as Pvb. pose proof (mid_pos _ _ Mpos) as Ppos.
  pose proof (inject_Z_pos n ltac:(lia)) as PN.
  pose proof (inject_Z_pos idx ltac:(lia)) as PI.
  pose proof (inject_Z_pos stride ltac:(lia)) as PS.
  pose proof (inject_Z_pos bars ltac:(lia)) as PB.
  pose proof (pfin_pos _ _ Hsr) as Psr.
  unfold eps in *.
  assert (HC := pos_chain (1 + (1 # 9007199254740992)) (inject_Z n) (inject_Z idx) s
                  vn D vr F vi q1 q2 vs q3 vb pos).
  specialize (HC ltac:(lra) ltac:(lra) Psr Pvn PD Pvr ltac:(lra) Pvi Pq1 Pq2 Pvs Pq3
                 Pvb Ppos Evn ED EF HiF ltac:(lra) ltac:(lra) ltac:(lra) ltac:(lra)
                 ltac:(lra)).
  set (P := (pos * inject_Z bars * inject_Z stride)%Q).
  assert (PP : (0 <= P)%Q).
  { unfold P. apply Qlt_le_weak. repeat apply Qmult_lt_0_compat; lra. }
  assert (HP : (P * ((1 - (1 # 9007199254740992)) * (1 - (1 # 9007199254740992)))
                <= pos * vb * vs)%Q).
  { apply Qle_trans with
      (pos * (inject_Z bars * (1 - (1 # 9007199254740992))) *
       (inject_Z stride * (1 - (1 # 9007199254740992))))%Q.
    - apply Qle_lteq. right. unfold P. ring.
    - apply Qmult_le_compat_nonneg; split; try lra.
      + apply Qlt_le_weak. apply Qmult_lt_0_compat; lra.
      + rewrite !(Qmult_comm pos). apply Qmult_le_compat_r; lra. }
  assert (HN48 : (inject_Z n <= inject_Z (2 ^ 48))%Q) by (rewrite <- Zle_Qle; lia).
  pose proof (pos_margin P (inject_Z n) PP ltac:(lra) HN48
                ltac:(eapply Qle_trans; [exact HP | exact HC])) as HM.
  assert (HposP : (pos <= P)%Q).
  { unfold P. rewrite <- Qmult_assoc. apply Qle_mul_ge_1; [lra|].
    apply Qle_trans with (1 * 1)%Q; [lra|].
    apply Qmult_le_compat_nonneg; split; lra. }
  change (inject_Z (2 ^ 48)) with (281474976710656 # 1)%Q in HN48.
  assert (H63 : (pos < inject_Z (2 ^ 63))%Q).
  { change (inject_Z (2 ^ 63)) with (9223372036854775808 # 1)%Q. lra. }
  exists pos. split; [exact Hpos|]. split; [exact H63|]. exact HM.
Qed.

(** The envelope entries up to the frame's offset fit in the signal. *)
Lemma frame_offset_bound (rate n stride bars idx : Z) (sr : float64) (s : Q) :
  0 < rate <= max_int -> 0 < stride <= max_int -> 0 < bars <= max_int ->
  0 <= n <= 2 ^ 48 -> rate * n <= 2 ^ 62 ->
  pfin sr s -> (1 <= s <= inject_Z (2 ^ 63))%Q ->
  0 <= idx < frames_of rate n sr ->
  0 <= int (frame_pos sr rate stride bars idx) /\
  int (frame_pos sr rate stride bars idx) * bars * stride <= n.
Proof.
  intros Hr Hst Hb Hn Hrn Hsr Hs Hidx.
  destruct (frame_pos_cases rate n stride bars idx sr s Hr Hst Hb Hn Hrn Hsr Hs Hidx)
    as [->|(pos & Hpos & H63 & HM)].
  { change (int (S754_zero false)) with 0. lia. }
  pose proof (pfin_pos _ _ Hpos) as Ppos.
  pose proof (inject_Z_pos stride ltac:(lia)) as PS.
  pose proof (inject_Z_pos bars ltac:(lia)) as PB.
  set (P := (pos * inject_Z bars * inject_Z stride)%Q) in *.
  destruct (int_floor _ _ Hpos H63) as [-> Hoff].
  split; [exact Hoff|].
  pose proof (Qfloor_le pos) as Hfl.
  assert (HQ : (inject_Z (Qfloor pos * bars * stride) <= P)%Q).
  { rewrite !inject_Z_mult. unfold P.
    apply Qmult_le_compat_r; [|lra]. apply Qmult_le_compat_r; lra. }
  assert (HZ : (inject_Z (Qfloor pos * bars * stride) < inject_Z (n + 1))%Q).
  { rewrite (inject_Z_plus n 1). change (inject_Z 1) with 1%Q. lra. }
  rewrite <- Zlt_Qlt in HZ. lia.
Qed.
End FrameOffset.

Section FrameSlices.
Context {M : MathLib}.

Lemma index_ret {A} (s : list A) (i : Z) :
  0 <= i < len s -> exists a, index s i = Ret a.
Proof.
  intros Hi. unfold index. destruct (Z.leb_spec 0 i); [|lia].
  destruct (lookup_lt_is_Some_2 s (Z.to_nat i)) as [a Ha]; [unfold len in Hi; lia|].
  exists a. now rewrite Ha.
Qed.

(** A frame whose two segments are inside the envelope is computed without
    a run-time panic and has one value per bar. *)
Lemma frame_bars_returns (env : list float64) (sr : float64)
    (rate bars stride : Z) (speed : float64) (idx : Z) :
  0 < bars -> len env <= max_int ->
  0 <= int (frame_pos sr rate stride bars idx) ->
  (int (frame_pos sr rate stride bars idx) + 2) * bars <= len env ->
  exists env1 env2 denv,
    slice env (int (frame_pos sr rate stride bars idx) * bars)
              ((int (frame_pos sr rate stride bars idx) + 1) * bars) = Ret env1 /\
    slice env ((int (frame_pos sr rate stride bars idx) + 1) * bars)
              ((int (frame_pos sr rate stride bars idx) + 2) * bars) = Ret env2 /\
    frame_bars env sr rate bars stride speed idx = Ret denv /\
    len denv = bars.
Proof.
  intros Hb Hmax Hlo Hhi. unfold frame_bars. cbv zeta.
  set (off := int (frame_pos sr rate stride bars idx)) in *.
  assert (H1 : iadd off 1 = off + 1)
    by (apply wrap64_id; unfold min_int, max_int in *; nia).
  assert (H2 : iadd off 2 = off + 2)
    by (apply wrap64_id; unfold min_int, max_int in *; nia).
  assert (H3 : forall z, 0 <= z <= off + 2 -> imul z bars = z * bars).
  { intros z Hz. apply wrap64_id. unfold min_int, max_int in *. nia. }
  rewrite H1, H2, !H3 by lia.
  destruct (slice env (off * bars) ((off + 1) * bars)) as [env1| |] eqn:E1.
  2,3: rewrite slice_ret in E1 by nia; discriminate.
  destruct (slice env ((off + 1) * bars) ((off + 2) * bars)) as [env2| |] eqn:E2.
  2,3: rewrite slice_ret in E2 by nia; discriminate.
  apply slice_len in E1 as L1. apply slice_len in E2 as L2.
  destruct L1 as [L1 _], L2 as [L2 _].
  exists env1, env2. rewrite !bind_Ret, make_ret by lia. rewrite bind_Ret.
  rewrite len_replicate by lia.
  pose (P := fun (_ : Z) (acc : outcome (list float64)) =>
               exists d, acc = Ret d /\ len d = bars).
  destruct (for_range_ind P
              (fun i acc =>
                 denv ← acc;
                 a ← index env1 i;
                 b ← index env2 i;
                 Ret (<[Z.to_nat i :=
                        F64.mul
                          (blend (crossfade speed
                                    (F64.sub (frame_pos sr rate stride bars idx)
                                             (F64.of_int off)) env2) a b)
                          (taper i (len denv))]> denv))
              0 bars (Ret (replicate (Z.to_nat bars) F64.zero)))
    as (d & Hd & Ld).
  - lia.
  - exists (replicate (Z.to_nat bars) F64.zero). split; [reflexivity|].
    apply len_replicate. lia.
  - intros i acc Hi (d & -> & Ld). rewrite bind_Ret.
    destruct (index_ret env1 i ltac:(lia)) as [a ->].
    destruct (index_ret env2 i ltac:(lia)) as [b ->].
    rewrite !bind_Ret. eexists. split; [reflexivity|].
    unfold len in *. rewrite length_insert. exact Ld.
  - exists d. repeat split; try reflexivity; assumption.
Qed.
End FrameSlices.

(** The padded envelope of a run and the offsets of its frames. *)
Lemma padded_envelope_fits {M : MathLib}
    (mono : list float32) (window stride bars rate : Z) (sr : float64) :
  0 < rate <= max_int -> 0 < bars <= 2 ^ 60 ->
  0 < stride <= window -> len mono + window <= max_int ->
  len mono <= 2 ^ 48 -> rate * len mono <= 2 ^ 62 ->
  valid64 sr -> F64.leb c1 sr = true -> F64.leb sr two63 = true ->
  exists env0 env,
    envelope mono window stride = Ret env0 /\
    pad_envelope env0 bars = Ret env /\
    len env <= max_int /\
    forall idx, 0 <= idx < frames_of rate (len mono) sr ->
      0 <= int (frame_pos sr rate stride bars idx) /\
      (int (frame_pos sr rate stride bars idx) + 2) * bars <= len env /\
      (frame_pos sr rate stride bars idx = S754_zero false \/
       exists v, pfin (frame_pos sr rate stride bars idx) v /\
                 (v < inject_Z (2 ^ 63))%Q).
Proof.
  intros Hr Hb Hst Hmax Hn Hrn Hv Hs1 Hs2.
  pose proof (len_nonneg mono) as Hl.
  destruct (envelope_returns mono window stride ltac:(lia) ltac:(lia) Hmax)
    as (env0 & He & Le).
  assert (Hle0 : len env0 <= len mono).
  { rewrite Le. apply Z.lt_succ_r. apply Z.div_lt_upper_bound; nia. }
  assert (Hpad : len env0 + 3 * bars <= max_int) by (unfold max_int; lia).
  assert (Hq : 0 <= Z.quot bars 2 <= bars).
  { rewrite Z.quot_div_nonneg by lia. split; [apply Z.div_pos; lia|].
    apply Z.div_le_upper_bound; lia. }
  assert (Hlen : len (replicate (Z.to_nat (Z.quot bars 2)) F64.zero ++ env0 ++
                      replicate (Z.to_nat (3 * bars - Z.quot bars 2)) F64.zero)
                 = len env0 + 3 * bars).
  { rewrite !len_app, !len_replicate by lia. lia. }
  exists env0. eexists. split; [exact He|].
  split; [apply pad_envelope_shape; lia|].
  rewrite Hlen. split; [exact Hpad|].
  intros idx Hidx.
  destruct (sample_rate_pfin sr Hv Hs1 Hs2) as (s & Hsr & Hs).
  assert (Hst' : 0 < stride <= max_int) by (unfold max_int in *; lia).
  assert (Hb' : 0 < bars <= max_int) by (unfold max_int; lia).
  destruct (frame_offset_bound rate (len mono) stride bars idx sr s
              Hr Hst' Hb' ltac:(lia) Hrn Hsr Hs Hidx) as [Hoff Hbound].
  split; [exact Hoff|]. split.
  - set (off := int (frame_pos sr rate stride bars idx)) in *.
    assert (off * bars <= len mono / stride).
    { apply Z.div_le_lower_bound; [lia|]. nia. }
    assert (len mono / stride <= len env0).
    { rewrite Le. apply Z.div_le_mono; lia. }
    nia.
  - destruct (frame_pos_cases rate (len mono) stride bars idx sr s
                Hr Hst' Hb' ltac:(lia) Hrn Hsr Hs Hidx) as [Hz|(v & Hp & H63 & _)].
    + now left.
    + right. now exists v.
Qed.

(** C1: for every frame index below the number of frames, the two segments
    [env[off*bars : (off+1)*bars]] and [env[(off+1)*bars : (off+2)*bars]] of
    the padded envelope exist: [(off+2)*bars <= len(env)], the slice
    expressions do not panic and the frame's bar vector is computed. The
    sizes are those of a real run: at most [2^48] samples, fewer than
    [2^62] for the product of rate and length, and a sample rate between 1
    and [2^63] Hz. *)
Theorem C1_frame_slices_in_range {M : MathLib}
    (mono : list float32) (window stride bars rate : Z) (sr speed : float64) :
  0 < rate <= max_int -> 0 < bars <= 2 ^ 60 ->
  0 < stride <= window -> len mono + window <= max_int ->
  len mono <= 2 ^ 48 -> rate * len mono <= 2 ^ 62 ->
  valid64 sr -> F64.leb c1 sr = true -> F64.leb sr two63 = true ->
  exists env0 env,
    envelope mono window stride = Ret env0 /\
    pad_envelope env0 bars = Ret env /\
    forall idx, 0 <= idx < frames_of rate (len mono) sr ->
      0 <= int (frame_pos sr rate stride bars idx) /\
      (int (frame_pos sr rate stride bars idx) + 2) * bars <= len env /\
      exists env1 env2 denv,
        slice env (int (frame_pos sr rate stride bars idx) * bars)
                  ((int (frame_pos sr rate stride bars idx) + 1) * bars) = Ret env1 /\
        slice env ((int (frame_pos sr rate stride bars idx) + 1) * bars)
                  ((int (frame_pos sr rate stride bars idx) + 2) * bars) = Ret env2 /\
        frame_bars env sr rate bars stride speed idx = Ret denv /\
        len denv = bars.
Proof.
  intros Hr Hb Hst Hmax Hn Hrn Hv Hs1 Hs2.
  destruct (padded_envelope_fits mono window stride bars rate sr
              Hr Hb Hst Hmax Hn Hrn Hv Hs1 Hs2)
    as (env0 & env & He & Hp & Hlen & Hfit).
  exists env0, env. split; [exact He|]. split; [exact Hp|].
  intros idx Hidx. destruct (Hfit idx Hidx) as (Hoff & Hhi & _).
  split; [exact Hoff|]. split; [exact Hhi|].
  apply frame_bars_returns; try assumption. lia.
Qed.

Lemma C1_frame_slices_in_range_witness :
  exists env0 env,
    envelope (M := ref_math) wav4 2 1 = Ret env0 /\
    pad_envelope env0 3 = Ret env /\
    forall idx, 0 <= idx < frames_of (M := ref_math) 2 (len wav4) (F64.of_int 2) ->
      0 <= int (M := ref_math) (frame_pos (F64.of_int 2) 2 1 3 idx) /\
      (int (M := ref_math) (frame_pos (F64.of_int 2) 2 1 3 idx) + 2) * 3 <= len env /\
      exists env1 env2 denv,
        slice env (int (M := ref_math) (frame_pos (F64.of_int 2) 2 1 3 idx) * 3)
                  ((int (M := ref_math) (frame_pos (F64.of_int 2) 2 1 3 idx) + 1) * 3)
          = Ret env1 /\
        slice env ((int (M := ref_math) (frame_pos (F64.of_int 2) 2 1 3 idx) + 1) * 3)
                  ((int (M := ref_math) (frame_pos (F64.of_int 2) 2 1 3 idx) + 2) * 3)
          = Ret env2 /\
        frame_bars (M := ref_math) env (F64.of_int 2) 2 3 1 (F64.of_int 4) idx
          = Ret denv /\
        len denv = 3.
Proof.
  apply (C1_frame_slices_in_range (M := ref_math) wav4 2 1 3 2 (F64.of_int 2)
           (F64.of_int 4)); try (vm_compute; intuition congruence).
Defined.

(** ** Silence *)

(** An all-zero signal; the zeros may have either sign. *)
Definition silent (mono : list float32) : Prop :=
  Forall (fun v => exists s, v = S754_zero s) mono.

(** A sample that the envelope does not count: not above zero. *)
Definition quiet (v : float32) : Prop := F32.ltb F32.zero v = false.

Lemma prec32 : 0 < F32.prec.
Proof. reflexivity. Qed.

Lemma emax32 : F32.prec < F32.emax.
Proof. reflexivity. Qed.

(** [float32(n)] for a positive [n] is a positive number or plus infinity. *)
Lemma F32_of_int_pos (n : Z) :
  0 < n ->
  (exists m e, F32.of_int n = S754_finite false m e) \/
  F32.of_int n = S754_infinity false.
Proof.
  intros Hn. unfold F32.of_int.
  pose proof (binary_normalize_Rounded F32.prec F32.emax prec32 emax32 n 0 false
                ltac:(lia)) as H.
  replace (n <? 0) with false in H by (symmetry; apply Z.ltb_ge; lia).
  pose proof (R_sign _ _ _ _ _ H) as Hs.
  destruct (binary_normalize F32.prec F32.emax n 0 false) as [s|s| |s m e] eqn:E;
    simpl in Hs; try contradiction; subst s.
  - exfalso.
    assert (Hc : canonical F32.prec F32.emax 8388608 (-23)) by reflexivity.
    pose proof (R_lower _ _ _ _ _ H 8388608%positive (-23) Hc) as Hl.
    simpl mag in Hl.
    assert (H1 : (Fval 8388608 (-23) == 1)%Q) by reflexivity.
    rewrite H1 in Hl.
    assert (Hge : (1 <= Fval (Z.abs n) 0)%Q).
    { unfold Fval. rewrite bpow_0, Qmult_1_r.
      change 1%Q with (inject_Z 1). rewrite <- Zle_Qle. lia. }
    specialize (Hl Hge eq_refl). lra.
  - now right.
  - left. now exists m, e.
Qed.

Lemma sum_squares_silent (mono : list float32) :
  silent mono ->
  fold_left (fun std v => F32.add std (F32.mul v v)) mono (S754_zero false)
  = S754_zero false.
Proof.
  induction 1 as [|v mono [s ->] _ IH]; [reflexivity|].
  simpl. destruct s; exact IH.
Qed.

(** The root mean square of a silent signal is zero. *)
Lemma rms_silent (mono : list float32) :
  silent mono -> mono <> [] -> rms mono = S754_zero false.
Proof.
  intros Hs Hne. unfold rms. change F32.zero with (S754_zero false).
  rewrite (sum_squares_silent mono Hs).
  destruct (F32_of_int_pos (len mono)) as [(m & e & ->)| ->].
  - unfold len. destruct mono; [contradiction | simpl; lia].
  - reflexivity.
  - reflexivity.
Qed.

(** Normalization divides zero by zero: every sample becomes NaN. *)
Lemma normalize_silent (mono : list float32) :
  silent mono -> Forall (eq S754_nan) (normalize mono).
Proof.
  intros Hs. destruct mono as [|v0 mono]; [constructor|].
  unfold normalize. rewrite (rms_silent _ Hs) by discriminate.
  apply Forall_fmap. eapply Forall_impl; [exact Hs|].
  intros v [s ->]. destruct s; reflexivity.
Qed.

Lemma len_normalize (mono : list float32) : len (normalize mono) = len mono.
Proof. unfold normalize. apply len_fmap. Qed.

Lemma quiet_nan : quiet S754_nan.
Proof. reflexivity. Qed.

Lemma quiet_zero : quiet F32.zero.
Proof. reflexivity. Qed.

Section QuietEnvelope.
Context {M : MathLib} {L : MathLaws M}.

Lemma window_mean_quiet (frame : list float32) :
  Forall quiet frame -> window_mean frame = F64.zero.
Proof.
  intros H. unfold window_mean, window_scan.
  assert (Hf : fold_left (fun '(sum, count) v =>
                 if F32.ltb F32.zero v
                 then (F64.add sum (f64_of_f32 v), iadd count 1)
                 else (sum, count)) frame (F64.zero, 0) = (F64.zero, 0)).
  { induction H as [|v frame Hv _ IH]; [reflexivity|].
    simpl. unfold quiet in Hv. rewrite Hv. exact IH. }
  rewrite Hf. reflexivity.
Qed.

Lemma envelope_loop_Forall_on (Q : float32 -> Prop) (P : float64 -> Prop)
    (padded : list float32) (window stride : Z) :
  (forall frame, Forall Q frame -> P (window_mean frame)) ->
  Forall Q padded ->
  forall (fuel : nat) (off : Z) (out out' : list float64),
    Forall P out ->
    envelope_loop fuel padded window stride off out = Ret out' ->
    Forall P out'.
Proof.
  intros HP HQ. induction fuel as [|fuel IH]; intros off out out' Hout; simpl.
  - destruct (off <? isub (len padded) window); [discriminate|].
    now intros [= <-].
  - destruct (off <? isub (len padded) window); [|now intros [= <-]].
    destruct (slice padded off (iadd off window)) as [frame| |] eqn:Hs;
      try discriminate.
    rewrite bind_Ret. apply IH.
    apply Forall_app_2; [exact Hout|]. constructor; [|constructor].
    apply HP. exact (slice_Forall _ _ _ _ _ HQ Hs).
Qed.

Lemma compress_zero : compress F64.zero = F64.zero.
Proof.
  unfold compress, sigmoid.
  change (F64.neg (F64.mul c2_5 F64.zero)) with (S754_zero true).
  rewrite exp_zero. reflexivity.
Qed.

Lemma copy_at_Forall {A} (P : A -> Prop) (dst src r : list A) (k : Z) :
  Forall P dst -> Forall P src -> copy_at dst k src = Ret r -> Forall P r.
Proof.
  intros Hd Hs. unfold copy_at.
  destruct ((0 <=? k) && (k <=? len dst)); [|discriminate].
  intros [= <-]. repeat apply Forall_app_2.
  - apply Forall_take, Hd.
  - apply Forall_take, Hs.
  - apply Forall_drop, Hd.
Qed.

(** The envelope of a signal without a positive sample is zero everywhere. *)
Lemma envelope_quiet (wav : list float32) (window stride : Z) (out : list float64) :
  Forall quiet wav -> envelope wav window stride = Ret out ->
  Forall (eq F64.zero) out.
Proof.
  intros Hq. unfold envelope, make.
  destruct (iadd (len wav) window <? 0); [discriminate|]. rewrite bind_Ret.
  destruct (copy_at _ (Z.quot window 2) wav) as [padded| |] eqn:Hc; try discriminate.
  rewrite bind_Ret.
  destruct (envelope_loop (S (length wav)) padded window stride 0 []) as [out0| |] eqn:Hl;
    try discriminate.
  rewrite bind_Ret. intros [= <-].
  apply Forall_fmap.
  apply (envelope_loop_Forall_on quiet (fun v => F64.zero = compress v)
           padded window stride) in Hl.
  - exact Hl.
  - intros frame Hf. rewrite (window_mean_quiet frame Hf). symmetry. apply compress_zero.
  - refine (copy_at_Forall quiet _ _ _ _ _ Hq Hc).
    apply Forall_replicate. exact quiet_zero.
  - constructor.
Qed.
End QuietEnvelope.

(** ** Numbers: closure of the operations *)

(** A float64 that is not NaN. *)
Definition num (x : float64) : Prop := valid64 x /\ F64.is_nan x = false.

(** A finite float64. *)
Definition finv (x : float64) : Prop := valid64 x /\ is_finite x = true.

Lemma finv_num (x : float64) : finv x -> num x.
Proof. intros [Hv Hf]. split; [exact Hv|]. destruct x; try discriminate; reflexivity. Qed.

Lemma fin_nonneg_finv (x : float64) : fin_nonneg x -> finv x.
Proof.
  intros [->|(v & m & e & -> & Hb & _)]; split; try reflexivity. exact Hb.
Qed.

Lemma pfin_finv (x : float64) (v : Q) : pfin x v -> finv x.
Proof. intros H. apply fin_nonneg_finv. right. now exists v. Qed.

Lemma Rounded_num (s : bool) (x : Q) (f : float64) : R64 s x f -> num f.
Proof.
  intros H. split; [exact (R_valid _ _ _ _ _ H)|].
  pose proof (R_sign _ _ _ _ _ H) as Hs. destruct f; try reflexivity. contradiction.
Qed.

(** A rounded value below a float64 is zero or a positive number. *)
Lemma R64_fin (x : Q) (f b : float64) (vb : Q) :
  R64 false x f -> pfin b vb -> (x <= vb)%Q -> fin_nonneg f.
Proof.
  intros H (mb & eb & -> & Hb & Hvb) Hle.
  destruct (R_upper _ _ _ _ _ H mb eb Hb ltac:(rewrite Hvb; exact Hle)) as [Hfin _].
  exact (nonneg_finite _ (R64_nonneg _ _ H) Hfin).
Qed.

Lemma normalize_num (m e : Z) : num (binary_normalize F64.prec F64.emax m e false).
Proof.
  destruct (Z.eq_dec m 0) as [->|Hm]; [split; reflexivity|].
  exact (Rounded_num _ _ _ (binary_normalize_Rounded F64.prec F64.emax prec64 emax64
                              m e false Hm)).
Qed.

Lemma mul_finite_num (sx sy : bool) (mx my : positive) (ex ey : Z) :
  bounded F64.prec F64.emax mx ex = true -> bounded F64.prec F64.emax my ey = true ->
  num (F64.mul (S754_finite sx mx ex) (S754_finite sy my ey)).
Proof.
  intros Hx Hy.
  exact (Rounded_num _ _ _
           (mul_Rounded F64.prec F64.emax prec64 emax64 sx sy mx my ex ey
              (bounded_canonical _ _ Hx) (bounded_canonical _ _ Hy))).
Qed.

Lemma div_finite_num (sx sy : bool) (mx my : positive) (ex ey : Z) :
  num (F64.div (S754_finite sx mx ex) (S754_finite sy my ey)).
Proof.
  exact (Rounded_num _ _ _
           (div_Rounded F64.prec F64.emax prec64 emax64 sx sy mx my ex ey)).
Qed.

Lemma add_finite_num (sx sy : bool) (mx my : positive) (ex ey : Z) :
  num (F64.add (S754_finite sx mx ex) (S754_finite sy my ey)).
Proof.
  unfold F64.add.
  destruct (SFadd_finite F64.prec F64.emax sx sy mx my ex ey) as (Ms & -> & _).
  apply normalize_num.
Qed.

Lemma sub_finite_num (sx sy : bool) (mx my : positive) (ex ey : Z) :
  num (F64.sub (S754_finite sx mx ex) (S754_finite sy my ey)).
Proof.
  unfold F64.sub.
  destruct (SFsub_finite F64.prec F64.emax sx sy mx my ex ey) as (Ms & -> & _).
  apply normalize_num.
Qed.

(** The product of two finite numbers is a number. *)
Lemma mul_finv_num (x y : float64) : finv x -> finv y -> num (F64.mul x y).
Proof.
  intros [Hvx Hfx] [Hvy Hfy].
  destruct x as [sx|sx| |sx mx ex], y as [sy|sy| |sy my ey]; try discriminate;
    try (split; reflexivity).
  exact (mul_finite_num sx sy mx my ex ey Hvx Hvy).
Qed.

(** A number times or divided by a non-zero finite number is a number. *)
Lemma mul_num_l (c x : float64) (vc : Q) : pfin c vc -> num x -> num (F64.mul c x).
Proof.
  intros (mc & ec & -> & Hc & _) [Hv Hn].
  destruct x as [s|s| |s m e]; try discriminate; try (split; reflexivity).
  exact (mul_finite_num false s mc m ec e Hc Hv).
Qed.

Lemma mul_num_r (x c : float64) (vc : Q) : num x -> pfin c vc -> num (F64.mul x c).
Proof.
  intros [Hv Hn] (mc & ec & -> & Hc & _).
  destruct x as [s|s| |s m e]; try discriminate; try (split; reflexivity).
  exact (mul_finite_num s false m mc e ec Hv Hc).
Qed.

Lemma div_num_r (x c : float64) (vc : Q) : num x -> pfin c vc -> num (F64.div x c).
Proof.
  intros [Hv Hn] (mc & ec & -> & Hc & _).
  destruct x as [s|s| |s m e]; try discriminate; try (split; reflexivity).
  apply div_finite_num.
Qed.

(** A number plus or minus a finite number is a number. *)
Lemma sub_num_finv (x y : float64) : num x -> finv y -> num (F64.sub x y).
Proof.
  intros [Hvx Hn] [Hvy Hf].
  destruct x as [sx|sx| |sx mx ex], y as [sy|sy| |sy my ey]; try discriminate;
    try (split; reflexivity).
  - destruct sx, sy; split; reflexivity.
  - split; [exact Hvy | reflexivity].
  - split; [exact Hvx | reflexivity].
  - apply sub_finite_num.
Qed.

Lemma add_finv_num (x y : float64) : finv x -> num y -> num (F64.add x y).
Proof.
  intros [Hvx Hf] [Hvy Hn].
  destruct x as [sx|sx| |sx mx ex], y as [sy|sy| |sy my ey]; try discriminate;
    try (split; reflexivity).
  - destruct sx, sy; split; reflexivity.
  - split; [exact Hvy | reflexivity].
  - split; [exact Hvx | reflexivity].
  - apply add_finite_num.
Qed.

(** ** The frames of a zero envelope *)

Lemma R64_fin_bpow (k : Z) (x : Q) (f : float64) :
  R64 false x f -> (x <= bpow k)%Q -> k <= 1000 -> fin_nonneg f.
Proof.
  intros H Hle Hk. apply (R64_fin x f two1000 (bpow 1000) H pfin_two1000).
  apply Qle_trans with (bpow k); [exact Hle | apply bpow_le; exact Hk].
Qed.

Lemma Fval_opp (m e : Z) : (Fval (- m) e == - Fval m e)%Q.
Proof. unfold Fval. rewrite inject_Z_opp. ring. Qed.

(** The difference of two positive numbers is finite. *)
Lemma sub_pfin_finv (x y : float64) (vx vy : Q) :
  pfin x vx -> pfin y vy -> finv (F64.sub x y).
Proof.
  intros (mx & ex & -> & Hbx & Hvx) (my & ey & -> & Hby & Hvy).
  unfold F64.sub.
  destruct (SFsub_finite F64.prec F64.emax false false mx my ex ey) as (Ms & -> & HM).
  simpl cond_Zopp in HM.
  pose proof (Fval_pos mx ex) as Px. pose proof (Fval_pos my ey) as Py.
  destruct (Z.eq_dec Ms 0) as [->|Hne]; [split; reflexivity|].
  pose proof (binary_normalize_Rounded F64.prec F64.emax prec64 emax64
                Ms (Z.min ex ey) false Hne) as HR.
  split; [exact (R_valid _ _ _ _ _ HR)|].
  destruct (Z.lt_ge_cases Ms 0) as [Hneg|Hpos].
  - apply (R_upper _ _ _ _ _ HR my ey Hby).
    rewrite Z.abs_neq by lia. rewrite Fval_opp, HM. lra.
  - apply (R_upper _ _ _ _ _ HR mx ex Hbx).
    rewrite Z.abs_eq by lia. rewrite HM. lra.
Qed.

Lemma max_volume_zero (env2 : list float64) :
  Forall (eq F64.zero) env2 -> max_volume env2 = F64.zero.
Proof.
  intros H. unfold max_volume.
  induction H as [|v env2 <- _ IH]; [reflexivity | exact IH].
Qed.

(** [math.Max(0.5, math.Min(2, r))] is between 0.5 and 2 for a number [r]. *)
Lemma speedup_range (r : float64) :
  num r -> exists v, pfin (Max c0_5 (Min c2 r)) v /\ ((1 # 2) <= v <= 2)%Q.
Proof.
  intros [Hv Hn].
  assert (H05 : exists v, pfin c0_5 v /\ ((1 # 2) <= v <= 2)%Q).
  { exists (1 # 2)%Q. split; [exact pfin_c0_5 | lra]. }
  assert (H2 : exists v, pfin c2 v /\ ((1 # 2) <= v <= 2)%Q).
  { exists 2%Q. split; [exact pfin_c2 | lra]. }
  destruct r as [s|s| |s m e]; try discriminate.
  - destruct s; exact H05.
  - destruct s; [exact H05 | exact H2].
  - destruct s; [exact H05|].
    assert (Hr : pfin (S754_finite false m e) (Fval (Zpos m) e)).
    { exists m, e. split; [reflexivity|]. split; [exact Hv | reflexivity]. }
    change c2 with (S754_finite false 4503599627370496 (-51)) at 1.
    unfold Min.
    destruct (F64.ltb (S754_finite false 4503599627370496 (-51))
                      (S754_finite false m e)) eqn:E2.
    { exact H2. }
    apply (ltb_pfin_false _ _ _ _ pfin_c2 Hr) in E2.
    change c0_5 with (S754_finite false 4503599627370496 (-53)) at 1.
    unfold Max.
    destruct (F64.ltb (S754_finite false m e)
                      (S754_finite false 4503599627370496 (-53))) eqn:E1.
    { exact H05. }
    apply (ltb_pfin_false _ _ _ _ Hr pfin_c0_5) in E1.
    exists (Fval (Zpos m) e). split; [exact Hr | lra].
Qed.

Section SilentFrames.
Context {M : MathLib} {L : MathLaws M}.

Lemma interpole_num (x : float64) : num x -> num (interpole cm6 c0_5 c0 c2 x).
Proof.
  intros Hx. unfold interpole.
  apply add_finv_num; [exact (pfin_finv _ _ pfin_c0_5)|].
  assert (H6 : pfin (F64.sub c0 cm6) (Fval 6755399441055744 (-50))).
  { eexists _, _. split; [reflexivity|]. split; reflexivity. }
  assert (H15 : pfin (F64.sub c2 c0_5) (Fval 6755399441055744 (-52))).
  { eexists _, _. split; [reflexivity|]. split; reflexivity. }
  apply (div_num_r _ _ _) with (2 := H6).
  apply (mul_num_l _ _ _ H15).
  apply sub_num_finv; [exact Hx|]. split; reflexivity.
Qed.

(** The speed-up factor over a zero segment. *)
Lemma speedup_zero (env2 : list float64) :
  Forall (eq F64.zero) env2 ->
  exists v,
    pfin (Max c0_5 (Min c2 (interpole cm6 c0_5 c0 c2
            (F64.mul (Log10 (F64.add c1e_4 (max_volume env2))) c10)))) v /\
    ((1 # 2) <= v <= 2)%Q.
Proof.
  intros H. rewrite (max_volume_zero env2 H).
  apply speedup_range, interpole_num.
  assert (H10 : pfin c10 (Fval 5629499534213120 (-49))).
  { eexists _, _. split; [reflexivity|]. split; reflexivity. }
  apply (mul_num_r _ _ _) with (2 := H10).
  change (F64.add c1e_4 F64.zero) with (S754_finite false 7378697629483821 (-66)).
  apply log10_pos.
Qed.

(** A speed between 0 and [2^63]. *)
Definition speed_ok (speed : float64) : Prop :=
  valid64 speed /\ F64.leb F64.zero speed = true /\ F64.leb speed two63 = true.

Lemma speed_cases (speed : float64) :
  speed_ok speed ->
  (exists s, speed = S754_zero s) \/
  exists v, pfin speed v /\ (v <= bpow 63)%Q.
Proof.
  intros (Hv & H0 & H1).
  destruct speed as [s|[]| |[] m e]; try discriminate.
  - left. now exists s.
  - right.
    assert (Hp : pfin (S754_finite false m e) (Fval (Zpos m) e)).
    { exists m, e. split; [reflexivity|]. split; [exact Hv | reflexivity]. }
    exists (Fval (Zpos m) e). split; [exact Hp|].
    rewrite bpow_Z by lia. exact (leb_pfin _ _ _ _ Hp pfin_two63 H1).
Qed.

(** The crossfade weight over a zero segment is a weight. *)
Lemma crossfade_zero (speed loc : float64) (env2 : list float64) :
  speed_ok speed -> fin_nonneg loc -> Forall (eq F64.zero) env2 ->
  weight (crossfade speed loc env2).
Proof.
  intros Hsp Hloc Hz. unfold crossfade. cbv zeta.
  destruct (speedup_zero env2 Hz) as (vu & Hu & Hur).
  apply sigmoid_num. apply mul_finv_num.
  - destruct (speed_cases speed Hsp) as [[s ->]|(v & Hv & Hle)].
    + destruct Hu as (mu & eu & -> & _). split; reflexivity.
    + apply fin_nonneg_finv.
      apply (R64_fin_bpow 64 _ _ (mul_pfin _ _ _ _ Hv Hu)); [|lia].
      replace 64 with (63 + 1) by lia. rewrite bpow_add, bpow_1.
      pose proof (pfin_pos _ _ Hv). 
      apply Qmult_le_compat_nonneg; split; lra.
  - destruct Hloc as [->|[vl Hl]].
    + split; reflexivity.
    + exact (sub_pfin_finv _ _ _ _ Hl pfin_c0_5).
Qed.

(** The fraction [pos - float64(int(pos))] of a frame position. *)
Lemma loc_fin_nonneg (pos : float64) :
  pos = S754_zero false \/
  (exists v, pfin pos v /\ (v < inject_Z (2 ^ 63))%Q) ->
  fin_nonneg (F64.sub pos (F64.of_int (int pos))).
Proof.
  intros [->|(v & Hp & Hlt)]; [left; reflexivity|].
  destruct (int_floor pos v Hp Hlt) as [-> Hk].
  pose proof (Qfloor_le v) as Hfl.
  destruct (Z.eq_dec (Qfloor v) 0) as [->|Hne].
  { right. exists v. destruct Hp as (m & e & -> & Hb & Hv).
    exists m, e. split; [reflexivity|]. split; assumption. }
  assert (HR : R64 false (inject_Z (Qfloor v)) (F64.of_int (Qfloor v))).
  { unfold F64.of_int. apply normalize_pos.
    - unfold Fval. rewrite bpow_0. ring.
    - change 0%Q with (inject_Z 0). rewrite <- Zlt_Qlt. lia. }
  pose proof Hp as (m & e & Epos & Hb & Hv).
  destruct (R_upper _ _ _ _ _ HR m e Hb ltac:(rewrite Hv; exact Hfl)) as [Hfin Hmag].
  destruct (R64_cases _ _ HR) as [Hz|[[vo Hvo]|Hi]].
  - rewrite Hz, Epos. right. exists v, m, e. split; [reflexivity|]. split; assumption.
  - rewrite (pfin_mag _ _ Hvo), Hv in Hmag.
    destruct (sub_pfin _ _ _ _ Hp Hvo Hmag) as [[_ ->]|[_ Hd]]; [now left|].
    apply (R64_fin _ _ pos v Hd Hp).
    pose proof (pfin_pos _ _ Hvo). lra.
  - rewrite Hi in Hfin. discriminate.
Qed.
End SilentFrames.

Lemma SFcompare_neg (m1 m2 : positive) (e1 e2 : Z) :
  SFcompare (S754_finite true m1 e1) (S754_finite true m2 e2) =
  option_map CompOpp (SFcompare (S754_finite false m1 e1) (S754_finite false m2 e2)).
Proof. simpl. destruct (Z.compare e1 e2); reflexivity. Qed.

(** [-a <= -b] on negative numbers gives [b <= a] on the magnitudes. *)
Lemma leb_neg (m1 m2 : positive) (e1 e2 : Z) :
  bounded F64.prec F64.emax m1 e1 = true -> bounded F64.prec F64.emax m2 e2 = true ->
  F64.leb (S754_finite true m1 e1) (S754_finite true m2 e2) = true ->
  (Fval (Zpos m2) e2 <= Fval (Zpos m1) e1)%Q.
Proof.
  intros H1 H2. unfold F64.leb, SFleb. rewrite SFcompare_neg.
  destruct (SFcompare_pos F64.prec F64.emax prec64 emax64 m1 m2 e1 e2
              (bounded_canonical _ _ H1) (bounded_canonical _ _ H2))
    as (c & -> & Hs).
  destruct c; simpl in *; intros; try discriminate; lra.
Qed.

Lemma pfin_two_pi : exists v, pfin two_pi v /\ (v <= bpow 3)%Q.
Proof.
  exists (Fval 7074237752028440 (-50)). split.
  - exists 7074237752028440%positive, (-50). split; [vm_compute; reflexivity|].
    split; reflexivity.
  - apply Qle_bool_imp_le. vm_compute. reflexivity.
Qed.

Lemma mul_fin_zero (u : float64) : fin_nonneg u -> F64.mul u F64.zero = F64.zero.
Proof. intros [->|(v & m & e & -> & _)]; reflexivity. Qed.

Lemma mul_zero_fin (t : float64) : fin_nonneg t -> F64.mul F64.zero t = F64.zero.
Proof. intros [->|(v & m & e & -> & _)]; reflexivity. Qed.

(** A crossfade of two zeros, tapered, is zero. *)
Lemma bar_zero (w t : float64) :
  weight w -> fin_nonneg t ->
  F64.mul (blend w F64.zero F64.zero) t = F64.zero.
Proof.
  intros Hw Ht. unfold blend.
  assert (Hu : fin_nonneg (F64.sub c1 w)).
  { destruct Hw as [->|(v & Hv & Hle)].
    - right. exists 1%Q. exact pfin_c1.
    - exact (one_minus_weight _ _ Hv Hle). }
  assert (Hw' : fin_nonneg w).
  { destruct Hw as [->|(v & Hv & _)]; [now left | right; now exists v]. }
  rewrite (mul_fin_zero _ Hu), (mul_fin_zero _ Hw').
  change (F64.add F64.zero F64.zero) with F64.zero.
  exact (mul_zero_fin _ Ht).
Qed.

Section Taper.
Context {M : MathLib} {L : MathLaws M}.

(** [1 - cos x] for a finite [x] is zero or a positive number. *)
Lemma one_minus_cos_fin (x : float64) :
  is_finite x = true -> fin_nonneg (F64.sub c1 (Cos x)).
Proof.
  intros Hf. destruct (cos_range x Hf) as (Hv & Hlo & Hhi).
  destruct (Cos x) as [s|s| |s m e] eqn:Hc.
  - right. exists 1%Q. destruct s; exact pfin_c1.
  - destruct s; discriminate.
  - discriminate.
  - destruct s.
    + change c1 with (S754_finite false 4503599627370496 (-52)).
      unfold F64.sub.
      destruct (SFsub_finite F64.prec F64.emax false true 4503599627370496 m (-52) e)
        as (Ms & -> & HM).
      assert (Hle : (Fval (Zpos m) e <= 1)%Q).
      { change (F64.neg c1) with (S754_finite true 4503599627370496 (-52)) in Hlo.
        apply (leb_neg 4503599627370496 m (-52) e eq_refl Hv) in Hlo.
        assert (H1 : (Fval 4503599627370496 (-52) == 1)%Q) by reflexivity.
        rewrite H1 in Hlo. exact Hlo. }
      assert (H1 : (Fval 4503599627370496 (-52) == 1)%Q) by reflexivity.
      pose proof (Fval_pos m e) as Pm.
      apply (R64_fin (1 + Fval (Zpos m) e) _ c2 2); [| exact pfin_c2 | lra].
      apply normalize_pos; [|lra].
      rewrite HM. simpl cond_Zopp. rewrite H1.
      change (Z.neg m) with (- Zpos m). rewrite Fval_opp. lra.
    + assert (Hp : pfin (S754_finite false m e) (Fval (Zpos m) e)).
      { exists m, e. split; [reflexivity|]. split; [exact Hv | reflexivity]. }
      apply (one_minus_weight _ _ Hp).
      exact (leb_pfin _ _ _ _ Hp pfin_c1 Hhi).
Qed.

(** With two bars or more the raised cosine is zero or a positive number. *)
Lemma taper_fin (i n : Z) :
  1 < n <= max_int -> 0 <= i < n -> fin_nonneg (taper i n).
Proof.
  intros Hn Hi. unfold taper.
  assert (Hd : isub n 1 = n - 1).
  { apply wrap64_id. unfold min_int, max_int in *. lia. }
  rewrite Hd.
  destruct (of_int_pfin (n - 1) ltac:(lia)) as (vd & Hvd & Hd1 & _).
  assert (Harg : fin_nonneg (F64.div (F64.mul two_pi (F64.of_int i))
                                     (F64.of_int (n - 1)))).
  { assert (Hx : fin_nonneg (F64.mul two_pi (F64.of_int i))).
    { destruct (Z.eq_dec i 0) as [->|Hi0]; [left; vm_compute; reflexivity|].
      destruct (of_int_pfin i ltac:(lia)) as (vi & Hvi & _ & Hi2).
      destruct pfin_two_pi as (v2 & Hv2 & Hle2).
      apply (R64_fin_bpow (3 + 63) _ _ (mul_pfin _ _ _ _ Hv2 Hvi)); [|lia].
      rewrite bpow_add. pose proof (pfin_pos _ _ Hv2). pose proof (pfin_pos _ _ Hvi).
      apply Qmult_le_compat_nonneg; split; try lra.
      rewrite bpow_Z by lia. lra. }
    destruct Hx as [->|[vx Hvx]].
    - left. destruct Hvd as (m & e & -> & _). reflexivity.
    - apply (R64_fin _ _ _ vx (div_pfin _ _ _ _ Hvx Hvd) Hvx).
      pose proof (pfin_pos _ _ Hvx). apply Qle_shift_div_r; [lra|].
      apply Qle_mul_ge_1; lra. }
  apply fin_nonneg_finv in Harg. destruct Harg as [_ Hfin].
  destruct (one_minus_cos_fin _ Hfin) as [->|[vt Hvt]].
  - left. reflexivity.
  - apply (R64_fin _ _ _ vt (mul_pfin _ _ _ _ pfin_c0_5 Hvt) Hvt).
    pose proof (pfin_pos _ _ Hvt). lra.
Qed.
End Taper.

Section SilentRender.
Context {M : MathLib} {L : MathLaws M}.

(** Over a zero envelope every bar of a frame is zero. *)
Lemma frame_bars_zero (env : list float64) (sr : float64)
    (rate bars stride : Z) (speed : float64) (idx : Z) (denv : list float64) :
  Forall (eq F64.zero) env -> 1 < bars <= max_int -> speed_ok speed ->
  (frame_pos sr rate stride bars idx = S754_zero false \/
   exists v, pfin (frame_pos sr rate stride bars idx) v /\
             (v < inject_Z (2 ^ 63))%Q) ->
  frame_bars env sr rate bars stride speed idx = Ret denv ->
  Forall (eq F64.zero) denv.
Proof.
  intros He Hb Hsp Hpos. unfold frame_bars. cbv zeta.
  destruct (slice env (imul (int _) bars) _) as [env1| |] eqn:H1; try discriminate.
  rewrite bind_Ret.
  destruct (slice env (imul (iadd _ 1) bars) _) as [env2| |] eqn:H2; try discriminate.
  rewrite bind_Ret.
  rewrite make_ret by lia. rewrite bind_Ret.
  pose proof (slice_Forall _ _ _ _ _ He H1) as He1.
  pose proof (slice_Forall _ _ _ _ _ He H2) as He2.
  pose proof (crossfade_zero speed _ env2 Hsp (loc_fin_nonneg _ Hpos) He2) as Hw.
  rewrite len_replicate by lia.
  intros Hloop.
  assert (HP : forall d, Ret denv = Ret d ->
                 len d = bars /\ Forall (eq F64.zero) d).
  { rewrite <- Hloop.
    apply (for_range_preserves
             (fun acc : outcome (list float64) =>
                forall d, acc = Ret d -> len d = bars /\ Forall (eq F64.zero) d)).
    - intros d [= <-]. split; [apply len_replicate; lia|].
      apply Forall_replicate. reflexivity.
    - intros i acc Hi IH d'.
      destruct acc as [d| |]; try discriminate. rewrite bind_Ret.
      destruct (IH d eq_refl) as [Ld Hd].
      destruct (index env1 i) as [a| |] eqn:Ha; try discriminate. rewrite bind_Ret.
      destruct (index env2 i) as [b| |] eqn:Hb'; try discriminate. rewrite bind_Ret.
      intros [= <-].
      pose proof (proj1 (Forall_forall _ _) He1 a (index_elem _ _ _ Ha)) as <-.
      pose proof (proj1 (Forall_forall _ _) He2 b (index_elem _ _ _ Hb')) as <-.
      split; [unfold len in *; rewrite length_insert; exact Ld|].
      apply Forall_insert; [exact Hd|].
      rewrite Ld. symmetry. apply bar_zero; [exact Hw|].
      apply taper_fin; lia. }
  exact (proj2 (HP denv eq_refl)).
Qed.

(** A bar of value zero has no rows. *)
Lemma zero_bar_rows (h : Z) :
  0 <= h <= max_int ->
  upper_from h F64.zero = Z.quot h 2 /\ lower_to h F64.zero = Z.quot h 2.
Proof.
  intros Hh.
  assert (Hq : 0 <= Z.quot h 2 <= h).
  { rewrite Z.quot_div_nonneg by lia. split; [apply Z.div_pos; lia|].
    apply Z.div_le_upper_bound; lia. }
  assert (Hf : fin_nonneg (F64.of_int h)).
  { destruct (Z.eq_dec h 0) as [->|Hne]; [now left|].
    destruct (of_int_pfin h ltac:(lia)) as (v & Hv & _). right. now exists v. }
  unfold upper_from, lower_to. cbv zeta.
  change (F64.mul c0_5 F64.zero) with F64.zero.
  change (F64.mul c0_9 F64.zero) with F64.zero.
  rewrite (mul_zero_fin _ Hf).
  change (int (F64.div F64.zero c2)) with 0.
  unfold isub, iadd. rewrite Z.sub_0_r, Z.add_0_r.
  rewrite wrap64_id by (unfold min_int, max_int in *; lia). split; reflexivity.
Qed.

(** The picture of a vector of zeros is the background. *)
Lemma drawEnv_zero (denv : list float64) (fg bg : RGBA) (w h : Z) :
  0 <= w -> 0 <= h <= max_int -> Forall (eq F64.zero) denv ->
  Bounds (drawEnv denv fg bg w h) = mkRect 0 0 w h /\
  forall x y, 0 <= x < w -> 0 <= y < h -> At (drawEnv denv fg bg w h) x y = bg.
Proof.
  intros Hw Hh Hz.
  destruct (drawEnv_frame denv fg bg w h Hw ltac:(lia)) as (_ & Hb & Hat).
  split; [exact Hb|].
  intros x y Hx Hy. apply Hat; [exact Hx | exact Hy|].
  intros i e Hl.
  pose proof (proj1 (Forall_forall _ _) Hz e (list_elem_of_lookup_2 _ _ _ Hl)) as <-.
  unfold in_bar. destruct (bar_geometry (len denv) w) as [[bw aw] pad].
  unfold bar_pixels. destruct (zero_bar_rows h Hh) as [-> ->]. lia.
Qed.
End SilentRender.

(** C5 (as the code has it). The normalization has no case for silence: the
    root mean square of an all-zero signal is zero and every sample is
    divided by it, so every sample becomes NaN. The envelope counts only the
    samples above zero, which a NaN is not: every envelope value is zero.
    With two bars or more and a speed between 0 and [2^63], every bar of
    every frame is zero and every frame is filled with the background
    colour. *)
Theorem C5_silence_nan_then_background {M : MathLib} {L : MathLaws M}
    (mono : list float32) (cfg : Config) (window stride : Z) (sr : float64) :
  silent mono ->
  0 < rate cfg <= max_int -> 1 < bars cfg <= 2 ^ 60 ->
  0 < stride <= window -> len mono + window <= max_int ->
  len mono <= 2 ^ 48 -> rate cfg * len mono <= 2 ^ 62 ->
  valid64 sr -> F64.leb c1 sr = true -> F64.leb sr two63 = true ->
  speed_ok (speed cfg) ->
  0 <= width cfg -> 0 <= height cfg <= max_int ->
  Forall (eq S754_nan) (normalize mono) /\
  exists env0 env,
    envelope (normalize mono) window stride = Ret env0 /\
    Forall (eq F64.zero) env0 /\
    pad_envelope env0 (bars cfg) = Ret env /\
    forall idx, 0 <= idx < frames_of (rate cfg) (len (normalize mono)) sr ->
      exists img,
        frame cfg env sr stride idx = Ret img /\
        Bounds img = mkRect 0 0 (width cfg) (height cfg) /\
        forall x y, 0 <= x < width cfg -> 0 <= y < height cfg ->
          At img x y = bgColor cfg.
Proof.
  intros Hsil Hr Hb Hst Hmax Hn Hrn Hv Hs1 Hs2 Hsp Hw Hh.
  pose proof (normalize_silent mono Hsil) as Hnan.
  split; [exact Hnan|].
  assert (Hq : Forall quiet (normalize mono)).
  { eapply Forall_impl; [exact Hnan|]. intros v <-. exact quiet_nan. }
  destruct (padded_envelope_fits (normalize mono) window stride (bars cfg) (rate cfg) sr
              Hr ltac:(lia)
              Hst ltac:(rewrite len_normalize; exact Hmax)
              ltac:(rewrite len_normalize; exact Hn)
              ltac:(rewrite len_normalize; exact Hrn) Hv Hs1 Hs2)
    as (env0 & env & He & Hp & Hlen & Hfit).
  pose proof (envelope_quiet _ _ _ _ Hq He) as Hz0.
  exists env0, env. split; [exact He|]. split; [exact Hz0|]. split; [exact Hp|].
  assert (Hz : Forall (eq F64.zero) env).
  { exact (pad_envelope_Forall (eq F64.zero) _ _ _ eq_refl Hz0 Hp). }
  intros idx Hidx. destruct (Hfit idx Hidx) as (Hoff & Hhi & Hpos).
  destruct (frame_bars_returns env sr (rate cfg) (bars cfg) stride (speed cfg) idx
              ltac:(lia) Hlen Hoff Hhi) as (_ & _ & denv & _ & _ & Hd & _).
  assert (Hb' : 1 < bars cfg <= max_int) by (unfold max_int; lia).
  pose proof (frame_bars_zero env sr (rate cfg) (bars cfg) stride (speed cfg) idx denv
                Hz Hb' Hsp Hpos Hd) as Hzd.
  unfold frame. rewrite Hd, bind_Ret. eexists. split; [reflexivity|].
  exact (drawEnv_zero denv (fgColor cfg) (bgColor cfg) (width cfg) (height cfg)
           Hw Hh Hzd).
Qed.

Definition zeros4 : list float32 :=
  [S754_zero false; S754_zero true; S754_zero false; S754_zero false].

Definition cfg_small : Config :=
  mkConfig 2 3 (F64.of_ratio 35 10) (F64.of_ratio 4 10) (F64.of_int 5) teal black 8 6.

Lemma C5_silence_nan_then_background_witness :
  Forall (eq S754_nan) (normalize zeros4) /\
  exists env0 env,
    envelope (M := ref_math) (normalize zeros4) 2 1 = Ret env0 /\
    Forall (eq F64.zero) env0 /\
    pad_envelope env0 3 = Ret env /\
    forall idx,
      0 <= idx < frames_of (M := ref_math) 2 (len (normalize zeros4)) (F64.of_int 2) ->
      exists img,
        frame (M := ref_math) cfg_small env (F64.of_int 2) 1 idx = Ret img /\
        Bounds img = mkRect 0 0 8 6 /\
        forall x y, 0 <= x < 8 -> 0 <= y < 6 -> At img x y = black.
Proof.
  apply (C5_silence_nan_then_background (M := ref_math) (L := ref_math_laws)
           zeros4 cfg_small 2 1 (F64.of_int 2));
    try (vm_compute; intuition congruence).
  repeat constructor; eexists; reflexivity.
Defined.

(** C5, refuted: the normalization of four zero samples leaves no sample
    unchanged; it gives four NaN. *)
Lemma C5_silence_counterexample :
  silent zeros4 /\ rms zeros4 = F32.zero /\
  normalize zeros4 = [S754_nan; S754_nan; S754_nan; S754_nan] /\
  normalize zeros4 <> zeros4.
Proof.
  split; [repeat constructor; eexists; reflexivity|].
  split; [reflexivity|]. split; [reflexivity|]. discriminate.
Qed.

(** * Further properties of the pipeline *)

(** ** envelope: only the samples above zero count *)

(** Half-wave rectification: a sample that is not above zero (negative,
    zero or NaN) is replaced by zero. *)
Definition rectify (v : float32) : float32 :=
  if F32.ltb F32.zero v then v else F32.zero.

Lemma slice_fmap {A B} (f : A -> B) (s : list A) (lo hi : Z) :
  slice (f <$> s) lo hi =
  match slice s lo hi with
  | Ret r => Ret (f <$> r)
  | Panic => Panic
  | Diverge => Diverge
  end.
Proof.
  unfold slice. rewrite len_fmap.
  destruct ((0 <=? lo) && (lo <=? hi) && (hi <=? len s)); [|reflexivity].
  now rewrite fmap_take, fmap_drop.
Qed.

Lemma copy_at_fmap {A B} (f : A -> B) (dst src : list A) (k : Z) :
  copy_at (f <$> dst) k (f <$> src) =
  match copy_at dst k src with
  | Ret r => Ret (f <$> r)
  | Panic => Panic
  | Diverge => Diverge
  end.
Proof.
  unfold copy_at. rewrite len_fmap, !length_fmap.
  destruct ((0 <=? k) && (k <=? len dst)); [|reflexivity].
  now rewrite !fmap_app, !fmap_take, fmap_drop.
Qed.

Section HalfWave.
Context {M : MathLib}.

Lemma window_mean_rectify (frame : list float32) :
  window_mean (rectify <$> frame) = window_mean frame.
Proof.
  unfold window_mean, window_scan.
  assert (H : forall acc,
    fold_left (fun '(sum, count) v =>
                 if F32.ltb F32.zero v
                 then (F64.add sum (f64_of_f32 v), iadd count 1)
                 else (sum, count)) (rectify <$> frame) acc =
    fold_left (fun '(sum, count) v =>
                 if F32.ltb F32.zero v
                 then (F64.add sum (f64_of_f32 v), iadd count 1)
                 else (sum, count)) frame acc).
  { induction frame as [|v frame IH]; intros [sum count]; [reflexivity|].
    simpl. rewrite IH. unfold rectify.
    destruct (F32.ltb F32.zero v) eqn:Hv; [now rewrite Hv | reflexivity]. }
  now rewrite H.
Qed.

Lemma envelope_loop_rectify (padded : list float32) (window stride : Z) :
  forall (fuel : nat) (off : Z) (out : list float64),
    envelope_loop fuel (rectify <$> padded) window stride off out =
    envelope_loop fuel padded window stride off out.
Proof.
  induction fuel as [|fuel IH]; intros off out; simpl; rewrite len_fmap.
  - reflexivity.
  - destruct (off <? isub (len padded) window); [|reflexivity].
    rewrite slice_fmap.
    destruct (slice padded off (iadd off window)) as [frame| |]; try reflexivity.
    rewrite !bind_Ret, window_mean_rectify. apply IH.
Qed.

(** X1: the envelope is that of the half-wave rectified signal: samples
    that are negative, zero or NaN count as silence. *)
Theorem envelope_half_wave (wav : list float32) (window stride : Z) :
  envelope (rectify <$> wav) window stride = envelope wav window stride.
Proof.
  unfold envelope. rewrite len_fmap, length_fmap.
  destruct (make F32.zero (iadd (len wav) window)) as [zeros| |] eqn:Hm;
    try reflexivity.
  rewrite !bind_Ret.
  assert (Hz : rectify <$> zeros = zeros).
  { unfold make in Hm. destruct (iadd (len wav) window <? 0); [discriminate|].
    injection Hm as <-. now rewrite fmap_replicate. }
  rewrite <- Hz at 1. rewrite copy_at_fmap.
  destruct (copy_at zeros (Z.quot window 2) wav) as [padded| |]; try reflexivity.
  rewrite !bind_Ret. now rewrite envelope_loop_rectify.
Qed.
End HalfWave.

(** ** envelope: edge cases of the window loop *)

Section EnvelopeEdges.
Context {M : MathLib}.

Lemma zero_stride_loop (padded : list float32) (window : Z) :
  0 <= window -> window < len padded -> len padded <= max_int ->
  forall (fuel : nat) (out : list float64),
    envelope_loop fuel padded window 0 0 out = Diverge.
Proof.
  intros Hw Hlt Hmax.
  assert (Hsub : isub (len padded) window = len padded - window).
  { apply wrap64_id. unfold min_int, max_int in *. lia. }
  assert (Hwin : wrap64 window = window).
  { apply wrap64_id. unfold min_int, max_int in *. lia. }
  induction fuel as [|fuel IH]; intros out; simpl; rewrite Hsub;
    destruct (Z.ltb_spec 0 (len padded - window)); try lia; [reflexivity|].
  change (iadd 0 window) with (wrap64 window). rewrite Hwin.
  rewrite slice_ret by lia. rewrite bind_Ret. apply IH.
Qed.

(** X2: with [stride = 0] the loop of [envelope] over a signal that is not
    empty never ends: the offset stays at 0, whatever the number of
    iterations allowed. *)
Theorem envelope_zero_stride_diverges (wav : list float32) (window : Z) :
  0 <= window -> 0 < len wav -> len wav + window <= max_int ->
  envelope wav window 0 = Diverge /\
  exists padded,
    copy_at (replicate (Z.to_nat (len wav + window)) F32.zero)
            (Z.quot window 2) wav = Ret padded /\
    forall fuel, envelope_loop fuel padded window 0 0 [] = Diverge.
Proof.
  intros Hw Hl Hmax.
  destruct (envelope_padded wav window Hw Hmax) as (padded & Hc & Hlen & _).
  assert (Hloop : forall fuel out, envelope_loop fuel padded window 0 0 out = Diverge).
  { apply zero_stride_loop; lia. }
  split.
  - unfold envelope.
    assert (Ha : iadd (len wav) window = len wav + window).
    { apply wrap64_id. unfold min_int, max_int in *. lia. }
    rewrite Ha, make_ret, bind_Ret by lia. rewrite Hc, bind_Ret.
    now rewrite Hloop.
  - exists padded. split; [exact Hc|]. intros fuel. apply Hloop.
Qed.

(** X3: a negative window makes [envelope] panic on every signal that is
    not empty: in [make], in the slice expression [padded[window/2:]] or in
    the first [padded[off : off+window]]. *)
Theorem envelope_negative_window_panics (wav : list float32) (window stride : Z) :
  min_int <= window < 0 -> 0 < len wav -> len wav <= max_int ->
  envelope wav window stride = Panic.
Proof.
  intros Hw Hl Hmax. unfold envelope.
  assert (Ha : iadd (len wav) window = len wav + window).
  { apply wrap64_id. unfold min_int, max_int in *. lia. }
  rewrite Ha. unfold make.
  destruct (Z.ltb_spec (len wav + window) 0) as [|Hge]; [reflexivity|].
  rewrite bind_Ret. unfold copy_at.
  destruct (Z.leb_spec 0 (Z.quot window 2)) as [Hq|Hq]; [|reflexivity].
  assert (window = -1) as ->.
  { destruct (Z.eq_dec window (-1)); [assumption|exfalso].
    assert (Z.quot window 2 <= -1); [|lia].
    rewrite <- (Z.opp_involutive window), Z.quot_opp_l by lia.
    assert (1 <= Z.quot (- window) 2); [|lia].
    rewrite Z.quot_div_nonneg by lia. apply Z.div_le_lower_bound; lia. }
  change (Z.quot (-1) 2) with 0.
  rewrite len_replicate by lia.
  destruct (Z.leb_spec 0 (len wav + -1)); [|lia]. simpl andb. cbv iota.
  rewrite bind_Ret.
  set (padded := take _ _ ++ _).
  assert (Hp : len padded = len wav - 1).
  { unfold padded, len. rewrite !length_app, !length_take, length_drop,
      !length_replicate. unfold len in *. lia. }
  simpl envelope_loop. rewrite Hp.
  assert (Hs : isub (len wav - 1) (-1) = len wav).
  { unfold isub. rewrite wrap64_id; unfold min_int, max_int in *; lia. }
  rewrite Hs. destruct (Z.ltb_spec 0 (len wav)); [|lia].
  reflexivity.
Qed.

End EnvelopeEdges.

Lemma envelope_zero_stride_diverges_witness :
  envelope (M := ref_math) wav4 2 0 = Diverge /\
  exists padded,
    copy_at (replicate (Z.to_nat (len wav4 + 2)) F32.zero) (Z.quot 2 2) wav4
      = Ret padded /\
    forall fuel, envelope_loop fuel padded 2 0 0 [] = Diverge.
Proof.
  apply (envelope_zero_stride_diverges (M := ref_math) wav4 2);
    vm_compute; congruence.
Defined.

Lemma envelope_negative_window_panics_witness :
  envelope (M := ref_math) wav4 (-3) 1 = Panic.
Proof.
  apply (envelope_negative_window_panics (M := ref_math) wav4 (-3) 1);
    vm_compute; intuition congruence.
Defined.

(** ** envelope: the value of every window *)

Lemma tabulate_succ {A} (n : Z) (f : Z -> A) :
  0 <= n -> tabulate (1 + n) f = f 0 :: tabulate n (fun j => f (j + 1)).
Proof.
  intros Hn. unfold tabulate.
  rewrite seqZ_cons by lia.
  replace (Z.pred (1 + n)) with n by lia.
  change (Z.succ 0) with (1 + 0). rewrite <- fmap_add_seqZ.
  rewrite fmap_cons. f_equal.
  rewrite <- list_fmap_compose.
  apply list_fmap_ext. intros _ j _. simpl. f_equal. lia.
Qed.

Section EnvelopeWindows.
Context {M : MathLib}.

(** The window that starts at sample [off] of the padded signal. *)
Definition window_at (padded : list float32) (window off : Z) : list float32 :=
  take (Z.to_nat window) (drop (Z.to_nat off) padded).

Lemma positions_nonneg (n off stride : Z) : 0 < stride -> 0 <= positions n off stride.
Proof.
  intros Hs. unfold positions. destruct (Z.ltb_spec off n); [|lia].
  apply Z.div_pos; lia.
Qed.

Lemma envelope_loop_windows (padded : list float32) (window stride : Z) :
  0 < stride -> stride <= window -> window <= len padded ->
  len padded <= max_int ->
  forall (fuel : nat) (off : Z) (out : list float64),
    0 <= off ->
    len padded - window - off < Z.of_nat fuel ->
    envelope_loop fuel padded window stride off out =
    Ret (out ++ tabulate (positions (len padded - window) off stride)
                   (fun j => window_mean (window_at padded window (off + j * stride)))).
Proof.
  intros Hs Hsw Hw Hmax.
  pose proof (len_nonneg padded) as Hp.
  assert (Hsub : isub (len padded) window = len padded - window).
  { apply wrap64_id. unfold min_int, max_int in *. lia. }
  induction fuel as [|fuel IH]; intros off out Hoff Hfuel; simpl; rewrite Hsub.
  - destruct (Z.ltb_spec off (len padded - window)); [lia|].
    unfold positions. destruct (Z.ltb_spec off (len padded - window)); [lia|].
    now rewrite app_nil_r.
  - destruct (Z.ltb_spec off (len padded - window)) as [Hlt|Hge].
    + assert (Ha : iadd off window = off + window).
      { apply wrap64_id. unfold min_int, max_int in *. lia. }
      assert (Hb : iadd off stride = off + stride).
      { apply wrap64_id. unfold min_int, max_int in *. lia. }
      rewrite Ha, Hb. rewrite slice_ret by lia. rewrite bind_Ret.
      rewrite IH by lia.
      rewrite (positions_step _ off) by lia.
      rewrite tabulate_succ by (apply positions_nonneg; lia).
      rewrite <- app_assoc. simpl. f_equal. f_equal. f_equal.
      * unfold window_at. repeat f_equal; lia.
      * apply tabulate_ext. intros j _. do 2 f_equal. lia.
    + unfold positions. destruct (Z.ltb_spec off (len padded - window)); [lia|].
      now rewrite app_nil_r.
Qed.

(** X4: [envelope] returns, for the [k]-th hop, the compressed mean of the
    positive samples of the window of [window] samples that starts at
    sample [k * stride] of the signal padded with [window/2] zeros in front
    and [window - window/2] zeros behind. *)
Theorem envelope_window_values (wav : list float32) (window stride : Z) :
  0 < stride -> stride <= window -> len wav + window <= max_int ->
  let padded := replicate (Z.to_nat (Z.quot window 2)) F32.zero ++ wav ++
                replicate (Z.to_nat (window - Z.quot window 2)) F32.zero in
  envelope wav window stride =
  Ret (tabulate ((len wav + stride - 1) / stride)
         (fun k => compress (window_mean (window_at padded window (k * stride))))).
Proof.
  intros Hs Hsw Hmax. cbv zeta.
  pose proof (len_nonneg wav) as Hl.
  unfold envelope.
  assert (Ha : iadd (len wav) window = len wav + window).
  { apply wrap64_id. unfold min_int, max_int in *. lia. }
  rewrite Ha, make_ret, bind_Ret by lia.
  destruct (envelope_padded wav window) as (padded & Hc & Hlen & Hpad); [lia..|].
  rewrite Hc, bind_Ret. rewrite <- Hpad.
  rewrite (envelope_loop_windows padded window stride Hs Hsw) by (unfold len in *; lia).
  rewrite bind_Ret. f_equal. simpl app.
  rewrite Hlen. replace (len wav + window - window) with (len wav) by lia.
  unfold positions. rewrite Z.sub_0_r.
  destruct (Z.ltb_spec 0 (len wav)).
  - unfold tabulate. rewrite <- list_fmap_compose. apply list_fmap_ext.
    intros _ k _. simpl. reflexivity.
  - assert (len wav = 0) as -> by lia.
    rewrite Z.div_small by lia. reflexivity.
Qed.
End EnvelopeWindows.

Lemma envelope_window_values_witness :
  let padded := replicate (Z.to_nat (Z.quot 2 2)) F32.zero ++ wav4 ++
                replicate (Z.to_nat (2 - Z.quot 2 2)) F32.zero in
  envelope (M := ref_math) wav4 2 1 =
  Ret (tabulate ((len wav4 + 1 - 1) / 1)
         (fun k => compress (M := ref_math)
                     (window_mean (window_at padded 2 (k * 1))))).
Proof.
  apply (envelope_window_values (M := ref_math) wav4 2 1); vm_compute; congruence.
Defined.

(** ** sigmoid *)

(** Zero or a positive number up to [u]. *)
Definition upto (u : Q) (x : float64) : Prop :=
  x = S754_zero false \/ exists v, pfin x v /\ (v <= u)%Q.

Lemma upto_fin_nonneg (u : Q) (x : float64) : upto u x -> fin_nonneg x.
Proof. intros [->|(v & Hv & _)]; [now left | right; now exists v]. Qed.

Lemma upto_weaken (u u' : Q) (x : float64) : (u <= u')%Q -> upto u x -> upto u' x.
Proof.
  intros Hle [->|(v & Hv & Hvu)]; [now left|].
  right. exists v. split; [exact Hv | lra].
Qed.

(** What [upto] says about the value of the float. *)
Lemma upto_value (u : Q) (x : float64) :
  (0 <= u)%Q -> upto u x ->
  valid64 x /\ is_finite x = true /\ (0 <= F2Q x <= u)%Q.
Proof.
  intros Hu [->|(v & Hv & Hvu)].
  - split; [reflexivity|]. split; [reflexivity|]. simpl. lra.
  - pose proof (pfin_pos _ _ Hv). rewrite (pfin_F2Q _ _ Hv).
    destruct (pfin_finv _ _ Hv) as [Hval Hfin]. repeat split; try assumption; lra.
Qed.

(** A rounded value below a float64 [b] is zero or a number up to [b]. *)
Lemma R64_le (x : Q) (f b : float64) (vb : Q) :
  R64 false x f -> pfin b vb -> (x <= vb)%Q -> upto vb f.
Proof.
  intros H Hb Hle.
  destruct (R64_fin x f b vb H Hb Hle) as [->|[v Hv]]; [now left|].
  right. exists v. split; [exact Hv|].
  destruct Hb as (mb & eb & -> & Hbb & Hvb).
  destruct (R_upper _ _ _ _ _ H mb eb Hbb ltac:(rewrite Hvb; exact Hle)) as [_ Hm].
  rewrite (pfin_mag _ _ Hv), Hvb in Hm. exact Hm.
Qed.

Lemma weight_upto (w : float64) : weight w <-> upto 1 w.
Proof. reflexivity. Qed.

Section Sigmoid.
Context {M : MathLib} {L : MathLaws M}.

(** X5: [sigmoid] maps NaN to NaN and every other float64, the infinities
    included, to a finite number in [[0, 1]]; for an argument that is not
    negative the result is at least one half. *)
Theorem sigmoid_unit_interval (x : float64) :
  (F64.is_nan x = true -> sigmoid x = S754_nan) /\
  (F64.is_nan x = false ->
     valid64 (sigmoid x) /\ is_finite (sigmoid x) = true /\
     (0 <= F2Q (sigmoid x) <= 1)%Q) /\
  (nonneg x -> (1 # 2 <= F2Q (sigmoid x))%Q).
Proof.
  split; [|split].
  - intros Hn. destruct x; try discriminate. unfold sigmoid. simpl F64.neg.
    now rewrite exp_nan.
  - intros Hn. apply upto_value; [lra|]. exact (sigmoid_num x Hn).
  - intros Hx. destruct (sigmoid_nonneg x Hx) as (v & Hv & Hr).
    rewrite (pfin_F2Q _ _ Hv). lra.
Qed.
End Sigmoid.

Lemma sigmoid_unit_interval_witness :
  (F64.is_nan (F64.of_int 3) = true ->
     sigmoid (M := ref_math) (F64.of_int 3) = S754_nan) /\
  (F64.is_nan (F64.of_int 3) = false ->
     valid64 (sigmoid (M := ref_math) (F64.of_int 3)) /\
     is_finite (sigmoid (M := ref_math) (F64.of_int 3)) = true /\
     (0 <= F2Q (sigmoid (M := ref_math) (F64.of_int 3)) <= 1)%Q) /\
  (nonneg (F64.of_int 3) ->
     (1 # 2 <= F2Q (sigmoid (M := ref_math) (F64.of_int 3)))%Q).
Proof.
  exact (sigmoid_unit_interval (M := ref_math) (L := ref_math_laws) (F64.of_int 3)).
Defined.

(** ** The loudest value of a segment *)

(** Comparison of two floats that are zero or positive numbers. *)
Lemma ltb_fin_nonneg (a b : float64) :
  fin_nonneg a -> fin_nonneg b ->
  (F64.ltb a b = true <-> (F2Q a < F2Q b)%Q).
Proof.
  intros [->|[va Ha]] [->|[vb Hb]].
  - simpl. split; [discriminate | lra].
  - rewrite (pfin_F2Q _ _ Hb). pose proof (pfin_pos _ _ Hb).
    destruct Hb as (m & e & -> & _). simpl. split; [intros _; lra | reflexivity].
  - rewrite (pfin_F2Q _ _ Ha). pose proof (pfin_pos _ _ Ha).
    destruct Ha as (m & e & -> & _). simpl. split; [discriminate | lra].
  - rewrite (pfin_F2Q _ _ Ha), (pfin_F2Q _ _ Hb).
    destruct Ha as (ma & ea & -> & Hba & Hva), Hb as (mb & eb & -> & Hbb & Hvb).
    destruct (SFcompare_pos F64.prec F64.emax prec64 emax64 ma mb ea eb
                (bounded_canonical _ _ Hba) (bounded_canonical _ _ Hbb))
      as (c & Hc & Hs).
    unfold F64.ltb, SFltb. rewrite Hc. rewrite <- Hva, <- Hvb.
    destruct c; simpl in Hs; split; intros; try discriminate; try reflexivity; lra.
Qed.

(** The scan of [maxvol], from any starting value: it ends with the start or
    a value of the segment, above both the start and every value. *)
Lemma max_volume_fold (env2 : list float64) (acc : float64) :
  fin_nonneg acc -> Forall fin_nonneg env2 ->
  let r := fold_left (fun maxvol v => if F64.ltb maxvol v then v else maxvol)
                     env2 acc in
  fin_nonneg r /\ (r = acc \/ r ∈ env2) /\ (F2Q acc <= F2Q r)%Q /\
  Forall (fun v => (F2Q v <= F2Q r)%Q) env2.
Proof.
  revert acc. induction env2 as [|v env2 IH]; intros acc Hacc Hall; cbv zeta; simpl.
  - repeat split; [exact Hacc | now left | lra | constructor].
  - inversion Hall as [|? ? Hv Hrest]; subst.
    destruct (F64.ltb acc v) eqn:Hlt.
    + apply ltb_fin_nonneg in Hlt; try assumption.
      destruct (IH v Hv Hrest) as (Hr & Hin & Hge & Hmax).
      repeat split; try assumption.
      * right. apply elem_of_cons. destruct Hin as [->|Hin]; [now left | now right].
      * lra.
      * constructor; assumption.
    + assert (Hle : (F2Q v <= F2Q acc)%Q).
      { destruct (Qlt_le_dec (F2Q acc) (F2Q v)) as [Hc|Hc]; [|exact Hc].
        apply ltb_fin_nonneg in Hc; try assumption. congruence. }
      destruct (IH acc Hacc Hrest) as (Hr & Hin & Hge & Hmax).
      repeat split; try assumption.
      * destruct Hin as [->|Hin]; [now left|]. right. apply elem_of_cons. now right.
      * constructor; [lra | assumption].
Qed.

(** X6: over a segment of finite values that are not negative, [maxvol] is
    zero or a value of the segment, and no value of the segment is above
    it. *)
Theorem max_volume_is_maximum (env2 : list float64) :
  Forall fin_nonneg env2 ->
  fin_nonneg (max_volume env2) /\
  (max_volume env2 = F64.zero \/ max_volume env2 ∈ env2) /\
  Forall (fun v => (F2Q v <= F2Q (max_volume env2))%Q) env2.
Proof.
  intros Hall.
  destruct (max_volume_fold env2 F64.zero (or_introl eq_refl) Hall)
    as (Hr & Hin & _ & Hmax).
  unfold max_volume. repeat split; assumption.
Qed.

Lemma max_volume_is_maximum_witness :
  fin_nonneg (max_volume [c0_5; c1; F64.zero]) /\
  (max_volume [c0_5; c1; F64.zero] = F64.zero \/
   max_volume [c0_5; c1; F64.zero] ∈ [c0_5; c1; F64.zero]) /\
  Forall (fun v => (F2Q v <= F2Q (max_volume [c0_5; c1; F64.zero]))%Q)
         [c0_5; c1; F64.zero].
Proof.
  apply (max_volume_is_maximum [c0_5; c1; F64.zero]).
  apply Forall_cons_2; [right; exists (1 # 2)%Q; exact pfin_c0_5|].
  apply Forall_cons_2; [right; exists 1%Q; exact pfin_c1|].
  apply Forall_cons_2; [left; reflexivity | apply Forall_nil_2].
Defined.

(** ** The crossfade weight and the bars of a frame *)

Section Crossfade.
Context {M : MathLib} {L : MathLaws M}.

(** The speed-up factor over a segment of values in [[0, 1]]. *)
Lemma speedup_segment (env2 : list float64) :
  Forall (upto 1) env2 ->
  exists v,
    pfin (Max c0_5 (Min c2 (interpole cm6 c0_5 c0 c2
            (F64.mul (Log10 (F64.add c1e_4 (max_volume env2))) c10)))) v /\
    ((1 # 2) <= v <= 2)%Q.
Proof.
  intros H.
  assert (Hfin : Forall fin_nonneg env2).
  { eapply Forall_impl; [exact H|]. intros x. apply upto_fin_nonneg. }
  destruct (max_volume_fold env2 F64.zero (or_introl eq_refl) Hfin) as (Hm & Hin & _).
  change (fold_left _ env2 F64.zero) with (max_volume env2) in Hm, Hin.
  assert (Hm1 : upto 1 (max_volume env2)).
  { destruct Hin as [->|Hin]; [now left|].
    exact (proj1 (Forall_forall _ _) H _ Hin). }
  apply speedup_range, interpole_num.
  assert (H10 : pfin c10 (Fval 5629499534213120 (-49))).
  { eexists _, _. split; [reflexivity|]. split; reflexivity. }
  apply (mul_num_r _ _ _) with (2 := H10).
  assert (H4 : pfin c1e_4 (Fval 7378697629483821 (-66))).
  { eexists _, _. split; [reflexivity|]. split; reflexivity. }
  assert (Hv4 : (Fval 7378697629483821 (-66) <= 1)%Q).
  { apply Qle_bool_imp_le. vm_compute. reflexivity. }
  pose proof (pfin_pos _ _ H4) as P4.
  assert (Harg : exists v, pfin (F64.add c1e_4 (max_volume env2)) v).
  { destruct Hm1 as [->|(v & Hv & Hle)].
    - eexists. exact H4.
    - pose proof (pfin_pos _ _ Hv).
      destruct (R64_pfin _ _ c1e_4 c2 _ 2 (add_pfin _ _ _ _ H4 Hv) H4 pfin_c2
                  ltac:(lra)) as (va & Ha & _).
      now exists va. }
  destruct Harg as (va & ma & ea & -> & _). apply log10_pos.
Qed.

(** The crossfade weight over a segment of values in [[0, 1]]. *)
Lemma crossfade_upto (speed loc : float64) (env2 : list float64) :
  speed_ok speed -> fin_nonneg loc -> Forall (upto 1) env2 ->
  upto 1 (crossfade speed loc env2).
Proof.
  intros Hsp Hloc Hz. unfold crossfade. cbv zeta.
  destruct (speedup_segment env2 Hz) as (vu & Hu & Hur).
  apply sigmoid_num. apply mul_finv_num.
  - destruct (speed_cases speed Hsp) as [[s ->]|(v & Hv & Hle)].
    + destruct Hu as (mu & eu & -> & _). split; reflexivity.
    + apply fin_nonneg_finv.
      apply (R64_fin_bpow 64 _ _ (mul_pfin _ _ _ _ Hv Hu)); [|lia].
      replace 64 with (63 + 1) by lia. rewrite bpow_add, bpow_1.
      pose proof (pfin_pos _ _ Hv).
      apply Qmult_le_compat_nonneg; split; lra.
  - destruct Hloc as [->|[vl Hl]].
    + split; reflexivity.
    + exact (sub_pfin_finv _ _ _ _ Hl pfin_c0_5).
Qed.

(** X7: the crossfade weight of a frame is a finite number in [[0, 1]]
    whenever the segment holds values in [[0, 1]], the fraction [loc] is a
    finite number that is not negative and the speed is between 0 and
    [2^63]. *)
Theorem crossfade_weight (speed loc : float64) (env2 : list float64) :
  speed_ok speed -> fin_nonneg loc -> Forall (upto 1) env2 ->
  valid64 (crossfade speed loc env2) /\
  is_finite (crossfade speed loc env2) = true /\
  (0 <= F2Q (crossfade speed loc env2) <= 1)%Q.
Proof.
  intros Hsp Hloc Hz. apply upto_value; [lra|].
  exact (crossfade_upto speed loc env2 Hsp Hloc Hz).
Qed.
End Crossfade.

Lemma crossfade_weight_witness :
  valid64 (crossfade (M := ref_math) (F64.of_ratio 35 10) c0_5 [c0_5; c1]) /\
  is_finite (crossfade (M := ref_math) (F64.of_ratio 35 10) c0_5 [c0_5; c1]) = true /\
  (0 <= F2Q (crossfade (M := ref_math) (F64.of_ratio 35 10) c0_5 [c0_5; c1]) <= 1)%Q.
Proof.
  apply (crossfade_weight (M := ref_math) (L := ref_math_laws)
           (F64.of_ratio 35 10) c0_5 [c0_5; c1]).
  - repeat split; reflexivity.
  - right. exists (1 # 2)%Q. exact pfin_c0_5.
  - apply Forall_cons_2; [right; exists (1 # 2)%Q; split; [exact pfin_c0_5 | lra]|].
    apply Forall_cons_2; [right; exists 1%Q; split; [exact pfin_c1 | lra]|].
    apply Forall_nil_2.
Defined.

Lemma mul_upto (a b : Q) (x y c : float64) (vc : Q) :
  upto a x -> upto b y -> pfin c vc -> (a * b <= vc)%Q ->
  upto vc (F64.mul x y).
Proof.
  intros [->|(vx & Hx & Hxa)] [->|(vy & Hy & Hyb)] Hc Hle.
  - now left.
  - left. destruct Hy as (m & e & -> & _). reflexivity.
  - left. destruct Hx as (m & e & -> & _). reflexivity.
  - apply (R64_le _ _ c vc (mul_pfin _ _ _ _ Hx Hy) Hc).
    pose proof (pfin_pos _ _ Hx). pose proof (pfin_pos _ _ Hy).
    apply Qle_trans with (a * b)%Q; [|exact Hle].
    apply Qmult_le_compat_nonneg; split; lra.
Qed.

Lemma add_upto (a b : Q) (x y c : float64) (vc : Q) :
  upto a x -> upto b y -> pfin c vc -> (0 <= a)%Q -> (0 <= b)%Q ->
  (a + b <= vc)%Q -> upto vc (F64.add x y).
Proof.
  intros [->|(vx & Hx & Hxa)] [->|(vy & Hy & Hyb)] Hc Ha Hb Hle.
  - now left.
  - right. exists vy. split; [|lra].
    destruct Hy as (m & e & -> & Hbd & Hv). exists m, e. repeat split; assumption.
  - right. exists vx. split; [|lra].
    destruct Hx as (m & e & -> & Hbd & Hv). exists m, e. repeat split; assumption.
  - apply (R64_le _ _ c vc (add_pfin _ _ _ _ Hx Hy) Hc). lra.
Qed.

Lemma one_minus_upto (w : float64) : upto 1 w -> upto 1 (F64.sub c1 w).
Proof.
  intros [->|(v & Hv & Hle)].
  - right. exists 1%Q. split; [exact pfin_c1 | lra].
  - destruct (sub_pfin _ _ _ _ pfin_c1 Hv Hle) as [[_ ->]|[_ Hd]]; [now left|].
    apply (R64_le _ _ c1 1 Hd pfin_c1). pose proof (pfin_pos _ _ Hv). lra.
Qed.

Section FrameValues.
Context {M : MathLib} {L : MathLaws M}.

(** [1 - cos x] for a finite [x] is between 0 and 2. *)
Lemma one_minus_cos_upto (x : float64) :
  is_finite x = true -> upto 2 (F64.sub c1 (Cos x)).
Proof.
  intros Hf. destruct (cos_range x Hf) as (Hv & Hlo & Hhi).
  destruct (Cos x) as [s|s| |s m e] eqn:Hc.
  - right. exists 1%Q. split; [destruct s; exact pfin_c1 | lra].
  - destruct s; discriminate.
  - discriminate.
  - destruct s.
    + change c1 with (S754_finite false 4503599627370496 (-52)).
      unfold F64.sub.
      destruct (SFsub_finite F64.prec F64.emax false true 4503599627370496 m (-52) e)
        as (Ms & -> & HM).
      assert (H1 : (Fval 4503599627370496 (-52) == 1)%Q) by reflexivity.
      assert (Hle : (Fval (Zpos m) e <= 1)%Q).
      { change (F64.neg c1) with (S754_finite true 4503599627370496 (-52)) in Hlo.
        apply (leb_neg 4503599627370496 m (-52) e eq_refl Hv) in Hlo.
        rewrite H1 in Hlo. exact Hlo. }
      pose proof (Fval_pos m e) as Pm.
      apply (R64_le (1 + Fval (Zpos m) e) _ c2 2); [| exact pfin_c2 | lra].
      apply normalize_pos; [|lra].
      rewrite HM. simpl cond_Zopp. rewrite H1.
      change (Z.neg m) with (- Zpos m). rewrite Fval_opp. lra.
    + assert (Hp : pfin (S754_finite false m e) (Fval (Zpos m) e)).
      { exists m, e. split; [reflexivity|]. split; [exact Hv | reflexivity]. }
      apply (upto_weaken 1 2); [lra|]. apply one_minus_upto.
      right. exists (Fval (Zpos m) e). split; [exact Hp|].
      exact (leb_pfin _ _ _ _ Hp pfin_c1 Hhi).
Qed.

Lemma taper_arg_finite (i n : Z) :
  1 < n <= max_int -> 0 <= i < n ->
  is_finite (F64.div (F64.mul two_pi (F64.of_int i)) (F64.of_int (n - 1))) = true.
Proof.
  intros Hn Hi.
  destruct (of_int_pfin (n - 1) ltac:(lia)) as (vd & Hvd & Hd1 & _).
  assert (Hx : fin_nonneg (F64.mul two_pi (F64.of_int i))).
  { destruct (Z.eq_dec i 0) as [->|Hi0]; [left; vm_compute; reflexivity|].
    destruct (of_int_pfin i ltac:(lia)) as (vi & Hvi & _ & Hi2).
    destruct pfin_two_pi as (v2 & Hv2 & Hle2).
    apply (R64_fin_bpow (3 + 63) _ _ (mul_pfin _ _ _ _ Hv2 Hvi)); [|lia].
    rewrite bpow_add. pose proof (pfin_pos _ _ Hv2). pose proof (pfin_pos _ _ Hvi).
    apply Qmult_le_compat_nonneg; split; try lra.
    rewrite bpow_Z by lia. lra. }
  apply fin_nonneg_finv.
  destruct Hx as [->|[vx Hvx]].
  - left. destruct Hvd as (m & e & -> & _). reflexivity.
  - apply (R64_fin _ _ _ vx (div_pfin _ _ _ _ Hvx Hvd) Hvx).
    pose proof (pfin_pos _ _ Hvx). apply Qle_shift_div_r; [lra|].
    apply Qle_mul_ge_1; lra.
Qed.

(** With two bars or more the raised cosine is a number in [[0, 1]]. *)
Lemma taper_unit (i n : Z) :
  1 < n <= max_int -> 0 <= i < n -> upto 1 (taper i n).
Proof.
  intros Hn Hi. unfold taper.
  assert (Hd : isub n 1 = n - 1).
  { apply wrap64_id. unfold min_int, max_int in *. lia. }
  rewrite Hd.
  pose proof (one_minus_cos_upto _ (taper_arg_finite i n Hn Hi)) as Ht.
  apply (mul_upto (1 # 2) 2 _ _ c1 1); [| exact Ht | exact pfin_c1 | lra].
  right. exists (1 # 2)%Q. split; [exact pfin_c0_5 | lra].
Qed.

(** A bar: a crossfade of two values in [[0, 1]], tapered. *)
Lemma bar_upto (w a b t : float64) :
  upto 1 w -> upto 1 a -> upto 1 b -> upto 1 t ->
  upto 2 (F64.mul (blend w a b) t).
Proof.
  intros Hw Ha Hb Ht. unfold blend.
  apply (mul_upto 2 1 _ _ c2 2); [| exact Ht | exact pfin_c2 | lra].
  apply (add_upto 1 1 _ _ c2 2); try lra; try exact pfin_c2.
  - apply (mul_upto 1 1 _ _ c1 1); [| exact Ha | exact pfin_c1 | lra].
    exact (one_minus_upto w Hw).
  - apply (mul_upto 1 1 _ _ c1 1); [exact Hw | exact Hb | exact pfin_c1 | lra].
Qed.

Lemma frame_bars_upto (env : list float64) (sr : float64)
    (rate bars stride : Z) (speed : float64) (idx : Z) (denv : list float64) :
  Forall (upto 1) env -> 1 < bars <= max_int -> speed_ok speed ->
  (frame_pos sr rate stride bars idx = S754_zero false \/
   exists v, pfin (frame_pos sr rate stride bars idx) v /\
             (v < inject_Z (2 ^ 63))%Q) ->
  frame_bars env sr rate bars stride speed idx = Ret denv ->
  Forall (upto 2) denv.
Proof.
  intros He Hb Hsp Hpos. unfold frame_bars. cbv zeta.
  destruct (slice env (imul (int _) bars) _) as [env1| |] eqn:H1; try discriminate.
  rewrite bind_Ret.
  destruct (slice env (imul (iadd _ 1) bars) _) as [env2| |] eqn:H2; try discriminate.
  rewrite bind_Ret.
  rewrite make_ret by lia. rewrite bind_Ret.
  pose proof (slice_Forall _ _ _ _ _ He H1) as He1.
  pose proof (slice_Forall _ _ _ _ _ He H2) as He2.
  pose proof (crossfade_upto speed _ env2 Hsp (loc_fin_nonneg _ Hpos) He2) as Hw.
  rewrite len_replicate by lia.
  intros Hloop.
  assert (HP : forall d, Ret denv = Ret d -> len d = bars /\ Forall (upto 2) d).
  { rewrite <- Hloop.
    apply (for_range_preserves
             (fun acc : outcome (list float64) =>
                forall d, acc = Ret d -> len d = bars /\ Forall (upto 2) d)).
    - intros d [= <-]. split; [apply len_replicate; lia|].
      apply Forall_replicate. now left.
    - intros i acc Hi IH d'.
      destruct acc as [d| |]; try discriminate. rewrite bind_Ret.
      destruct (IH d eq_refl) as [Ld Hd].
      destruct (index env1 i) as [a| |] eqn:Ha; try discriminate. rewrite bind_Ret.
      destruct (index env2 i) as [b| |] eqn:Hb'; try discriminate. rewrite bind_Ret.
      intros [= <-].
      pose proof (proj1 (Forall_forall _ _) He1 a (index_elem _ _ _ Ha)) as Hua.
      pose proof (proj1 (Forall_forall _ _) He2 b (index_elem _ _ _ Hb')) as Hub.
      split; [unfold len in *; rewrite length_insert; exact Ld|].
      apply Forall_insert; [exact Hd|].
      rewrite Ld. apply bar_upto; try assumption.
      apply taper_unit; lia. }
  exact (proj2 (HP denv eq_refl)).
Qed.

Lemma envelope_upto (wav : list float32) (window stride : Z) (out : list float64) :
  envelope wav window stride = Ret out -> Forall (upto 1) out.
Proof.
  intros H. apply envelope_values in H.
  eapply Forall_impl; [exact H|].
  intros o (Hn & Hf & _ & Hle).
  destruct (nonneg_finite o Hn Hf) as [->|[v Hv]]; [now left|].
  right. exists v. split; [exact Hv|].
  rewrite (pfin_F2Q _ _ Hv) in Hle. pose proof c0_95_below. lra.
Qed.

(** X8: with two bars or more, a speed between 0 and [2^63] and the sizes
    of a real run, every frame has [bars] bar values and each of them is a
    finite number between 0 and 2: no NaN, no infinity and no negative
    value reaches the renderer. *)
Theorem frame_bars_finite
    (mono : list float32) (window stride bars rate : Z) (sr speed : float64) :
  0 < rate <= max_int -> 1 < bars <= 2 ^ 60 ->
  0 < stride <= window -> len mono + window <= max_int ->
  len mono <= 2 ^ 48 -> rate * len mono <= 2 ^ 62 ->
  valid64 sr -> F64.leb c1 sr = true -> F64.leb sr two63 = true ->
  speed_ok speed ->
  exists env0 env,
    envelope mono window stride = Ret env0 /\
    pad_envelope env0 bars = Ret env /\
    forall idx, 0 <= idx < frames_of rate (len mono) sr ->
      exists denv,
        frame_bars env sr rate bars stride speed idx = Ret denv /\
        len denv = bars /\
        Forall (fun b => valid64 b /\ is_finite b = true /\
                         (0 <= F2Q b <= 2)%Q) denv.
Proof.
  intros Hr Hb Hst Hmax Hn Hrn Hv Hs1 Hs2 Hsp.
  destruct (padded_envelope_fits mono window stride bars rate sr
              Hr ltac:(lia) Hst Hmax Hn Hrn Hv Hs1 Hs2)
    as (env0 & env & He & Hp & Hlen & Hfit).
  exists env0, env. split; [exact He|]. split; [exact Hp|].
  assert (Hu : Forall (upto 1) env).
  { exact (pad_envelope_Forall (upto 1) _ _ _ (or_introl eq_refl)
             (envelope_upto _ _ _ _ He) Hp). }
  intros idx Hidx. destruct (Hfit idx Hidx) as (Hoff & Hhi & Hpos).
  destruct (frame_bars_returns env sr rate bars stride speed idx
              ltac:(lia) Hlen Hoff Hhi) as (_ & _ & denv & _ & _ & Hd & Ld).
  exists denv. split; [exact Hd|]. split; [exact Ld|].
  assert (Hb' : 1 < bars <= max_int) by (unfold max_int; lia).
  pose proof (frame_bars_upto env sr rate bars stride speed idx denv
                Hu Hb' Hsp Hpos Hd) as H2.
  eapply Forall_impl; [exact H2|].
  intros b. apply upto_value. lra.
Qed.
End FrameValues.

Lemma frame_bars_finite_witness :
  exists env0 env,
    envelope (M := ref_math) wav4 2 1 = Ret env0 /\
    pad_envelope env0 3 = Ret env /\
    forall idx, 0 <= idx < frames_of (M := ref_math) 2 (len wav4) (F64.of_int 2) ->
      exists denv,
        frame_bars (M := ref_math) env (F64.of_int 2) 2 3 1 (F64.of_ratio 35 10) idx
          = Ret denv /\
        len denv = 3 /\
        Forall (fun b => valid64 b /\ is_finite b = true /\
                         (0 <= F2Q b <= 2)%Q) denv.
Proof.
  apply (frame_bars_finite (M := ref_math) (L := ref_math_laws)
           wav4 2 1 3 2 (F64.of_int 2) (F64.of_ratio 35 10));
    try (vm_compute; intuition congruence).
Defined.

(** ** drawEnv: what the bars paint *)

(** The colour of the lower half of a bar: the foreground at alpha 204. *)
Definition lowerFg (fg : RGBA) : RGBA := mkRGBA (cR fg) (cG fg) (cB fg) 204.

(** A nest of two loops that sets pixels of the rows [ylo <= y < yhi] to [c]:
    every pixel keeps its colour or gets [c], and the second only in those
    rows. *)
Lemma paint_colours (f : Z -> Z) (c : RGBA) (ylo yhi n : Z) (img : Image) :
  well_formed img ->
  let img' :=
    for_range ylo yhi (fun y img =>
      for_range 0 n (fun dx img => Set_ (f dx) y c img) img) img in
  forall x y, At img' x y = At img x y \/ (At img' x y = c /\ ylo <= y < yhi).
Proof.
  intros Hwf. cbv zeta.
  assert (H : well_formed
                (for_range ylo yhi (fun y img =>
                   for_range 0 n (fun dx img => Set_ (f dx) y c img) img) img) /\
              forall x y,
                At (for_range ylo yhi (fun y img =>
                      for_range 0 n (fun dx img => Set_ (f dx) y c img) img) img) x y
                = At img x y \/
                (At (for_range ylo yhi (fun y img =>
                       for_range 0 n (fun dx img => Set_ (f dx) y c img) img) img) x y
                 = c /\ ylo <= y < yhi)).
  { apply (for_range_preserves
             (fun img' => well_formed img' /\
                forall x y, At img' x y = At img x y \/
                            (At img' x y = c /\ ylo <= y < yhi))).
    - split; [exact Hwf | now left].
    - intros y0 img0 Hy0 IH0.
      apply (for_range_preserves
               (fun img' => well_formed img' /\
                  forall x y, At img' x y = At img x y \/
                              (At img' x y = c /\ ylo <= y < yhi))); [exact IH0|].
      intros dx img1 Hdx [Hwf1 Hat1].
      split; [now apply Set_well_formed|].
      intros x y.
      destruct (decide ((x, y) = (f dx, y0))) as [[= -> ->]|Hne].
      + destruct (inside (Bounds img1) (f dx) y0) eqn:Hin.
        * right. split; [now apply At_Set_eq | exact Hy0].
        * unfold Set_. rewrite Hin. apply Hat1.
      + rewrite At_Set_ne by assumption. apply Hat1. }
  apply H.
Qed.

(** The same loops do set every pixel they reach inside the image. *)
Lemma paint_sets (f : Z -> Z) (c : RGBA) (ylo yhi n : Z) (img : Image) :
  well_formed img ->
  let img' :=
    for_range ylo yhi (fun y img =>
      for_range 0 n (fun dx img => Set_ (f dx) y c img) img) img in
  forall y dx, ylo <= y < yhi -> 0 <= dx < n ->
    inside (Bounds img) (f dx) y = true -> At img' (f dx) y = c.
Proof.
  intros Hwf. cbv zeta. intros y dx Hy Hdx Hin.
  pose (P := fun (y0 : Z) (img' : Image) =>
               well_formed img' /\ Bounds img' = Bounds img /\
               (y < y0 -> At img' (f dx) y = c)).
  assert (H : P yhi (for_range ylo yhi (fun y img =>
                 for_range 0 n (fun dx img => Set_ (f dx) y c img) img) img)).
  { apply (for_range_ind P); [lia | |].
    - unfold P. split; [exact Hwf|]. split; [reflexivity | lia].
    - intros y0 img0 Hy0 (Hwf0 & Hb0 & Hat0).
      pose (Q := fun (d : Z) (img' : Image) =>
                   well_formed img' /\ Bounds img' = Bounds img /\
                   (y < y0 \/ (y = y0 /\ dx < d) -> At img' (f dx) y = c)).
      assert (HQ : Q n (for_range 0 n (fun dx img => Set_ (f dx) y0 c img) img0)).
      { apply (for_range_ind Q); [lia | |].
        - unfold Q. split; [exact Hwf0|]. split; [exact Hb0|].
          intros [Hlt|[_ Hlt]]; [now apply Hat0 | lia].
        - intros d img1 Hd (Hwf1 & Hb1 & Hat1).
          split; [now apply Set_well_formed|]. split; [now rewrite Set_Bounds|].
          intros Hcase.
          destruct (decide ((f dx, y) = (f d, y0))) as [[= Hfx ->]|Hne].
          + rewrite Hfx. apply At_Set_eq; [exact Hwf1|].
            rewrite Hb1, <- Hfx. exact Hin.
          + rewrite At_Set_ne by assumption. apply Hat1.
            destruct Hcase as [Hlt|[-> Hlt]]; [now left|].
            right. split; [reflexivity|].
            destruct (Z.eq_dec dx d) as [->|]; [congruence | lia]. }
      destruct HQ as (Hwf' & Hb' & Hat').
      split; [exact Hwf'|]. split; [exact Hb'|].
      intros Hlt. apply Hat'.
      destruct (Z.eq_dec y y0) as [->|]; [right; split; [reflexivity | lia] | left; lia]. }
  apply H. lia.
Qed.

Section Painted.
Context {M : MathLib}.

(** The upper and the lower rectangle of bar [i]. *)
Definition upper_pixels (height : Z) (barWidth actualWidth pad : float64)
    (i : Z) (e : float64) (x y : Z) : Prop :=
  (exists dx, 0 <= dx < int actualWidth /\ x = iadd (bar_x barWidth pad i) dx) /\
  upper_from height e <= y < Z.quot height 2.

Definition lower_pixels (height : Z) (barWidth actualWidth pad : float64)
    (i : Z) (e : float64) (x y : Z) : Prop :=
  (exists dx, 0 <= dx < int actualWidth /\ x = iadd (bar_x barWidth pad i) dx) /\
  Z.quot height 2 <= y < lower_to height e.

Lemma draw_bar_colours (fg : RGBA) (height : Z) (bw aw pad : float64)
    (i : Z) (e : float64) (img : Image) :
  well_formed img ->
  forall x y,
    At (draw_bar fg height bw aw pad i e img) x y = At img x y \/
    (At (draw_bar fg height bw aw pad i e img) x y = fg /\ y < Z.quot height 2) \/
    (At (draw_bar fg height bw aw pad i e img) x y = lowerFg fg /\
     Z.quot height 2 <= y).
Proof.
  intros Hwf x y. unfold draw_bar. cbv zeta.
  destruct (paint_frame (fun dx => iadd (bar_x bw pad i) dx) fg
              (upper_from height e) (Z.quot height 2) (int aw) img Hwf)
    as (Hwf1 & _ & _).
  pose proof (paint_colours (fun dx => iadd (bar_x bw pad i) dx) fg
                (upper_from height e) (Z.quot height 2) (int aw) img Hwf x y) as H1.
  pose proof (paint_colours (fun dx => iadd (bar_x bw pad i) dx) (lowerFg fg)
                (Z.quot height 2) (lower_to height e) (int aw) _ Hwf1 x y) as H2.
  cbv zeta in H1, H2. fold (lowerFg fg).
  destruct H2 as [->|[-> Hy]]; [|right; right; split; [reflexivity | lia]].
  destruct H1 as [->|[-> Hy]]; [now left|]. right. left. split; [reflexivity | lia].
Qed.

Lemma draw_bar_painted (fg : RGBA) (height : Z) (bw aw pad : float64)
    (i : Z) (e : float64) (img : Image) :
  well_formed img ->
  forall x y, inside (Bounds img) x y = true ->
    (upper_pixels height bw aw pad i e x y ->
     At (draw_bar fg height bw aw pad i e img) x y = fg) /\
    (lower_pixels height bw aw pad i e x y ->
     At (draw_bar fg height bw aw pad i e img) x y = lowerFg fg).
Proof.
  intros Hwf x y Hin. unfold draw_bar. cbv zeta. fold (lowerFg fg).
  destruct (paint_frame (fun dx => iadd (bar_x bw pad i) dx) fg
              (upper_from height e) (Z.quot height 2) (int aw) img Hwf)
    as (Hwf1 & Hb1 & _).
  destruct (paint_frame (fun dx => iadd (bar_x bw pad i) dx) (lowerFg fg)
              (Z.quot height 2) (lower_to height e) (int aw) _ Hwf1)
    as (_ & _ & Hat2).
  split.
  - intros [(dx & Hdx & ->) Hy].
    rewrite Hat2 by lia.
    apply (paint_sets (fun dx => iadd (bar_x bw pad i) dx) fg
             (upper_from height e) (Z.quot height 2) (int aw) img Hwf);
      assumption.
  - intros [(dx & Hdx & ->) Hy].
    apply (paint_sets (fun dx => iadd (bar_x bw pad i) dx) (lowerFg fg)
             (Z.quot height 2) (lower_to height e) (int aw) _ Hwf1);
      try assumption.
    now rewrite Hb1.
Qed.

Lemma draw_bars_colours (fg : RGBA) (height : Z) (bw aw pad : float64) :
  forall (env : list float64) (i0 : Z) (img : Image),
    well_formed img ->
    forall x y,
      At (range_from i0 (draw_bar fg height bw aw pad) env img) x y = At img x y \/
      (At (range_from i0 (draw_bar fg height bw aw pad) env img) x y = fg /\
       y < Z.quot height 2) \/
      (At (range_from i0 (draw_bar fg height bw aw pad) env img) x y = lowerFg fg /\
       Z.quot height 2 <= y).
Proof.
  induction env as [|e env IH]; intros i0 img Hwf x y; simpl; [now left|].
  destruct (draw_bar_frame fg height bw aw pad i0 e img Hwf) as (Hwf1 & _ & _).
  destruct (IH (i0 + 1) _ Hwf1 x y) as [->|H]; [|right; exact H].
  apply draw_bar_colours. exact Hwf.
Qed.

Lemma draw_bars_painted (fg : RGBA) (height : Z) (bw aw pad : float64) :
  forall (env : list float64) (i0 : Z) (img : Image) (k : nat) (e : float64),
    well_formed img -> env !! k = Some e ->
    forall x y, inside (Bounds img) x y = true ->
      (forall (j : nat) e', (k < j)%nat -> env !! j = Some e' ->
         ~ bar_pixels height bw aw pad (i0 + Z.of_nat j) e' x y) ->
      (upper_pixels height bw aw pad (i0 + Z.of_nat k) e x y ->
       At (range_from i0 (draw_bar fg height bw aw pad) env img) x y = fg) /\
      (lower_pixels height bw aw pad (i0 + Z.of_nat k) e x y ->
       At (range_from i0 (draw_bar fg height bw aw pad) env img) x y = lowerFg fg).
Proof.
  induction env as [|a env IH]; intros i0 img k e Hwf Hk x y Hin Hlater;
    [discriminate|].
  destruct (draw_bar_frame fg height bw aw pad i0 a img Hwf) as (Hwf1 & Hb1 & _).
  destruct k as [|k]; simpl.
  - injection Hk as ->. rewrite Z.add_0_r.
    destruct (draw_bars_frame fg height bw aw pad env (i0 + 1) _ Hwf1)
      as (_ & _ & Hrest).
    rewrite Hrest.
    + exact (draw_bar_painted fg height bw aw pad i0 e img Hwf x y Hin).
    + intros j e' Hj.
      replace (i0 + 1 + Z.of_nat j) with (i0 + Z.of_nat (S j)) by lia.
      apply (Hlater (S j) e'); [lia | exact Hj].
  - replace (i0 + Z.of_nat (S k)) with (i0 + 1 + Z.of_nat k) by lia.
    apply (IH (i0 + 1) _ k e Hwf1 Hk x y); [now rewrite Hb1|].
    intros j e' Hlt Hj.
    replace (i0 + 1 + Z.of_nat j) with (i0 + Z.of_nat (S j)) by lia.
    apply (Hlater (S j) e'); [lia | exact Hj].
Qed.

(** X9: the picture holds three colours only. Above the middle row a pixel
    has the background or the foreground colour; from the middle row down
    it has the background colour or the foreground colour at alpha 204. *)
Theorem drawEnv_palette (env : list float64) (fg bg : RGBA) (w h : Z) :
  0 <= w -> 0 <= h ->
  forall x y, 0 <= x < w -> 0 <= y < h ->
    (y < Z.quot h 2 ->
     At (drawEnv env fg bg w h) x y = bg \/ At (drawEnv env fg bg w h) x y = fg) /\
    (Z.quot h 2 <= y ->
     At (drawEnv env fg bg w h) x y = bg \/
     At (drawEnv env fg bg w h) x y = lowerFg fg).
Proof.
  intros Hw Hh x y Hx Hy. unfold drawEnv.
  rewrite Rect_nonneg by assumption.
  destruct (bar_geometry (len env) w) as [[bw aw] pad].
  destruct (fill_all bg w h Hw Hh) as (Hwf & Hb & Hall).
  pose proof (draw_bars_colours fg h bw aw pad env 0 _ Hwf x y) as H.
  rewrite (Hall x y Hx Hy) in H.
  split; intros Hhalf; destruct H as [->|[[-> Hlt]|[-> Hge]]]; auto; lia.
Qed.

(** X10: a pixel of the image inside the upper rectangle of a bar has the
    foreground colour, and one inside its lower rectangle the foreground
    colour at alpha 204, unless a later bar covers it. *)
Theorem drawEnv_bar_painted (env : list float64) (fg bg : RGBA) (w h : Z)
    (k : nat) (e : float64) :
  0 <= w -> 0 <= h -> env !! k = Some e ->
  forall x y, 0 <= x < w -> 0 <= y < h ->
    (forall (j : nat) e', (k < j)%nat -> env !! j = Some e' ->
       ~ in_bar (len env) w h (Z.of_nat j) e' x y) ->
    let '(barWidth, actualWidth, pad) := bar_geometry (len env) w in
    (upper_pixels h barWidth actualWidth pad (Z.of_nat k) e x y ->
     At (drawEnv env fg bg w h) x y = fg) /\
    (lower_pixels h barWidth actualWidth pad (Z.of_nat k) e x y ->
     At (drawEnv env fg bg w h) x y = lowerFg fg).
Proof.
  intros Hw Hh Hk x y Hx Hy Hlater. unfold drawEnv, in_bar in *.
  rewrite Rect_nonneg by assumption.
  destruct (bar_geometry (len env) w) as [[bw aw] pad].
  destruct (fill_all bg w h Hw Hh) as (Hwf & Hb & _).
  assert (Hin : inside (Bounds (fill bg w h (NewRGBA (mkRect 0 0 w h)))) x y = true).
  { rewrite Hb. apply inside_spec. simpl. lia. }
  destruct (draw_bars_painted fg h bw aw pad env 0 _ k e Hwf Hk x y Hin) as [Hu Hl].
  { intros j e' Hlt Hj. rewrite Z.add_0_l. now apply Hlater. }
  rewrite Z.add_0_l in Hu, Hl. split; assumption.
Qed.
End Painted.

Lemma drawEnv_palette_witness :
  (2 < Z.quot 6 2 ->
   At (drawEnv (M := ref_math) [c1; c0_5] teal black 8 6) 1 2 = black \/
   At (drawEnv (M := ref_math) [c1; c0_5] teal black 8 6) 1 2 = teal) /\
  (Z.quot 6 2 <= 2 ->
   At (drawEnv (M := ref_math) [c1; c0_5] teal black 8 6) 1 2 = black \/
   At (drawEnv (M := ref_math) [c1; c0_5] teal black 8 6) 1 2 = lowerFg teal).
Proof.
  apply (drawEnv_palette (M := ref_math) [c1; c0_5] teal black 8 6); lia.
Defined.

Lemma drawEnv_bar_painted_witness :
  let '(barWidth, actualWidth, pad) := bar_geometry (len [c1; c0_5]) 8 in
  (upper_pixels (M := ref_math) 6 barWidth actualWidth pad (Z.of_nat 0) c1 1 2 ->
   At (drawEnv (M := ref_math) [c1; c0_5] teal black 8 6) 1 2 = teal) /\
  (lower_pixels (M := ref_math) 6 barWidth actualWidth pad (Z.of_nat 0) c1 1 2 ->
   At (drawEnv (M := ref_math) [c1; c0_5] teal black 8 6) 1 2 = lowerFg teal).
Proof.
  apply (drawEnv_bar_painted (M := ref_math) [c1; c0_5] teal black 8 6 0 c1);
    try lia; [reflexivity|].
  intros j e' Hlt Hj. destruct j as [|[|j]]; [lia | | discriminate].
  injection Hj as <-. unfold in_bar.
  destruct (bar_geometry (len [c1; c0_5]) 8) as [[bw aw] pad] eqn:Hg.
  injection Hg as <- <- <-.
  intros [_ [Hy|Hy]]; revert Hy; vm_compute; intuition congruence.
Defined.

(** ** The downmix to mono *)

Section Downmix.
Context {M : MathLib}.

(** Sample [i] of a channel, zero past its end. *)
Definition sample (ch : list float32) (i : Z) : float32 :=
  default F32.zero (ch !! Z.to_nat i).

(** The sum of sample [i] over the channels, added up from zero in the
    order of the channels. *)
Definition channel_sum (wav : list (list float32)) (i : Z) : float32 :=
  fold_left (fun s ch => F32.add s (sample ch i)) wav F32.zero.

Lemma index_sample (ch : list float32) (i : Z) :
  0 <= i < len ch -> index ch i = Ret (sample ch i).
Proof.
  intros Hi. unfold index, sample. destruct (Z.leb_spec 0 i); [|lia].
  destruct (lookup_lt_is_Some_2 ch (Z.to_nat i)) as [a Ha]; [unfold len in Hi; lia|].
  now rewrite Ha.
Qed.

Lemma downmix_sum (wav : list (list float32)) (n i : Z) :
  Forall (fun ch => len ch = n) wav -> 0 <= i < n ->
  forall s0,
    fold_left (fun acc ch => s ← acc; v ← index ch i; Ret (F32.add s v))
              wav (Ret s0) =
    Ret (fold_left (fun s ch => F32.add s (sample ch i)) wav s0).
Proof.
  intros Hall Hi. induction Hall as [|ch wav Hch _ IH]; intros s0; [reflexivity|].
  simpl. rewrite index_sample by lia. rewrite !bind_Ret. apply IH.
Qed.

(** The loops of the downmix, sample by sample. *)
Lemma downmix_tabulate (wav : list (list float32)) (n : Z) :
  wav <> [] -> Forall (fun ch => len ch = n) wav ->
  downmix wav =
  Ret (tabulate n (fun i => F32.div (channel_sum wav i) (F32.of_int (len wav)))).
Proof.
  intros Hne Hall. unfold downmix.
  destruct wav as [|ch0 rest]; [contradiction|].
  change (index (ch0 :: rest) 0) with (Ret ch0). rewrite bind_Ret.
  assert (Hn : len ch0 = n) by (inversion Hall; assumption).
  pose proof (len_nonneg ch0) as H0.
  rewrite Hn, make_ret, bind_Ret by lia.
  rewrite len_replicate by lia.
  set (f := fun i => F32.div (channel_sum (ch0 :: rest) i)
                             (F32.of_int (len (ch0 :: rest)))).
  pose (P := fun (i : Z) (acc : outcome (list float32)) =>
               acc = Ret (tabulate n (fun j => if j <? i then f j else F32.zero))).
  assert (H : P n (for_range 0 n (fun i acc =>
      mono ← acc;
      sum ← fold_left (fun acc ch => s ← acc; v ← index ch i; Ret (F32.add s v))
                      (ch0 :: rest) (Ret F32.zero);
      Ret (<[Z.to_nat i := F32.div sum (F32.of_int (len (ch0 :: rest)))]> mono))
      (Ret (replicate (Z.to_nat n) F32.zero)))).
  { apply (for_range_ind P); [lia | |].
    - unfold P. rewrite tabulate_const. f_equal. apply tabulate_ext.
      intros j Hj. destruct (Z.ltb_spec j 0); [lia | reflexivity].
    - intros i acc Hi ->. unfold P. rewrite bind_Ret.
      rewrite (downmix_sum (ch0 :: rest) n i Hall Hi), bind_Ret.
      rewrite tabulate_insert by lia. f_equal. apply tabulate_ext.
      intros j Hj.
      destruct (Z.eqb_spec j i) as [->|Hji].
      + destruct (Z.ltb_spec i (i + 1)); [reflexivity | lia].
      + destruct (Z.ltb_spec j i), (Z.ltb_spec j (i + 1)); try lia; reflexivity. }
  unfold P in H. rewrite H. f_equal. apply tabulate_ext.
  intros j Hj. destruct (Z.ltb_spec j n); [reflexivity | lia].
Qed.

(** X11: for channels of one length [n], and at least one channel, the
    mono signal has [n] samples, and sample [i] is the float32 sum of the
    channels' samples, added up from zero in channel order, divided by the
    number of channels. *)
Theorem downmix_mean (wav : list (list float32)) (n : Z) :
  wav <> [] -> Forall (fun ch => len ch = n) wav ->
  exists mono,
    downmix wav = Ret mono /\ len mono = n /\
    forall i, 0 <= i < n ->
      mono !! Z.to_nat i
      = Some (F32.div (channel_sum wav i) (F32.of_int (len wav))).
Proof.
  intros Hne Hall.
  set (f := fun i => F32.div (channel_sum wav i) (F32.of_int (len wav))).
  exists (tabulate n f). split; [exact (downmix_tabulate wav n Hne Hall)|].
  assert (Hn : 0 <= n).
  { destruct wav as [|ch0 rest]; [contradiction|].
    inversion Hall as [|? ? Hch _]; subst. apply len_nonneg. }
  split; [now apply tabulate_length|].
  intros i Hi. exact (tabulate_lookup n f i Hi).
Qed.
End Downmix.

Lemma downmix_mean_witness :
  exists mono,
    downmix [wav4; zeros4] = Ret mono /\ len mono = 4 /\
    forall i, 0 <= i < 4 ->
      mono !! Z.to_nat i
      = Some (F32.div (channel_sum [wav4; zeros4] i)
                      (F32.of_int (len [wav4; zeros4]))).
Proof.
  apply (downmix_mean [wav4; zeros4] 4); [discriminate|].
  repeat constructor.
Defined.

(** *** A single channel *)

Section ExactRounding.
Variables prec emax : Z.
Hypothesis Hprec : 0 < prec.
Hypothesis Hemax : prec < emax.

(** A value has one canonical representation. *)
Lemma canonical_unique (m1 m2 : positive) (e1 e2 : Z) :
  canonical prec emax m1 e1 -> canonical prec emax m2 e2 ->
  (Fval (Zpos m1) e1 == Fval (Zpos m2) e2)%Q -> m1 = m2 /\ e1 = e2.
Proof.
  intros H1 H2 Heq.
  destruct (Z.lt_trichotomy e1 e2) as [Hlt|[->|Hgt]].
  - pose proof (canonical_lt prec emax Hprec Hemax m1 m2 e1 e2 H1 H2 Hlt). lra.
  - split; [|reflexivity]. unfold Fval in Heq. pose proof (bpow_pos e2) as Hp.
    assert (Hq : (inject_Z (Zpos m1) == inject_Z (Zpos m2))%Q).
    { apply (Qmult_inj_r _ _ (bpow e2)); [lra | exact Heq]. }
    assert (Hz : Zpos m1 = Zpos m2) by (apply inject_Z_injective; exact Hq).
    now injection Hz.
  - pose proof (canonical_lt prec emax Hprec Hemax m2 m1 e2 e1 H2 H1 ltac:(lia)). lra.
Qed.

(** Rounding a value that is a float gives that float. *)
Lemma Rounded_exact (s : bool) (m : positive) (e : Z) (x : Q) (f : spec_float) :
  bounded prec emax m e = true -> (x == Fval (Zpos m) e)%Q ->
  Rounded prec emax s x f -> f = S754_finite s m e.
Proof.
  intros Hb Hx H.
  assert (Hc : canonical prec emax m e).
  { unfold bounded in Hb. apply andb_true_iff in Hb. apply Hb. }
  destruct (R_upper _ _ _ _ _ H m e Hb ltac:(rewrite Hx; apply Qle_refl)) as [Hfin Hup].
  pose proof (R_lower _ _ _ _ _ H m e Hc ltac:(rewrite Hx; apply Qle_refl) Hfin) as Hlo.
  pose proof (R_sign _ _ _ _ _ H) as Hs.
  pose proof (R_valid _ _ _ _ _ H) as Hv.
  pose proof (Fval_pos m e) as Hpos.
  destruct f as [s'|s'| |s' m' e']; try discriminate; simpl in *.
  - lra.
  - subst s'.
    assert (Hc' : canonical prec emax m' e').
    { unfold bounded in Hv. apply andb_true_iff in Hv. apply Hv. }
    destruct (canonical_unique m' m e' e Hc' Hc ltac:(lra)) as [-> ->]. reflexivity.
Qed.
End ExactRounding.

(** A float32 divided by one is itself. *)
Lemma F32_div_one (v : float32) :
  valid_binary F32.prec F32.emax v = true -> F32.div v (F32.of_int 1) = v.
Proof.
  intros Hv. destruct v as [s|s| |s m e]; try (destruct s; reflexivity);
    [reflexivity|].
  change (F32.of_int 1) with (S754_finite false 8388608 (-23)).
  pose proof (div_Rounded F32.prec F32.emax prec32 emax32 s false m 8388608 e (-23))
    as H.
  rewrite xorb_false_r in H. unfold F32.div.
  apply (Rounded_exact F32.prec F32.emax prec32 emax32 s m e _ _ Hv) with (2 := H).
  assert (H1 : (Fval 8388608 (-23) == 1)%Q) by reflexivity.
  rewrite H1. field.
Qed.

(** The sample as the downmix of a single channel has it: a zero loses its
    sign. *)
Definition unsigned_zero (v : float32) : float32 :=
  match v with S754_zero _ => S754_zero false | _ => v end.

(** X12: the downmix of a single channel of float32 values is the channel
    itself, except that a negative zero becomes a positive one. *)
Theorem downmix_single_channel (ch : list float32) :
  Forall (fun v => valid_binary F32.prec F32.emax v = true) ch ->
  downmix [ch] = Ret (unsigned_zero <$> ch).
Proof.
  intros Hv.
  rewrite (downmix_tabulate [ch] (len ch)) by (try discriminate; repeat constructor).
  f_equal. apply list_eq. intros k.
  destruct (decide (k < length ch)%nat) as [Hk|Hk].
  - replace k with (Z.to_nat (Z.of_nat k)) at 1 by lia.
    rewrite tabulate_lookup by (unfold len; lia).
    rewrite list_lookup_fmap.
    destruct (lookup_lt_is_Some_2 ch k Hk) as [v Hl]. rewrite Hl. simpl. f_equal.
    unfold channel_sum, sample. simpl fold_left.
    rewrite Nat2Z.id, Hl. simpl default.
    pose proof (proj1 (Forall_forall _ _) Hv v (list_elem_of_lookup_2 _ _ _ Hl)) as Hvv.
    change (len [ch]) with 1.
    destruct v as [s|s| |s m e]; try (destruct s; reflexivity); [reflexivity|].
    change (F32.add F32.zero (S754_finite s m e)) with (S754_finite s m e).
    exact (F32_div_one _ Hvv).
  - rewrite (lookup_ge_None_2 (unsigned_zero <$> ch)) by (rewrite length_fmap; lia).
    apply lookup_ge_None_2.
    pose proof (tabulate_length (len ch)
      (fun i => F32.div (channel_sum [ch] i) (F32.of_int (len [ch])))
      (len_nonneg ch)) as Hlen.
    unfold len in *. lia.
Qed.

Lemma downmix_single_channel_witness :
  downmix [zeros4] = Ret (unsigned_zero <$> zeros4).
Proof.
  apply (downmix_single_channel zeros4). repeat constructor.
Defined.

(** ** readAudio: the decoded samples *)

Lemma land_ones_range (a n : Z) : 0 <= n -> 0 <= Z.land a (2 ^ n - 1) < 2 ^ n.
Proof.
  intros Hn. replace (2 ^ n - 1) with (Z.ones n) by (rewrite Z.ones_equiv; lia).
  rewrite Z.land_ones by assumption. apply Z.mod_pos_bound. lia.
Qed.

(** Every bit pattern is a float32. *)
Lemma Float32frombits_valid (bits : Z) :
  valid_binary F32.prec F32.emax (Float32frombits bits) = true.
Proof.
  unfold Float32frombits. cbv zeta.
  pose proof (land_ones_range (Z.shiftr bits 23) 8 ltac:(lia)) as He.
  pose proof (land_ones_range bits 23 ltac:(lia)) as Hm.
  change (2 ^ 8 - 1) with 255 in He.
  set (e := Z.land (Z.shiftr bits 23) 255) in *.
  set (m := Z.land bits (2 ^ 23 - 1)) in *.
  destruct (Z.eqb_spec e 0) as [He0|He0].
  - destruct m as [|p|p] eqn:Em; try reflexivity.
    simpl valid_binary. unfold bounded. apply andb_true_iff. split; [|reflexivity].
    apply (canonical_intro F32.prec F32.emax prec32).
    + unfold emin, F32.prec, F32.emax. lia.
    + unfold emin, F32.prec, F32.emax. lia.
    + left. reflexivity.
  - destruct (Z.eqb_spec e 255) as [He1|He1].
    + destruct (m =? 0); reflexivity.
    + destruct (m + 2 ^ 23) as [|p|p] eqn:Em; try reflexivity.
      simpl valid_binary. unfold bounded. apply andb_true_iff. split.
      * apply (canonical_intro F32.prec F32.emax prec32).
        -- unfold emin, F32.prec, F32.emax. lia.
        -- unfold emin, F32.prec, F32.emax. lia.
        -- right. unfold emin, F32.prec, F32.emax. lia.
      * apply Z.leb_le. unfold emin, F32.prec, F32.emax. lia.
Qed.

(** X13: [readAudio] de-interleaves the buffer: sample [i] of channel [c] is
    the float32 whose bit pattern is the little-endian number held by the
    four bytes at offset [4*(i*channels + c)], whatever the bytes are. *)
Theorem decodeAudio_samples (raw : list Byte.byte) (channels : Z) :
  0 < channels -> len raw <= max_int ->
  exists wav,
    decodeAudio raw channels = Ret wav /\
    forall c i, 0 <= c < channels -> 0 <= i < len raw / 4 / channels ->
      exists ch b0 b1 b2 b3,
        wav !! Z.to_nat c = Some ch /\
        raw !! Z.to_nat (4 * (i * channels + c)) = Some b0 /\
        raw !! Z.to_nat (4 * (i * channels + c) + 1) = Some b1 /\
        raw !! Z.to_nat (4 * (i * channels + c) + 2) = Some b2 /\
        raw !! Z.to_nat (4 * (i * channels + c) + 3) = Some b3 /\
        ch !! Z.to_nat i =
          Some (Float32frombits (byte_val b0 + 2 ^ 8 * byte_val b1 +
                                 2 ^ 16 * byte_val b2 + 2 ^ 24 * byte_val b3)) /\
        valid_binary F32.prec F32.emax
          (Float32frombits (byte_val b0 + 2 ^ 8 * byte_val b1 +
                            2 ^ 16 * byte_val b2 + 2 ^ 24 * byte_val b3)) = true.
Proof.
  intros Hch Hmax. exists (decoded raw channels).
  split; [apply decodeAudio_decoded; assumption|].
  intros c i Hc Hi.
  destruct (decode_bounds raw channels i c Hch Hi Hc) as [Hlo Hhi].
  destruct (four_bytes raw (Z.to_nat (4 * (i * channels + c))))
    as (b0 & b1 & b2 & b3 & H0 & H1 & H2 & H3 & Htake).
  { unfold len in Hhi. lia. }
  eexists _, b0, b1, b2, b3.
  split; [unfold decoded; apply tabulate_lookup; lia|].
  split; [exact H0|].
  split; [rewrite <- H1; f_equal; lia|].
  split; [rewrite <- H2; f_equal; lia|].
  split; [rewrite <- H3; f_equal; lia|].
  split; [|apply Float32frombits_valid].
  rewrite tabulate_lookup by lia. f_equal.
  unfold sample_at. rewrite Htake, Uint32_little_endian. reflexivity.
Qed.

Definition eight_bytes : list Byte.byte :=
  [Byte.x00; Byte.x00; Byte.x80; Byte.x3f; Byte.x00; Byte.x00; Byte.x00; Byte.xc0].

Lemma decodeAudio_samples_witness :
  exists wav,
    decodeAudio eight_bytes 2 = Ret wav /\
    forall c i, 0 <= c < 2 -> 0 <= i < len eight_bytes / 4 / 2 ->
      exists ch b0 b1 b2 b3,
        wav !! Z.to_nat c = Some ch /\
        eight_bytes !! Z.to_nat (4 * (i * 2 + c)) = Some b0 /\
        eight_bytes !! Z.to_nat (4 * (i * 2 + c) + 1) = Some b1 /\
        eight_bytes !! Z.to_nat (4 * (i * 2 + c) + 2) = Some b2 /\
        eight_bytes !! Z.to_nat (4 * (i * 2 + c) + 3) = Some b3 /\
        ch !! Z.to_nat i =
          Some (Float32frombits (byte_val b0 + 2 ^ 8 * byte_val b1 +
                                 2 ^ 16 * byte_val b2 + 2 ^ 24 * byte_val b3)) /\
        valid_binary F32.prec F32.emax
          (Float32frombits (byte_val b0 + 2 ^ 8 * byte_val b1 +
                            2 ^ 16 * byte_val b2 + 2 ^ 24 * byte_val b3)) = true.
Proof.
  apply (decodeAudio_samples eight_bytes 2); [lia|]. vm_compute. congruence.
Defined.

(** X14: without a positive number of channels [readAudio] panics: on the
    integer division by zero for [channels = 0], in [make] for a negative
    number. *)
Theorem decodeAudio_no_channel_panics (raw : list Byte.byte) (channels : Z) :
  channels <= 0 -> decodeAudio raw channels = Panic.
Proof.
  intros Hch. unfold decodeAudio, idiv. simpl (4 =? 0). cbv iota.
  rewrite bind_Ret.
  destruct (Z.eqb_spec channels 0) as [->|Hne]; [reflexivity|].
  rewrite bind_Ret.
  assert (Hm : make (A := list float32) [] channels = Panic).
  { unfold make. destruct (Z.ltb_spec channels 0); [reflexivity | lia]. }
  now rewrite Hm.
Qed.

Lemma decodeAudio_no_channel_panics_witness :
  decodeAudio eight_bytes 0 = Panic.
Proof. apply (decodeAudio_no_channel_panics eight_bytes 0). lia. Defined.

(** ** visualize: the whole run *)

Section WholeRun.
Context {M : MathLib}.

(** The number of frames is the floor of a positive number below [2^63]. *)
Lemma frames_of_nonneg (rate n : Z) (sr : float64) (s : Q) :
  0 < rate <= max_int -> 0 <= n <= 2 ^ 48 -> rate * n <= 2 ^ 62 ->
  pfin sr s -> (1 <= s <= inject_Z (2 ^ 63))%Q ->
  0 <= frames_of rate n sr.
Proof.
  intros Hr Hn Hrn Hsr Hs.
  destruct (Z.eq_dec n 0) as [->|Hn0].
  { rewrite (frames_of_empty rate sr s Hr Hsr). lia. }
  assert (Ms : mid 63 s).
  { split.
    - apply Qle_trans with 1%Q; [|apply Hs].
      apply Qlt_le_weak. change 1%Q with (bpow 0). apply bpow_lt. lia.
    - rewrite bpow_Z by lia. apply Hs. }
  assert (Hnmax : 0 < n <= max_int) by (unfold max_int; lia).
  destruct (of_int_err n Hnmax) as (vn & Hvn & Mvn & Evn).
  destruct (div_err 64 63 _ _ _ _ Hvn Hsr Mvn Ms ltac:(lia)) as (D & HD & MD & ED).
  destruct (of_int_err rate Hr) as (vr & Hvr & Mvr & Evr).
  destruct (mul_err 64 (64 + 63 + 1) _ _ _ _ Hvr HD Mvr MD ltac:(lia))
    as (F & HF & MF & EF).
  pose proof (mid_pos _ _ Mvn) as Pvn. pose proof (mid_pos _ _ MD) as PD.
  pose proof (mid_pos _ _ Mvr) as Pvr. pose proof (mid_pos _ _ MF) as PF.
  pose proof (inject_Z_pos n ltac:(lia)) as PN.
  pose proof (inject_Z_pos rate ltac:(lia)) as PR.
  unfold eps in *.
  assert (HF63 : (F < inject_Z (2 ^ 63))%Q).
  { assert (HD1 : (D <= D * s)%Q) by (apply Qle_mul_ge_1; lra).
    assert (HX : (vr * D <=
                  (inject_Z rate * (1 + (1 # 9007199254740992))) *
                  (inject_Z n * ((1 + (1 # 9007199254740992)) *
                                 (1 + (1 # 9007199254740992)))))%Q).
    { apply Qmult_le_compat_nonneg; split; lra. }
    assert (HRN : (inject_Z rate * inject_Z n <= inject_Z (2 ^ 62))%Q).
    { rewrite <- inject_Z_mult, <- Zle_Qle. exact Hrn. }
    change (inject_Z (2 ^ 62)) with (4611686018427387904 # 1)%Q in HRN.
    change (inject_Z (2 ^ 63)) with (9223372036854775808 # 1)%Q.
    set (RN := (inject_Z rate * inject_Z n)%Q) in *.
    assert (HX' : (vr * D <= RN * ((1 + (1 # 9007199254740992)) *
                                   (1 + (1 # 9007199254740992)) *
                                   (1 + (1 # 9007199254740992))))%Q).
    { eapply Qle_trans; [exact HX|]. apply Qle_lteq. right. unfold RN. ring. }
    assert (PRN : (0 < RN)%Q) by (unfold RN; apply Qmult_lt_0_compat; lra).
    set (X := (vr * D)%Q) in *. lra. }
  destruct (int_floor _ _ HF HF63) as [Hfl Hge].
  unfold frames_of. cbv zeta. rewrite Hfl. exact Hge.
Qed.

(** X15: a run on channels of one length, with a window and a stride as
    [envelope] needs them and the sizes of a real run, does not panic: it
    yields exactly [frames] images, each of the requested width and
    height. *)
Theorem visualize_returns (wav : list (list float32)) (sr : float64)
    (cfg : Config) (n : Z) :
  wav <> [] -> Forall (fun ch => len ch = n) wav ->
  let window := window_of sr (time cfg) (bars cfg) in
  let stride := stride_of window (oversample cfg) in
  0 < rate cfg <= max_int -> 0 < bars cfg <= 2 ^ 60 ->
  0 < stride <= window -> n + window <= max_int ->
  n <= 2 ^ 48 -> rate cfg * n <= 2 ^ 62 ->
  valid64 sr -> F64.leb c1 sr = true -> F64.leb sr two63 = true ->
  0 <= width cfg -> 0 <= height cfg ->
  exists imgs,
    visualize wav sr cfg = Ret imgs /\
    len imgs = frames_of (rate cfg) n sr /\
    Forall (fun img => Bounds img = mkRect 0 0 (width cfg) (height cfg)) imgs.
Proof.
  intros Hne Hall window stride Hr Hb Hst Hmax Hn Hrn Hv Hs1 Hs2 Hw Hh.
  unfold visualize. rewrite (downmix_tabulate wav n Hne Hall), bind_Ret.
  set (mono := normalize _).
  assert (Hn0 : 0 <= n).
  { destruct wav as [|ch0 rest]; [contradiction|].
    inversion Hall as [|? ? Hc _]; subst. apply len_nonneg. }
  assert (Lm : len mono = n).
  { unfold mono. rewrite len_normalize. apply tabulate_length. exact Hn0. }
  fold window. fold stride.
  destruct (padded_envelope_fits mono window stride (bars cfg) (rate cfg) sr
              Hr Hb Hst ltac:(rewrite Lm; exact Hmax) ltac:(rewrite Lm; exact Hn)
              ltac:(rewrite Lm; exact Hrn) Hv Hs1 Hs2)
    as (env0 & env & He & Hp & Hlen & Hfit).
  rewrite He, bind_Ret, Hp, bind_Ret. rewrite Lm in *.
  destruct (sample_rate_pfin sr Hv Hs1 Hs2) as (s & Hsr & Hs).
  pose proof (frames_of_nonneg (rate cfg) n sr s Hr ltac:(lia) Hrn Hsr Hs) as Hf0.
  destruct (Z.ltb_spec (frames_of (rate cfg) n sr) 0) as [|_]; [lia|].
  pose (P := fun (i : Z) (acc : outcome (list Image)) =>
               exists imgs, acc = Ret imgs /\ len imgs = i /\
                 Forall (fun img => Bounds img =
                                    mkRect 0 0 (width cfg) (height cfg)) imgs).
  apply (for_range_ind P); [exact Hf0 | |].
  - exists []. repeat split. constructor.
  - intros idx acc Hidx (imgs & -> & Li & Hbs). rewrite bind_Ret.
    destruct (Hfit idx Hidx) as (Hoff & Hhi & _).
    destruct (frame_bars_returns env sr (rate cfg) (bars cfg) stride (speed cfg) idx
                ltac:(lia) Hlen Hoff Hhi) as (_ & _ & denv & _ & _ & Hd & _).
    unfold frame. rewrite Hd, !bind_Ret.
    eexists. split; [reflexivity|]. split.
    + rewrite len_app, Li. reflexivity.
    + apply Forall_app_2; [exact Hbs|]. constructor; [|constructor].
      apply (drawEnv_frame denv (fgColor cfg) (bgColor cfg) (width cfg) (height cfg)
               Hw Hh).
Qed.
End WholeRun.

Definition cfg_run : Config :=
  mkConfig 2 2 (F64.of_ratio 35 10) (F64.of_int 4) (F64.of_int 2) teal black 8 6.

Lemma visualize_returns_witness :
  exists imgs,
    visualize (M := ref_math) [wav4; zeros4] (F64.of_int 2) cfg_run = Ret imgs /\
    len imgs = frames_of (M := ref_math) (rate cfg_run) 4 (F64.of_int 2) /\
    Forall (fun img => Bounds img = mkRect 0 0 (width cfg_run) (height cfg_run)) imgs.
Proof.
  apply (visualize_returns (M := ref_math) [wav4; zeros4] (F64.of_int 2) cfg_run 4);
    try (vm_compute; intuition congruence).
  repeat constructor.
Defined.

(** ** The stride of the envelope *)

Section Stride.
Context {M : MathLib}.

(** X16: for a window below [2^53] samples and an oversampling factor
    between 1 and the window, the stride [int(float64(window)/oversample)]
    is at least 1 and at most the window: what [envelope] needs to end. *)
Theorem stride_of_range (window : Z) (oversample : float64) :
  0 < window < 2 ^ 53 -> valid64 oversample ->
  F64.leb c1 oversample = true ->
  F64.leb oversample (F64.of_int window) = true ->
  0 < stride_of window oversample <= window.
Proof.
  intros Hw Hv H1 H2.
  destruct (of_int_err window ltac:(unfold max_int; lia)) as (vw & Hvw & _ & Evw).
  assert (Ho : exists vo, pfin oversample vo).
  { destruct oversample as [[]|[]| |[] m e]; try discriminate.
    - destruct Hvw as (mw & ew & Ew & _). rewrite Ew in H2. discriminate.
    - exists (Fval (Zpos m) e), m, e. split; [reflexivity|]. split; [exact Hv | reflexivity]. }
  destruct Ho as (vo & Hvo).
  pose proof (leb_pfin _ _ _ _ pfin_c1 Hvo H1) as Hge1.
  pose proof (leb_pfin _ _ _ _ Hvo Hvw H2) as Hle.
  pose proof (pfin_pos _ _ Hvw) as Pw.
  destruct (R64_pfin _ _ c1 (F64.of_int window) 1 vw (div_pfin _ _ _ _ Hvw Hvo)
              pfin_c1 Hvw) as (vq & Hq & Hq1 & Hq2).
  { split.
    - apply Qle_shift_div_l; lra.
    - apply Qle_shift_div_r; [lra|]. apply Qle_mul_ge_1; lra. }
  assert (HW : (inject_Z window < inject_Z (2 ^ 53))%Q) by (rewrite <- Zlt_Qlt; lia).
  change (inject_Z (2 ^ 53)) with (9007199254740992 # 1)%Q in HW.
  unfold eps in Evw.
  assert (Hlt : (vq < inject_Z (window + 1))%Q).
  { rewrite inject_Z_plus. change (inject_Z 1) with 1%Q. lra. }
  assert (H63 : (vq < inject_Z (2 ^ 63))%Q).
  { change (inject_Z (2 ^ 63)) with (9223372036854775808 # 1)%Q.
    rewrite inject_Z_plus in Hlt. change (inject_Z 1) with 1%Q in Hlt. lra. }
  unfold stride_of. destruct (int_floor _ _ Hq H63) as [-> _].
  split.
  - apply Z.lt_le_trans with (Qfloor 1); [reflexivity|]. now apply Qfloor_resp_le.
  - pose proof (Qfloor_le vq) as Hfl.
    assert (Hz : (inject_Z (Qfloor vq) < inject_Z (window + 1))%Q) by lra.
    rewrite <- Zlt_Qlt in Hz. lia.
Qed.
End Stride.

Lemma stride_of_range_witness :
  0 < stride_of (M := ref_math) 352 (F64.of_int 5) <= 352.
Proof.
  apply (stride_of_range (M := ref_math) 352 (F64.of_int 5)); try lia; reflexivity.
Defined.

(** Two positive binary64 numbers that differ are at least one unit in the
    last place apart. *)
Lemma float_gap (m1 m2 : positive) (e1 e2 : Z) :
  canonical F64.prec F64.emax m1 e1 -> canonical F64.prec F64.emax m2 e2 ->
  (Fval (Zpos m1) e1 < Fval (Zpos m2) e2)%Q ->
  (Fval (Zpos m1) e1 <= Fval (Zpos m2) e2 * (1 - bpow (-53)))%Q.
Proof.
  intros H1 H2 Hlt.
  destruct (canonical_facts _ _ prec64 emax64 m1 e1 H1) as (He1 & Hm1 & _).
  destruct (canonical_facts _ _ prec64 emax64 m2 e2 H2) as (He2 & Hm2 & Hn2).
  change (2 ^ F64.prec) with 9007199254740992 in Hm1, Hm2.
  change (2 ^ (F64.prec - 1)) with 4503599627370496 in Hn2.
  assert (Hb : (bpow (-53) == 1 # 9007199254740992)%Q) by reflexivity.
  rewrite Hb. clear Hb. unfold Fval in *.
  destruct (Z.compare_spec e1 e2) as [Heq|Hl|Hg].
  - subst e2. pose proof (bpow_pos e1) as Hp.
    assert (Hm : Zpos m1 < Zpos m2).
    { destruct (Z.lt_ge_cases (Zpos m1) (Zpos m2)) as [|Hge]; [assumption|].
      rewrite Zle_Qle in Hge. nra. }
    assert (Hm' : Zpos m1 + 1 <= Zpos m2) by lia.
    rewrite Zle_Qle, inject_Z_plus in Hm'. change (inject_Z 1) with 1%Q in Hm'.
    rewrite Zlt_Qlt in Hm2.
    change (inject_Z 9007199254740992) with (9007199254740992 # 1)%Q in Hm2.
    nra.
  - assert (Hn : 4503599627370496 <= Zpos m2) by (destruct Hn2; [lia | assumption]).
    assert (Hle : (2 * bpow e1 <= bpow e2)%Q).
    { rewrite <- bpow_succ. apply bpow_le. lia. }
    pose proof (bpow_pos e1) as Hp.
    assert (Hm1' : Zpos m1 <= 9007199254740991) by lia.
    rewrite Zle_Qle in Hm1', Hn.
    change (inject_Z 9007199254740991) with (9007199254740991 # 1)%Q in Hm1'.
    change (inject_Z 4503599627370496) with (4503599627370496 # 1)%Q in Hn.
    generalize dependent (inject_Z (Zpos m1)). generalize dependent (inject_Z (Zpos m2)).
    generalize dependent (bpow e1). generalize dependent (bpow e2).
    intros b2 b1 Hle Hp q2 Hn q1 Hlt Hq1.
    apply Qle_trans with ((9007199254740991 # 1) * b1)%Q; [nra|].
    apply Qle_trans with ((4503599627370496 # 1) * b2 * (1 - (1 # 9007199254740992)))%Q; [lra|].
    assert (0 <= b2)%Q by lra. nra.
  - pose proof (canonical_lt _ _ prec64 emax64 m2 m1 e2 e1 H2 H1 ltac:(lia)) as Hc.
    unfold Fval in Hc. lra.
Qed.

Section StrideZero.
Context {M : MathLib}.

(** X17: when the oversampling factor is larger than the window (as
    float64 numbers), the stride is 0. *)
Theorem stride_of_zero (window : Z) (oversample : float64) :
  0 <= window <= max_int -> valid64 oversample ->
  F64.ltb (F64.of_int window) oversample = true ->
  stride_of window oversample = 0.
Proof.
  intros Hw Hv Hlt. unfold stride_of.
  destruct (Z.eq_dec window 0) as [->|Hne].
  { destruct oversample as [[]|[]| |[] m e]; try discriminate; reflexivity. }
  destruct (of_int_pfin window ltac:(lia)) as (vw & Hvw & _ & Hhi).
  destruct Hvw as (mw & ew & Ew & Hbw & Hvw).
  rewrite Ew in *.
  destruct oversample as [[]|[]| |[] m e]; try discriminate; try reflexivity.
  pose proof (div_Rounded F64.prec F64.emax prec64 emax64 false false mw m ew e) as HR.
  simpl xorb in HR. fold (F64.div (S754_finite false mw ew) (S754_finite false m e)) in HR.
  destruct (SFcompare_pos F64.prec F64.emax prec64 emax64 mw m ew e
              (bounded_canonical _ _ Hbw) (bounded_canonical _ _ Hv)) as (c & Hc & Hs).
  unfold F64.ltb, SFltb in Hlt. rewrite Hc in Hlt.
  destruct c; try discriminate. simpl in Hs.
  pose proof (float_gap _ _ _ _ (bounded_canonical _ _ Hbw) (bounded_canonical _ _ Hv) Hs)
    as Hgap.
  pose proof (Fval_pos m e) as Hpo. pose proof (Fval_pos mw ew) as Hpw.
  destruct (R_upper _ _ _ _ _ HR 9007199254740991 (-53) eq_refl) as [Hfin Hle].
  { apply Qle_shift_div_r; [exact Hpo|].
    assert (Hb : (Fval 9007199254740991 (-53) == 1 - bpow (-53))%Q) by reflexivity.
    rewrite Hb. lra. }
  assert (Hb : (Fval 9007199254740991 (-53) == 9007199254740991 # 9007199254740992)%Q)
    by reflexivity.
  rewrite Hb in Hle. clear Hb.
  pose proof (R_sign _ _ _ _ _ HR) as Hsg. pose proof (R_valid _ _ _ _ _ HR) as Hvq.
  destruct (F64.div _ _) as [s|s| |s mq eq]; simpl in Hfin, Hsg, Hle; try discriminate.
  - subst s. reflexivity.
  - subst s.
    assert (Hq : pfin (S754_finite false mq eq) (Fval (Zpos mq) eq)).
    { exists mq, eq. split; [reflexivity|]. split; [exact Hvq | reflexivity]. }
    pose proof (pfin_pos _ _ Hq) as Hq0.
    destruct (int_floor _ _ Hq) as [-> Hfl].
    { change (inject_Z (2 ^ 63)) with (9223372036854775808 # 1)%Q. lra. }
    pose proof (Qfloor_le (Fval (Zpos mq) eq)) as Hfle.
    assert (Hz : (inject_Z (Qfloor (Fval (Zpos mq) eq)) < inject_Z 1)%Q).
    { change (inject_Z 1) with 1%Q. lra. }
    rewrite <- Zlt_Qlt in Hz. lia.
Qed.
End StrideZero.

Lemma stride_of_zero_witness : stride_of (M := ref_math) 3 (F64.of_int 5) = 0.
Proof.
  apply (stride_of_zero (M := ref_math) 3 (F64.of_int 5));
    [unfold max_int; lia | reflexivity | reflexivity].
Defined.

(** * Properties of the command line *)

(** ** Whole numbers as float64 *)

(** A positive integer below [2^53] is a binary64 number. *)
Lemma int_bounded (n : Z) :
  0 < n < 2 ^ 53 ->
  exists m e, bounded F64.prec F64.emax m e = true /\
              (Fval (Zpos m) e == inject_Z n)%Q.
Proof.
  intros Hn.
  destruct (Zdigits2_bounds n ltac:(lia)) as [Hlo Hhi].
  pose proof (Zdigits2_pos n ltac:(lia)) as Hd.
  assert (Hd53 : Zdigits2 n <= 53).
  { destruct (Z.le_gt_cases (Zdigits2 n) 53) as [|Hgt]; [assumption|].
    assert (2 ^ 53 <= 2 ^ (Zdigits2 n - 1)) by (apply Z.pow_le_mono_r; lia). lia. }
  set (k := 53 - Zdigits2 n).
  assert (Hk : 0 <= k <= 52) by (unfold k; lia).
  assert (Hp : 0 < 2 ^ k) by (apply Z.pow_pos_nonneg; lia).
  assert (Hm : 0 < n * 2 ^ k) by nia.
  assert (Hlo' : 2 ^ 52 <= n * 2 ^ k).
  { assert (E : 2 ^ 52 = 2 ^ (Zdigits2 n - 1) * 2 ^ k).
    { rewrite <- Z.pow_add_r by lia. f_equal. unfold k. lia. }
    rewrite E. nia. }
  assert (Hhi' : n * 2 ^ k < 2 ^ 53).
  { assert (E : 2 ^ 53 = 2 ^ Zdigits2 n * 2 ^ k).
    { rewrite <- Z.pow_add_r by lia. f_equal. unfold k. lia. }
    rewrite E. nia. }
  exists (Z.to_pos (n * 2 ^ k)), (- k).
  assert (Hid : Zpos (Z.to_pos (n * 2 ^ k)) = n * 2 ^ k) by (apply Z2Pos.id; lia).
  split.
  - unfold bounded. apply andb_true_iff. split.
    + apply (canonical_intro F64.prec F64.emax prec64).
      * unfold emin, F64.prec, F64.emax. lia.
      * rewrite Hid. exact Hhi'.
      * right. rewrite Hid. exact Hlo'.
    + apply Z.leb_le. unfold F64.prec, F64.emax. lia.
  - unfold Fval. rewrite Hid, inject_Z_mult, <- (bpow_Z k) by lia.
    rewrite <- Qmult_assoc, <- bpow_add.
    replace (k + - k) with 0 by lia. rewrite bpow_0. ring.
Qed.

(** [float64(n)] is exact for such an integer. *)
Lemma of_int_exact (n : Z) :
  0 < n < 2 ^ 53 -> pfin (F64.of_int n) (inject_Z n).
Proof.
  intros Hn. destruct (int_bounded n Hn) as (m & e & Hb & Hv).
  assert (H : R64 false (inject_Z n) (F64.of_int n)).
  { unfold F64.of_int. apply normalize_pos.
    - unfold Fval. rewrite bpow_0. ring.
    - change 0%Q with (inject_Z 0). rewrite <- Zlt_Qlt. lia. }
  rewrite (Rounded_exact F64.prec F64.emax prec64 emax64 false m e _ _ Hb
             ltac:(symmetry; exact Hv) H).
  exists m, e. split; [reflexivity|]. split; [exact Hb | exact Hv].
Qed.

(** ** formatDuration *)

Lemma bpow_23 : (bpow 23 == 8388608 # 1)%Q.
Proof. reflexivity. Qed.

Lemma bpow_m23 : (bpow (-23) == 1 # 8388608)%Q.
Proof. reflexivity. Qed.

Section WholeSeconds.
Context {M : MathLib}.

(** The fraction of a second of a duration, as [Seconds] computes it, is
    a number strictly between 0 and 1. *)
Lemma fraction_range (r : Z) :
  0 < r < Second ->
  exists v, pfin (F64.div (F64.of_int r) c1e9) v /\
            ((1 # 2000000000) <= v <= 1 - (1 # 1100000000))%Q.
Proof.
  intros Hr. unfold Second in Hr.
  pose proof (of_int_exact r ltac:(lia)) as Hfr.
  pose proof (of_int_exact 1000000000 ltac:(lia)) as Hc. fold c1e9 in Hc.
  destruct (div_err 63 63 _ _ _ _ Hfr Hc (mid_Z r ltac:(unfold max_int; lia))
              (mid_Z 1000000000 ltac:(unfold max_int; lia)) ltac:(lia))
    as (v & Hv & _ & He).
  exists v. split; [exact Hv|].
  assert (H1 : (1 <= inject_Z r)%Q).
  { change 1%Q with (inject_Z 1). rewrite <- Zle_Qle. lia. }
  assert (H2 : (inject_Z r <= 999999999 # 1)%Q).
  { change (999999999 # 1)%Q with (inject_Z 999999999). rewrite <- Zle_Qle. lia. }
  change (inject_Z 1000000000) with (1000000000 # 1)%Q in He.
  unfold eps in He. split; lra.
Qed.

(** Up to 48 days, the whole seconds of a duration are exact. *)
Lemma int_Seconds (d : Z) :
  0 <= d < 2 ^ 22 * Second -> int (Seconds d) = d / Second.
Proof.
  intros Hd. unfold Seconds.
  rewrite Z.quot_div_nonneg, Z.rem_mod_nonneg by (unfold Second; lia).
  pose proof (Z.div_mod d Second ltac:(unfold Second; lia)) as Hdm.
  pose proof (Z.mod_pos_bound d Second ltac:(unfold Second; lia)) as Hr.
  assert (Hq : 0 <= d / Second < 2 ^ 22).
  { split; [apply Z.div_pos; unfold Second; lia|].
    apply Z.div_lt_upper_bound; unfold Second in *; lia. }
  generalize dependent (d mod Second). generalize dependent (d / Second).
  intros q Hq r Hdm Hr. clear Hdm.
  destruct (Z.eq_dec r 0) as [->|Hr0].
  - change (F64.div (F64.of_int 0) c1e9) with (S754_zero false).
    destruct (Z.eq_dec q 0) as [->|Hq0]; [reflexivity|].
    pose proof (of_int_exact q ltac:(lia)) as Hfq.
    assert (Ha : F64.add (F64.of_int q) (S754_zero false) = F64.of_int q).
    { destruct Hfq as (m & e & -> & _). reflexivity. }
    rewrite Ha. destruct (int_floor _ _ Hfq) as [-> _].
    + rewrite <- Zlt_Qlt. lia.
    + apply Qfloor_Z.
  - destruct (fraction_range r ltac:(lia)) as (vf & Hvf & Hlo & Hhi).
    destruct (Z.eq_dec q 0) as [->|Hq0].
    + assert (Ha : F64.add (F64.of_int 0) (F64.div (F64.of_int r) c1e9)
                   = F64.div (F64.of_int r) c1e9).
      { destruct Hvf as (m & e & -> & _). reflexivity. }
      rewrite Ha. destruct (int_floor _ _ Hvf) as [-> Hfl].
      * change (inject_Z (2 ^ 63)) with (9223372036854775808 # 1)%Q. lra.
      * pose proof (Qfloor_le vf) as Hle.
        assert (Hz : (inject_Z (Qfloor vf) < inject_Z 1)%Q).
        { change (inject_Z 1) with 1%Q. lra. }
        rewrite <- Zlt_Qlt in Hz. lia.
    + pose proof (of_int_exact q ltac:(lia)) as Hfq.
      assert (H1 : (1 <= inject_Z q)%Q).
      { change 1%Q with (inject_Z 1). rewrite <- Zle_Qle. lia. }
      assert (H2 : (inject_Z q <= 4194303 # 1)%Q).
      { change (4194303 # 1)%Q with (inject_Z 4194303). rewrite <- Zle_Qle. lia. }
      destruct (R64_err 23 _ _ (add_pfin _ _ _ _ Hfq Hvf)) as (v & Hv & He).
      { split; [rewrite bpow_m23 | rewrite bpow_23]; lra. }
      { lia. }
      unfold eps in He.
      destruct (int_floor _ _ Hv) as [-> Hfl].
      { change (inject_Z (2 ^ 63)) with (9223372036854775808 # 1)%Q. lra. }
      pose proof (Qfloor_le v) as Hle.
      assert (Hge : Qfloor (inject_Z q) <= Qfloor v) by (apply Qfloor_resp_le; lra).
      rewrite Qfloor_Z in Hge.
      assert (Hz : (inject_Z (Qfloor v) < inject_Z (q + 1))%Q).
      { rewrite inject_Z_plus. change (inject_Z 1) with 1%Q. lra. }
      rewrite <- Zlt_Qlt in Hz. lia.
Qed.
End WholeSeconds.

Lemma append_assoc (a b c : gostring) : (a +++ b) +++ c = a +++ b +++ c.
Proof. induction a as [|x a IH]; simpl; [reflexivity | now rewrite IH]. Qed.

Section Readable.
Context {M : MathLib}.

(** X18: for a duration [d] of up to 48 days (in nanoseconds), with [s] its
    whole seconds, [formatDuration] shows the seconds alone below a minute,
    minutes and seconds below an hour, and hours, minutes and seconds from
    then on; minutes and seconds are the remainders below 60. *)
Theorem formatDuration_reads (d : Z) :
  0 <= d < 2 ^ 22 * Second ->
  let s := d / Second in
  formatDuration d =
    if s <? 60 then Itoa s +++ " seconds"%string
    else if s <? 3600
    then Itoa (s / 60) +++ " minutes "%string +++ Itoa (s mod 60) +++ " seconds"%string
    else Itoa (s / 3600) +++ " hours "%string +++ Itoa (s / 60 mod 60) +++
         " minutes "%string +++ Itoa (s mod 60) +++ " seconds"%string.
Proof.
  intros Hd s. unfold formatDuration. rewrite (int_Seconds d Hd). fold s.
  assert (Hs : 0 <= s) by (apply Z.div_pos; unfold Second; lia).
  rewrite !Z.rem_mod_nonneg by lia.
  pose proof (Z.mod_pos_bound s 3600 ltac:(lia)) as Hb.
  rewrite !Z.quot_div_nonneg by lia. clear Hb.
  assert (Hm : s mod 3600 / 60 = s / 60 mod 60).
  { pose proof (Z.div_mod s 3600 ltac:(lia)) as E1.
    pose proof (Z.mod_pos_bound s 3600 ltac:(lia)) as B1.
    pose proof (Z.div_mod (s mod 3600) 60 ltac:(lia)) as E2.
    pose proof (Z.mod_pos_bound (s mod 3600) 60 ltac:(lia)) as B2.
    assert (B3 : 0 <= s mod 3600 / 60 < 60).
    { split; [apply Z.div_pos; lia | apply Z.div_lt_upper_bound; lia]. }
    assert (E3 : 60 * (s / 3600) + s mod 3600 / 60 = s / 60).
    { apply Z.div_unique_pos with (s mod 3600 mod 60); lia. }
    rewrite <- E3. apply Z.mod_unique_pos with (s / 3600); lia. }
  rewrite Hm.
  destruct (Z.ltb_spec s 60) as [H60|H60].
  - rewrite (Z.div_small s 3600), (Z.div_small s 60), (Z.mod_small s 60) by lia.
    reflexivity.
  - destruct (Z.ltb_spec s 3600) as [H36|H36].
    + rewrite (Z.div_small s 3600) by lia.
      assert (H1 : 1 <= s / 60) by (apply Z.div_le_lower_bound; lia).
      assert (H2 : s / 60 < 60) by (apply Z.div_lt_upper_bound; lia).
      rewrite (Z.mod_small (s / 60) 60) by lia.
      destruct (Z.ltb_spec 0 (s / 60)) as [_|]; [|lia]. simpl.
      now rewrite append_assoc.
    + assert (H1 : 1 <= s / 3600) by (apply Z.div_le_lower_bound; lia).
      destruct (Z.ltb_spec 0 (s / 3600)) as [_|]; [|lia].
      rewrite orb_true_r. simpl. now rewrite !append_assoc.
Qed.
End Readable.

Lemma formatDuration_reads_witness :
  formatDuration (M := ref_math) 3725999999999 = "1 hours 2 minutes 5 seconds"%string.
Proof.
  apply (formatDuration_reads (M := ref_math) 3725999999999). unfold Second. lia.
Defined.

(** ** parseColor: the hexadecimal form *)

(** Every byte of the string is a hexadecimal digit. *)
Definition all_hex (t : gostring) : bool :=
  forallb hex_class (String.list_ascii_of_string t).

(** What the pattern of [parseColor] accepts after the [#]. *)
Lemma hex_color_re_spec (t : gostring) :
  MatchString hex_color_re (String.String "#"%char t) =
  ((String.length t =? 3)%nat || (String.length t =? 6)%nat) && all_hex t.
Proof.
  unfold MatchString, hex_color_re, all_hex.
  destruct t as [|a1 [|a2 [|a3 [|a4 [|a5 [|a6 [|a7 t]]]]]]];
    cbn -[hex_class];
    repeat match goal with
           | |- context [hex_class ?c] => destruct (hex_class c); cbn -[hex_class]
           end; reflexivity.
Qed.

Lemma HasPrefix_hash (t : gostring) :
  HasPrefix (String.String "#"%char t) "#"%string = true.
Proof. destruct t; reflexivity. Qed.

Section HexColours.
Variable ParseFloat : gostring -> float64.
Variable indef8 : float64 -> Z.

(** X19: a colour that starts with [#] is accepted when exactly three or
    six hexadecimal digits follow, and is then an opaque colour; any other
    string that starts with [#] ends the program with the message of the
    hexadecimal form. *)
Theorem parseColor_hex_syntax (t : gostring) :
  if ((String.length t =? 3)%nat || (String.length t =? 6)%nat) && all_hex t
  then exists r g b,
         parseColor ParseFloat indef8 (String.String "#"%char t)
         = Done (mkRGBA r g b 255) /\
         0 <= r <= 255 /\ 0 <= g <= 255 /\ 0 <= b <= 255
  else parseColor ParseFloat indef8 (String.String "#"%char t)
       = Fatal "Color must be a valid hexadecimal color code"%string.
Proof.
  unfold parseColor. rewrite HasPrefix_hash, hex_color_re_spec.
  destruct (_ && _) eqn:E; [|reflexivity]. cbv [negb].
  apply andb_true_iff in E. destruct E as [E _].
  assert (Hm : forall x, 0 <= x mod 256 <= 255)
    by (intros x; pose proof (Z.mod_pos_bound x 256 ltac:(lia)); lia).
  destruct t as [|a1 [|a2 [|a3 [|a4 [|a5 [|a6 [|a7 t]]]]]]]; try discriminate E.
  - eexists _, _, _. split; [reflexivity|]. repeat split; apply Hm.
  - eexists _, _, _. split; [reflexivity|]. repeat split; apply Hm.
Qed.

(** X20: the short form [#abc] is the colour [#aabbcc], for any three bytes
    (both are refused when one of them is no hexadecimal digit). *)
Theorem parseColor_short_form (a b c : Ascii.ascii) :
  parseColor ParseFloat indef8 (string_of_bytes ["#"%char; a; b; c]) =
  parseColor ParseFloat indef8 (string_of_bytes ["#"%char; a; a; b; b; c; c]).
Proof.
  unfold parseColor, string_of_bytes. cbn [foldr].
  rewrite !HasPrefix_hash, !hex_color_re_spec. unfold all_hex. cbn -[hex_class].
  destruct (hex_class a), (hex_class b), (hex_class c); reflexivity.
Qed.
End HexColours.

(** The hexadecimal notation of a colour, in lower or upper case. *)
Definition hex_digit (upper : bool) (d : Z) : Ascii.ascii :=
  Ascii.ascii_of_N
    (Z.to_N (if d <? 10 then byte_of "0"%char + d
             else (if upper then byte_of "A"%char else byte_of "a"%char) + d - 10)).

Definition hex_pair (upper : bool) (v : Z) : gostring :=
  string_of_bytes [hex_digit upper (v / 16); hex_digit upper (v mod 16)].

Definition hex_code (upper : bool) (c : RGBA) : gostring :=
  String.String "#"%char
    (hex_pair upper (cR c) +++ hex_pair upper (cG c) +++ hex_pair upper (cB c)).

Definition pair_ok (upper : bool) (v : Z) : bool :=
  hex_class (hex_digit upper (v / 16)) && hex_class (hex_digit upper (v mod 16)) &&
  (ParseUint_16_8 (hex_pair upper v) =? v).

Lemma hex_pair_ok (upper : bool) (v : Z) :
  0 <= v <= 255 ->
  hex_class (hex_digit upper (v / 16)) = true /\
  hex_class (hex_digit upper (v mod 16)) = true /\
  ParseUint_16_8 (hex_pair upper v) = v.
Proof.
  intros Hv.
  assert (H : forallb (pair_ok upper) (seqZ 0 256) = true)
    by (destruct upper; vm_compute; reflexivity).
  rewrite forallb_forall in H.
  specialize (H v ltac:(apply list_elem_of_In, elem_of_seqZ; lia)).
  unfold pair_ok in H. apply andb_true_iff in H. destruct H as [H H3].
  apply andb_true_iff in H. destruct H as [H1 H2].
  apply Z.eqb_eq in H3. auto.
Qed.

Section RoundTrip.
Variable ParseFloat : gostring -> float64.
Variable indef8 : float64 -> Z.

(** X21: reading back the six-digit hexadecimal notation of an opaque
    colour, in lower or in upper case, gives the colour. *)
Theorem parseColor_hex_round_trip (upper : bool) (c : RGBA) :
  0 <= cR c <= 255 -> 0 <= cG c <= 255 -> 0 <= cB c <= 255 -> cA c = 255 ->
  parseColor ParseFloat indef8 (hex_code upper c) = Done c.
Proof.
  destruct c as [r g b a]. simpl. intros Hr Hg Hb ->.
  destruct (hex_pair_ok upper r Hr) as (R1 & R2 & R3).
  destruct (hex_pair_ok upper g Hg) as (G1 & G2 & G3).
  destruct (hex_pair_ok upper b Hb) as (B1 & B2 & B3).
  unfold parseColor, hex_code. rewrite HasPrefix_hash, hex_color_re_spec.
  unfold all_hex, hex_pair, string_of_bytes in *. cbn -[hex_class hex_digit ParseUint_16_8 Z.modulo Z.div].
  cbn -[hex_class hex_digit ParseUint_16_8 Z.modulo Z.div] in R3, G3, B3.
  rewrite R1, R2, G1, G2, B1, B2. cbn -[hex_class hex_digit ParseUint_16_8 Z.modulo Z.div].
  rewrite R3, G3, B3. rewrite !Z.mod_small by lia. reflexivity.
Qed.
End RoundTrip.

Lemma parseColor_hex_round_trip_witness :
  parseColor (fun _ => F64.zero) (fun _ => 0) "#007d9c"%string = Done teal.
Proof.
  apply (parseColor_hex_round_trip (fun _ => F64.zero) (fun _ => 0) false teal);
    simpl; lia.
Defined.

(** ** parseColor: the three fractions *)

(** The number of commas of a string. *)
Fixpoint commas (s : gostring) : nat :=
  match s with
  | String.EmptyString => O
  | String.String c t => if Ascii.eqb c ","%char then S (commas t) else commas t
  end.

Lemma Split_length (s : gostring) : length (Split s ","%char) = S (commas s).
Proof.
  induction s as [|c t IH]; [reflexivity|]. simpl.
  destruct (Ascii.eqb c ","%char); simpl; [now rewrite IH|].
  destruct (Split t ","%char); simpl in *; [discriminate | exact IH].
Qed.

(** A fraction: a float64 between 0 and 1. *)
Definition fraction (x : float64) : Prop :=
  valid64 x /\ F64.leb c0 x = true /\ F64.leb x c1 = true.

(** The component of the colour for the fraction [x]. *)
Definition level (x : float64) : Z := Qfloor (F2Q (F64.mul x c255)).

Lemma pfin_c255 : pfin c255 (255 # 1).
Proof. exact (of_int_exact 255 ltac:(lia)). Qed.

Lemma Qfloor_range (v : Q) (a b : Z) :
  (inject_Z a <= v)%Q -> (v <= inject_Z b)%Q -> a <= Qfloor v <= b.
Proof.
  intros Ha Hb. split.
  - rewrite <- (Qfloor_Z a). now apply Qfloor_resp_le.
  - rewrite <- (Qfloor_Z b). now apply Qfloor_resp_le.
Qed.

Section Fractions.
Variable ParseFloat : gostring -> float64.
Variable indef8 : float64 -> Z.

(** The conversion to [uint8] of 255 times a fraction is defined by the
    language: it is the integer part of the rounded product. The product is
    rounded once, so the part is that of the exact product or one more. *)
Lemma uint8_level (x : float64) :
  fraction x ->
  uint8_of_f64 indef8 (F64.mul x c255) = level x /\
  0 <= level x <= 255 /\
  Qfloor ((255 # 1) * F2Q x) <= level x <= Qfloor ((255 # 1) * F2Q x) + 1.
Proof.
  intros (Hv & H0 & H1). unfold level.
  destruct x as [s|[]| |[] m e]; try discriminate.
  - destruct s; (split; [reflexivity|]); split; vm_compute; split; congruence.
  - assert (Hx : pfin (S754_finite false m e) (Fval (Zpos m) e)).
    { exists m, e. split; [reflexivity|]. split; [exact Hv | reflexivity]. }
    pose proof (pfin_pos _ _ Hx) as Hpos.
    pose proof (leb_pfin _ _ _ _ Hx pfin_c1 H1) as Hle.
    pose proof (pfin_F2Q _ _ Hx) as HF. rewrite (Qfloor_comp _ _
      (Qmult_comp _ _ (Qeq_refl (255 # 1)) _ _ HF)).
    generalize dependent (Fval (Zpos m) e). intros vx Hx Hpos Hle _.
    pose proof (mul_pfin _ _ _ _ Hx pfin_c255) as HR.
    assert (Hc : (vx * (255 # 1) == (255 # 1) * vx)%Q) by ring.
    set (n := Qfloor ((255 # 1) * vx)).
    pose proof (Qfloor_le ((255 # 1) * vx)) as Hn1.
    pose proof (Qlt_floor ((255 # 1) * vx)) as Hn2. fold n in Hn1, Hn2.
    assert (Hn : 0 <= n <= 255).
    { apply Qfloor_range; [change (inject_Z 0) with 0%Q
                          | change (inject_Z 255) with (255 # 1)%Q]; lra. }
    destruct (int_bounded (n + 1) ltac:(lia)) as (mb & eb & Hb & Hvb).
    destruct (R_upper _ _ _ _ _ HR mb eb Hb) as [Hfin Hup].
    { rewrite Hvb, Hc. lra. }
    rewrite Hvb in Hup.
    assert (Hlo : (inject_Z n <= mag (F64.mul (S754_finite false m e) c255))%Q).
    { destruct (Z.eq_dec n 0) as [Hn0|Hn0].
      - rewrite Hn0. change (inject_Z 0) with 0%Q.
        destruct (R64_cases _ _ HR) as [Hz|[[v Hp]|Hi]].
        + rewrite Hz. apply Qle_refl.
        + rewrite (pfin_mag _ _ Hp). pose proof (pfin_pos _ _ Hp). lra.
        + rewrite Hi in Hfin. discriminate.
      - destruct (int_bounded n ltac:(lia)) as (ma & ea & Ha & Hva).
        rewrite <- Hva. apply (R_lower _ _ _ _ _ HR ma ea (bounded_canonical _ _ Ha));
          [|exact Hfin].
        rewrite Hva, Hc. exact Hn1. }
    assert (Hup255 : (mag (F64.mul (S754_finite false m e) c255) <= 255 # 1)%Q).
    { destruct pfin_c255 as (m5 & e5 & _ & Hb5 & Hv5).
      destruct (R_upper _ _ _ _ _ HR m5 e5 Hb5) as [_ H5]; [rewrite Hv5; nra|].
      now rewrite Hv5 in H5. }
    destruct (R64_cases _ _ HR) as [Hz|[[v Hp]|Hi]].
    + rewrite Hz in *. simpl in Hlo.
      assert (n = 0).
      { change 0%Q with (inject_Z 0) in Hlo. rewrite <- Zle_Qle in Hlo. lia. }
      subst n. split; [reflexivity|]. change (Qfloor (F2Q (S754_zero false))) with 0.
      rewrite H. lia.
    + rewrite (pfin_mag _ _ Hp) in Hlo, Hup, Hup255.
      pose proof (pfin_F2Q _ _ Hp) as HFp. pose proof (pfin_pos _ _ Hp) as Hvpos.
      destruct Hp as (mp & ep & Ep & Hbp & Hvp). rewrite Ep in *.
      rewrite (Qfloor_comp _ _ HFp).
      assert (Hr : n <= Qfloor v <= n + 1) by (now apply Qfloor_range).
      assert (Hr5 : 0 <= Qfloor v <= 255).
      { apply Qfloor_range; [change (inject_Z 0) with 0%Q; lra|].
        change (inject_Z 255) with (255 # 1)%Q. exact Hup255. }
      split; [|lia].
      unfold uint8_of_f64. rewrite trunc_float_floor, (Qfloor_comp _ _ HFp).
      destruct (Z.leb_spec 0 (Qfloor v)); [|lia].
      destruct (Z.leb_spec (Qfloor v) 255); [reflexivity | lia].
    + rewrite Hi in Hfin. discriminate.
Qed.

(** X22: a colour written as three fractions between 0 and 1 is opaque,
    and each component is the integer part of 255 times the fraction, or
    one more when the float64 product rounds up to a whole number; it is
    never above 255. *)
Theorem parseColor_fractions (s p0 p1 p2 : gostring) :
  HasPrefix s "#"%string = false -> Split s ","%char = [p0; p1; p2] ->
  fraction (ParseFloat p0) -> fraction (ParseFloat p1) -> fraction (ParseFloat p2) ->
  parseColor ParseFloat indef8 s
  = Done (mkRGBA (level (ParseFloat p0)) (level (ParseFloat p1))
                 (level (ParseFloat p2)) 255) /\
  Forall (fun x => 0 <= level x <= 255 /\
                   Qfloor ((255 # 1) * F2Q x) <= level x
                   <= Qfloor ((255 # 1) * F2Q x) + 1)
         [ParseFloat p0; ParseFloat p1; ParseFloat p2].
Proof.
  intros Hp Hs H0 H1 H2. unfold parseColor. rewrite Hp, Hs. simpl.
  destruct (uint8_level _ H0) as (-> & A0).
  destruct (uint8_level _ H1) as (-> & A1).
  destruct (uint8_level _ H2) as (-> & A2).
  split; [reflexivity|]. repeat constructor; tauto.
Qed.

(** X23: a colour that does not start with [#] is read when it has exactly
    two commas, whatever stands between them; with any other number of
    commas the program ends with the message of the two forms. *)
Theorem parseColor_three_parts (s : gostring) :
  HasPrefix s "#"%string = false ->
  if (commas s =? 2)%nat
  then exists r g b, parseColor ParseFloat indef8 s = Done (mkRGBA r g b 255)
  else parseColor ParseFloat indef8 s
       = Fatal "Color must be in format 0.xx,0.xx,0.xx or #RRGGBB"%string.
Proof.
  intros Hp. unfold parseColor. rewrite Hp.
  pose proof (Split_length s) as Hl.
  destruct (Nat.eqb_spec (commas s) 2) as [E|E].
  - rewrite E in Hl.
    destruct (Split s ","%char) as [|p0 [|p1 [|p2 [|]]]]; try discriminate Hl.
    simpl. eexists _, _, _. reflexivity.
  - destruct (Nat.eqb_spec (length (Split s ","%char)) 3) as [E3|E3]; [|reflexivity].
    rewrite E3 in Hl. congruence.
Qed.
End Fractions.

(** A reading of decimal fractions for the examples: the strings "1",
    "0.5" and "0" have their values, every other string reads as 0 (what
    [strconv.ParseFloat] returns with a syntax error). *)
Definition read_fraction (p : gostring) : float64 :=
  if String.eqb p "1" then c1
  else if String.eqb p "0.5" then c0_5
  else F64.zero.

Lemma parseColor_fractions_witness :
  parseColor read_fraction (fun _ => 0) "1,0.5,0"%string = Done (mkRGBA 255 127 0 255).
Proof.
  refine (proj1 (parseColor_fractions read_fraction (fun _ => 0) "1,0.5,0"%string
                   "1"%string "0.5"%string "0"%string eq_refl eq_refl _ _ _));
    repeat split; reflexivity.
Defined.

Lemma parseColor_three_parts_witness :
  parseColor read_fraction (fun _ => 0) "1,0.5"%string
  = Fatal "Color must be in format 0.xx,0.xx,0.xx or #RRGGBB"%string.
Proof.
  exact (parseColor_three_parts read_fraction (fun _ => 0) "1,0.5"%string eq_refl).
Defined.

(** ** The name of the output file *)

(** Every byte of the string is a letter, a digit or an underscore. *)
Definition all_word (s : gostring) : bool :=
  forallb word_class (String.list_ascii_of_string s).

(** What is left of a string after its leading bytes that are no word
    bytes. *)
Fixpoint skip_run (t : gostring) : gostring :=
  match t with
  | String.EmptyString => String.EmptyString
  | String.String c t' => if word_class c then t else skip_run t'
  end.

Lemma rests_Alt (r1 r2 : regex) (s : gostring) :
  rests (Alt r1 r2) s = rests r1 s ++ rests r2 s.
Proof. reflexivity. Qed.

Lemma rests_Chr (c d : Ascii.ascii) (t : gostring) :
  rests (Chr c) (String.String d t) = if Ascii.eqb c d then [t] else [].
Proof. reflexivity. Qed.

Lemma rests_plus_cons (p : Ascii.ascii -> bool) (c : Ascii.ascii) (t : gostring) :
  rests (Plus (OneOf p)) (String.String c t) =
  if p c then rests (Plus (OneOf p)) t ++ [t] else [].
Proof. simpl. destruct (p c); simpl; [now rewrite app_nil_r | reflexivity]. Qed.

Lemma rests_plus_first (t : gostring) (l : list gostring) :
  exists l', rests (Plus (OneOf (fun c => negb (word_class c)))) t ++ t :: l
             = skip_run t :: l'.
Proof.
  revert l. induction t as [|c t IH]; intros l.
  - exists l. reflexivity.
  - rewrite rests_plus_cons. simpl skip_run. destruct (word_class c); simpl negb; cbv iota.
    + exists l. reflexivity.
    + rewrite <- app_assoc. apply IH.
Qed.

Lemma word_class_no_separator (c : Ascii.ascii) :
  word_class c = true ->
  Ascii.eqb " "%char c = false /\ Ascii.eqb "-"%char c = false /\
  Ascii.eqb "."%char c = false.
Proof.
  destruct c as [[] [] [] [] [] [] [] []]; intros H; vm_compute in H |- *;
    try discriminate H; auto.
Qed.

Lemma rests_safe_name_word (c : Ascii.ascii) (t : gostring) :
  word_class c = true -> rests safe_name_re (String.String c t) = [].
Proof.
  intros H. destruct (word_class_no_separator c H) as (H1 & H2 & H3).
  unfold safe_name_re. rewrite !rests_Alt, rests_plus_cons, !rests_Chr, H, H1, H2, H3.
  reflexivity.
Qed.

Lemma rests_safe_name_other (c : Ascii.ascii) (t : gostring) :
  word_class c = false ->
  exists l, rests safe_name_re (String.String c t) = skip_run t :: l.
Proof.
  intros H. unfold safe_name_re. rewrite rests_Alt, rests_plus_cons, H. simpl negb.
  cbv iota.
  rewrite <- app_assoc. apply rests_plus_first.
Qed.

Lemma skip_run_length (t : gostring) :
  (String.length (skip_run t) <= String.length t)%nat.
Proof.
  induction t as [|c t IH]; simpl; [lia|]. destruct (word_class c); simpl; lia.
Qed.

Lemma ReplaceAll_steps_word (steps : nat) (s : gostring) :
  (String.length s <= steps)%nat ->
  all_word (ReplaceAll_steps steps safe_name_re s "_"%string) = true.
Proof.
  revert s. induction steps as [|steps IH]; intros s Hs.
  - destruct s; [reflexivity | simpl in Hs; lia].
  - destruct s as [|c t]; [reflexivity|]. simpl in Hs.
    cbn [ReplaceAll_steps]. destruct (word_class c) eqn:E.
    + rewrite (rests_safe_name_word c t E).
      unfold all_word. simpl. rewrite E. apply IH. lia.
    + destruct (rests_safe_name_other c t E) as (l & ->).
      change (all_word (ReplaceAll_steps steps safe_name_re (skip_run t) "_"%string) = true).
      apply IH. pose proof (skip_run_length t). lia.
Qed.

(** X24: the safe name that [main] derives from the name of the audio file
    holds only letters, digits and underscores, whatever the file is
    called. *)
Theorem safeName_word_bytes (nameWithoutExt : gostring) :
  all_word (safeName nameWithoutExt) = true.
Proof. apply ReplaceAll_steps_word. lia. Qed.

Lemma ReplaceAll_steps_keeps (steps : nat) (s : gostring) :
  all_word s = true -> ReplaceAll_steps steps safe_name_re s "_"%string = s.
Proof.
  revert s. induction steps as [|steps IH]; intros s Hs; [reflexivity|].
  destruct s as [|c t]; [reflexivity|].
  unfold all_word in Hs. simpl in Hs. apply andb_true_iff in Hs. destruct Hs as [Hc Ht].
  cbn [ReplaceAll_steps]. rewrite (rests_safe_name_word c t Hc). f_equal. now apply IH.
Qed.

(** X25: a name made of letters, digits and underscores only is its own
    safe name. *)
Theorem safeName_keeps_words (nameWithoutExt : gostring) :
  all_word nameWithoutExt = true -> safeName nameWithoutExt = nameWithoutExt.
Proof. apply ReplaceAll_steps_keeps. Qed.

Lemma safeName_keeps_words_witness : safeName "track_01"%string = "track_01"%string.
Proof. apply (safeName_keeps_words "track_01"%string). reflexivity. Defined.
